(** * Algorithm visualizer: recorders and playback

    A shallow embedding of the sorting, pathfinding and graph-traversal
    visualizers.  JavaScript numbers that index arrays are integers ([Z]);
    bar values are the integers [generateArray] produces.  A computation
    that can throw (reading a property of [undefined]) lives in [option],
    where [None] is the thrown [TypeError]; loops and recursive helpers whose
    termination is not structural carry a fuel argument and also answer
    [None] when it runs out, and each recorder fixes its own fuel. *)

From Stdlib Require Import ZArith Lia.
From stdpp Require Import base option list sorting gmap.

(** ** JavaScript arrays *)

Module Js.
Section Arrays.
Context {A : Type}.

  (** [a[i]] on an array whose static type has no [undefined] slot: the
      recorders read [.value] of the result, which throws out of range. *)
Definition get (a : list A) (i : Z) : option A :=
    if decide (0 ≤ i)%Z then a !! Z.to_nat i else None.

  (** [a[i] = x] inside the array.  Outside it JavaScript would grow the
      array; the typed recorders never get there and the embedding stops. *)
Definition set (a : list A) (i : Z) (x : A) : option (list A) :=
    if decide (0 ≤ i < Z.of_nat (length a))%Z
    then Some (<[Z.to_nat i := x]> a) else None.

  (** [Array.prototype.slice] with its relative (negative) indices. *)
Definition rel_index (len i : Z) : Z :=
    if decide (i < 0)%Z then Z.max (len + i) 0 else Z.min i len.

Definition slice (a : list A) (from to : Z) : list A :=
    let len := Z.of_nat (length a) in
    let k := rel_index len from in
    let fin := rel_index len to in
    take (Z.to_nat (fin - k)) (drop (Z.to_nat k) a).

  (** [temp = a[i]; a[i] = a[j]; a[j] = temp] *)
Definition swap (a : list A) (i j : Z) : option (list A) :=
    temp ← get a i;
    x ← get a j;
    a1 ← set a i x;
    set a1 j temp.
End Arrays.
End Js.

(** ** Loops *)

Section Loops.
Context {S : Type}.

Fixpoint for_count (n : nat) (j : Z) (body : Z → S → option S) (s : S)
      : option S :=
    match n with
    | O => Some s
    | Datatypes.S n' => s' ← body j s; for_count n' (j + 1)%Z body s'
    end.

  (** [for (let j = lo; j < hi; j++) body] *)
Definition for_range (lo hi : Z) (body : Z → S → option S) (s : S)
      : option S :=
    for_count (Z.to_nat (hi - lo)) lo body s.

  (** [while (cond) body], with fuel. *)
Fixpoint while (fuel : nat) (cond : S → option bool) (body : S → option S)
      (s : S) : option S :=
    match fuel with
    | O => None
    | Datatypes.S f =>
        c ← cond s;
        if c : bool then s' ← body s; while f cond body s' else Some s
    end.
End Loops.

(** A filter that every element passes. *)
Lemma filter_all {A} (P : A → Prop) `{∀ x, Decision (P x)} (l : list A) :
  Forall P l → filter P l = l.
Proof.
  induction 1 as [|x l Hx _ IH]; [done|].
  by rewrite filter_cons, decide_True, IH.
Qed.

(** ** Sorting visualizer: data *)

Module Sorting.

Inductive BarState := st_default | st_comparing | st_sorted | st_pivot.

Record ArrayBar := { value : Z; state : BarState }.

(** The objects pushed on [animations]; [indices] holds two indices for
    compare, swap and reset and one for sorted. *)
Inductive Animation :=
| a_compare (i j : Z)
| a_swap (i j : Z)
| a_reset (i j : Z)
| a_sorted (i : Z)
| a_pivot (index : Z)
| a_reset_pivot (index : Z)
| a_overwrite (index : Z) (v : Z).

#[global] Instance BarState_eq_dec : EqDecision BarState.
Proof. solve_decision. Defined.
#[global] Instance ArrayBar_eq_dec : EqDecision ArrayBar.
Proof. solve_decision. Defined.
#[global] Instance Animation_eq_dec : EqDecision Animation.
Proof. solve_decision. Defined.

(** The recorder's working state: [arrayCopy] and [animations]. *)
Record Rec := { arr : list ArrayBar; anims : list Animation }.

Definition push (a : Animation) (r : Rec) : Rec :=
  {| arr := arr r; anims := anims r ++ [a] |}.

Definition with_arr (a : list ArrayBar) (r : Rec) : Rec :=
  {| arr := a; anims := anims r |}.

Local Open Scope Z_scope.

(** ** Bubble sort *)

Definition bubble_inner (j : Z) (r : Rec) : option Rec :=
  let r := push (a_compare j (j + 1)) r in
  x ← Js.get (arr r) j;
  y ← Js.get (arr r) (j + 1);
  r ← (if decide (value x > value y)
       then a ← Js.swap (arr r) j (j + 1);
            Some (with_arr a (push (a_swap j (j + 1)) r))
       else Some r);
  Some (push (a_reset j (j + 1)) r).

Definition bubble_outer (n : Z) (i : Z) (r : Rec) : option Rec :=
  r ← for_range 0 (n - i - 1) bubble_inner r;
  Some (push (a_sorted (n - i - 1)) r).

Definition bubbleSort (array : list ArrayBar) : option Rec :=
  let arrayCopy := array in
  let n := Z.of_nat (length arrayCopy) in
  for_range 0 n (bubble_outer n) {| arr := arrayCopy; anims := [] |}.

(** ** Merge sort *)

Record MergeSt := {
  m_rec : Rec;
  m_i : Z;
  m_j : Z;
  m_k : Z
}.

Section Merge.
Variables (left right : list ArrayBar) (start mid : Z).

Definition merge_cond1 (s : MergeSt) : option bool :=
    Some (bool_decide (m_i s < Z.of_nat (length left))
          && bool_decide (m_j s < Z.of_nat (length right))).

Definition merge_body1 (s : MergeSt) : option MergeSt :=
    let '{| m_rec := r; m_i := i; m_j := j; m_k := k |} := s in
    let r := push (a_compare (start + i) (mid + 1 + j)) r in
    l ← Js.get left i;
    x ← Js.get right j;
    s ← (if decide (value l <= value x)
         then let r := push (a_overwrite k (value l)) r in
              a ← Js.set (arr r) k l;
              Some {| m_rec := with_arr a r; m_i := i + 1; m_j := j;
                      m_k := k + 1 |}
         else let r := push (a_overwrite k (value x)) r in
              a ← Js.set (arr r) k x;
              Some {| m_rec := with_arr a r; m_i := i; m_j := j + 1;
                      m_k := k + 1 |});
    Some {| m_rec := push (a_reset (start + m_i s - 1) (mid + 1 + m_j s - 1))
                          (m_rec s);
            m_i := m_i s; m_j := m_j s; m_k := m_k s |}.

Definition merge_cond2 (s : MergeSt) : option bool :=
    Some (bool_decide (m_i s < Z.of_nat (length left))).

Definition merge_body2 (s : MergeSt) : option MergeSt :=
    let '{| m_rec := r; m_i := i; m_j := j; m_k := k |} := s in
    l ← Js.get left i;
    let r := push (a_overwrite k (value l)) r in
    a ← Js.set (arr r) k l;
    Some {| m_rec := with_arr a r; m_i := i + 1; m_j := j; m_k := k + 1 |}.

Definition merge_cond3 (s : MergeSt) : option bool :=
    Some (bool_decide (m_j s < Z.of_nat (length right))).

Definition merge_body3 (s : MergeSt) : option MergeSt :=
    let '{| m_rec := r; m_i := i; m_j := j; m_k := k |} := s in
    x ← Js.get right j;
    let r := push (a_overwrite k (value x)) r in
    a ← Js.set (arr r) k x;
    Some {| m_rec := with_arr a r; m_i := i; m_j := j + 1; m_k := k + 1 |}.
End Merge.

Definition merge (r : Rec) (start mid end_ : Z) : option Rec :=
  let left := Js.slice (arr r) start (mid + 1) in
  let right := Js.slice (arr r) (mid + 1) (end_ + 1) in
  let fuel := S (length left + length right) in
  let s := {| m_rec := r; m_i := 0; m_j := 0; m_k := start |} in
  s ← while fuel (merge_cond1 left right) (merge_body1 left right start mid) s;
  s ← while fuel (merge_cond2 left) (merge_body2 left) s;
  s ← while fuel (merge_cond3 right) (merge_body3 right) s;
  Some (m_rec s).

Fixpoint mergeSortHelper (fuel : nat) (r : Rec) (start end_ : Z)
    : option Rec :=
  match fuel with
  | O => None
  | S f =>
      if decide (start >= end_) then Some r
      else
        let mid := (start + end_) `div` 2 in
        r ← mergeSortHelper f r start mid;
        r ← mergeSortHelper f r (mid + 1) end_;
        merge r start mid end_
  end.

Definition mark_sorted (i : Z) (r : Rec) : option Rec :=
  Some (push (a_sorted i) r).

Definition mergeSort (array : list ArrayBar) : option Rec :=
  let arrayCopy := array in
  let n := Z.of_nat (length arrayCopy) in
  r ← mergeSortHelper (S (length arrayCopy))
        {| arr := arrayCopy; anims := [] |} 0 (n - 1);
  for_range 0 n mark_sorted r.

(** ** Quick sort *)

Definition partition_body (high pivotValue : Z) (j : Z) (s : Rec * Z)
    : option (Rec * Z) :=
  let '(r, i) := s in
  let r := push (a_compare j high) r in
  x ← Js.get (arr r) j;
  s ← (if decide (value x < pivotValue)
       then let i := i + 1 in
            let r := push (a_swap i j) r in
            a ← Js.swap (arr r) i j;
            Some (with_arr a r, i)
       else Some (r, i));
  Some (push (a_reset j high) (fst s), snd s).

Definition partition (r : Rec) (low high : Z) : option (Rec * Z) :=
  p ← Js.get (arr r) high;
  let pivotValue := value p in
  let r := push (a_pivot high) r in
  let i := low - 1 in
  '(r, i) ← for_range low high (partition_body high pivotValue) (r, i);
  let r := push (a_swap (i + 1) high) r in
  a ← Js.swap (arr r) (i + 1) high;
  let r := with_arr a r in
  let r := push (a_sorted (i + 1)) r in
  let r := push (a_reset_pivot high) r in
  Some (r, i + 1).

Fixpoint quickSortHelper (fuel : nat) (r : Rec) (low high : Z)
    : option Rec :=
  match fuel with
  | O => None
  | S f =>
      if decide (low < high) then
        '(r, pivotIndex) ← partition r low high;
        r ← quickSortHelper f r low (pivotIndex - 1);
        quickSortHelper f r (pivotIndex + 1) high
      else if decide (low = high) then Some (push (a_sorted low) r)
      else Some r
  end.

Definition quickSort (array : list ArrayBar) : option Rec :=
  let arrayCopy := array in
  let n := Z.of_nat (length arrayCopy) in
  r ← quickSortHelper (S (length arrayCopy))
        {| arr := arrayCopy; anims := [] |} 0 (n - 1);
  for_range 0 n mark_sorted r.

(** ** Insertion sort *)

Definition insertion_cond (key : Z) (s : Rec * Z) : option bool :=
  let '(r, j) := s in
  if decide (j >= 0)
  then x ← Js.get (arr r) j; Some (bool_decide (value x > key))
  else Some false.

Definition insertion_shift (i : Z) (s : Rec * Z) : option (Rec * Z) :=
  let '(r, j) := s in
  let r := push (a_swap j (j + 1)) r in
  x ← Js.get (arr r) j;
  a ← Js.set (arr r) (j + 1) x;
  let r := with_arr a r in
  let j := j - 1 in
  let r := if decide (j >= 0) then push (a_compare i j) r else r in
  Some (r, j).

Definition insertion_outer (i : Z) (r : Rec) : option Rec :=
  x ← Js.get (arr r) i;
  let key := value x in
  let j := i - 1 in
  let r := push (a_compare i j) r in
  '(r, j) ← while (S (Z.to_nat i)) (insertion_cond key) (insertion_shift i)
              (r, j);
  a ← Js.set (arr r) (j + 1) {| value := key; state := st_default |};
  let r := with_arr a r in
  let r := push (a_reset i (Z.max 0 j)) r in
  Some (push (a_sorted (j + 1)) r).

Definition insertionSort (array : list ArrayBar) : option Rec :=
  let arrayCopy := array in
  let n := Z.of_nat (length arrayCopy) in
  for_range 1 n insertion_outer
    {| arr := arrayCopy; anims := [a_sorted 0] |}.

Definition bars (l : list Z) : list ArrayBar :=
  (λ v, {| value := v; state := st_default |}) <$> l.

Inductive SortAlgorithm := BubbleSort | MergeSort | QuickSort | InsertionSort.

(** The [switch (algorithm)] of [startSorting]; an unknown name runs
    bubble sort, so the four constructors cover every branch. *)
Definition recorder (algorithm : SortAlgorithm) (array : list ArrayBar)
    : option Rec :=
  match algorithm with
  | BubbleSort => bubbleSort array
  | MergeSort => mergeSort array
  | QuickSort => quickSort array
  | InsertionSort => insertionSort array
  end.

(** ** The visual array and the apply function of [animateSort]

    The [array] state is typed [ArrayBar[]], but the updater indexes it
    with whatever the event carries: a slot can come out [undefined], or as
    the object [{state}] that spreading [undefined] gives. *)

Inductive Slot :=
| undefined
| bar (b : ArrayBar)
| stateonly (s : BarState).

#[global] Instance Slot_eq_dec : EqDecision Slot.
Proof. solve_decision. Defined.

(** [a[i]] *)
Definition vget (a : list Slot) (i : Z) : Slot :=
  if decide (0 ≤ i) then default undefined (a !! Z.to_nat i) else undefined.

(** [a[i] = x]: in range it replaces, past the end it grows the array, and
    a negative index only sets a property that the next spread drops. *)
Definition vset (a : list Slot) (i : Z) (x : Slot) : list Slot :=
  if decide (i < 0) then a
  else if decide (i < Z.of_nat (length a)) then <[Z.to_nat i := x]> a
  else a ++ replicate (Z.to_nat i - length a)%nat undefined ++ [x].

(** [{ ...x, state: s }] *)
Definition set_state (x : Slot) (s : BarState) : Slot :=
  match x with
  | undefined => stateonly s
  | bar b => bar {| value := value b; state := s |}
  | stateonly _ => stateonly s
  end.

(** [x.state], a [TypeError] on [undefined]. *)
Definition slot_state (x : Slot) : option BarState :=
  match x with
  | undefined => None
  | bar b => Some (state b)
  | stateonly s => Some s
  end.

Definition slot_value (x : Slot) : option Z :=
  match x with
  | bar b => Some (value b)
  | _ => None
  end.

Definition reset_one (a : list Slot) (index : Z) : option (list Slot) :=
  s ← slot_state (vget a index);
  if decide (s = st_comparing)
  then Some (vset a index (set_state (vget a index) st_default))
  else Some a.

Definition applyAnimation (newArray : list Slot) (animation : Animation)
    : option (list Slot) :=
  match animation with
  | a_compare i j =>
      let a := vset newArray i (set_state (vget newArray i) st_comparing) in
      Some (vset a j (set_state (vget a j) st_comparing))
  | a_swap i j =>
      let temp := vget newArray i in
      let a := vset newArray i (vget newArray j) in
      Some (vset a j temp)
  | a_reset i j =>
      a ← reset_one newArray i;
      reset_one a j
  | a_sorted i =>
      Some (vset newArray i (set_state (vget newArray i) st_sorted))
  | a_pivot index =>
      Some (vset newArray index (set_state (vget newArray index) st_pivot))
  | a_reset_pivot index =>
      s ← slot_state (vget newArray index);
      if decide (s = st_pivot)
      then Some (vset newArray index
                   (set_state (vget newArray index) st_default))
      else Some newArray
  | a_overwrite index v =>
      Some (vset newArray index
              (bar {| value := v; state := st_comparing |}))
  end.

(** Replaying a whole event sequence, in order. *)
Definition replay (animations : list Animation) (a : list Slot)
    : option (list Slot) :=
  foldl (λ acc ev, a ← acc; applyAnimation a ev) (Some a) animations.

Definition moves_value (ev : Animation) : bool :=
  match ev with
  | a_swap _ _ | a_overwrite _ _ => true
  | _ => false
  end.

(** Replaying only the swap and overwrite events. *)
Definition replay_moves (animations : list Animation) (a : list Slot)
    : option (list Slot) :=
  replay (filter (λ ev, moves_value ev = true) animations) a.

Definition visual (array : list ArrayBar) : list Slot := bar <$> array.


(** An array that kept its type, as the recorders read it. *)
Definition typed_slot (x : Slot) : option ArrayBar :=
  match x with
  | bar b => Some b
  | _ => None
  end.

Definition typed (a : list Slot) : option (list ArrayBar) :=
  mapM typed_slot a.

(** ** Sorting visualizer: playback

    The component's state ([array], [isSorting], [isSorted]), its two refs,
    and the callbacks the browser holds for it.  A pending callback is the
    closure of one [animateSort] call: its event list, its cursor [i], and
    the [isSorting] that the render which created it had in scope. *)

Record Session := {
  s_animations : list Animation;
  s_i : nat;
  s_isSorting : bool;
  s_animationSpeed : Z
}.

Record World := {
  array : list Slot;
  isSorting : bool;
  isSorted : bool;
  animationTimeoutRef : option nat;
  animationFrameIdRef : option nat;
  timeouts : list (nat * Session);
  frames : list (nat * Session);
  next_handle : nat;
  toasts : nat;
  applied : list Animation
}.

Definition advance (s : Session) : Session :=
  {| s_animations := s_animations s; s_i := S (s_i s);
     s_isSorting := s_isSorting s; s_animationSpeed := s_animationSpeed s |}.

(** [animate]: the guard on the captured [isSorting], the completion
    branch, and otherwise one applied event and one scheduled timeout.
    [applied] is a ghost log of the events the updater has applied. *)
Definition animate (s : Session) (w : World) : option World :=
  if negb (s_isSorting s) then Some w
  else if decide (s_i s = length (s_animations s)) then
    Some {| array := array w; isSorting := false; isSorted := true;
            animationTimeoutRef := animationTimeoutRef w;
            animationFrameIdRef := animationFrameIdRef w;
            timeouts := timeouts w; frames := frames w;
            next_handle := next_handle w; toasts := S (toasts w);
            applied := applied w |}
  else
    animation ← s_animations s !! s_i s;
    a ← applyAnimation (array w) animation;
    let handle := next_handle w in
    Some {| array := a; isSorting := isSorting w; isSorted := isSorted w;
            animationTimeoutRef := Some handle;
            animationFrameIdRef := animationFrameIdRef w;
            timeouts := timeouts w ++ [(handle, advance s)];
            frames := frames w;
            next_handle := S handle; toasts := toasts w;
            applied := applied w ++ [animation] |}.

Definition animateSort (captured_isSorting : bool) (speed : Z)
    (animations : list Animation) (w : World) : option World :=
  if decide (length animations = 0%nat) then Some w
  else animate {| s_animations := animations; s_i := 0;
                  s_isSorting := captured_isSorting;
                  s_animationSpeed := 101 - speed |} w.

Definition set_isSorting (b : bool) (w : World) : World :=
  {| array := array w; isSorting := b; isSorted := isSorted w;
     animationTimeoutRef := animationTimeoutRef w;
     animationFrameIdRef := animationFrameIdRef w;
     timeouts := timeouts w; frames := frames w;
     next_handle := next_handle w; toasts := toasts w;
     applied := applied w |}.

(** [startSorting], called by a render whose [isSorting] was
    [captured_isSorting]: the recorder runs on the render's [array]. *)
Definition startSorting (captured_isSorting : bool)
    (algorithm : SortAlgorithm) (speed : Z) (w : World) : option World :=
  let w' := set_isSorting true w in
  a ← typed (array w);
  r ← recorder algorithm a;
  animateSort captured_isSorting speed (anims r) w'.

Definition drop_handle (h : option nat) (l : list (nat * Session))
    : list (nat * Session) :=
  match h with
  | Some h => filter (λ p, p.1 ≠ h) l
  | None => l
  end.

(** [clearTimeout] and [cancelAnimationFrame] on the two refs, as the
    effect's cleanup does (the refs keep their values). *)
Definition effectCleanup (w : World) : World :=
  {| array := array w; isSorting := isSorting w; isSorted := isSorted w;
     animationTimeoutRef := animationTimeoutRef w;
     animationFrameIdRef := animationFrameIdRef w;
     timeouts := drop_handle (animationTimeoutRef w) (timeouts w);
     frames := drop_handle (animationFrameIdRef w) (frames w);
     next_handle := next_handle w; toasts := toasts w;
     applied := applied w |}.

Definition pauseSorting (w : World) : World :=
  {| array := array w; isSorting := false; isSorted := isSorted w;
     animationTimeoutRef := None;
     animationFrameIdRef := None;
     timeouts := drop_handle (animationTimeoutRef w) (timeouts w);
     frames := drop_handle (animationFrameIdRef w) (frames w);
     next_handle := next_handle w; toasts := toasts w;
     applied := applied w |}.

(** The effect on [isPlaying, isSorting, isSorted]: the cleanup of the
    previous run of the effect, then its body in the current render. *)
Definition playEffect (algorithm : SortAlgorithm) (speed : Z)
    (isPlaying : bool) (w : World) : option World :=
  let w := effectCleanup w in
  if isPlaying && negb (isSorting w) && negb (isSorted w)
  then startSorting (isSorting w) algorithm speed w
  else if negb isPlaying && isSorting w then Some (pauseSorting w)
  else Some w.

(** A timeout fires: [animationFrameIdRef.current =
    requestAnimationFrame(animate)]. *)
Definition fire_timeout (w : World) : option World :=
  match timeouts w with
  | [] => Some w
  | (_, s) :: rest =>
      let handle := next_handle w in
      Some {| array := array w; isSorting := isSorting w;
              isSorted := isSorted w;
              animationTimeoutRef := animationTimeoutRef w;
              animationFrameIdRef := Some handle;
              timeouts := rest; frames := frames w ++ [(handle, s)];
              next_handle := S handle; toasts := toasts w;
              applied := applied w |}
  end.

(** An animation frame runs [animate]. *)
Definition fire_frame (w : World) : option World :=
  match frames w with
  | [] => Some w
  | (_, s) :: rest =>
      animate s
        {| array := array w; isSorting := isSorting w;
           isSorted := isSorted w;
           animationTimeoutRef := animationTimeoutRef w;
           animationFrameIdRef := animationFrameIdRef w;
           timeouts := timeouts w; frames := rest;
           next_handle := next_handle w; toasts := toasts w;
           applied := applied w |}
  end.

(** One interval passes: the pending timeout, then the frame it asked for. *)
Definition tick (w : World) : option World :=
  w ← fire_timeout w; fire_frame w.

Fixpoint ticks (n : nat) (w : World) : option World :=
  match n with
  | O => Some w
  | S n => w ← tick w; ticks n w
  end.

(** The component after mount, showing [a], nothing running. *)
Definition mounted (a : list ArrayBar) : World :=
  {| array := visual a; isSorting := false; isSorted := false;
     animationTimeoutRef := None; animationFrameIdRef := None;
     timeouts := []; frames := []; next_handle := 1; toasts := 0;
     applied := [] |}.

End Sorting.

(** ** A stable sort

    [Array.prototype.sort] is stable, and a comparator whose result is
    [NaN] counts as 0; with a comparator that is a strict weak order the
    result is the one stable arrangement, which insertion gives. *)

Section StableSort.
Context {A : Type} (lt : A → A → bool).

Fixpoint insert_sorted (x : A) (l : list A) : list A :=
  match l with
  | [] => [x]
  | y :: l' => if lt y x then y :: insert_sorted x l' else x :: l
  end.

Definition stable_sort (l : list A) : list A := foldr insert_sorted [] l.
End StableSort.

(** ** Pathfinding visualizer *)

Module Pathfinding.

Inductive CellType := Empty | Wall | Start | End_ | Visited | Path | Current.

(** [distance]: a step count or [Number.POSITIVE_INFINITY]. *)
Inductive Distance := Finite (d : nat) | Infinity.

Record Cell := {
  row : nat;
  col : nat;
  type : CellType;
  distance : Distance;
  isVisited : bool;
  previousNode : option (nat * nat);
  f : nat;
  g : nat;
  h : nat
}.

#[global] Instance CellType_eq_dec : EqDecision CellType.
Proof. solve_decision. Defined.
#[global] Instance Distance_eq_dec : EqDecision Distance.
Proof. solve_decision. Defined.
#[global] Instance Cell_eq_dec : EqDecision Cell.
Proof. solve_decision. Defined.

(** The grid is the store of the cell objects: a cell object is referred
    to by the place [(r, c)] where [grid[r][c]] holds it, and a write to a
    field of the object is a write to the grid. *)
Abbreviation Grid := (list (list Cell)).
Abbreviation Ref := (nat * nat)%type.

Definition cell (grid : Grid) (p : Ref) : option Cell :=
  r ← grid !! p.1; r !! p.2.

Definition update (grid : Grid) (p : Ref) (upd : Cell → Cell) : Grid :=
  match grid !! p.1 with
  | Some r =>
      match r !! p.2 with
      | Some c => <[p.1 := <[p.2 := upd c]> r]> grid
      | None => grid
      end
  | None => grid
  end.

Definition set_type (t : CellType) (c : Cell) : Cell :=
  {| row := row c; col := col c; type := t; distance := distance c;
     isVisited := isVisited c; previousNode := previousNode c;
     f := f c; g := g c; h := h c |}.

Definition set_distance (d : Distance) (c : Cell) : Cell :=
  {| row := row c; col := col c; type := type c; distance := d;
     isVisited := isVisited c; previousNode := previousNode c;
     f := f c; g := g c; h := h c |}.

Definition set_isVisited (b : bool) (c : Cell) : Cell :=
  {| row := row c; col := col c; type := type c; distance := distance c;
     isVisited := b; previousNode := previousNode c;
     f := f c; g := g c; h := h c |}.

Definition set_previousNode (p : option (nat * nat)) (c : Cell) : Cell :=
  {| row := row c; col := col c; type := type c; distance := distance c;
     isVisited := isVisited c; previousNode := p;
     f := f c; g := g c; h := h c |}.

Definition set_scores (f' g' h' : nat) (c : Cell) : Cell :=
  {| row := row c; col := col c; type := type c; distance := distance c;
     isVisited := isVisited c; previousNode := previousNode c;
     f := f'; g := g'; h := h' |}.

Definition createNode (startNode endNode : nat * nat) (row col : nat) : Cell :=
  {| row := row; col := col;
     type := if decide (row = startNode.1 ∧ col = startNode.2) then Start
             else if decide (row = endNode.1 ∧ col = endNode.2) then End_
             else Empty;
     distance := Infinity; isVisited := false; previousNode := None;
     f := 0; g := 0; h := 0 |}.

Definition initializeGrid (startNode endNode : nat * nat) : Grid :=
  let rows := 20%nat in
  let cols := 50%nat in
  (λ row, (λ col, createNode startNode endNode row col) <$> seq 0 cols)
    <$> seq 0 rows.

(** [toggleWall]: [grid[row][col]] must be a cell, or reading its [type]
    throws. *)
Definition toggleWall (grid : Grid) (row col : nat) : option Grid :=
  node ← cell grid (row, col);
  if decide (type node ≠ Start ∧ type node ≠ End_)
  then Some (update grid (row, col)
               (set_type (if decide (type node = Wall) then Empty else Wall)))
  else Some grid.

(** ** The two recorders *)

Definition getAllNodes (grid : Grid) : list Ref :=
  mjoin (imap (λ r cells, imap (λ c _, (r, c)) cells) grid).

Definition distance_lt (a b : Distance) : bool :=
  match a, b with
  | Finite x, Finite y => bool_decide (x < y)%nat
  | Finite _, Infinity => true
  | Infinity, _ => false
  end.

(** A reference in these lists always resolves; the defaults are never
    read. *)
Definition distance_of (grid : Grid) (p : Ref) : Distance :=
  from_option distance Infinity (cell grid p).

Definition f_of (grid : Grid) (p : Ref) : nat :=
  from_option f 0%nat (cell grid p).

Definition sortNodesByDistance (grid : Grid) (unvisitedNodes : list Ref)
    : list Ref :=
  stable_sort (λ a b, distance_lt (distance_of grid a) (distance_of grid b))
    unvisitedNodes.

Definition sortNodesByF (grid : Grid) (nodes : list Ref) : list Ref :=
  stable_sort (λ a b, bool_decide (f_of grid a < f_of grid b)%nat) nodes.

(** [getNeighbors]: the four pushes, then the filter, whose read of
    [isVisited] throws on a missing cell. *)
Definition getNeighbors (node : Cell) (grid : Grid) : option (list Ref) :=
  let row := row node in
  let col := col node in
  let above := if decide (0 < row)%nat then [(row - 1, col)%nat] else [] in
  let below :=
    if decide (row + 1 < length grid)%nat then [(row + 1, col)%nat] else [] in
  let before := if decide (0 < col)%nat then [(row, col - 1)%nat] else [] in
  row0 ← grid !! 0%nat;
  let after :=
    if decide (col + 1 < length row0)%nat then [(row, col + 1)%nat] else [] in
  let neighbors := above ++ below ++ before ++ after in
  cells ← mapM (λ p, c ← cell grid p; Some (p, c)) neighbors;
  Some ((filter (λ pc, isVisited pc.2 = false) cells).*1).

Definition succ_distance (d : Distance) : Distance :=
  match d with
  | Finite n => Finite (S n)
  | Infinity => Infinity
  end.

Definition updateUnvisitedNeighbors (node : Cell) (grid : Grid)
    : option Grid :=
  neighbors ← getNeighbors node grid;
  Some (foldl (λ grid neighbor,
                 update grid neighbor
                   (λ c, set_previousNode (Some (row node, col node))
                           (set_distance (succ_distance (distance node)) c)))
              grid neighbors).

Fixpoint dijkstra_loop (fuel : nat) (grid : Grid) (endNode : Cell)
    (unvisitedNodes visitedNodesInOrder : list Ref)
    : option (list Ref * Grid) :=
  match fuel with
  | O => None
  | S fuel =>
      match unvisitedNodes with
      | [] => Some (visitedNodesInOrder, grid)
      | _ =>
          match sortNodesByDistance grid unvisitedNodes with
          | [] => Some (visitedNodesInOrder, grid)
          | closest :: unvisitedNodes =>
              closestNode ← cell grid closest;
              if decide (type closestNode = Wall)
              then dijkstra_loop fuel grid endNode unvisitedNodes
                     visitedNodesInOrder
              else if decide (distance closestNode = Infinity)
              then Some (visitedNodesInOrder, grid)
              else
                let grid := update grid closest (set_isVisited true) in
                let visitedNodesInOrder := visitedNodesInOrder ++ [closest] in
                if decide (row closestNode = row endNode
                           ∧ col closestNode = col endNode)
                then Some (visitedNodesInOrder, grid)
                else
                  grid ← updateUnvisitedNeighbors closestNode grid;
                  dijkstra_loop fuel grid endNode unvisitedNodes
                    visitedNodesInOrder
          end
      end
  end.

(** [dijkstra(grid, startNode, endNode)], the two nodes given by reference.
    It answers the visit order and the grid as the run leaves it. *)
Definition dijkstra (grid : Grid) (startNode endNode : Ref)
    : option (list Ref * Grid) :=
  _ ← cell grid startNode;
  endNodeObj ← cell grid endNode;
  let grid := update grid startNode (set_distance (Finite 0)) in
  let unvisitedNodes := getAllNodes grid in
  dijkstra_loop (S (length unvisitedNodes)) grid endNodeObj unvisitedNodes [].

Definition abs_diff (a b : nat) : nat := ((a - b) + (b - a))%nat.

Definition heuristic (a b : Cell) : nat :=
  (abs_diff (row a) (row b) + abs_diff (col a) (col b))%nat.

(** One neighbor of the [for] loop of [aStar]. *)
Definition aStar_neighbor (current endNode : Cell) (s : Grid * list Ref)
    (neighbor : Ref) : option (Grid * list Ref) :=
  let '(grid, openSet) := s in
  n ← cell grid neighbor;
  if decide (isVisited n = true ∨ type n = Wall) then Some s
  else
    let tentativeG := (g current + 1)%nat in
    if decide (g n = 0 ∨ tentativeG < g n)%nat then
      let h' := heuristic n endNode in
      let grid :=
        update grid neighbor
          (λ c, set_scores (tentativeG + h') tentativeG h'
                  (set_previousNode (Some (row current, col current)) c)) in
      if existsb (λ p, match cell grid p with
                       | Some node =>
                           bool_decide (row node = row n ∧ col node = col n)
                       | None => false
                       end) openSet
      then Some (grid, openSet)
      else Some (grid, openSet ++ [neighbor])
    else Some s.

Fixpoint aStar_loop (fuel : nat) (grid : Grid) (endNode : Cell)
    (openSet visitedNodesInOrder : list Ref) : option (list Ref * Grid) :=
  match fuel with
  | O => None
  | S fuel =>
      match sortNodesByF grid openSet with
      | [] => Some (visitedNodesInOrder, grid)
      | current :: openSet =>
          currentNode ← cell grid current;
          if decide (type currentNode = Wall)
          then aStar_loop fuel grid endNode openSet visitedNodesInOrder
          else
            let grid := update grid current (set_isVisited true) in
            let visitedNodesInOrder := visitedNodesInOrder ++ [current] in
            if decide (row currentNode = row endNode
                       ∧ col currentNode = col endNode)
            then Some (visitedNodesInOrder, grid)
            else
              neighbors ← getNeighbors currentNode grid;
              '(grid, openSet) ←
                foldl (λ acc neighbor,
                         s ← acc; aStar_neighbor currentNode endNode s neighbor)
                      (Some (grid, openSet)) neighbors;
              aStar_loop fuel grid endNode openSet visitedNodesInOrder
      end
  end.

Definition aStar (grid : Grid) (startNode endNode : Ref)
    : option (list Ref * Grid) :=
  startNodeObj ← cell grid startNode;
  endNodeObj ← cell grid endNode;
  let h' := heuristic startNodeObj endNodeObj in
  let grid := update grid startNode (set_scores h' 0 h') in
  aStar_loop (S (S (length (getAllNodes grid)))) grid endNodeObj
    [startNode] [].

(** [getNodesInShortestPathOrder]: the walk over [previousNode], which
    stops at a cell without one, or at a place the row holds no cell for. *)
Fixpoint shortestPath_loop (fuel : nat) (grid : Grid) (currentNode : Ref)
    (nodesInShortestPathOrder : list Ref) : option (list Ref) :=
  match fuel with
  | O => None
  | S fuel =>
      let nodesInShortestPathOrder := currentNode :: nodesInShortestPathOrder in
      c ← cell grid currentNode;
      match previousNode c with
      | None => Some nodesInShortestPathOrder
      | Some p =>
          r ← grid !! p.1;
          match r !! p.2 with
          | None => Some nodesInShortestPathOrder
          | Some _ =>
              shortestPath_loop fuel grid p nodesInShortestPathOrder
          end
      end
  end.

Definition getNodesInShortestPathOrder (grid : Grid) (finishNode : Ref)
    : option (list Ref) :=
  shortestPath_loop (S (length (getAllNodes grid))) grid finishNode [].

Inductive Algorithm := Dijkstra | AStar.

(** ** Pathfinding visualizer: playback

    Every [setTimeout] of [animateAlgorithm] and [animateShortestPath] is a
    pending callback here; [animationTimeoutRef] holds the handle stored
    last.  The callbacks read [row] and [col] of the cell objects of the
    run, so they carry the coordinates. *)

Inductive Callback :=
| cb_visit (row col : nat)
| cb_shortestPath (nodesInShortestPathOrder : list (nat * nat))
| cb_path (row col : nat) (last : bool).

Record Timeout := {
  handle : nat;
  delay : Z;
  callback : Callback
}.

Record World := {
  grid : Grid;
  startNode : nat * nat;
  endNode : nat * nat;
  isVisualizing : bool;
  isPathFound : bool;
  animationTimeoutRef : option nat;
  timeouts : list Timeout;
  next_handle : nat;
  toasts : nat
}.

Definition with_grid (gr : Grid) (w : World) : World :=
  {| grid := gr; startNode := startNode w; endNode := endNode w;
     isVisualizing := isVisualizing w; isPathFound := isPathFound w;
     animationTimeoutRef := animationTimeoutRef w; timeouts := timeouts w;
     next_handle := next_handle w; toasts := toasts w |}.

Definition with_flags (visualizing found : bool) (w : World) : World :=
  {| grid := grid w; startNode := startNode w; endNode := endNode w;
     isVisualizing := visualizing; isPathFound := found;
     animationTimeoutRef := animationTimeoutRef w; timeouts := timeouts w;
     next_handle := next_handle w; toasts := toasts w |}.

(** [animationTimeoutRef.current = setTimeout(cb, delay)] *)
Definition setTimeout_ref (cb : Callback) (delay : Z) (w : World) : World :=
  {| grid := grid w; startNode := startNode w; endNode := endNode w;
     isVisualizing := isVisualizing w; isPathFound := isPathFound w;
     animationTimeoutRef := Some (next_handle w);
     timeouts := timeouts w ++ [{| handle := next_handle w; delay := delay;
                                   callback := cb |}];
     next_handle := S (next_handle w); toasts := toasts w |}.

(** [if (ref.current) { clearTimeout(ref.current); ref.current = null }] *)
Definition clear_ref (w : World) : World :=
  {| grid := grid w; startNode := startNode w; endNode := endNode w;
     isVisualizing := isVisualizing w; isPathFound := isPathFound w;
     animationTimeoutRef := None;
     timeouts := match animationTimeoutRef w with
                 | Some h0 => filter (λ t, handle t ≠ h0) (timeouts w)
                 | None => timeouts w
                 end;
     next_handle := next_handle w; toasts := toasts w |}.

(** The [for] loop of [animateAlgorithm], from [i] on. *)
Fixpoint animateAlgorithm_from (animationSpeed : Z) (i : Z)
    (visitedNodesInOrder nodesInShortestPathOrder : list (nat * nat))
    (w : World) : World :=
  match visitedNodesInOrder with
  | [] =>
      setTimeout_ref (cb_shortestPath nodesInShortestPathOrder)
        (animationSpeed * i) w
  | node :: rest =>
      animateAlgorithm_from animationSpeed (i + 1) rest
        nodesInShortestPathOrder
        (setTimeout_ref (cb_visit node.1 node.2) (animationSpeed * i) w)
  end.

Definition animateAlgorithm (speed : Z)
    (visitedNodesInOrder nodesInShortestPathOrder : list (nat * nat))
    (w : World) : World :=
  animateAlgorithm_from (101 - speed) 0 visitedNodesInOrder
    nodesInShortestPathOrder w.

Fixpoint animateShortestPath_from (animationSpeed : Z) (i : Z)
    (nodesInShortestPathOrder : list (nat * nat)) (w : World) : World :=
  match nodesInShortestPathOrder with
  | [] => w
  | node :: rest =>
      animateShortestPath_from animationSpeed (i + 1) rest
        (setTimeout_ref (cb_path node.1 node.2 (bool_decide (rest = [])))
           (animationSpeed * i) w)
  end.

Definition animateShortestPath (speed : Z)
    (nodesInShortestPathOrder : list (nat * nat)) (w : World) : World :=
  animateShortestPath_from (101 - speed) 0 nodesInShortestPathOrder w.

(** The updater of both phases: start and end keep their type. *)
Definition mark (t : CellType) (gr : Grid) (row col : nat) : option Grid :=
  c ← cell gr (row, col);
  Some (update gr (row, col)
          (set_type (if decide (type c = Start ∨ type c = End_)
                     then type c else t))).

Definition run_callback (speed : Z) (cb : Callback) (w : World)
    : option World :=
  match cb with
  | cb_visit row col =>
      gr ← mark Visited (grid w) row col; Some (with_grid gr w)
  | cb_shortestPath nodes => Some (animateShortestPath speed nodes w)
  | cb_path row col last =>
      gr ← mark Path (grid w) row col;
      let w := with_grid gr w in
      if last then
        Some {| grid := grid w; startNode := startNode w;
                endNode := endNode w;
                isVisualizing := false; isPathFound := true;
                animationTimeoutRef := animationTimeoutRef w;
                timeouts := timeouts w; next_handle := next_handle w;
                toasts := S (toasts w) |}
      else Some w
  end.

(** The pending timeout that is due first fires: delays grow along the
    list, so it is the head. *)
Definition fire (speed : Z) (w : World) : option World :=
  match timeouts w with
  | [] => Some w
  | t :: rest =>
      run_callback speed (callback t)
        {| grid := grid w; startNode := startNode w; endNode := endNode w;
           isVisualizing := isVisualizing w; isPathFound := isPathFound w;
           animationTimeoutRef := animationTimeoutRef w; timeouts := rest;
           next_handle := next_handle w; toasts := toasts w |}
  end.

Fixpoint fires (n : nat) (speed : Z) (w : World) : option World :=
  match n with
  | O => Some w
  | S n => w ← fire speed w; fires n speed w
  end.

Definition coordinates (gr : Grid) (nodes : list Ref) : list (nat * nat) :=
  omap (λ p, c ← cell gr p; Some (row c, col c)) nodes.

Definition visualizeAlgorithm (algorithm : Algorithm) (speed : Z)
    (w : World) : option World :=
  let w := with_flags true (isPathFound w) w in
  '(visitedNodesInOrder, gr) ←
    match algorithm with
    | Dijkstra => dijkstra (grid w) (startNode w) (endNode w)
    | AStar => aStar (grid w) (startNode w) (endNode w)
    end;
  nodesInShortestPathOrder ← getNodesInShortestPathOrder gr (endNode w);
  Some (animateAlgorithm speed (coordinates gr visitedNodesInOrder)
          (coordinates gr nodesInShortestPathOrder) (with_grid gr w)).

Definition stopVisualization (w : World) : World :=
  clear_ref (with_flags false (isPathFound w) w).

Definition resetGrid (w : World) : World :=
  let w := clear_ref w in
  with_flags false false
    (with_grid (initializeGrid (startNode w) (endNode w)) w).

(** The cleanup of the play effect clears the handle in the ref and leaves
    the ref as it is. *)
Definition effectCleanup (w : World) : World :=
  {| grid := grid w; startNode := startNode w; endNode := endNode w;
     isVisualizing := isVisualizing w; isPathFound := isPathFound w;
     animationTimeoutRef := animationTimeoutRef w;
     timeouts := timeouts (clear_ref w);
     next_handle := next_handle w; toasts := toasts w |}.

Definition playEffect (algorithm : Algorithm) (speed : Z) (isPlaying : bool)
    (w : World) : option World :=
  let w := effectCleanup w in
  if isPlaying && negb (isVisualizing w) && negb (isPathFound w)
  then visualizeAlgorithm algorithm speed w
  else if negb isPlaying && isVisualizing w then Some (stopVisualization w)
  else Some w.

(** The component after mount, with the default start and end. *)
Definition mounted : World :=
  {| grid := initializeGrid (10, 15)%nat (10, 35)%nat;
     startNode := (10, 15)%nat; endNode := (10, 35)%nat;
     isVisualizing := false; isPathFound := false;
     animationTimeoutRef := None; timeouts := []; next_handle := 1;
     toasts := 0 |}.

(** ** Pathfinding visualizer: the mouse

    [moveStartNode]: the cell at the old start turns empty, then the cell
    under the mouse turns start unless it is the end cell; the second
    read sees the first write.  Reading a row that is not there throws,
    and so does reading [type] of a cell that is not there; a write of the
    old start cell past the end of its row would leave an object of
    [type] alone there, which is no [Cell], and counts as a failure
    too. *)
Definition moveStartNode (grid : Grid) (startNode : Ref) (row col : nat)
    : option Grid :=
  _ ← cell grid startNode;
  let grid := update grid startNode (set_type Empty) in
  target ← cell grid (row, col);
  if decide (type target ≠ End_)
  then Some (update grid (row, col) (set_type Start))
  else Some grid.

Definition moveEndNode (grid : Grid) (endNode : Ref) (row col : nat)
    : option Grid :=
  _ ← cell grid endNode;
  let grid := update grid endNode (set_type Empty) in
  target ← cell grid (row, col);
  if decide (type target ≠ Start)
  then Some (update grid (row, col) (set_type End_))
  else Some grid.

(** The three flags of the mouse. *)
Record Mouse := {
  mouseIsPressed : bool;
  isMovingStart : bool;
  isMovingEnd : bool
}.

Definition with_start (p : Ref) (w : World) : World :=
  {| grid := grid w; startNode := p; endNode := endNode w;
     isVisualizing := isVisualizing w; isPathFound := isPathFound w;
     animationTimeoutRef := animationTimeoutRef w; timeouts := timeouts w;
     next_handle := next_handle w; toasts := toasts w |}.

Definition with_end (p : Ref) (w : World) : World :=
  {| grid := grid w; startNode := startNode w; endNode := p;
     isVisualizing := isVisualizing w; isPathFound := isPathFound w;
     animationTimeoutRef := animationTimeoutRef w; timeouts := timeouts w;
     next_handle := next_handle w; toasts := toasts w |}.

Definition handleMouseDown (row col : nat) (s : World * Mouse)
    : option (World * Mouse) :=
  let '(w, m) := s in
  if isVisualizing w then Some s
  else
    node ← cell (grid w) (row, col);
    if decide (type node = Start)
    then Some (w, {| mouseIsPressed := true; isMovingStart := true;
                     isMovingEnd := isMovingEnd m |})
    else if decide (type node = End_)
    then Some (w, {| mouseIsPressed := true;
                     isMovingStart := isMovingStart m;
                     isMovingEnd := true |})
    else
      gr ← toggleWall (grid w) row col;
      Some (with_grid gr w,
            {| mouseIsPressed := true; isMovingStart := isMovingStart m;
               isMovingEnd := isMovingEnd m |}).

Definition handleMouseEnter (row col : nat) (s : World * Mouse)
    : option (World * Mouse) :=
  let '(w, m) := s in
  if negb (mouseIsPressed m) || isVisualizing w then Some s
  else if isMovingStart m then
    gr ← moveStartNode (grid w) (startNode w) row col;
    Some (with_start (row, col) (with_grid gr w), m)
  else if isMovingEnd m then
    gr ← moveEndNode (grid w) (endNode w) row col;
    Some (with_end (row, col) (with_grid gr w), m)
  else
    gr ← toggleWall (grid w) row col;
    Some (with_grid gr w, m).

Definition handleMouseUp (s : World * Mouse) : World * Mouse :=
  (s.1, {| mouseIsPressed := false; isMovingStart := false;
           isMovingEnd := false |}).

End Pathfinding.

(** ** Graph traversal visualizer *)

Module GraphTraversal.

Inductive NodeState := ns_default | ns_visited | ns_current | ns_queued.

(** A node of the graph; its canvas position [x], [y] plays no part in the
    traversals and is left out. *)
Record Node := {
  id : nat;
  connections : list nat;
  state : NodeState
}.

#[global] Instance NodeState_eq_dec : EqDecision NodeState.
Proof. solve_decision. Defined.
#[global] Instance Node_eq_dec : EqDecision Node.
Proof. solve_decision. Defined.

(** [nodes.find((n) => n.id === nodeId)] *)
Definition find_node (nodes : list Node) (nodeId : nat) : option Node :=
  snd <$> list_find (λ n, id n = nodeId) nodes.

(** [nodes.findIndex((n) => n.id === nodeId)] *)
Definition findIndex (nodes : list Node) (nodeId : nat) : option nat :=
  fst <$> list_find (λ n, id n = nodeId) nodes.

(** [visited] is a [boolean[]] indexed by node id: a set of ids. *)
Definition bfs_neighbor (s : gset nat * list nat) (neighborId : nat)
    : gset nat * list nat :=
  let '(visited, queue) := s in
  if decide (neighborId ∈ visited) then s
  else ({[neighborId]} ∪ visited, queue ++ [neighborId]).

Fixpoint bfs_loop (fuel : nat) (nodes : list Node) (visited : gset nat)
    (queue visitOrder : list nat) : option (list nat) :=
  match fuel with
  | O => None
  | S fuel =>
      match queue with
      | [] => Some visitOrder
      | nodeId :: queue =>
          let visitOrder := visitOrder ++ [nodeId] in
          match find_node nodes nodeId with
          | None => bfs_loop fuel nodes visited queue visitOrder
          | Some node =>
              let '(visited, queue) :=
                foldl bfs_neighbor (visited, queue) (connections node) in
              bfs_loop fuel nodes visited queue visitOrder
          end
      end
  end.

(** Every id that can enter the queue is the start or someone's
    connection, and enters once. *)
Definition traversal_fuel (nodes : list Node) : nat :=
  S (S (length (mjoin (connections <$> nodes)))).

(** The visit order [runBFS] hands to [animateTraversal]. *)
Definition bfs_order (nodes : list Node) (startNode : nat)
    : option (list nat) :=
  bfs_loop (traversal_fuel nodes) nodes {[startNode]} [startNode] [].

Fixpoint dfs (fuel : nat) (nodes : list Node) (nodeId : nat)
    (s : gset nat * list nat) : option (gset nat * list nat) :=
  match fuel with
  | O => None
  | S fuel =>
      let '(visited, visitOrder) := s in
      let s := ({[nodeId]} ∪ visited, visitOrder ++ [nodeId]) in
      match find_node nodes nodeId with
      | None => Some s
      | Some node =>
          foldl (λ acc neighborId,
                   s ← acc;
                   if decide (neighborId ∈ s.1) then Some s
                   else dfs fuel nodes neighborId s)
                (Some s) (connections node)
      end
  end.

(** The visit order [runDFS] hands to [animateTraversal]. *)
Definition dfs_order (nodes : list Node) (startNode : nat)
    : option (list nat) :=
  snd <$> dfs (traversal_fuel nodes) nodes startNode (∅, []).

Inductive Algorithm := BFS | DFS.

(** [runBFS] and [runDFS] return at once when no start node is set. *)
Inductive Run :=
| NoStart
| Failed
| Order (visitOrder : list nat).

Definition run (algorithm : Algorithm) (nodes : list Node)
    (startNode : option nat) : Run :=
  match startNode with
  | None => NoStart
  | Some s =>
      match (match algorithm with
             | BFS => bfs_order nodes s
             | DFS => dfs_order nodes s
             end) with
      | Some o => Order o
      | None => Failed
      end
  end.

(** ** Graph traversal: playback *)

Inductive Callback :=
| cb_step (visitOrder : list nat) (i : nat)
| cb_complete.

Record Timeout := {
  handle : nat;
  delay : Z;
  callback : Callback
}.

Record World := {
  nodes : list Node;
  startNode : option nat;
  isVisualizing : bool;
  isComplete : bool;
  animationTimeoutRef : option nat;
  timeouts : list Timeout;
  next_handle : nat;
  toasts : nat
}.

Definition with_nodes (ns : list Node) (w : World) : World :=
  {| nodes := ns; startNode := startNode w;
     isVisualizing := isVisualizing w; isComplete := isComplete w;
     animationTimeoutRef := animationTimeoutRef w; timeouts := timeouts w;
     next_handle := next_handle w; toasts := toasts w |}.

Definition with_flags (visualizing complete : bool) (w : World) : World :=
  {| nodes := nodes w; startNode := startNode w;
     isVisualizing := visualizing; isComplete := complete;
     animationTimeoutRef := animationTimeoutRef w; timeouts := timeouts w;
     next_handle := next_handle w; toasts := toasts w |}.

(** [setTimeout(cb, delay)], the handle stored in the ref or dropped. *)
Definition setTimeout (tracked : bool) (cb : Callback) (delay : Z)
    (w : World) : World :=
  {| nodes := nodes w; startNode := startNode w;
     isVisualizing := isVisualizing w; isComplete := isComplete w;
     animationTimeoutRef :=
       if tracked then Some (next_handle w) else animationTimeoutRef w;
     timeouts := timeouts w ++ [{| handle := next_handle w; delay := delay;
                                   callback := cb |}];
     next_handle := S (next_handle w); toasts := toasts w |}.

Definition clear_ref (w : World) : World :=
  {| nodes := nodes w; startNode := startNode w;
     isVisualizing := isVisualizing w; isComplete := isComplete w;
     animationTimeoutRef := None;
     timeouts := match animationTimeoutRef w with
                 | Some h0 => filter (λ t, handle t ≠ h0) (timeouts w)
                 | None => timeouts w
                 end;
     next_handle := next_handle w; toasts := toasts w |}.

Definition set_state (s : NodeState) (n : Node) : Node :=
  {| id := id n; connections := connections n; state := s |}.

Definition animateTraversal (speed : Z) (visitOrder : list nat) (w : World)
    : World :=
  let animationSpeed := (101 - speed)%Z in
  foldl (λ w i, setTimeout true (cb_step visitOrder i)
                  (animationSpeed * Z.of_nat i * 2)%Z w)
        w (seq 0 (length visitOrder)).

(** The updater of one step: the previous node turns visited, the node of
    the step current, and under BFS its default neighbors queued; reading
    the connections of a node that is not there throws. *)
Definition step_nodes (algorithm : Algorithm) (visitOrder : list nat)
    (i : nat) (newNodes : list Node) : option (list Node) :=
  nodeId ← visitOrder !! i;
  let newNodes :=
    match i with
    | O => newNodes
    | S i' =>
        match visitOrder !! i' ≫= findIndex newNodes with
        | Some k => alter (set_state ns_visited) k newNodes
        | None => newNodes
        end
    end in
  let currentNodeIndex := findIndex newNodes nodeId in
  let newNodes :=
    match currentNodeIndex with
    | Some k => alter (set_state ns_current) k newNodes
    | None => newNodes
    end in
  match algorithm with
  | DFS => Some newNodes
  | BFS =>
      k ← currentNodeIndex;
      currentNode ← newNodes !! k;
      Some (foldl (λ ns neighborId,
                     match findIndex ns neighborId with
                     | Some k' =>
                         match ns !! k' with
                         | Some n =>
                             if decide (state n = ns_default)
                             then alter (set_state ns_queued) k' ns
                             else ns
                         | None => ns
                         end
                     | None => ns
                     end)
                  newNodes (connections currentNode))
  end.

Definition run_callback (algorithm : Algorithm) (speed : Z) (cb : Callback)
    (w : World) : option World :=
  match cb with
  | cb_step visitOrder i =>
      ns ← step_nodes algorithm visitOrder i (nodes w);
      let w := with_nodes ns w in
      if decide (S i = length visitOrder)
      then Some (setTimeout false cb_complete (101 - speed)%Z w)
      else Some w
  | cb_complete =>
      let ns := (λ n, if decide (state n = ns_current)
                      then set_state ns_visited n else n) <$> nodes w in
      let w := with_flags false true (with_nodes ns w) in
      Some {| nodes := nodes w; startNode := startNode w;
              isVisualizing := isVisualizing w; isComplete := isComplete w;
              animationTimeoutRef := animationTimeoutRef w;
              timeouts := timeouts w; next_handle := next_handle w;
              toasts := S (toasts w) |}
  end.

Definition fire (algorithm : Algorithm) (speed : Z) (w : World)
    : option World :=
  match timeouts w with
  | [] => Some w
  | t :: rest =>
      run_callback algorithm speed (callback t)
        {| nodes := nodes w; startNode := startNode w;
           isVisualizing := isVisualizing w; isComplete := isComplete w;
           animationTimeoutRef := animationTimeoutRef w; timeouts := rest;
           next_handle := next_handle w; toasts := toasts w |}
  end.

Fixpoint fires (n : nat) (algorithm : Algorithm) (speed : Z) (w : World)
    : option World :=
  match n with
  | O => Some w
  | S n => w ← fire algorithm speed w; fires n algorithm speed w
  end.

Definition visualizeAlgorithm (algorithm : Algorithm) (speed : Z)
    (w : World) : option World :=
  match startNode w with
  | None => Some w
  | Some s =>
      let w := with_flags true false w in
      let ns := (λ n, set_state (if decide (id n = s) then ns_current
                                 else ns_default) n) <$> nodes w in
      match run algorithm (nodes w) (Some s) with
      | Order visitOrder =>
          Some (animateTraversal speed visitOrder (with_nodes ns w))
      | _ => None
      end
  end.

Definition resetGraph (w : World) : World :=
  let w := clear_ref w in
  with_flags false false (with_nodes (set_state ns_default <$> nodes w) w).

Definition stopVisualization (w : World) : World :=
  clear_ref (with_flags false (isComplete w) w).

(** The cleanup of the play effect clears the handle in the ref and leaves
    the ref as it is. *)
Definition effectCleanup (w : World) : World :=
  {| nodes := nodes w; startNode := startNode w;
     isVisualizing := isVisualizing w; isComplete := isComplete w;
     animationTimeoutRef := animationTimeoutRef w;
     timeouts := timeouts (clear_ref w);
     next_handle := next_handle w; toasts := toasts w |}.

(** The effect on [isPlaying, isVisualizing, isComplete, startNode]: the
    cleanup of its previous run, then its body; without a start node play
    only asks for one. *)
Definition playEffect (algorithm : Algorithm) (speed : Z) (isPlaying : bool)
    (w : World) : option World :=
  let w := effectCleanup w in
  if isPlaying && negb (isVisualizing w) && negb (isComplete w)
  then match startNode w with
       | Some _ => visualizeAlgorithm algorithm speed w
       | None =>
           Some {| nodes := nodes w; startNode := startNode w;
                   isVisualizing := isVisualizing w;
                   isComplete := isComplete w;
                   animationTimeoutRef := animationTimeoutRef w;
                   timeouts := timeouts w; next_handle := next_handle w;
                   toasts := S (toasts w) |}
       end
  else if negb isPlaying && isVisualizing w then Some (stopVisualization w)
  else Some w.

End GraphTraversal.

(** * Properties *)

(** ** Playback of a sorting run *)

Module SortingPlayback.
Import Sorting.
Local Open Scope Z_scope.

(** Nothing is pending. *)
Definition idle (w : World) : Prop := timeouts w = [] ∧ frames w = [].

(** The reading of "an empty dataset completes at once". *)
Definition completes_on_empty (algorithm : SortAlgorithm) (speed : Z)
    : Prop :=
  ∃ r w,
    recorder algorithm [] = Some r ∧ anims r = [] ∧
    playEffect algorithm speed true (mounted []) = Some w ∧
    isSorted w = true ∧ toasts w = 1%nat ∧ applied w = [].

Lemma ticks_idle n w : idle w → ticks n w = Some w.
Proof.
  intros [Ht Hf]. induction n as [|n IH]; [done|].
  simpl. unfold tick, fire_timeout. rewrite Ht. simpl.
  unfold fire_frame. rewrite Hf. simpl. exact IH.
Qed.

Lemma animateSort_nil c speed w : animateSort c speed [] w = Some w.
Proof. reflexivity. Qed.

(** The closure that the play effect starts has [isSorting = false] in
    scope, so its [animate] returns at the guard: nothing is applied and
    nothing is scheduled. *)
Lemma animate_stale s w : s_isSorting s = false → animate s w = Some w.
Proof. intros H. unfold animate. by rewrite H. Qed.

Lemma playEffect_start algorithm speed a r w :
  idle w → isSorting w = false → isSorted w = false →
  typed (array w) = Some a → recorder algorithm a = Some r →
  playEffect algorithm speed true w = Some (set_isSorting true w).
Proof.
  intros [Ht Hf] Hs Hd Ha Hr. unfold playEffect.
  assert (effectCleanup w = w) as ->.
  { destruct w; simpl in *; subst.
    unfold effectCleanup; simpl. by destruct animationTimeoutRef0,
      animationFrameIdRef0. }
  rewrite Hs, Hd. simpl. unfold startSorting. rewrite Ha. simpl.
  rewrite Hr. simpl. unfold animateSort.
  destruct (decide _); [done|]. by apply animate_stale.
Qed.

(** C6, as stated, fails: on the empty array bubble sort records nothing,
    and the run is then neither marked sorted nor announced. *)
Lemma empty_dataset_counterexample : ¬ completes_on_empty BubbleSort 50.
Proof.
  intros (r & w & _ & _ & Hp & Hs & _).
  vm_compute in Hp. injection Hp as <-. discriminate Hs.
Qed.

(** Insertion sort records an event even for the empty array. *)
Example insertionSort_empty :
  anims <$> insertionSort [] = Some [a_sorted 0].
Proof. reflexivity. Qed.

(** C6, amended: on the empty array bubble, merge and quick sort record
    no event; [animateSort] returns at its guard on an empty sequence,
    whatever the world, so no event is applied, the run is not marked
    sorted and nothing is announced; the play effect leaves the mounted
    component with only [isSorting] set. *)
Theorem empty_dataset_returns_at_guard :
  anims <$> bubbleSort [] = Some [] ∧
  anims <$> mergeSort [] = Some [] ∧
  anims <$> quickSort [] = Some [] ∧
  (∀ c speed w, animateSort c speed [] w = Some w) ∧
  (∀ speed,
     let w := set_isSorting true (mounted []) in
     playEffect BubbleSort speed true (mounted []) = Some w ∧
     playEffect MergeSort speed true (mounted []) = Some w ∧
     playEffect QuickSort speed true (mounted []) = Some w ∧
     isSorted w = false ∧ toasts w = 0%nat ∧ applied w = [] ∧ idle w).
Proof.
  split_and!; try reflexivity.
  intros speed w. split_and!; try reflexivity.
  split; reflexivity.
Qed.

(** C7 on the code: replaying the full recording of merge sort on [2; 1]
    throws at its third event, a reset of index -1, so no array comes out
    of the replay; and the full recording of insertion sort on the empty
    array leaves an array of one slot, an object without value. *)
Theorem full_replay_breaks :
  anims <$> mergeSort (bars [2; 1])
    = Some [a_compare 0 1; a_overwrite 0 1; a_reset (-1) 1;
            a_overwrite 1 2; a_sorted 0; a_sorted 1] ∧
  (r ← mergeSort (bars [2; 1]); replay (anims r) (visual (bars [2; 1])))
    = None ∧
  (r ← insertionSort (bars []); replay (anims r) (visual (bars [])))
    = Some [stateonly st_sorted].
Proof. split_and!; vm_compute; reflexivity. Qed.

End SortingPlayback.

(** ** The grid as a store *)

Module GridStore.
Import Pathfinding.

Lemma cell_update gr p q upd :
  cell (update gr p upd) q
  = if decide (p = q) then upd <$> cell gr q else cell gr q.
Proof.
  destruct p as [pr pc], q as [qr qc]. unfold cell, update. simpl.
  destruct (gr !! pr) as [r|] eqn:Hr.
  - destruct (r !! pc) as [c|] eqn:Hc.
    + destruct (decide (pr = qr)) as [->|Hne].
      * rewrite list_lookup_insert_eq by (by eapply lookup_lt_Some).
        simpl. rewrite Hr. simpl.
        destruct (decide (pc = qc)) as [->|Hne].
        -- rewrite list_lookup_insert_eq by (by eapply lookup_lt_Some).
           rewrite Hc. by rewrite decide_True.
        -- rewrite list_lookup_insert_ne by done.
           rewrite decide_False by congruence. done.
      * rewrite list_lookup_insert_ne by done.
        rewrite decide_False by congruence. done.
    + case_decide as Heq; [|done]. injection Heq as <- <-.
      rewrite Hr. simpl. by rewrite Hc.
  - case_decide as Heq; [|done]. injection Heq as <- <-. by rewrite Hr.
Qed.

Lemma cell_update_eq gr p upd c :
  cell gr p = Some c → cell (update gr p upd) p = Some (upd c).
Proof. intros H. rewrite cell_update, decide_True by done. by rewrite H. Qed.

Lemma cell_update_ne gr p q upd :
  p ≠ q → cell (update gr p upd) q = cell gr q.
Proof. intros H. by rewrite cell_update, decide_False. Qed.

Lemma update_length gr p upd : length (update gr p upd) = length gr.
Proof.
  unfold update. repeat case_match; try done. by rewrite length_insert.
Qed.

Lemma update_row_length gr p upd r :
  length <$> update gr p upd !! r = length <$> gr !! r.
Proof.
  unfold update. destruct (gr !! p.1) as [x|] eqn:Hx; [|done].
  destruct (x !! p.2) as [c|] eqn:Hc; [|done].
  destruct (decide (p.1 = r)) as [<-|Hne].
  - rewrite list_lookup_insert_eq by (by eapply lookup_lt_Some).
    rewrite Hx. simpl. by rewrite length_insert.
  - by rewrite list_lookup_insert_ne.
Qed.

Lemma update_miss gr p upd : cell gr p = None → update gr p upd = gr.
Proof.
  unfold cell, update. destruct (gr !! p.1) as [r|]; simpl; [|done].
  by intros ->.
Qed.

(** What no write of the recorders touches: the shape of the grid and the
    [row], [col] and [type] of each cell. *)
Definition same_frame (gr gr' : Grid) : Prop :=
  length gr' = length gr ∧
  (∀ i, length <$> gr' !! i = length <$> gr !! i) ∧
  (∀ p, cell gr p = None → cell gr' p = None) ∧
  ∀ p c, cell gr p = Some c →
         ∃ c', cell gr' p = Some c' ∧
               row c' = row c ∧ col c' = col c ∧ type c' = type c.

Definition keeps_frame (upd : Cell → Cell) : Prop :=
  ∀ c, row (upd c) = row c ∧ col (upd c) = col c ∧ type (upd c) = type c.

Lemma same_frame_refl gr : same_frame gr gr.
Proof. split_and!; try done. intros p c Hc. by exists c. Qed.

Lemma same_frame_trans g1 g2 g3 :
  same_frame g1 g2 → same_frame g2 g3 → same_frame g1 g3.
Proof.
  intros (L1 & R1 & N1 & C1) (L2 & R2 & N2 & C2). split_and!.
  - congruence.
  - intros i. by rewrite R2, R1.
  - intros p Hp. by apply N2, N1.
  - intros p c Hc. destruct (C1 p c Hc) as (c' & Hc' & ? & ? & ?).
    destruct (C2 p c' Hc') as (c'' & Hc'' & ? & ? & ?).
    exists c''. split_and!; congruence.
Qed.

Lemma same_frame_update gr p upd :
  keeps_frame upd → same_frame gr (update gr p upd).
Proof.
  intros Hk. split_and!.
  - apply update_length.
  - apply update_row_length.
  - intros q Hq. rewrite cell_update. case_decide; by rewrite Hq.
  - intros q c Hc. rewrite cell_update, Hc. case_decide.
    + exists (upd c). split; [done|]. apply Hk.
    + by exists c.
Qed.

Lemma same_frame_update_r g1 g2 p upd :
  keeps_frame upd → same_frame g1 g2 → same_frame g1 (update g2 p upd).
Proof.
  intros Hk H. eapply same_frame_trans; [exact H|].
  by apply same_frame_update.
Qed.

Lemma keeps_frame_set_distance d : keeps_frame (set_distance d).
Proof. by intros []. Qed.
Lemma keeps_frame_set_isVisited b : keeps_frame (set_isVisited b).
Proof. by intros []. Qed.
Lemma keeps_frame_set_previousNode q : keeps_frame (set_previousNode q).
Proof. by intros []. Qed.
Lemma keeps_frame_set_scores a b c : keeps_frame (set_scores a b c).
Proof. by intros []. Qed.
Lemma keeps_frame_compose u1 u2 :
  keeps_frame u1 → keeps_frame u2 → keeps_frame (λ c, u1 (u2 c)).
Proof.
  intros H1 H2 c. destruct (H1 (u2 c)) as (?&?&?), (H2 c) as (?&?&?).
  split_and!; congruence.
Qed.

Create HintDb frame.
#[local] Hint Resolve same_frame_refl same_frame_update_r
  keeps_frame_set_distance keeps_frame_set_isVisited
  keeps_frame_set_previousNode keeps_frame_set_scores
  keeps_frame_compose : frame.










(** C10: on a cell of the grid, [toggleWall] returns a grid of the same
    shape that agrees with the old one everywhere but at the addressed
    place; there only the type can differ, a start or end cell is returned
    as it was, an empty cell comes out a wall and a wall empty. *)
Theorem toggleWall_frame gr r c node :
  cell gr (r, c) = Some node →
  ∃ gr' node',
    toggleWall gr r c = Some gr' ∧
    length gr' = length gr ∧
    (∀ i, length <$> gr' !! i = length <$> gr !! i) ∧
    (∀ p, p ≠ (r, c) → cell gr' p = cell gr p) ∧
    cell gr' (r, c) = Some node' ∧
    node' = set_type (type node') node ∧
    (type node = Start ∨ type node = End_ → node' = node) ∧
    (type node = Empty → type node' = Wall) ∧
    (type node = Wall → type node' = Empty).
Proof.
  intros Hc. unfold toggleWall. rewrite Hc. simpl.
  destruct (decide (type node ≠ Start ∧ type node ≠ End_)) as [[H1 H2]|Hn].
  - eexists _, _. split; [reflexivity|].
    split; [apply update_length|].
    split; [intros i; apply update_row_length|].
    split; [intros p Hp; by apply cell_update_ne|].
    split; [by apply cell_update_eq|].
    split; [by destruct node|].
    split; [intros [?|?]; done|].
    split; intros Ht; simpl; rewrite Ht; by simpl.
  - exists gr, node. split_and!; try done.
    + by destruct node.
    + intros Ht. rewrite Ht in Hn. exfalso. apply Hn. done.
    + intros Ht. rewrite Ht in Hn. exfalso. apply Hn. done.
Qed.

Lemma toggleWall_frame_witness :
  ∃ gr', toggleWall (initializeGrid (10, 15) (10, 35)) 3 4 = Some gr' ∧
         (type <$> cell gr' (3, 4)) = Some Wall ∧
         ∀ p, p ≠ (3, 4) →
              cell gr' p = cell (initializeGrid (10, 15) (10, 35)) p.
Proof.
  destruct (toggleWall_frame (initializeGrid (10, 15) (10, 35)) 3 4
              (createNode (10, 15) (10, 35) 3 4) eq_refl)
    as (gr' & node' & Ht & _ & _ & Hf & Hc & _ & _ & Hw & _).
  exists gr'. split; [exact Ht|]. split; [|exact Hf].
  rewrite Hc. simpl. f_equal. apply Hw. reflexivity.
Defined.

End GridStore.

(** ** Reset against the scheduled timeouts *)

Module Cancellation.
Import Pathfinding.
Local Open Scope nat_scope.

Lemma animateAlgorithm_from_timeouts speed i v p w :
  ∃ vs l,
    timeouts (animateAlgorithm_from speed i v p w)
      = timeouts w ++ vs ++ [l] ∧
    length vs = length v ∧
    Forall (λ t, handle t < handle l ∧ next_handle w ≤ handle t) vs ∧
    next_handle w ≤ handle l ∧
    animationTimeoutRef (animateAlgorithm_from speed i v p w)
      = Some (handle l) ∧
    grid (animateAlgorithm_from speed i v p w) = grid w.
Proof.
  revert i w. induction v as [|node rest IH]; intros i w; simpl.
  - eexists [], _. simpl. split_and!; done.
  - destruct (IH (i + 1)%Z (setTimeout_ref (cb_visit node.1 node.2)
                              (speed * i) w))
      as (vs & l & Ht & Hl & Hall & Hn & Hr & Hg).
    simpl in *. eexists (_ :: vs), l.
    rewrite Ht, <- app_assoc. simpl. split_and!; try done.
    + by rewrite Hl.
    + constructor; [simpl; lia|].
      eapply Forall_impl; [exact Hall|]. simpl. intros t [? ?]. lia.
    + lia.
Qed.

(** Of the timeouts [animateAlgorithm] schedules only the last is in the
    ref, so a reset right after the start cancels that one and leaves one
    pending timeout per visited cell. *)
Lemma resetGrid_leaves_visits speed v p w :
  timeouts w = [] →
  length (timeouts (resetGrid (animateAlgorithm speed v p w))) = length v.
Proof.
  intros Hw. unfold animateAlgorithm.
  destruct (animateAlgorithm_from_timeouts (101 - speed) 0 v p w)
    as (vs & l & Ht & Hl & Hall & _ & Hr & _).
  simpl. rewrite Hr, Ht, Hw. simpl.
  rewrite filter_app, filter_cons, filter_nil.
  rewrite decide_False by (intros H; by apply H).
  rewrite app_nil_r, <- Hl. f_equal.
  clear -Hall. induction Hall as [|t vs [Ht _] _ IH]; [done|].
  rewrite filter_cons, decide_True by lia. by rewrite IH.
Qed.

(** C3 on the code: the mounted pathfinding component, Dijkstra at speed
    50, reset right after the run starts.  The run scheduled 587 timeouts;
    the reset cancels the one in the ref and 586 stay pending; when two of
    them fire, the cell (9, 15) of the regenerated grid turns visited.
    Likewise for a traversal of the path graph 0-1-2 from 0: two of its
    three timeouts survive [resetGraph], and the first to fire marks
    node 0 current and node 1 queued. *)
Theorem reset_leaves_pending_timeouts :
  (w1 ← playEffect Dijkstra 50 true mounted;
   let w2 := resetGrid (effectCleanup w1) in
   w3 ← fires 2 50 w2;
   Some (length (timeouts w1), length (timeouts w2),
         type <$> cell (grid w2) (9, 15), type <$> cell (grid w3) (9, 15)))
  = Some (587, 586, Some Empty, Some Visited) ∧
  (let nd i c := {| GraphTraversal.id := i; GraphTraversal.connections := c;
                    GraphTraversal.state := GraphTraversal.ns_default |} in
   let w0 := {| GraphTraversal.nodes := [nd 0 [1]; nd 1 [0; 2]; nd 2 [1]];
                GraphTraversal.startNode := Some 0;
                GraphTraversal.isVisualizing := false;
                GraphTraversal.isComplete := false;
                GraphTraversal.animationTimeoutRef := None;
                GraphTraversal.timeouts := [];
                GraphTraversal.next_handle := 1;
                GraphTraversal.toasts := 0 |} in
   w1 ← GraphTraversal.visualizeAlgorithm GraphTraversal.BFS 50 w0;
   let w2 := GraphTraversal.resetGraph w1 in
   w3 ← GraphTraversal.fires 1 GraphTraversal.BFS 50 w2;
   Some (length (GraphTraversal.timeouts w1),
         length (GraphTraversal.timeouts w2),
         GraphTraversal.state <$> GraphTraversal.nodes w2,
         GraphTraversal.state <$> GraphTraversal.nodes w3))
  = Some (3, 2,
          [GraphTraversal.ns_default; GraphTraversal.ns_default;
           GraphTraversal.ns_default],
          [GraphTraversal.ns_current; GraphTraversal.ns_queued;
           GraphTraversal.ns_default]).
Proof. split; vm_compute; reflexivity. Qed.

End Cancellation.

(** ** Breadth-first and depth-first traversal *)

Module Traversal.
Import GraphTraversal.
Local Open Scope nat_scope.

(** The graph a node list stands for.  [node_at nodes a n]: [n] is the
    node of the list that carries the id [a], the first one should several
    carry it.  [edge nodes a b]: [b] is one of the connections of the node
    with id [a].  Both are stated on the list alone. *)
Definition node_at (nodes : list Node) (a : nat) (n : Node) : Prop :=
  ∃ i, nodes !! i = Some n ∧ id n = a ∧
       ∀ j m, j < i → nodes !! j = Some m → id m ≠ a.

Definition edge (nodes : list Node) (a b : nat) : Prop :=
  ∃ n, node_at nodes a n ∧ b ∈ connections n.

(** [k] is the least number of edges from [s] to [v]. *)
Definition graph_distance (nodes : list Node) (s v k : nat) : Prop :=
  nsteps (edge nodes) k s v ∧ ∀ j, nsteps (edge nodes) j s v → k ≤ j.

Definition neighbors (nodes : list Node) (x : nat) : list nat :=
  from_option connections [] (find_node nodes x).

Definition all_connections (nodes : list Node) : list nat :=
  mjoin (connections <$> nodes).

(** [nodes.find] returns the node the graph has at an id. *)
Lemma find_node_at nodes a n : find_node nodes a = Some n ↔ node_at nodes a n.
Proof.
  unfold find_node, node_at. split.
  - destruct (list_find _ nodes) as [[i n']|] eqn:Hf; [|done].
    intros [= <-]. apply list_find_Some in Hf as (Hi & Hid & Hmin).
    exists i. split_and!; [done|done|]. intros j m Hj Hm. by apply (Hmin j).
  - intros (i & Hi & Hid & Hmin).
    assert (list_find (λ n0, id n0 = a) nodes = Some (i, n)) as ->; [|done].
    apply list_find_Some. split_and!; [done|done|].
    intros j m Hm Hj. by apply (Hmin j).
Qed.

(** Where the ids differ, the node at an id is the node with that id. *)
Lemma node_at_NoDup nodes a n :
  NoDup (id <$> nodes) → node_at nodes a n ↔ n ∈ nodes ∧ id n = a.
Proof.
  intros Hnd. split.
  - intros (i & Hi & Hid & _). split; [|done].
    by eapply list_elem_of_lookup_2.
  - intros [[i Hi]%list_elem_of_lookup Hid]. exists i.
    split_and!; [done|done|]. intros j m Hj Hm Hidm.
    assert (j = i); [|lia].
    apply (NoDup_lookup (id <$> nodes) j i a Hnd).
    + by rewrite list_lookup_fmap, Hm; simpl; rewrite Hidm.
    + by rewrite list_lookup_fmap, Hi; simpl; rewrite Hid.
Qed.

Lemma edge_find_node nodes x y :
  edge nodes x y ↔ ∃ n, find_node nodes x = Some n ∧ y ∈ connections n.
Proof.
  unfold edge. split; intros (n & Hn & Hy); exists n;
    (split; [by apply find_node_at|done]).
Qed.

Section Graph.
Context (nodes : list Node) (s : nat).

Lemma edge_neighbors x y : edge nodes x y ↔ y ∈ neighbors nodes x.
Proof.
  rewrite edge_find_node. unfold neighbors. split.
  - intros (n & -> & Hy). done.
  - destruct (find_node nodes x) as [n|]; simpl.
    + intros Hy. by exists n.
    + intros Hy. by apply elem_of_nil in Hy.
Qed.

Lemma neighbors_all x y :
  y ∈ neighbors nodes x → y ∈ all_connections nodes.
Proof.
  unfold neighbors, find_node, all_connections.
  destruct (list_find _ nodes) as [[i n]|] eqn:Hf; simpl.
  - apply list_find_Some in Hf as (Hi & _ & _). intros Hy.
    apply list_elem_of_join. exists (connections n). split; [done|].
    apply list_elem_of_fmap. exists n. split; [done|].
    by eapply list_elem_of_lookup_2.
  - intros Hy. by apply elem_of_nil in Hy.
Qed.

Lemma graph_distance_unique v k1 k2 :
  graph_distance nodes s v k1 → graph_distance nodes s v k2 → k1 = k2.
Proof. intros [H1 M1] [H2 M2]. apply M1 in H2. apply M2 in H1. lia. Qed.

(** *** BFS *)

Lemma bfs_neighbors_spec conns V Q :
  ∃ new,
    foldl bfs_neighbor (V, Q) conns
      = (list_to_set new ∪ V, Q ++ new) ∧
    NoDup new ∧ ∀ y, y ∈ new ↔ y ∈ conns ∧ y ∉ V.
Proof.
  revert V Q. induction conns as [|c cs IH]; intros V Q; simpl.
  - exists []. simpl. rewrite app_nil_r, (left_id_L ∅ (∪)).
    split_and!; [done|constructor|]. intros y. set_solver.
  - destruct (decide (c ∈ V)) as [Hc|Hc].
    + destruct (IH V Q) as (new & -> & Hnd & Hnew).
      exists new. split_and!; try done. intros y. rewrite Hnew. set_solver.
    + destruct (IH ({[c]} ∪ V) (Q ++ [c])) as (new & -> & Hnd & Hnew).
      exists (c :: new). split_and!.
      * rewrite <- app_assoc. simpl. f_equal. set_solver.
      * constructor; [|done]. rewrite Hnew. set_solver.
      * intros y. rewrite !elem_of_cons, Hnew, not_elem_of_union,
          elem_of_singleton.
        destruct (decide (y = c)) as [->|]; naive_solver.
Qed.

Definition bfs_inv (V : gset nat) (Q O : list nat) : Prop :=
  NoDup (O ++ Q) ∧ s ∈ O ++ Q ∧ (∀ x, x ∈ V ↔ x ∈ O ++ Q) ∧
  (∀ x, x ∈ O ++ Q → ∃ k, graph_distance nodes s x k) ∧
  (∀ i j x y kx ky,
     i ≤ j → (O ++ Q) !! i = Some x → (O ++ Q) !! j = Some y →
     graph_distance nodes s x kx → graph_distance nodes s y ky → kx ≤ ky) ∧
  (∀ x y kx ky,
     head Q = Some x → y ∈ O ++ Q →
     graph_distance nodes s x kx → graph_distance nodes s y ky →
     ky ≤ S kx) ∧
  (∀ x y, x ∈ O → edge nodes x y → y ∈ O ++ Q) ∧
  (∀ y, y ∈ O ++ Q → y = s ∨ y ∈ all_connections nodes).

Lemma bfs_inv_init : bfs_inv {[s]} [s] [].
Proof.
  assert (graph_distance nodes s s 0) as Hd.
  { split; [constructor|lia]. }
  split_and!; simpl.
  - apply NoDup_singleton.
  - set_solver.
  - intros x. set_solver.
  - intros x ->%list_elem_of_singleton. by exists 0.
  - intros i j x y kx ky _ Hx Hy Dx Dy.
    apply list_lookup_singleton_Some in Hx as [_ <-].
    apply list_lookup_singleton_Some in Hy as [_ <-].
    rewrite (graph_distance_unique _ _ _ Dx Dy). done.
  - intros x y kx ky _ ->%list_elem_of_singleton _ Dy.
    rewrite (graph_distance_unique _ _ _ Dy Hd). lia.
  - intros x y Hx. by apply elem_of_nil in Hx.
  - intros y ->%list_elem_of_singleton. by left.
Qed.

(** Everything within the distance of the head of the queue has been
    discovered. *)
Lemma bfs_closed_below V x Q O kx :
  bfs_inv V (x :: Q) O → graph_distance nodes s x kx →
  ∀ j y, nsteps (edge nodes) j s y → j ≤ kx → y ∈ O ++ x :: Q.
Proof.
  intros (Hnd & Hs & HV & Hd & Hsort & Hhd & Hcl & Hall) Dx.
  induction j as [|j IH]; intros y Hy Hj.
  - by inversion Hy; subst.
  - apply nsteps_inv_r in Hy as (z & Hz & Hzy).
    assert (z ∈ O ++ x :: Q) as Hin by (apply IH; [done|lia]).
    destruct (Hd z Hin) as (kz & Dz).
    assert (kz ≤ j) by (by apply Dz).
    apply list_elem_of_lookup in Hin as [i Hi].
    destruct (decide (i < length O)) as [Hlt|Hge].
    + apply (Hcl z); [|done]. rewrite lookup_app_l in Hi by done.
      by eapply list_elem_of_lookup_2.
    + assert (kx ≤ kz); [|lia].
      eapply (Hsort (length O) i x z); try done; [lia|].
      by rewrite list_lookup_middle.
Qed.

Lemma bfs_step V x Q O new :
  bfs_inv V (x :: Q) O →
  NoDup new → (∀ y, y ∈ new ↔ y ∈ neighbors nodes x ∧ y ∉ V) →
  bfs_inv (list_to_set new ∪ V) (Q ++ new) (O ++ [x]).
Proof.
  intros Hinv Hndn Hnew.
  pose proof Hinv as (Hnd & Hs & HV & Hd & Hsort & Hhd & Hcl & Hall).
  destruct (Hd x) as (kx & Dx); [set_solver|].
  pose proof (bfs_closed_below _ _ _ _ _ Hinv Dx) as Hbelow.
  assert ((O ++ [x]) ++ Q ++ new = (O ++ x :: Q) ++ new) as EL.
  { by rewrite <- !app_assoc. }
  assert (∀ y, y ∈ new → graph_distance nodes s y (S kx)) as Dnew.
  { intros y Hy. apply Hnew in Hy as [Hy1 Hy2]. split.
    - eapply nsteps_r; [apply Dx|]. by apply edge_neighbors.
    - intros j Hj. destruct (decide (j ≤ kx)); [|lia].
      exfalso. apply Hy2, HV. by eapply Hbelow. }
  assert (∀ y ky, y ∈ O ++ x :: Q → graph_distance nodes s y ky →
                  ky ≤ S kx) as Hle.
  { intros y ky Hy Dy. by eapply (Hhd x y kx ky). }
  unfold bfs_inv. rewrite EL. split_and!.
  - apply NoDup_app. split_and!; [done| |done].
    intros y Hy Hy'. apply Hnew in Hy' as [_ Hy']. by apply Hy', HV.
  - set_solver.
  - intros y. rewrite elem_of_union, elem_of_list_to_set, HV.
    set_solver.
  - intros y [Hy|Hy]%elem_of_app; [by apply Hd|]. exists (S kx). auto.
  - intros i j a b ka kb Hij Ha Hb Da Db.
    apply lookup_app_Some in Ha as [Ha|[Hia Ha]];
      apply lookup_app_Some in Hb as [Hb|[Hib Hb]].
    + by eapply (Hsort i j a b).
    + apply list_elem_of_lookup_2 in Ha, Hb.
      rewrite (graph_distance_unique _ _ _ Db (Dnew _ Hb)).
      by eapply Hle.
    + apply lookup_lt_Some in Hb. lia.
    + apply list_elem_of_lookup_2 in Ha, Hb.
      rewrite (graph_distance_unique _ _ _ Db (Dnew _ Hb)).
      rewrite (graph_distance_unique _ _ _ Da (Dnew _ Ha)). done.
  - intros a b ka kb Ha Hb Da Db.
    assert (kx ≤ ka) as Hka.
    { assert (a ∈ Q ++ new) as Hain by (by apply head_Some_elem_of).
      apply elem_of_app in Hain as [Hain|Hain].
      - apply list_elem_of_lookup in Hain as [i Hi].
        eapply (Hsort (length O) (length O + S i) x a); try done; [lia| |].
        + by rewrite list_lookup_middle.
        + rewrite lookup_app_r by lia.
          replace (length O + S i - length O) with (S i) by lia. done.
      - rewrite (graph_distance_unique _ _ _ Da (Dnew _ Hain)). lia. }
    apply elem_of_app in Hb as [Hb|Hb].
    + specialize (Hle _ _ Hb Db). lia.
    + rewrite (graph_distance_unique _ _ _ Db (Dnew _ Hb)). lia.
  - intros a b [Ha|Ha]%elem_of_app Hab.
    + apply elem_of_app. left. by apply (Hcl a).
    + apply list_elem_of_singleton in Ha as ->.
      apply edge_neighbors in Hab.
      destruct (decide (b ∈ V)) as [Hb|Hb].
      * apply elem_of_app. left. by apply HV.
      * apply elem_of_app. right. by apply Hnew.
  - intros y [Hy|Hy]%elem_of_app; [by apply Hall|].
    right. apply Hnew in Hy as [Hy _]. by eapply neighbors_all.
Qed.

Lemma bfs_inv_length V Q O :
  bfs_inv V Q O → length (O ++ Q) ≤ S (length (all_connections nodes)).
Proof.
  intros (Hnd & _ & _ & _ & _ & _ & _ & Hall).
  change (S (length (all_connections nodes)))
    with (length (s :: all_connections nodes)).
  apply submseteq_length, NoDup_submseteq; [done|].
  intros y Hy. apply elem_of_cons. by apply Hall.
Qed.

Lemma bfs_loop_spec fuel V Q O :
  bfs_inv V Q O →
  S (S (length (all_connections nodes))) ≤ fuel + length O →
  ∃ V' res, bfs_loop fuel nodes V Q O = Some res ∧ bfs_inv V' [] res.
Proof.
  revert V Q O. induction fuel as [|fuel IH]; intros V Q O Hinv Hfuel.
  - pose proof (bfs_inv_length _ _ _ Hinv) as Hl.
    rewrite length_app in Hl. simpl in Hfuel. lia.
  - simpl. destruct Q as [|x Q]; [by exists V, O|].
    destruct (bfs_neighbors_spec (neighbors nodes x) V Q)
      as (new & Hfold & Hndn & Hnew).
    pose proof (bfs_step _ _ _ _ _ Hinv Hndn Hnew) as Hinv'.
    unfold neighbors in Hfold.
    destruct (find_node nodes x) as [n|] eqn:Hn; simpl in Hfold.
    + rewrite Hfold. apply (IH _ _ _ Hinv').
      rewrite length_app. simpl. lia.
    + assert (new = []) as ->.
      { injection Hfold as _ HQ. apply (app_inv_head Q).
        by rewrite app_nil_r. }
      simpl in Hinv'. rewrite app_nil_r, (left_id_L ∅ (∪)) in Hinv'.
      apply (IH _ _ _ Hinv').
      rewrite length_app. simpl. lia.
Qed.

Lemma closed_reachable (L : list nat) :
  s ∈ L → (∀ x y, x ∈ L → edge nodes x y → y ∈ L) →
  ∀ v, rtc (edge nodes) s v → v ∈ L.
Proof.
  intros Hs Hcl v Hv. induction Hv as [|x y z Hxy _ IH]; [done|].
  apply IH. by eapply Hcl.
Qed.

Lemma bfs_order_spec :
  ∃ o, bfs_order nodes s = Some o ∧ NoDup o ∧
       (∀ v, v ∈ o ↔ rtc (edge nodes) s v) ∧
       ∀ i j vi vj di dj,
         i ≤ j → o !! i = Some vi → o !! j = Some vj →
         graph_distance nodes s vi di → graph_distance nodes s vj dj →
         di ≤ dj.
Proof.
  destruct (bfs_loop_spec (traversal_fuel nodes) {[s]} [s] [] bfs_inv_init)
    as (V' & o & Hrun & Hinv).
  { unfold traversal_fuel, all_connections. simpl. lia. }
  exists o. split; [exact Hrun|].
  destruct Hinv as (Hnd & Hs & HV & Hd & Hsort & Hhd & Hcl & Hall).
  rewrite app_nil_r in *. split_and!; [done| |done].
  intros v. split.
  - intros Hv. destruct (Hd v Hv) as (k & Hk & _).
    apply rtc_nsteps. by exists k.
  - by apply closed_reachable.
Qed.

(** *** DFS *)

Definition universe : gset nat := list_to_set (s :: all_connections nodes).

Lemma size_list_to_set_le (l : list nat) :
  size (list_to_set l : gset nat) ≤ length l.
Proof.
  induction l as [|a l IH].
  - rewrite list_to_set_nil, size_empty. done.
  - rewrite list_to_set_cons. simpl.
    destruct (decide (a ∈ (list_to_set l : gset nat))) as [Ha|Ha].
    + replace ({[a]} ∪ list_to_set l) with (list_to_set l : gset nat)
        by set_solver. lia.
    + rewrite size_union, size_singleton by set_solver. lia.
Qed.

Lemma universe_shrinks x (V : gset nat) :
  x ∈ universe → x ∉ V →
  size (universe ∖ ({[x]} ∪ V)) < size (universe ∖ V).
Proof.
  intros Hx HV. apply subset_size. split; [set_solver|].
  intros Hsub. assert (x ∈ universe ∖ V) as Hin by set_solver.
  apply Hsub in Hin. set_solver.
Qed.

(** What one call [dfs(x)] adds to the visited set and the visit order. *)
Definition dfs_post (V : gset nat) (O : list nat) (roots : list nat)
    (V' : gset nat) (O' : list nat) : Prop :=
  ∃ new,
    O' = O ++ new ∧ NoDup new ∧
    (∀ y, y ∈ V' ↔ y ∈ V ∨ y ∈ new) ∧
    (∀ y, y ∈ new → y ∉ V) ∧
    (∀ c, c ∈ roots → c ∈ V') ∧
    (∀ y, y ∈ new → ∃ c, c ∈ roots ∧ rtc (edge nodes) c y) ∧
    (∀ y z, y ∈ new → edge nodes y z → z ∈ V').

Definition dfs_children (fuel : nat) (conns : list nat)
    (acc : option (gset nat * list nat)) : option (gset nat * list nat) :=
  foldl (λ acc neighborId,
           s ← acc;
           if decide (neighborId ∈ s.1) then Some s
           else dfs fuel nodes neighborId s)
        acc conns.

Lemma dfs_children_spec fuel conns V O :
  (∀ V O x, x ∉ V → x ∈ universe → size (universe ∖ V) < fuel →
            ∃ V' O', dfs fuel nodes x (V, O) = Some (V', O') ∧
                     dfs_post V O [x] V' O') →
  (∀ c, c ∈ conns → c ∈ universe) →
  size (universe ∖ V) < fuel →
  ∃ V' O', dfs_children fuel conns (Some (V, O)) = Some (V', O') ∧
           dfs_post V O conns V' O'.
Proof.
  intros Hcall. revert V O.
  induction conns as [|c cs IH]; intros V O Hu Hsize; simpl.
  - exists V, O. split; [done|]. exists [].
    rewrite app_nil_r. split_and!; try done.
    + constructor.
    + set_solver.
    + intros y Hy. by apply elem_of_nil in Hy.
    + intros d Hd. by apply elem_of_nil in Hd.
    + intros y Hy. by apply elem_of_nil in Hy.
    + intros y z Hy. by apply elem_of_nil in Hy.
  - assert (∀ d, d ∈ cs → d ∈ universe) as Hu'.
    { intros d Hd. apply Hu. by right. }
    destruct (decide (c ∈ V)) as [Hc|Hc].
    + destruct (IH V O Hu' Hsize)
        as (V' & O' & Hrun & new & HO & Hnd & HV & Hdis & Hr & Hre & Hcl).
      exists V', O'. split; [exact Hrun|]. exists new.
      split_and!; try done.
      * intros d [->|Hd]%elem_of_cons; [apply HV; by left|by apply Hr].
      * intros y Hy. destruct (Hre y Hy) as (d & Hd & Hdy).
        exists d. split; [by right|done].
    + destruct (Hcall V O c Hc (Hu c (list_elem_of_here _ _)) Hsize)
        as (V1 & O1 & Hrun1 & new1 & HO1 & Hnd1 & HV1 & Hdis1 & Hr1 & Hre1
            & Hcl1).
      rewrite Hrun1.
      assert (size (universe ∖ V1) < fuel) as Hsize1.
      { eapply Nat.le_lt_trans; [|exact Hsize].
        apply subseteq_size. intros y. rewrite !elem_of_difference, HV1.
        naive_solver. }
      destruct (IH V1 O1 Hu' Hsize1)
        as (V' & O' & Hrun & new & HO & Hnd & HV & Hdis & Hr & Hre & Hcl).
      exists V', O'. split; [exact Hrun|]. exists (new1 ++ new).
      split_and!.
      * by rewrite HO, HO1, app_assoc.
      * apply NoDup_app. split_and!; [done| |done].
        intros y Hy1 Hy. apply (Hdis y Hy), HV1. by right.
      * intros y. rewrite HV, HV1, elem_of_app. naive_solver.
      * intros y [Hy|Hy]%elem_of_app; [by apply Hdis1|].
        intros HyV. apply (Hdis y Hy), HV1. by left.
      * intros d [->|Hd]%elem_of_cons; [|by apply Hr].
        apply HV. left. apply Hr1. by left.
      * intros y [Hy|Hy]%elem_of_app.
        -- destruct (Hre1 y Hy) as (d & Hd%list_elem_of_singleton & Hdy).
           subst d. exists c. split; [by left|done].
        -- destruct (Hre y Hy) as (d & Hd & Hdy).
           exists d. split; [by right|done].
      * intros y z [Hy|Hy]%elem_of_app Hyz; [|by eapply Hcl].
        apply HV. left. by eapply Hcl1.
Qed.

Lemma dfs_spec fuel V O x :
  x ∉ V → x ∈ universe → size (universe ∖ V) < fuel →
  ∃ V' O', dfs fuel nodes x (V, O) = Some (V', O') ∧
           dfs_post V O [x] V' O'.
Proof.
  revert V O x. induction fuel as [|fuel IH]; intros V O x HxV Hxu Hsize;
    [lia|].
  simpl.
  pose proof (universe_shrinks x V Hxu HxV) as Hshrink.
  destruct (find_node nodes x) as [node|] eqn:Hnode.
  - destruct (dfs_children_spec fuel (connections node) ({[x]} ∪ V)
                (O ++ [x]) IH)
      as (V' & O' & Hrun & new & HO & Hnd & HV & Hdis & Hr & Hre & Hcl).
    { intros c Hc. unfold universe. apply elem_of_list_to_set. right.
      apply (neighbors_all x). unfold neighbors. by rewrite Hnode. }
    { lia. }
    exists V', O'. split; [exact Hrun|]. exists (x :: new).
    split_and!.
    + by rewrite HO, <- app_assoc.
    + constructor; [|done]. intros Hx. apply (Hdis x Hx). set_solver.
    + intros y. rewrite HV, elem_of_cons, elem_of_union, elem_of_singleton.
      naive_solver.
    + intros y [->|Hy]%elem_of_cons; [done|].
      intros HyV. apply (Hdis y Hy). set_solver.
    + intros c ->%list_elem_of_singleton. apply HV. left. set_solver.
    + intros y [->|Hy]%elem_of_cons.
      * exists x. split; [by left|done].
      * destruct (Hre y Hy) as (c & Hc & Hcy). exists x.
        split; [by left|]. eapply rtc_l; [|exact Hcy].
        apply edge_find_node. by exists node.
    + intros y z [->|Hy]%elem_of_cons Hyz; [|by eapply Hcl].
      apply edge_find_node in Hyz as (n' & Hn' & Hz). rewrite Hnode in Hn'.
      injection Hn' as <-. by apply Hr.
  - exists ({[x]} ∪ V), (O ++ [x]). split; [done|]. exists [x].
    split_and!; try done.
    + apply NoDup_singleton.
    + intros y. rewrite elem_of_union, !elem_of_singleton,
        list_elem_of_singleton. naive_solver.
    + by intros y ->%list_elem_of_singleton.
    + intros c ->%list_elem_of_singleton. set_solver.
    + intros y ->%list_elem_of_singleton. exists x. split; [by left|done].
    + intros y z ->%list_elem_of_singleton (n' & Hn' & _)%edge_find_node.
      congruence.
Qed.

Lemma dfs_order_spec :
  ∃ o, dfs_order nodes s = Some o ∧ NoDup o ∧
       ∀ v, v ∈ o ↔ rtc (edge nodes) s v.
Proof.
  destruct (dfs_spec (traversal_fuel nodes) ∅ [] s)
    as (V' & O' & Hrun & new & HO & Hnd & HV & Hdis & Hr & Hre & Hcl).
  { set_solver. }
  { unfold universe. set_solver. }
  { unfold traversal_fuel, universe.
    eapply Nat.le_lt_trans; [apply subseteq_size|].
    - apply subseteq_difference_l. reflexivity.
    - pose proof (size_list_to_set_le (s :: all_connections nodes)) as Hl.
      simpl in Hl. unfold all_connections in *. simpl. lia. }
  simpl in HO. subst O'. unfold dfs_order. rewrite Hrun. simpl.
  exists new. split_and!; [done|done|].
  intros v. split.
  - intros Hv. destruct (Hre v Hv) as (c & ->%list_elem_of_singleton & Hc).
    done.
  - assert (∀ y, y ∈ V' → y ∈ new) as Hin.
    { intros y [Hy|Hy]%HV; [set_solver|done]. }
    apply closed_reachable.
    + apply Hin, Hr. by left.
    + intros x y Hx Hxy. by eapply Hin, Hcl.
Qed.

End Graph.

(** C8: from any start node of any graph, [runBFS] hands over a visit
    order without repetition that holds exactly the nodes reachable from
    the start, and along which the distance from the start never
    decreases; [runDFS] hands over a visit order without repetition that
    holds exactly the reachable nodes. *)
Theorem traversals_visit_reachable_once (nodes : list Node) (s : nat) :
  ∃ bfs dfs',
    run BFS nodes (Some s) = Order bfs ∧
    run DFS nodes (Some s) = Order dfs' ∧
    NoDup bfs ∧ (∀ v, v ∈ bfs ↔ rtc (edge nodes) s v) ∧
    (∀ i j vi vj di dj,
       i ≤ j → bfs !! i = Some vi → bfs !! j = Some vj →
       graph_distance nodes s vi di → graph_distance nodes s vj dj →
       di ≤ dj) ∧
    NoDup dfs' ∧ (∀ v, v ∈ dfs' ↔ rtc (edge nodes) s v).
Proof.
  destruct (bfs_order_spec nodes s) as (b & Hb & Hnb & Hrb & Hsb).
  destruct (dfs_order_spec nodes s) as (d & Hd & Hnd & Hrd).
  exists b, d. simpl. rewrite Hb, Hd. split_and!; done.
Qed.

(** The path graph 0-1-2 from 0, under both traversals. *)
Example path_graph_orders :
  let nd i c := {| id := i; connections := c; state := ns_default |} in
  let g := [nd 0 [1]; nd 1 [0; 2]; nd 2 [1]] in
  run BFS g (Some 0) = Order [0; 1; 2] ∧ run DFS g (Some 0) = Order [0; 1; 2].
Proof. split; vm_compute; reflexivity. Qed.

End Traversal.

(** ** The sorting recorders sort *)

Module SortingProofs.
Import Sorting.
Local Open Scope Z_scope.

(** *** Arrays read and written at integer indices *)

Section JsFacts.
Context {A : Type}.
Implicit Types (a : list A) (i j k : Z) (x y : A).

Lemma get_Some a i x :
  Js.get a i = Some x ↔ 0 ≤ i ∧ a !! Z.to_nat i = Some x.
Proof. unfold Js.get. case_decide; naive_solver. Qed.

Lemma get_bounds a i x : Js.get a i = Some x → 0 ≤ i < Z.of_nat (length a).
Proof.
  intros [Hi Hx]%get_Some. apply lookup_lt_Some in Hx. lia.
Qed.

Lemma get_in_range a i :
  0 ≤ i < Z.of_nat (length a) → ∃ x, Js.get a i = Some x.
Proof.
  intros Hi. destruct (lookup_lt_is_Some_2 a (Z.to_nat i)) as [x Hx]; [lia|].
  exists x. apply get_Some. split; [lia|done].
Qed.

Lemma get_None a i :
  ¬ (0 ≤ i < Z.of_nat (length a)) → Js.get a i = None.
Proof.
  intros Hi. destruct (Js.get a i) as [x|] eqn:Hx; [|done].
  apply get_bounds in Hx. lia.
Qed.

Lemma set_Some a i x :
  0 ≤ i < Z.of_nat (length a) →
  Js.set a i x = Some (<[Z.to_nat i := x]> a).
Proof. intros Hi. unfold Js.set. by rewrite decide_True. Qed.

Lemma set_inv a i x a' :
  Js.set a i x = Some a' →
  0 ≤ i < Z.of_nat (length a) ∧ a' = <[Z.to_nat i := x]> a.
Proof. unfold Js.set. case_decide; naive_solver. Qed.

Lemma set_length a i x a' : Js.set a i x = Some a' → length a' = length a.
Proof. intros [_ ->]%set_inv. apply length_insert. Qed.

Lemma get_set a i x a' j :
  Js.set a i x = Some a' →
  Js.get a' j = if decide (j = i) then Some x else Js.get a j.
Proof.
  intros [Hi ->]%set_inv. unfold Js.get.
  destruct (decide (j = i)) as [->|Hne].
  - rewrite decide_True by lia. apply list_lookup_insert_eq. lia.
  - case_decide; [|done]. apply list_lookup_insert_ne. lia.
Qed.

Lemma swap_Some a i j x y :
  Js.get a i = Some x → Js.get a j = Some y →
  ∃ a', Js.swap a i j = Some a'.
Proof.
  intros Hx Hy. unfold Js.swap. rewrite Hx, Hy. simpl.
  rewrite set_Some by (by eapply get_bounds). simpl.
  rewrite set_Some; [by eexists|].
  rewrite length_insert. by eapply get_bounds.
Qed.

Lemma swap_inv a i j a' :
  Js.swap a i j = Some a' →
  ∃ x y, Js.get a i = Some x ∧ Js.get a j = Some y ∧
         a' = <[Z.to_nat j := x]> (<[Z.to_nat i := y]> a).
Proof.
  unfold Js.swap. intros H.
  destruct (Js.get a i) as [x|] eqn:Hx; [|done].
  destruct (Js.get a j) as [y|] eqn:Hy; [|done]. simpl in H.
  destruct (Js.set a i y) as [a1|] eqn:H1; [|done]. simpl in H.
  apply set_inv in H1 as [_ ->]. apply set_inv in H as [_ ->].
  by exists x, y.
Qed.

Lemma swap_length a i j a' : Js.swap a i j = Some a' → length a' = length a.
Proof.
  intros (x & y & _ & _ & ->)%swap_inv. by rewrite !length_insert.
Qed.

Lemma get_swap a i j a' k :
  Js.swap a i j = Some a' →
  Js.get a' k = if decide (k = j) then Js.get a i
                else if decide (k = i) then Js.get a j else Js.get a k.
Proof.
  unfold Js.swap. intros H.
  destruct (Js.get a i) as [x|] eqn:Hx; [|done].
  destruct (Js.get a j) as [y|] eqn:Hy; [|done]. simpl in H.
  destruct (Js.set a i y) as [a1|] eqn:H1; [|done]. simpl in H.
  rewrite (get_set _ _ _ _ k H), (get_set _ _ _ _ k H1).
  repeat case_decide; congruence.
Qed.

Lemma get_slice a from to i :
  0 ≤ from ≤ to → to ≤ Z.of_nat (length a) → 0 ≤ i →
  Js.get (Js.slice a from to) i
  = if decide (i < to - from) then Js.get a (from + i) else None.
Proof.
  intros Hft Hto Hi. unfold Js.slice, Js.rel_index.
  rewrite !decide_False by lia.
  rewrite !Z.min_l by lia. unfold Js.get.
  rewrite !decide_True by lia.
  case_decide.
  - rewrite lookup_take_lt by lia. rewrite lookup_drop.
    rewrite decide_True by lia. f_equal. lia.
  - apply lookup_ge_None. rewrite length_take, length_drop. lia.
Qed.

Lemma slice_length a from to :
  0 ≤ from ≤ to → to ≤ Z.of_nat (length a) →
  Z.of_nat (length (Js.slice a from to)) = to - from.
Proof.
  intros Hft Hto. unfold Js.slice, Js.rel_index.
  rewrite !decide_False by lia. rewrite !Z.min_l by lia.
  rewrite length_take, length_drop. lia.
Qed.

End JsFacts.

(** *** Loop rules *)

Section LoopRules.
Context {St : Type}.

Lemma for_count_inv (I : Z → St → Prop) n lo body s :
  I lo s →
  (∀ j s, lo ≤ j < lo + Z.of_nat n → I j s →
          ∃ s', body j s = Some s' ∧ I (j + 1) s') →
  ∃ s', for_count n lo body s = Some s' ∧ I (lo + Z.of_nat n) s'.
Proof.
  revert lo s. induction n as [|n IH]; intros lo s H0 Hstep; simpl.
  - exists s. split; [done|]. replace (lo + Z.of_nat 0) with lo by lia. done.
  - destruct (Hstep lo s) as (s1 & -> & H1); [lia|done|]. simpl.
    destruct (IH (lo + 1) s1 H1) as (s' & Hrun & H').
    { intros j s2 Hj. apply Hstep. lia. }
    exists s'. split; [done|].
    replace (lo + Z.of_nat (S n)) with (lo + 1 + Z.of_nat n) by lia. done.
Qed.

Lemma for_range_inv (I : Z → St → Prop) lo hi body s :
  lo ≤ hi → I lo s →
  (∀ j s, lo ≤ j < hi → I j s → ∃ s', body j s = Some s' ∧ I (j + 1) s') →
  ∃ s', for_range lo hi body s = Some s' ∧ I hi s'.
Proof.
  intros Hle H0 Hstep. unfold for_range.
  destruct (for_count_inv I (Z.to_nat (hi - lo)) lo body s H0)
    as (s' & Hrun & H').
  { intros j s1 Hj. apply Hstep. lia. }
  exists s'. split; [done|].
  by replace (lo + Z.of_nat (Z.to_nat (hi - lo))) with hi in H' by lia.
Qed.

Lemma for_range_empty lo hi body (s : St) :
  hi ≤ lo → for_range lo hi body s = Some s.
Proof.
  intros H. unfold for_range.
  assert (Z.to_nat (hi - lo) = 0%nat) as -> by lia. done.
Qed.

Lemma while_inv (I : St → Prop) (m : St → nat) fuel cond body s :
  I s → (m s < fuel)%nat →
  (∀ s, I s →
        ∃ c, cond s = Some c ∧
             (c = true → ∃ s', body s = Some s' ∧ I s' ∧ (m s' < m s)%nat)) →
  ∃ s', while fuel cond body s = Some s' ∧ I s' ∧ cond s' = Some false.
Proof.
  intros H0 Hm Hstep. revert s H0 Hm.
  induction fuel as [|fuel IH]; intros s H0 Hm; [lia|].
  simpl. destruct (Hstep s H0) as (c & Hc & Hb). rewrite Hc. simpl.
  destruct c.
  - destruct (Hb eq_refl) as (s' & -> & H' & Hlt). simpl.
    apply IH; [done|lia].
  - by exists s.
Qed.

End LoopRules.

(** *** The replay follows the recorder

    [tracks a0 r]: replaying the swaps and overwrites recorded so far onto
    the input gives an array with the values of the recorder's copy. *)

Definition vals (vis : list Slot) : list (option Z) := slot_value <$> vis.

Definition values (a : list ArrayBar) : list (option Z) :=
  (λ b, Some (value b)) <$> a.

Definition tracks (a0 : list ArrayBar) (r : Rec) : Prop :=
  ∃ vis, replay_moves (anims r) (visual a0) = Some vis ∧
         vals vis = values (arr r).

(** The same with one slot of the copy still to be written with [key]:
    insertion sort shifts where the replay swaps. *)
Definition tracks_hole (a0 : list ArrayBar) (r : Rec) (hole key : Z) : Prop :=
  ∃ vis, replay_moves (anims r) (visual a0) = Some vis ∧
         vals vis = <[Z.to_nat hole := Some key]> (values (arr r)).

Lemma replay_snoc l e a :
  replay (l ++ [e]) a = replay l a ≫= λ a, applyAnimation a e.
Proof. unfold replay. by rewrite foldl_snoc. Qed.

Lemma replay_moves_snoc l e a :
  replay_moves (l ++ [e]) a
  = if moves_value e
    then replay_moves l a ≫= λ a, applyAnimation a e
    else replay_moves l a.
Proof.
  unfold replay_moves. rewrite filter_app, filter_cons, filter_nil.
  destruct (moves_value e) eqn:He.
  - rewrite decide_True by done. apply replay_snoc.
  - rewrite decide_False by congruence. by rewrite app_nil_r.
Qed.

Lemma vset_in_range v i x :
  0 ≤ i < Z.of_nat (length v) → vset v i x = <[Z.to_nat i := x]> v.
Proof.
  intros Hi. unfold vset. rewrite decide_False by lia.
  by rewrite decide_True by lia.
Qed.

Lemma vals_length v a : vals v = values a → length v = length a.
Proof.
  intros H. apply (f_equal length) in H. unfold vals, values in H.
  by rewrite !length_fmap in H.
Qed.

Lemma vals_lookup v l n :
  vals v = l → slot_value (default undefined (v !! n)) = mjoin (l !! n).
Proof.
  intros <-. unfold vals. rewrite list_lookup_fmap.
  by destruct (v !! n).
Qed.

Lemma vals_vget v a i b :
  vals v = values a → Js.get a i = Some b →
  slot_value (vget v i) = Some (value b).
Proof.
  intros Hv [Hi Hb]%get_Some. unfold vget. rewrite decide_True by done.
  rewrite (vals_lookup v _ _ Hv). unfold values.
  rewrite list_lookup_fmap, Hb. done.
Qed.

Lemma tracks_init a0 : tracks a0 {| arr := a0; anims := [] |}.
Proof.
  exists (visual a0). split; [done|]. unfold vals, values, visual.
  by rewrite <- list_fmap_compose.
Qed.

Lemma tracks_push a0 r ev :
  moves_value ev = false → tracks a0 r → tracks a0 (push ev r).
Proof.
  intros Hev (vis & Hr & Hv). exists vis. simpl.
  rewrite replay_moves_snoc, Hev. done.
Qed.

Lemma tracks_hole_push a0 r ev hole key :
  moves_value ev = false →
  tracks_hole a0 r hole key → tracks_hole a0 (push ev r) hole key.
Proof.
  intros Hev (vis & Hr & Hv). exists vis. simpl.
  rewrite replay_moves_snoc, Hev. done.
Qed.

Lemma tracks_swap a0 r i j a' :
  tracks a0 r → Js.swap (arr r) i j = Some a' →
  tracks a0 {| arr := a'; anims := anims r ++ [a_swap i j] |}.
Proof.
  intros (vis & Hr & Hv) (x & y & Hx & Hy & ->)%swap_inv.
  pose proof (vals_length _ _ Hv) as Hl.
  pose proof (get_bounds _ _ _ Hx) as Hi.
  pose proof (get_bounds _ _ _ Hy) as Hj.
  eexists. simpl. rewrite replay_moves_snoc. simpl. rewrite Hr. simpl.
  split; [reflexivity|].
  rewrite (vset_in_range vis i) by lia.
  rewrite vset_in_range by (rewrite length_insert; lia).
  unfold vals, values. rewrite !list_fmap_insert.
  fold (vals vis). fold (values (arr r)).
  rewrite (vals_vget _ _ _ _ Hv Hx), (vals_vget _ _ _ _ Hv Hy).
  by rewrite Hv.
Qed.

Lemma tracks_overwrite a0 r k x a' :
  tracks a0 r → Js.set (arr r) k x = Some a' →
  tracks a0 {| arr := a'; anims := anims r ++ [a_overwrite k (value x)] |}.
Proof.
  intros (vis & Hr & Hv) [Hk ->]%set_inv.
  pose proof (vals_length _ _ Hv) as Hl.
  eexists. simpl. rewrite replay_moves_snoc. simpl. rewrite Hr. simpl.
  split; [reflexivity|].
  rewrite vset_in_range by lia.
  unfold vals, values. rewrite !list_fmap_insert. simpl.
  fold (vals vis). by rewrite Hv.
Qed.

Lemma tracks_hole_init a0 r i x :
  tracks a0 r → Js.get (arr r) i = Some x → tracks_hole a0 r i (value x).
Proof.
  intros (vis & Hr & Hv) [Hi Hx]%get_Some. exists vis. split; [done|].
  rewrite Hv. symmetry. apply list_insert_id. unfold values.
  by rewrite list_lookup_fmap, Hx.
Qed.

Lemma tracks_hole_shift a0 r j key x a' :
  0 ≤ j →
  tracks_hole a0 r (j + 1) key →
  Js.get (arr r) j = Some x → Js.set (arr r) (j + 1) x = Some a' →
  tracks_hole a0 {| arr := a'; anims := anims r ++ [a_swap j (j + 1)] |}
    j key.
Proof.
  intros Hj0 (vis & Hr & Hv) Hx [Hj ->]%set_inv.
  assert (length vis = length (arr r)) as Hl.
  { apply (f_equal length) in Hv. unfold vals, values in Hv.
    by rewrite length_insert, !length_fmap in Hv. }
  eexists. simpl. rewrite replay_moves_snoc. simpl. rewrite Hr. simpl.
  split; [reflexivity|].
  rewrite (vset_in_range vis j) by lia.
  rewrite vset_in_range by (rewrite length_insert; lia).
  unfold vals. rewrite !list_fmap_insert. fold (vals vis).
  assert (slot_value (vget vis (j + 1)) = Some key) as ->.
  { unfold vget. rewrite decide_True by lia.
    rewrite (vals_lookup vis _ _ Hv).
    rewrite list_lookup_insert_eq; [done|].
    unfold values. rewrite length_fmap. lia. }
  assert (slot_value (vget vis j) = Some (value x)) as ->.
  { unfold vget. rewrite decide_True by lia.
    rewrite (vals_lookup vis _ _ Hv).
    rewrite list_lookup_insert_ne by lia.
    apply get_Some in Hx as [_ Hx]. unfold values.
    by rewrite list_lookup_fmap, Hx. }
  rewrite Hv. unfold values. rewrite list_fmap_insert. simpl.
  replace (Z.to_nat (j + 1)) with (S (Z.to_nat j)) by lia.
  rewrite (list_insert_insert_ne _ (Z.to_nat j) (S (Z.to_nat j))) by lia.
  rewrite list_insert_insert_eq.
  by rewrite (list_insert_insert_ne _ (S (Z.to_nat j)) (Z.to_nat j)) by lia.
Qed.

Lemma tracks_hole_fill a0 r hole key st a' :
  tracks_hole a0 r hole key →
  Js.set (arr r) hole {| value := key; state := st |} = Some a' →
  tracks a0 {| arr := a'; anims := anims r |}.
Proof.
  intros (vis & Hr & Hv) [Hh ->]%set_inv. exists vis. split; [done|].
  simpl. rewrite Hv. unfold values. by rewrite list_fmap_insert.
Qed.

(** *** Order on a range of the copy *)

(** The value at an index, 0 where there is no bar. *)
Definition val (a : list ArrayBar) (p : Z) : Z :=
  from_option value 0 (Js.get a p).

Definition sorted_range (a : list ArrayBar) (lo hi : Z) : Prop :=
  ∀ p q, lo ≤ p → p ≤ q → q < hi → val a p ≤ val a q.

(** What a recorder run has to establish. *)
Definition sorts (a0 : list ArrayBar) (r : Rec) : Prop :=
  length (arr r) = length a0 ∧ tracks a0 r ∧
  sorted_range (arr r) 0 (Z.of_nat (length a0)).

Lemma val_get a p x : Js.get a p = Some x → val a p = value x.
Proof. unfold val. by intros ->. Qed.

Lemma val_set a i x a' k :
  Js.set a i x = Some a' →
  val a' k = if decide (k = i) then value x else val a k.
Proof.
  intros H. unfold val. rewrite (get_set _ _ _ _ k H). by case_decide.
Qed.

Lemma val_swap a i j a' k :
  Js.swap a i j = Some a' →
  val a' k = if decide (k = j) then val a i
             else if decide (k = i) then val a j else val a k.
Proof.
  intros H. unfold val. rewrite (get_swap _ _ _ _ k H).
  by repeat case_decide.
Qed.

Lemma Sorted_of_lookup (l : list Z) :
  (∀ i j x y, (i ≤ j)%nat → l !! i = Some x → l !! j = Some y → x ≤ y) →
  Sorted Z.le l.
Proof.
  induction l as [|x l IH]; intros H; [constructor|].
  constructor.
  - apply IH. intros i j a b Hij Ha Hb. by apply (H (S i) (S j)); [lia|..].
  - destruct l as [|y l]; constructor.
    apply (H 0%nat 1%nat); [lia|done|done].
Qed.

Lemma sorted_range_Sorted a :
  sorted_range a 0 (Z.of_nat (length a)) → Sorted Z.le (value <$> a).
Proof.
  intros H. apply Sorted_of_lookup. intros i j x y Hij Hx Hy.
  rewrite list_lookup_fmap in Hx, Hy.
  destruct (a !! i) as [bx|] eqn:Hbx; [|done].
  destruct (a !! j) as [by_|] eqn:Hby; [|done].
  injection Hx as <-. injection Hy as <-.
  rewrite <- (val_get a (Z.of_nat i) bx), <- (val_get a (Z.of_nat j) by_).
  - apply H; [lia|lia|]. apply lookup_lt_Some in Hby. lia.
  - apply get_Some. rewrite Nat2Z.id. split; [lia|done].
  - apply get_Some. rewrite Nat2Z.id. split; [lia|done].
Qed.

(** *** Bubble sort *)

Definition bubble_inner_inv (a0 : list ArrayBar) (n m j : Z) (r : Rec)
    : Prop :=
  Z.of_nat (length (arr r)) = n ∧ tracks a0 r ∧
  sorted_range (arr r) m n ∧
  (∀ p q, 0 ≤ p < m → m ≤ q < n → val (arr r) p ≤ val (arr r) q) ∧
  (∀ p, 0 ≤ p ≤ j → val (arr r) p ≤ val (arr r) j).

Definition bubble_outer_inv (a0 : list ArrayBar) (n i : Z) (r : Rec)
    : Prop :=
  Z.of_nat (length (arr r)) = n ∧ tracks a0 r ∧
  sorted_range (arr r) (n - i) n ∧
  (∀ p q, 0 ≤ p < n - i → n - i ≤ q < n → val (arr r) p ≤ val (arr r) q).

Lemma bubble_inner_step a0 n m j r :
  0 ≤ j → j + 1 < m → m ≤ n → bubble_inner_inv a0 n m j r →
  ∃ r', bubble_inner j r = Some r' ∧ bubble_inner_inv a0 n m (j + 1) r'.
Proof.
  intros Hj Hjm Hmn (Hlen & Htr & Hs & Hps & Hmax).
  unfold bubble_inner. simpl.
  destruct (get_in_range (arr r) j) as [x Hx]; [lia|].
  destruct (get_in_range (arr r) (j + 1)) as [y Hy]; [lia|].
  rewrite Hx, Hy. simpl.
  pose proof (val_get _ _ _ Hx) as Vx. pose proof (val_get _ _ _ Hy) as Vy.
  destruct (decide (value x > value y)) as [Hgt|Hle].
  - destruct (swap_Some _ _ _ _ _ Hx Hy) as [a' Ha']. rewrite Ha'. simpl.
    eexists; split; [reflexivity|].
    split_and!; simpl.
    + by rewrite (swap_length _ _ _ _ Ha').
    + apply tracks_push; [done|].
      apply (tracks_swap a0 (push (a_compare j (j + 1)) r)); [|done].
      by apply tracks_push.
    + intros p q Hp Hpq Hq. rewrite !(val_swap _ _ _ _ _ Ha').
      repeat case_decide; try lia. by apply Hs.
    + intros p q Hp Hq. rewrite !(val_swap _ _ _ _ _ Ha').
      repeat case_decide; try lia; apply Hps; lia.
    + intros p Hp. rewrite !(val_swap _ _ _ _ _ Ha').
      repeat case_decide; try lia. apply Hmax. lia.
  - eexists; split; [reflexivity|].
    split_and!; simpl; try done.
    + apply tracks_push; [done|]. by apply tracks_push.
    + intros p Hp. destruct (decide (p = j + 1)) as [->|]; [lia|].
      specialize (Hmax p). lia.
Qed.

Lemma bubble_outer_step a0 n i r :
  0 ≤ i < n → bubble_outer_inv a0 n i r →
  ∃ r', bubble_outer n i r = Some r' ∧ bubble_outer_inv a0 n (i + 1) r'.
Proof.
  intros Hi (Hlen & Htr & Hs & Hps). unfold bubble_outer.
  destruct (for_range_inv (bubble_inner_inv a0 n (n - i)) 0 (n - i - 1)
              bubble_inner r) as (r' & -> & Hlen' & Htr' & Hs' & Hps' & Hmax).
  { lia. }
  { split_and!; try done. intros p Hp. by replace p with 0 by lia. }
  { intros j r1 Hj. apply bubble_inner_step; lia. }
  simpl. eexists; split; [reflexivity|].
  split_and!; simpl; try done.
  - by apply tracks_push.
  - intros p q Hp Hpq Hq.
    destruct (decide (n - i ≤ p)); [apply Hs'; lia|].
    destruct (decide (q = p)) as [->|]; [lia|].
    apply Hps'; lia.
  - intros p q Hp Hq.
    destruct (decide (q = n - i - 1)) as [->|]; [apply Hmax; lia|].
    apply Hps'; lia.
Qed.

Lemma bubbleSort_sorts a0 : ∃ r, bubbleSort a0 = Some r ∧ sorts a0 r.
Proof.
  unfold bubbleSort.
  destruct (for_range_inv (bubble_outer_inv a0 (Z.of_nat (length a0))) 0
              (Z.of_nat (length a0))
              (bubble_outer (Z.of_nat (length a0)))
              {| arr := a0; anims := [] |})
    as (r & Hr & Hlen & Htr & Hs & _).
  { lia. }
  { split_and!; simpl; [done|apply tracks_init| |]; intros p q; lia. }
  { intros j r1 Hj. by apply bubble_outer_step. }
  exists r. split; [done|]. split_and!; [lia|done|].
  by rewrite Z.sub_diag in Hs.
Qed.

(** *** Insertion sort *)

Definition insertion_inner_inv (a0 : list ArrayBar) (n i key : Z)
    (s : Rec * Z) : Prop :=
  -1 ≤ s.2 < i ∧ Z.of_nat (length (arr s.1)) = n ∧
  tracks_hole a0 s.1 (s.2 + 1) key ∧
  (∀ p q, 0 ≤ p → p ≤ q → q ≤ i → p ≠ s.2 + 1 → q ≠ s.2 + 1 →
          val (arr s.1) p ≤ val (arr s.1) q) ∧
  (∀ q, s.2 + 1 < q ≤ i → key < val (arr s.1) q).

Definition insertion_outer_inv (a0 : list ArrayBar) (n i : Z) (r : Rec)
    : Prop :=
  Z.of_nat (length (arr r)) = n ∧ tracks a0 r ∧ sorted_range (arr r) 0 i.

Lemma insertion_inner_step a0 n i key s :
  0 ≤ i < n → insertion_inner_inv a0 n i key s →
  ∃ c, insertion_cond key s = Some c ∧
       (c = true →
        ∃ s', insertion_shift i s = Some s' ∧
              insertion_inner_inv a0 n i key s' ∧
              (Z.to_nat (s'.2 + 1) < Z.to_nat (s.2 + 1))%nat) ∧
       (c = false → s.2 < 0 ∨ val (arr s.1) s.2 ≤ key).
Proof.
  destruct s as [r j]. unfold insertion_inner_inv. simpl.
  intros Hi (Hj & Hlen & Htr & Hs & Hk).
  unfold insertion_cond.
  destruct (decide (j >= 0)) as [Hj0|Hj0].
  - destruct (get_in_range (arr r) j) as [x Hx]; [lia|].
    rewrite Hx. simpl. pose proof (val_get _ _ _ Hx) as Vx.
    eexists. split; [reflexivity|]. split.
    + intros Hc%bool_decide_eq_true. unfold insertion_shift. simpl.
      destruct (Js.set (arr r) (j + 1) x) as [a'|] eqn:Ha';
        [|by rewrite set_Some in Ha' by lia].
      simpl. eexists. split; [reflexivity|]. simpl.
      split; [|lia].
      split_and!; simpl.
      * lia.
      * lia.
      * destruct (decide (j - 1 >= 0)); simpl.
        -- by erewrite set_length.
        -- by erewrite set_length.
      * replace (j - 1 + 1) with j by lia.
        assert (tracks_hole a0
                  {| arr := a'; anims := anims r ++ [a_swap j (j + 1)] |}
                  j key) as Hh.
        { eapply tracks_hole_shift; [lia|done|done|done]. }
        destruct (decide (j - 1 >= 0)); [|done].
        by apply tracks_hole_push.
      * replace (j - 1 + 1) with j by lia.
        assert (∀ p q, 0 ≤ p → p ≤ q → q ≤ i → p ≠ j → q ≠ j →
                       val a' p ≤ val a' q) as Hs'.
        { intros p q Hp Hpq Hq Hpj Hqj. rewrite !(val_set _ _ _ _ _ Ha').
          repeat case_decide; subst; try lia.
          - rewrite <- Vx. apply Hs; lia.
          - rewrite <- Vx. apply Hs; lia.
          - apply Hs; lia. }
        by destruct (decide (j - 1 >= 0)).
      * replace (j - 1 + 1) with j by lia.
        assert (∀ q, j < q ≤ i → key < val a' q) as Hk'.
        { intros q Hq. rewrite (val_set _ _ _ _ _ Ha').
          case_decide; [lia|]. apply Hk. lia. }
        by destruct (decide (j - 1 >= 0)).
    + intros Hc%bool_decide_eq_false. right. lia.
  - exists false. split; [done|]. split; [done|]. intros _. left. lia.
Qed.

Lemma insertion_outer_step a0 n i r :
  1 ≤ i < n → insertion_outer_inv a0 n i r →
  ∃ r', insertion_outer i r = Some r' ∧ insertion_outer_inv a0 n (i + 1) r'.
Proof.
  intros Hi (Hlen & Htr & Hs). unfold insertion_outer.
  destruct (get_in_range (arr r) i) as [x Hx]; [lia|].
  rewrite Hx. cbn [mbind option_bind].
  destruct (while_inv (insertion_inner_inv a0 n i (value x))
              (λ s, Z.to_nat (s.2 + 1)) (S (Z.to_nat i))
              (insertion_cond (value x)) (insertion_shift i)
              (push (a_compare i (i - 1)) r, i - 1))
    as ([r' j] & -> & Hinv & Hc).
  { unfold insertion_inner_inv. split_and!; simpl; try lia.
    - replace (i - 1 + 1) with i by lia.
      apply tracks_hole_push; [done|]. by apply tracks_hole_init.
    - intros p q Hp Hpq Hq Hpi Hqi. apply Hs; lia. }
  { simpl. lia. }
  { intros s Hinv.
    destruct (insertion_inner_step a0 n i (value x) s) as (c & Hc & Ht & _);
      [lia|done|].
    exists c. split; [done|]. intros ->.
    destruct (Ht eq_refl) as (s' & Hs' & Hinv' & Hm). by exists s'. }
  destruct (insertion_inner_step a0 n i (value x) (r', j))
    as (c & Hc' & _ & Hf); [lia|done|].
  rewrite Hc in Hc'. injection Hc' as <-. specialize (Hf eq_refl).
  destruct Hinv as (Hj & Hlen' & Htr' & Hs' & Hk).
  simpl in *. cbn [mbind option_bind].
  destruct (Js.set (arr r') (j + 1) {| value := value x;
                                       state := st_default |})
    as [a'|] eqn:Ha'; [|by rewrite set_Some in Ha' by lia].
  simpl. eexists. split; [reflexivity|].
  split_and!; simpl.
  - by erewrite set_length.
  - apply tracks_push; [done|].
    apply (tracks_push a0 {| arr := a'; anims := anims r' |}); [done|].
    by eapply tracks_hole_fill.
  - intros p q Hp Hpq Hq. rewrite !(val_set _ _ _ _ _ Ha'). simpl.
    destruct (decide (p = j + 1)) as [Hpj|Hpj],
      (decide (q = j + 1)) as [Hqj|Hqj].
    + lia.
    + specialize (Hk q). lia.
    + destruct Hf as [Hf|Hf]; [lia|]. pose proof (Hs' p j). lia.
    + apply Hs'; lia.
Qed.

Lemma insertionSort_sorts a0 : ∃ r, insertionSort a0 = Some r ∧ sorts a0 r.
Proof.
  unfold insertionSort.
  assert (tracks a0 {| arr := a0; anims := [a_sorted 0] |}) as Htr0.
  { apply (tracks_push a0 {| arr := a0; anims := [] |}); [done|].
    apply tracks_init. }
  destruct (decide (Z.of_nat (length a0) ≤ 1)) as [Hn|Hn].
  - rewrite for_range_empty by lia. eexists. split; [reflexivity|].
    split_and!; simpl; [done|done|].
    intros p q Hp Hpq Hq. by replace q with p by lia.
  - destruct (for_range_inv (insertion_outer_inv a0 (Z.of_nat (length a0))) 1
                (Z.of_nat (length a0)) insertion_outer
                {| arr := a0; anims := [a_sorted 0] |})
      as (r & Hr & Hlen & Htr & Hs).
    { lia. }
    { split_and!; simpl; [done|done|].
      intros p q Hp Hpq Hq. by replace q with p by lia. }
    { intros j r1 Hj. by apply insertion_outer_step. }
    exists r. split; [done|]. split_and!; [lia|done|done].
Qed.

(** *** Merge sort *)

Section MergeProof.
Context (a0 a_in left right : list ArrayBar) (n start mid end_ : Z).
Context (Hbounds : 0 ≤ start ∧ end_ < n).
Context (Hsize : Z.of_nat (length left) + Z.of_nat (length right)
                 = end_ - start + 1).
Context (Hleft : sorted_range left 0 (Z.of_nat (length left))).
Context (Hright : sorted_range right 0 (Z.of_nat (length right))).

Definition merge_inv (s : MergeSt) : Prop :=
  0 ≤ m_i s ≤ Z.of_nat (length left) ∧
  0 ≤ m_j s ≤ Z.of_nat (length right) ∧
  m_k s = start + m_i s + m_j s ∧
  Z.of_nat (length (arr (m_rec s))) = n ∧
  tracks a0 (m_rec s) ∧
  (∀ p, p < start ∨ end_ < p → val (arr (m_rec s)) p = val a_in p) ∧
  sorted_range (arr (m_rec s)) start (m_k s) ∧
  (∀ p q, start ≤ p < m_k s → m_i s ≤ q < Z.of_nat (length left) →
          val (arr (m_rec s)) p ≤ val left q) ∧
  (∀ p q, start ≤ p < m_k s → m_j s ≤ q < Z.of_nat (length right) →
          val (arr (m_rec s)) p ≤ val right q).

Definition merge_measure (s : MergeSt) : nat :=
  Z.to_nat (Z.of_nat (length left) - m_i s
            + (Z.of_nat (length right) - m_j s)).

Lemma merge_take_left s l a' r' :
  merge_inv s → Js.get left (m_i s) = Some l →
  (∀ q, m_j s ≤ q < Z.of_nat (length right) → value l ≤ val right q) →
  Js.set (arr (m_rec s)) (m_k s) l = Some a' →
  tracks a0 r' → arr r' = a' →
  merge_inv {| m_rec := r'; m_i := m_i s + 1; m_j := m_j s;
               m_k := m_k s + 1 |}.
Proof.
  intros (Hi & Hj & Hk & Hlen & Htr & Hout & Hs & Hl & Hr) Hget Hle Hset
    Htr' Harr.
  pose proof (get_bounds _ _ _ Hget) as Hib.
  pose proof (val_get _ _ _ Hget) as Vl.
  unfold merge_inv. simpl. rewrite Harr. split_and!; try lia.
  - by erewrite set_length.
  - done.
  - intros p Hp. rewrite (val_set _ _ _ _ _ Hset).
    case_decide; [lia|]. by apply Hout.
  - intros p q Hp Hpq Hq. rewrite !(val_set _ _ _ _ _ Hset).
    destruct (decide (p = m_k s)), (decide (q = m_k s)); try lia.
    + rewrite <- Vl. apply Hl; lia.
    + apply Hs; lia.
  - intros p q Hp Hq. rewrite (val_set _ _ _ _ _ Hset).
    case_decide.
    + rewrite <- Vl. apply Hleft; lia.
    + apply Hl; lia.
  - intros p q Hp Hq. rewrite (val_set _ _ _ _ _ Hset).
    case_decide.
    + by apply Hle.
    + apply Hr; lia.
Qed.

Lemma merge_take_right s x a' r' :
  merge_inv s → Js.get right (m_j s) = Some x →
  (∀ q, m_i s ≤ q < Z.of_nat (length left) → value x ≤ val left q) →
  Js.set (arr (m_rec s)) (m_k s) x = Some a' →
  tracks a0 r' → arr r' = a' →
  merge_inv {| m_rec := r'; m_i := m_i s; m_j := m_j s + 1;
               m_k := m_k s + 1 |}.
Proof.
  intros (Hi & Hj & Hk & Hlen & Htr & Hout & Hs & Hl & Hr) Hget Hle Hset
    Htr' Harr.
  pose proof (get_bounds _ _ _ Hget) as Hjb.
  pose proof (val_get _ _ _ Hget) as Vx.
  unfold merge_inv. simpl. rewrite Harr. split_and!; try lia.
  - by erewrite set_length.
  - done.
  - intros p Hp. rewrite (val_set _ _ _ _ _ Hset).
    case_decide; [lia|]. by apply Hout.
  - intros p q Hp Hpq Hq. rewrite !(val_set _ _ _ _ _ Hset).
    destruct (decide (p = m_k s)), (decide (q = m_k s)); try lia.
    + rewrite <- Vx. apply Hr; lia.
    + apply Hs; lia.
  - intros p q Hp Hq. rewrite (val_set _ _ _ _ _ Hset).
    case_decide.
    + by apply Hle.
    + apply Hl; lia.
  - intros p q Hp Hq. rewrite (val_set _ _ _ _ _ Hset).
    case_decide.
    + rewrite <- Vx. apply Hright; lia.
    + apply Hr; lia.
Qed.

Lemma merge_set_in_range s (x : ArrayBar) :
  merge_inv s →
  m_i s + m_j s < Z.of_nat (length left) + Z.of_nat (length right) →
  ∃ a', Js.set (arr (m_rec s)) (m_k s) x = Some a'.
Proof.
  intros (Hi & Hj & Hk & Hlen & _) Hlt. eexists. apply set_Some. lia.
Qed.

Lemma merge_step1 s :
  merge_inv s →
  ∃ c, merge_cond1 left right s = Some c ∧
       (c = true →
        ∃ s', merge_body1 left right start mid s = Some s' ∧ merge_inv s' ∧
              (merge_measure s' < merge_measure s)%nat) ∧
       (c = false → m_i s = Z.of_nat (length left)
                    ∨ m_j s = Z.of_nat (length right)).
Proof.
  intros Hinv. pose proof Hinv as (Hi & Hj & Hk & Hlen & Htr & _).
  unfold merge_cond1. eexists. split; [reflexivity|]. split.
  - intros [Hil Hjl]%andb_true_iff. apply bool_decide_eq_true in Hil, Hjl.
    destruct s as [r i j k]. simpl in *. unfold merge_body1.
    destruct (get_in_range left i) as [l Hl]; [lia|].
    destruct (get_in_range right j) as [x Hx]; [lia|].
    rewrite Hl, Hx. cbn [mbind option_bind].
    pose proof (val_get _ _ _ Hl) as Vl. pose proof (val_get _ _ _ Hx) as Vx.
    destruct (decide (value l <= value x)) as [Hle|Hgt].
    + destruct (merge_set_in_range _ l Hinv) as [a' Ha']; [simpl; lia|].
      simpl in Ha'. simpl. rewrite Ha'. simpl.
      eexists. split; [reflexivity|]. split.
      * eapply (merge_take_left {| m_rec := r; m_i := i; m_j := j;
                                   m_k := k |} l a'); simpl; try done.
        -- intros q Hq.
           assert (val right j ≤ val right q) by (apply Hright; lia). lia.
        -- apply tracks_push; [done|].
           apply (tracks_overwrite a0 (push (a_compare _ _) r)); [|done].
           by apply tracks_push.
      * unfold merge_measure. simpl. lia.
    + destruct (merge_set_in_range _ x Hinv) as [a' Ha']; [simpl; lia|].
      simpl in Ha'. simpl. rewrite Ha'. simpl.
      eexists. split; [reflexivity|]. split.
      * eapply (merge_take_right {| m_rec := r; m_i := i; m_j := j;
                                    m_k := k |} x a'); simpl; try done.
        -- intros q Hq.
           assert (val left i ≤ val left q) by (apply Hleft; lia). lia.
        -- apply tracks_push; [done|].
           apply (tracks_overwrite a0 (push (a_compare _ _) r)); [|done].
           by apply tracks_push.
      * unfold merge_measure. simpl. lia.
  - intros [Hc|Hc]%andb_false_iff; apply bool_decide_eq_false in Hc; lia.
Qed.

Lemma merge_step2 s :
  merge_inv s ∧ (m_i s < Z.of_nat (length left) →
                 m_j s = Z.of_nat (length right)) →
  ∃ c, merge_cond2 left s = Some c ∧
       (c = true →
        ∃ s', merge_body2 left s = Some s' ∧
              (merge_inv s' ∧ (m_i s' < Z.of_nat (length left) →
                               m_j s' = Z.of_nat (length right))) ∧
              (merge_measure s' < merge_measure s)%nat) ∧
       (c = false → m_i s = Z.of_nat (length left)).
Proof.
  intros [Hinv Hex]. pose proof Hinv as (Hi & Hj & Hk & Hlen & Htr & _).
  unfold merge_cond2. eexists. split; [reflexivity|]. split.
  - intros Hil%bool_decide_eq_true. specialize (Hex Hil).
    destruct s as [r i j k]. simpl in *. unfold merge_body2.
    destruct (get_in_range left i) as [l Hl]; [lia|].
    rewrite Hl. cbn [mbind option_bind].
    destruct (merge_set_in_range _ l Hinv) as [a' Ha']; [simpl; lia|].
    simpl in Ha'. simpl. rewrite Ha'. simpl.
    eexists. split; [reflexivity|]. split; [split|].
    + eapply (merge_take_left {| m_rec := r; m_i := i; m_j := j;
                                 m_k := k |} l a'); simpl; try done.
      * intros q Hq. lia.
      * by apply tracks_overwrite.
    + simpl. done.
    + unfold merge_measure. simpl. lia.
  - intros Hc%bool_decide_eq_false. lia.
Qed.

Lemma merge_step3 s :
  merge_inv s ∧ m_i s = Z.of_nat (length left) →
  ∃ c, merge_cond3 right s = Some c ∧
       (c = true →
        ∃ s', merge_body3 right s = Some s' ∧
              (merge_inv s' ∧ m_i s' = Z.of_nat (length left)) ∧
              (merge_measure s' < merge_measure s)%nat) ∧
       (c = false → m_j s = Z.of_nat (length right)).
Proof.
  intros [Hinv Hex]. pose proof Hinv as (Hi & Hj & Hk & Hlen & Htr & _).
  unfold merge_cond3. eexists. split; [reflexivity|]. split.
  - intros Hjl%bool_decide_eq_true.
    destruct s as [r i j k]. simpl in *. unfold merge_body3.
    destruct (get_in_range right j) as [x Hx]; [lia|].
    rewrite Hx. cbn [mbind option_bind].
    destruct (merge_set_in_range _ x Hinv) as [a' Ha']; [simpl; lia|].
    simpl in Ha'. simpl. rewrite Ha'. simpl.
    eexists. split; [reflexivity|]. split; [split|].
    + eapply (merge_take_right {| m_rec := r; m_i := i; m_j := j;
                                  m_k := k |} x a'); simpl; try done.
      * intros q Hq. lia.
      * by apply tracks_overwrite.
    + simpl. done.
    + unfold merge_measure. simpl. lia.
  - intros Hc%bool_decide_eq_false. lia.
Qed.

End MergeProof.

Lemma val_slice (a : list ArrayBar) from to q :
  0 ≤ from ≤ to → to ≤ Z.of_nat (length a) → 0 ≤ q < to - from →
  val (Js.slice a from to) q = val a (from + q).
Proof.
  intros Hft Hto Hq. unfold val. rewrite get_slice by lia.
  by rewrite decide_True by lia.
Qed.

Lemma sorted_range_slice (a : list ArrayBar) from to :
  0 ≤ from ≤ to → to ≤ Z.of_nat (length a) →
  sorted_range a from to →
  sorted_range (Js.slice a from to) 0
    (Z.of_nat (length (Js.slice a from to))).
Proof.
  intros Hft Hto Hs p q Hp Hpq Hq. rewrite slice_length in Hq by lia.
  rewrite !val_slice by lia. apply Hs; lia.
Qed.

Lemma merge_spec a0 n r start mid end_ :
  0 ≤ start ≤ mid → mid < end_ → end_ < n →
  Z.of_nat (length (arr r)) = n → tracks a0 r →
  sorted_range (arr r) start (mid + 1) →
  sorted_range (arr r) (mid + 1) (end_ + 1) →
  ∃ r', merge r start mid end_ = Some r' ∧
        Z.of_nat (length (arr r')) = n ∧ tracks a0 r' ∧
        sorted_range (arr r') start (end_ + 1) ∧
        (∀ p, p < start ∨ end_ < p → val (arr r') p = val (arr r) p).
Proof.
  intros Hsm Hme Hen Hlen Htr Hsl Hsr. unfold merge.
  set (left := Js.slice (arr r) start (mid + 1)).
  set (right := Js.slice (arr r) (mid + 1) (end_ + 1)).
  assert (Z.of_nat (length left) = mid + 1 - start) as Hll
    by (apply slice_length; lia).
  assert (Z.of_nat (length right) = end_ - mid) as Hlr
    by (unfold right; rewrite slice_length; lia).
  assert (sorted_range left 0 (Z.of_nat (length left))) as Hleft
    by (apply sorted_range_slice; [lia|lia|done]).
  assert (sorted_range right 0 (Z.of_nat (length right))) as Hright
    by (apply sorted_range_slice; [lia|lia|done]).
  assert (0 ≤ start ∧ end_ < n) as Hb by lia.
  assert (Z.of_nat (length left) + Z.of_nat (length right)
          = end_ - start + 1) as Hsz by lia.
  pose (Inv := merge_inv a0 (arr r) left right n start end_).
  pose (M := merge_measure left right).
  destruct (while_inv Inv M (S (length left + length right))
              (merge_cond1 left right) (merge_body1 left right start mid)
              {| m_rec := r; m_i := 0; m_j := 0; m_k := start |})
    as (s1 & -> & Hinv1 & Hc1).
  { unfold Inv, merge_inv. simpl. split_and!; try done; try lia.
    intros p q. lia. }
  { unfold M, merge_measure. simpl. lia. }
  { intros s Hs.
    destruct (merge_step1 a0 (arr r) left right n start mid end_ Hb Hsz
                Hleft Hright s Hs) as (c & Hc & Ht & _).
    exists c. split; [done|]. intros ->. by apply Ht. }
  cbn [mbind option_bind].
  destruct (merge_step1 a0 (arr r) left right n start mid end_ Hb Hsz
              Hleft Hright s1 Hinv1) as (c & Hc & _ & Hf).
  rewrite Hc1 in Hc. injection Hc as <-. specialize (Hf eq_refl).
  destruct (while_inv
              (λ s, Inv s ∧ (m_i s < Z.of_nat (length left) →
                             m_j s = Z.of_nat (length right)))
              M (S (length left + length right))
              (merge_cond2 left) (merge_body2 left) s1)
    as (s2 & -> & Hinv2 & Hc2).
  { split; [done|]. lia. }
  { destruct Hinv1 as (? & ? & _). unfold M, merge_measure. lia. }
  { intros s Hs.
    destruct (merge_step2 a0 (arr r) left right n start end_ Hb Hsz
                Hleft s Hs) as (c & Hc & Ht & _).
    exists c. split; [done|]. intros ->. by apply Ht. }
  cbn [mbind option_bind].
  destruct (merge_step2 a0 (arr r) left right n start end_ Hb Hsz
              Hleft s2 Hinv2) as (c & Hc & _ & Hf2).
  rewrite Hc2 in Hc. injection Hc as <-. specialize (Hf2 eq_refl).
  destruct (while_inv
              (λ s, Inv s ∧ m_i s = Z.of_nat (length left))
              M (S (length left + length right))
              (merge_cond3 right) (merge_body3 right) s2)
    as (s3 & -> & Hinv3 & Hc3).
  { split; [apply Hinv2|done]. }
  { destruct Hinv2 as ((? & ? & _) & _). unfold M, merge_measure. lia. }
  { intros s Hs.
    destruct (merge_step3 a0 (arr r) left right n start end_ Hb Hsz
                Hright s Hs) as (c & Hc & Ht & _).
    exists c. split; [done|]. intros ->. by apply Ht. }
  cbn [mbind option_bind].
  destruct (merge_step3 a0 (arr r) left right n start end_ Hb Hsz
              Hright s3 Hinv3) as (c & Hc & _ & Hf3).
  rewrite Hc3 in Hc. injection Hc as <-. specialize (Hf3 eq_refl).
  destruct Hinv3 as ((Hi & Hj & Hk & Hlen3 & Htr3 & Hout & Hs3 & _) & Hi3).
  eexists. split; [reflexivity|]. split_and!; try done.
  by replace (end_ + 1) with (m_k s3) by lia.
Qed.

Lemma mergeSortHelper_spec fuel a0 n r start end_ :
  (Z.to_nat (end_ - start) < fuel)%nat → 0 ≤ start → end_ < n →
  Z.of_nat (length (arr r)) = n → tracks a0 r →
  ∃ r', mergeSortHelper fuel r start end_ = Some r' ∧
        Z.of_nat (length (arr r')) = n ∧ tracks a0 r' ∧
        sorted_range (arr r') start (end_ + 1) ∧
        (∀ p, p < start ∨ end_ < p → val (arr r') p = val (arr r) p).
Proof.
  revert r start end_.
  induction fuel as [|fuel IH]; intros r start end_ Hf Hs He Hlen Htr; [lia|].
  simpl. destruct (decide (start >= end_)) as [Hge|Hlt].
  - exists r. split_and!; try done. intros p q Hp Hpq Hq.
    by replace q with p by lia.
  - set (mid := (start + end_) `div` 2).
    assert (start ≤ mid < end_) as Hmid.
    { unfold mid. split.
      - apply Z.div_le_lower_bound; lia.
      - apply Z.div_lt_upper_bound; lia. }
    destruct (IH r start mid) as (r1 & -> & Hlen1 & Htr1 & Hs1 & Ho1);
      [lia|lia|lia|done|done|].
    cbn [mbind option_bind].
    destruct (IH r1 (mid + 1) end_) as (r2 & -> & Hlen2 & Htr2 & Hs2 & Ho2);
      [lia|lia|lia|done|done|].
    cbn [mbind option_bind].
    destruct (merge_spec a0 n r2 start mid end_)
      as (r3 & -> & Hlen3 & Htr3 & Hs3 & Ho3); try done; try lia.
    { intros p q Hp Hpq Hq. rewrite !Ho2 by lia. apply Hs1; lia. }
    exists r3. split_and!; try done.
    intros p Hp. rewrite Ho3, Ho2, Ho1 by lia. done.
Qed.

Lemma mark_sorted_loop a0 r n :
  sorts a0 r → ∃ r', for_range 0 n mark_sorted r = Some r' ∧ sorts a0 r'.
Proof.
  intros Hs. destruct (decide (0 ≤ n)) as [Hn|Hn].
  - destruct (for_range_inv (λ _ r, sorts a0 r) 0 n mark_sorted r)
      as (r' & Hr & Hs'); [lia|done| |by exists r'].
    intros j r1 _ (Hl & Ht & Hso). eexists. split; [reflexivity|].
    split_and!; simpl; [done|by apply tracks_push|done].
  - rewrite for_range_empty by lia. by exists r.
Qed.

Lemma mergeSort_sorts a0 : ∃ r, mergeSort a0 = Some r ∧ sorts a0 r.
Proof.
  unfold mergeSort.
  destruct (mergeSortHelper_spec (S (length a0)) a0 (Z.of_nat (length a0))
              {| arr := a0; anims := [] |} 0 (Z.of_nat (length a0) - 1))
    as (r & -> & Hlen & Htr & Hs & _); simpl; try lia; try done.
  { apply tracks_init. }
  cbn [mbind option_bind]. apply mark_sorted_loop.
  split_and!; [lia|done|].
  by replace (Z.of_nat (length a0) - 1 + 1) with (Z.of_nat (length a0)) in Hs
    by lia.
Qed.

(** *** Quick sort *)

(** [a] differs from [a_in] only inside [lo..hi], and what it holds there
    was there in [a_in]. *)
Definition within (a_in a : list ArrayBar) (lo hi : Z) : Prop :=
  (∀ p, p < lo ∨ hi < p → val a p = val a_in p) ∧
  (∀ p, lo ≤ p ≤ hi → ∃ q, lo ≤ q ≤ hi ∧ val a p = val a_in q).

Lemma within_refl a lo hi : within a a lo hi.
Proof. split; [done|]. intros p Hp. by exists p. Qed.

Lemma within_compose a b c lo hi lo' hi' :
  within a b lo hi → within b c lo' hi' → lo ≤ lo' → hi' ≤ hi →
  within a c lo hi.
Proof.
  intros [Ho1 Hi1] [Ho2 Hi2] Hlo Hhi. split.
  - intros p Hp. rewrite Ho2 by lia. by apply Ho1.
  - intros p Hp. destruct (decide (lo' ≤ p ≤ hi')) as [Hin|Hout].
    + destruct (Hi2 p Hin) as (q & Hq & ->). apply Hi1. lia.
    + rewrite Ho2 by lia. by apply Hi1.
Qed.

Lemma within_swap a_in a lo hi i j a' :
  within a_in a lo hi → lo ≤ i ≤ hi → lo ≤ j ≤ hi →
  Js.swap a i j = Some a' → within a_in a' lo hi.
Proof.
  intros [Ho Hi] Hii Hjj Hsw. split.
  - intros p Hp. rewrite (val_swap _ _ _ _ _ Hsw).
    repeat case_decide; try lia. by apply Ho.
  - intros p Hp. rewrite (val_swap _ _ _ _ _ Hsw).
    repeat case_decide; by apply Hi.
Qed.

Definition partition_inv (a0 a_in : list ArrayBar) (n low high pivot j : Z)
    (s : Rec * Z) : Prop :=
  low - 1 ≤ s.2 < j ∧ Z.of_nat (length (arr s.1)) = n ∧ tracks a0 s.1 ∧
  val (arr s.1) high = pivot ∧
  (∀ p, low ≤ p ≤ s.2 → val (arr s.1) p < pivot) ∧
  (∀ p, s.2 < p < j → pivot ≤ val (arr s.1) p) ∧
  within a_in (arr s.1) low high.

Lemma partition_step a0 a_in n low high pivot j s :
  0 ≤ low → high < n → low ≤ j < high →
  partition_inv a0 a_in n low high pivot j s →
  ∃ s', partition_body high pivot j s = Some s' ∧
        partition_inv a0 a_in n low high pivot (j + 1) s'.
Proof.
  destruct s as [r i]. unfold partition_inv. simpl.
  intros Hlow Hhigh Hj (Hi & Hlen & Htr & Hpv & Hlt & Hge & Hw).
  unfold partition_body. simpl.
  destruct (get_in_range (arr r) j) as [x Hx]; [lia|].
  rewrite Hx. cbn [mbind option_bind].
  pose proof (val_get _ _ _ Hx) as Vx.
  destruct (decide (value x < pivot)) as [Hc|Hc].
  - destruct (get_in_range (arr r) (i + 1)) as [y Hy]; [lia|].
    destruct (swap_Some _ _ _ _ _ Hy Hx) as [a' Ha'].
    rewrite Ha'. simpl. eexists. split; [reflexivity|]. simpl.
    split_and!.
    + lia.
    + lia.
    + by erewrite swap_length.
    + apply tracks_push; [done|].
      apply (tracks_swap a0 (push (a_compare j high) r)); [|done].
      by apply tracks_push.
    + rewrite (val_swap _ _ _ _ _ Ha'). repeat case_decide; lia.
    + intros p Hp. rewrite (val_swap _ _ _ _ _ Ha').
      destruct (decide (p = j)) as [->|Hpj].
      { replace (i + 1) with j by lia. lia. }
      destruct (decide (p = i + 1)) as [->|Hpi]; [lia|].
      apply Hlt. lia.
    + intros p Hp. rewrite (val_swap _ _ _ _ _ Ha').
      destruct (decide (p = j)) as [->|Hpj].
      { apply Hge. lia. }
      destruct (decide (p = i + 1)) as [->|Hpi]; [lia|].
      apply Hge. lia.
    + eapply within_swap; [done| | |done]; lia.
  - eexists. split; [reflexivity|]. simpl. split_and!; try done; try lia.
    + apply tracks_push; [done|]. by apply tracks_push.
    + intros p Hp. destruct (decide (p = j)) as [->|]; [lia|].
      apply Hge. lia.
Qed.

Lemma partition_spec a0 n r low high :
  0 ≤ low → low < high → high < n →
  Z.of_nat (length (arr r)) = n → tracks a0 r →
  ∃ r' pi,
    partition r low high = Some (r', pi) ∧ low ≤ pi ≤ high ∧
    Z.of_nat (length (arr r')) = n ∧ tracks a0 r' ∧
    within (arr r) (arr r') low high ∧
    (∀ p, low ≤ p < pi → val (arr r') p < val (arr r') pi) ∧
    (∀ p, pi < p ≤ high → val (arr r') pi ≤ val (arr r') p).
Proof.
  intros Hlow Hlh Hhigh Hlen Htr. unfold partition.
  destruct (get_in_range (arr r) high) as [pv Hpv]; [lia|].
  rewrite Hpv. cbn [mbind option_bind].
  pose proof (val_get _ _ _ Hpv) as Vpv.
  destruct (for_range_inv
              (partition_inv a0 (arr r) n low high (value pv)) low high
              (partition_body high (value pv))
              (push (a_pivot high) r, low - 1))
    as ([r1 i] & -> & Hinv).
  { lia. }
  { unfold partition_inv. simpl. split_and!; try done; try lia.
    - by apply tracks_push.
    - apply within_refl. }
  { intros j s Hj. by apply partition_step. }
  unfold partition_inv in Hinv. simpl in Hinv.
  destruct Hinv as (Hi & Hlen1 & Htr1 & Hpv1 & Hlt & Hge & Hw).
  cbn [mbind option_bind]. simpl.
  destruct (get_in_range (arr r1) (i + 1)) as [y Hy]; [lia|].
  destruct (get_in_range (arr r1) high) as [z Hz]; [lia|].
  destruct (swap_Some _ _ _ _ _ Hy Hz) as [a' Ha'].
  rewrite Ha'. simpl. eexists _, _. split; [reflexivity|]. simpl.
  split_and!.
  - lia.
  - lia.
  - by erewrite swap_length.
  - apply tracks_push; [done|]. apply tracks_push; [done|].
    by apply (tracks_swap a0 r1).
  - eapply within_swap; [done| | |done]; lia.
  - assert (val a' (i + 1) = value pv) as ->.
    { rewrite (val_swap _ _ _ _ _ Ha').
      destruct (decide (i + 1 = high)) as [->|Hne]; [done|].
      by rewrite decide_True. }
    intros p Hp. rewrite (val_swap _ _ _ _ _ Ha').
    rewrite !decide_False by lia. apply Hlt. lia.
  - assert (val a' (i + 1) = value pv) as ->.
    { rewrite (val_swap _ _ _ _ _ Ha').
      destruct (decide (i + 1 = high)) as [->|Hne]; [done|].
      by rewrite decide_True. }
    intros p Hp. rewrite (val_swap _ _ _ _ _ Ha').
    destruct (decide (p = high)) as [->|Hne]; [apply Hge; lia|].
    rewrite decide_False by lia. apply Hge. lia.
Qed.

Lemma quickSortHelper_spec fuel a0 n r low high :
  (Z.to_nat (high - low) < fuel)%nat →
  (low < high → 0 ≤ low ∧ high < n) →
  Z.of_nat (length (arr r)) = n → tracks a0 r →
  ∃ r', quickSortHelper fuel r low high = Some r' ∧
        Z.of_nat (length (arr r')) = n ∧ tracks a0 r' ∧
        within (arr r) (arr r') low high ∧
        sorted_range (arr r') low (high + 1).
Proof.
  revert r low high.
  induction fuel as [|fuel IH]; intros r low high Hf Hb Hlen Htr; [lia|].
  simpl. destruct (decide (low < high)) as [Hlt|Hge].
  - destruct (Hb Hlt) as [Hlow Hhigh].
    destruct (partition_spec a0 n r low high)
      as (r1 & pi & -> & Hpi & Hlen1 & Htr1 & Hw1 & Hl1 & Hr1); try done.
    cbn [mbind option_bind].
    destruct (IH r1 low (pi - 1))
      as (r2 & -> & Hlen2 & Htr2 & Hw2 & Hs2); [lia|lia|done|done|].
    cbn [mbind option_bind].
    destruct (IH r2 (pi + 1) high)
      as (r3 & Hr3 & Hlen3 & Htr3 & Hw3 & Hs3); [lia|lia|done|done|].
    exists r3. split; [done|]. split_and!; try done.
    + eapply within_compose; [|exact Hw3|lia|lia].
      eapply within_compose; [exact Hw1|exact Hw2|lia|lia].
    + destruct Hw2 as [Ho2 Hi2], Hw3 as [Ho3 Hi3].
      assert (val (arr r3) pi = val (arr r1) pi) as Hp.
      { rewrite Ho3, Ho2 by lia. done. }
      assert (∀ p, low ≤ p < pi → val (arr r3) p < val (arr r1) pi) as HL.
      { intros p Hp'. rewrite Ho3 by lia.
        destruct (Hi2 p) as (q & Hq & ->); [lia|]. apply Hl1. lia. }
      assert (∀ p, pi < p ≤ high → val (arr r1) pi ≤ val (arr r3) p) as HR.
      { intros p Hp'. destruct (Hi3 p) as (q & Hq & ->); [lia|].
        rewrite Ho2 by lia. apply Hr1. lia. }
      intros p q Hp' Hpq Hq.
      destruct (decide (q < pi)) as [Hq1|Hq1].
      { rewrite !Ho3 by lia. apply Hs2; lia. }
      destruct (decide (pi < p)) as [Hp1|Hp1].
      { apply Hs3; lia. }
      destruct (decide (p = pi)) as [->|Hp2],
        (decide (q = pi)) as [->|Hq2]; try lia.
      * specialize (HR q). lia.
      * specialize (HL p). lia.
      * specialize (HL p). specialize (HR q). lia.
  - destruct (decide (low = high)) as [->|Hne].
    + eexists. split; [reflexivity|]. simpl. split_and!; try done.
      * by apply tracks_push.
      * apply within_refl.
      * intros p q Hp Hpq Hq. by replace q with p by lia.
    + exists r. split_and!; try done.
      * apply within_refl.
      * intros p q Hp Hpq Hq. lia.
Qed.

Lemma quickSort_sorts a0 : ∃ r, quickSort a0 = Some r ∧ sorts a0 r.
Proof.
  unfold quickSort.
  destruct (quickSortHelper_spec (S (length a0)) a0 (Z.of_nat (length a0))
              {| arr := a0; anims := [] |} 0 (Z.of_nat (length a0) - 1))
    as (r & -> & Hlen & Htr & _ & Hs); simpl; try lia; try done.
  { apply tracks_init. }
  cbn [mbind option_bind]. apply mark_sorted_loop.
  split_and!; [lia|done|].
  by replace (Z.of_nat (length a0) - 1 + 1) with (Z.of_nat (length a0)) in Hs
    by lia.
Qed.

(** C1: each of the four recorders returns an event sequence whose swap
    and overwrite events, replayed in order onto the input array as
    [animateSort] applies them, leave an array of bars whose values are in
    non-decreasing order. *)
Theorem recorders_replay_sorted (algorithm : SortAlgorithm)
    (array : list ArrayBar) :
  ∃ r vis out,
    recorder algorithm array = Some r ∧
    replay_moves (anims r) (visual array) = Some vis ∧
    slot_value <$> vis = Some <$> out ∧
    length out = length array ∧
    Sorted Z.le out.
Proof.
  assert (∃ r, recorder algorithm array = Some r ∧ sorts array r)
    as (r & Hr & Hlen & (vis & Hvis & Hv) & Hs).
  { destruct algorithm; simpl.
    - apply bubbleSort_sorts.
    - apply mergeSort_sorts.
    - apply quickSort_sorts.
    - apply insertionSort_sorts. }
  exists r, vis, (value <$> arr r). split_and!; try done.
  - rewrite <- list_fmap_compose. exact Hv.
  - by rewrite length_fmap.
  - apply sorted_range_Sorted. by rewrite Hlen.
Qed.

(** The example of the specification: bubble sort on [5; 3; 8; 1]. *)
Example bubble_5381 :
  (r ← bubbleSort (bars [5; 3; 8; 1]);
   vis ← replay (anims r) (visual (bars [5; 3; 8; 1]));
   Some (slot_value <$> (vis : list Slot)))
  = Some [Some 1; Some 3; Some 5; Some 8].
Proof. vm_compute. reflexivity. Qed.

End SortingProofs.

(** ** Shortest paths on the grid *)

Module PathProofs.
Import Pathfinding GridStore.
Local Open Scope nat_scope.

(** *** Vocabulary *)

(** Two places next to each other, in a row or in a column. *)
Definition adjacent (p q : Ref) : Prop :=
  (p.1 = q.1 ∧ (p.2 = S q.2 ∨ q.2 = S p.2)) ∨
  (p.2 = q.2 ∧ (p.1 = S q.1 ∨ q.1 = S p.1)).

(** A cell of the grid that is not a wall. *)
Definition passable (gr : Grid) (p : Ref) : Prop :=
  ∃ c, cell gr p = Some c ∧ type c ≠ Wall.

(** A wall-avoiding path: passable cells, each next to the one before. *)
Inductive is_path (gr : Grid) : list Ref → Prop :=
| path_one p : passable gr p → is_path gr [p]
| path_cons p q l :
    passable gr p → adjacent p q → is_path gr (q :: l) →
    is_path gr (p :: q :: l).

Definition path_between (gr : Grid) (s e : Ref) (l : list Ref) : Prop :=
  is_path gr l ∧ head l = Some s ∧ last l = Some e.

(** A grid as the component builds it, before a run: every row as long as
    the first, every cell knowing its place, and the search fields as
    [createNode] sets them. *)
Definition well_formed (gr : Grid) : Prop :=
  (∀ i r r0, gr !! i = Some r → gr !! 0 = Some r0 → length r = length r0) ∧
  ∀ p c, cell gr p = Some c →
         row c = p.1 ∧ col c = p.2 ∧ distance c = Infinity ∧
         isVisited c = false ∧ previousNode c = None ∧ g c = 0.

(** One move between passable cells. *)
Definition step (gr : Grid) (p q : Ref) : Prop :=
  adjacent p q ∧ passable gr p ∧ passable gr q.

(** [reach gr s k p]: some wall-avoiding walk of [k] moves leads from [s]
    to [p]. *)
Definition reach (gr : Grid) (s : Ref) (k : nat) (p : Ref) : Prop :=
  passable gr s ∧ nsteps (step gr) k s p.

(** [k] is the least number of moves from [s] to [p]. *)
Definition exact (gr : Grid) (s : Ref) (k : nat) (p : Ref) : Prop :=
  reach gr s k p ∧ ∀ j, reach gr s j p → k ≤ j.

(** The fields of the cell at a place. *)
Definition vis (gr : Grid) (p : Ref) : bool :=
  from_option isVisited false (cell gr p).
Definition prev (gr : Grid) (p : Ref) : option Ref :=
  cell gr p ≫= previousNode.
Definition gsc (gr : Grid) (p : Ref) : nat := from_option g 0 (cell gr p).

Lemma adjacent_sym p q : adjacent p q → adjacent q p.
Proof. unfold adjacent. naive_solver. Qed.

Lemma adjacent_ne p q : adjacent p q → p ≠ q.
Proof. unfold adjacent. intros H ->. lia. Qed.

Lemma passable_frame g0 gr p :
  same_frame g0 gr → passable g0 p ↔ passable gr p.
Proof.
  intros (_ & _ & Hn & Hc). split.
  - intros (c & Hp & Ht). destruct (Hc p c Hp) as (c' & Hp' & _ & _ & Ht').
    exists c'. split; [done|]. congruence.
  - intros (c' & Hp' & Ht').
    destruct (cell g0 p) as [c|] eqn:Hp.
    + destruct (Hc p c Hp) as (c'' & Hp'' & _ & _ & Ht'').
      exists c. split; [done|]. congruence.
    + apply Hn in Hp. congruence.
Qed.

Lemma reach_passable gr s k p : reach gr s k p → passable gr p.
Proof.
  intros [Hs Hn]. destruct k.
  - by inversion Hn; subst.
  - apply nsteps_inv_r in Hn as (y & _ & _ & _ & Hp). done.
Qed.

Lemma reach_step gr s k p q :
  reach gr s k p → adjacent p q → passable gr q → reach gr s (S k) q.
Proof.
  intros Hr Ha Hq. pose proof (reach_passable _ _ _ _ Hr) as Hp.
  destruct Hr as [Hs Hn]. split; [done|].
  eapply nsteps_r; [exact Hn|]. by split_and!.
Qed.

Lemma exact_unique gr s k1 k2 p :
  exact gr s k1 p → exact gr s k2 p → k1 = k2.
Proof. intros [H1 M1] [H2 M2]. apply M1 in H2. apply M2 in H1. lia. Qed.

(** *** The stable sort puts a least element first *)

Section SortFacts.
Context {A : Type} (lt : A → A → bool).
Context (lt_asym : ∀ a b, lt a b = true → lt b a = false).
Context (lt_negtrans :
           ∀ a b c, lt a b = false → lt b c = false → lt a c = false).

Lemma insert_sorted_perm x l : insert_sorted lt x l ≡ₚ x :: l.
Proof.
  induction l as [|y l IH]; simpl; [done|].
  destruct (lt y x); [|done]. rewrite IH. apply Permutation_swap.
Qed.

Lemma stable_sort_perm l : stable_sort lt l ≡ₚ l.
Proof.
  induction l as [|x l IH]; simpl; [done|].
  unfold stable_sort in *. simpl. by rewrite insert_sorted_perm, IH.
Qed.

Definition head_least (l : list A) : Prop :=
  ∀ m rest, l = m :: rest → ∀ q, q ∈ l → lt q m = false.

Lemma lt_irrefl a : lt a a = false.
Proof.
  destruct (lt a a) eqn:H; [|done]. by rewrite (lt_asym _ _ H) in H.
Qed.

Lemma insert_sorted_head_least x l :
  head_least l → head_least (insert_sorted lt x l).
Proof.
  intros Hl m rest Heq q Hq.
  rewrite insert_sorted_perm in Hq.
  destruct l as [|y l]; simpl in Heq.
  - injection Heq as <- <-. apply list_elem_of_singleton in Hq as ->.
    apply lt_irrefl.
  - specialize (Hl y l eq_refl).
    destruct (lt y x) eqn:Hyx.
    + injection Heq as <- <-.
      apply elem_of_cons in Hq as [->|Hq]; [by apply lt_asym|by apply Hl].
    + injection Heq as <- <-.
      apply elem_of_cons in Hq as [->|Hq]; [apply lt_irrefl|].
      eapply lt_negtrans; [by apply Hl|done].
Qed.

Lemma stable_sort_head_least l : head_least (stable_sort lt l).
Proof.
  induction l as [|x l IH].
  - intros m rest Heq. done.
  - unfold stable_sort in *. simpl. by apply insert_sorted_head_least.
Qed.

Lemma stable_sort_head l m rest :
  stable_sort lt l = m :: rest →
  m ∈ l ∧ (∀ q, q ∈ l → lt q m = false) ∧ m :: rest ≡ₚ l.
Proof.
  intros Heq. pose proof (stable_sort_perm l) as Hp. rewrite Heq in Hp.
  split_and!; [|intros q Hq|done].
  - rewrite <- Hp. by left.
  - apply (stable_sort_head_least l m rest Heq). by rewrite stable_sort_perm.
Qed.

End SortFacts.

(** *** The cells of a grid and the neighbors of a cell *)

Lemma elem_of_getAllNodes gr p : p ∈ getAllNodes gr ↔ is_Some (cell gr p).
Proof.
  unfold getAllNodes, cell. rewrite list_elem_of_join. split.
  - intros (l & Hp & Hl). apply list_elem_of_lookup in Hl as [i Hi].
    rewrite list_lookup_imap in Hi.
    destruct (gr !! i) as [r|] eqn:Hr; [|done]. injection Hi as <-.
    apply list_elem_of_lookup in Hp as [j Hj].
    rewrite list_lookup_imap in Hj.
    destruct (r !! j) as [c|] eqn:Hc; [|done]. injection Hj as <-.
    simpl. rewrite Hr. simpl. by rewrite Hc.
  - intros [c Hc]. destruct p as [i j]. simpl in Hc.
    destruct (gr !! i) as [r|] eqn:Hr; [|done]. simpl in Hc.
    exists (imap (λ c _, (i, c)) r). split.
    + apply list_elem_of_lookup. exists j.
      by rewrite list_lookup_imap, Hc.
    + apply list_elem_of_lookup. exists i.
      by rewrite list_lookup_imap, Hr.
Qed.

Definition rectangular (gr : Grid) : Prop :=
  ∀ i r r0, gr !! i = Some r → gr !! 0 = Some r0 → length r = length r0.

Lemma cell_is_Some gr r0 i j :
  rectangular gr → gr !! 0 = Some r0 →
  is_Some (cell gr (i, j)) ↔ i < length gr ∧ j < length r0.
Proof.
  intros Hrect H0. unfold cell. simpl. split.
  - intros [c Hc]. destruct (gr !! i) as [r|] eqn:Hr; [|done]. simpl in Hc.
    split; [by eapply lookup_lt_Some|].
    rewrite <- (Hrect i r r0 Hr H0). by eapply lookup_lt_Some.
  - intros [Hi Hj]. destruct (lookup_lt_is_Some_2 gr i Hi) as [r Hr].
    rewrite Hr. simpl. apply lookup_lt_is_Some_2.
    by rewrite (Hrect i r r0 Hr H0).
Qed.

Lemma rectangular_frame g0 gr :
  same_frame g0 gr → rectangular g0 → rectangular gr.
Proof.
  intros (Hl & Hr & _) Hrect i r r0 Hi H0.
  pose proof (Hr i) as Hri. pose proof (Hr 0) as Hr0.
  rewrite Hi in Hri. rewrite H0 in Hr0. simpl in *.
  destruct (g0 !! i) as [r'|] eqn:Hi'; [|done].
  destruct (g0 !! 0) as [r0'|] eqn:H0'; [|done].
  simpl in *. injection Hri as Hri. injection Hr0 as Hr0.
  rewrite Hri, Hr0. by eapply Hrect.
Qed.

Lemma getNeighbors_spec gr c p :
  rectangular gr → is_Some (cell gr p) → row c = p.1 → col c = p.2 →
  ∃ ns, getNeighbors c gr = Some ns ∧
        ∀ q, q ∈ ns ↔ adjacent p q ∧
                      ∃ cq, cell gr q = Some cq ∧ isVisited cq = false.
Proof.
  intros Hrect [c' Hc] Hrow Hcol. destruct p as [pr pc]. simpl in *.
  assert (is_Some (gr !! 0)) as [r0 H0].
  { apply lookup_lt_is_Some_2. unfold cell in Hc. simpl in Hc.
    destruct (gr !! pr) eqn:Hr; [|done]. apply lookup_lt_Some in Hr. lia. }
  assert (pr < length gr ∧ pc < length r0) as [Hpr Hpc].
  { apply (cell_is_Some gr r0 pr pc Hrect H0). by exists c'. }
  unfold getNeighbors. rewrite Hrow, Hcol, H0. cbn [mbind option_bind].
  set (cand := _ ++ _ ++ _ ++ _).
  assert (∀ q, q ∈ cand ↔ adjacent (pr, pc) q ∧ is_Some (cell gr q))
    as Hcand.
  { intros [qr qc]. rewrite (cell_is_Some gr r0 qr qc Hrect H0).
    unfold cand, adjacent. simpl. rewrite !elem_of_app.
    repeat case_decide;
      rewrite ?list_elem_of_singleton, ?elem_of_nil, ?pair_equal_spec;
      lia. }
  destruct (mapM (λ q, cq ← cell gr q; Some (q, cq)) cand) as [cells|]
    eqn:Hm.
  - cbn [mbind option_bind]. eexists. split; [reflexivity|].
    apply mapM_Some in Hm. intros q. rewrite list_elem_of_fmap. split.
    + intros ([q' cq] & -> & [Hv Hin]%list_elem_of_filter). simpl in *.
      apply list_elem_of_lookup in Hin as [i Hi].
      destruct (Forall2_lookup_r _ _ _ _ _ Hm Hi) as (q & Hq & Hf).
      destruct (cell gr q) as [cq'|] eqn:Hcq; [|done]. simpl in Hf.
      injection Hf as -> ->. split; [|by exists cq].
      apply Hcand. by eapply list_elem_of_lookup_2.
    + intros [Hadj (cq & Hcq & Hv)].
      assert (q ∈ cand) as Hin by (apply Hcand; split; [done|by exists cq]).
      apply list_elem_of_lookup in Hin as [i Hi].
      destruct (Forall2_lookup_l _ _ _ _ _ Hm Hi) as ([q' cq'] & Hq & Hf).
      rewrite Hcq in Hf. simpl in Hf. injection Hf as <- <-.
      exists (q, cq). split; [done|]. apply list_elem_of_filter.
      split; [done|]. by eapply list_elem_of_lookup_2.
  - exfalso. apply mapM_None in Hm. apply Exists_exists in Hm
      as (q & Hq & Hn).
    apply Hcand in Hq as [_ [cq Hcq]]. by rewrite Hcq in Hn.
Qed.

(** Writing the same fields to several cells. *)
Lemma cell_foldl_update gr ns upd q :
  (∀ c, upd (upd c) = upd c) →
  cell (foldl (λ gr n, update gr n upd) gr ns) q
  = if decide (q ∈ ns) then upd <$> cell gr q else cell gr q.
Proof.
  intros Hidem. revert gr. induction ns as [|n ns IH]; intros gr; simpl.
  - done.
  - rewrite IH, cell_update.
    destruct (decide (q ∈ n :: ns)) as [Hin|Hnin].
    + destruct (decide (q ∈ ns)) as [Hin'|Hnin'].
      * case_decide; [|done].
        destruct (cell gr q); simpl; [by rewrite Hidem|done].
      * assert (n = q) as ->
          by (apply elem_of_cons in Hin as [->|?]; done).
        by rewrite decide_True.
    + rewrite decide_False by (intros ?; apply Hnin; by right).
      rewrite decide_False; [done|]. intros ->. apply Hnin. by left.
Qed.

(** *** The first cell of a walk that is still to be visited *)

Section Frontier.
Context (g0 : Grid) (s : Ref).
Context (visited : Ref → bool) (front : Ref → nat → Prop).
Context (Hexp : ∀ x a y, visited x = true → reach g0 s a x → step g0 x y →
                         visited y = false → front y (S a)).
Context (Hstart : visited s = false → front s 0).

Lemma frontier_from a x j p :
  reach g0 s a x → visited x = true ∨ front x a →
  nsteps (step g0) j x p → visited p = false →
  ∃ i q, i ≤ j ∧ front q (a + i) ∧ nsteps (step g0) (j - i) q p.
Proof.
  revert a x. induction j as [|j IH]; intros a x Hr Hx Hw Hp.
  - inversion Hw; subst. destruct Hx as [Hx|Hx]; [congruence|].
    exists 0, p. rewrite Nat.add_0_r. split_and!; [done|done|constructor].
  - destruct Hx as [Hx|Hx].
    + inversion Hw as [|? ? y ? Hxy Hyp]; subst.
      destruct (visited y) eqn:Hy.
      * destruct (IH (S a) y) as (i & q & Hi & Hq & Hqp); try done.
        { destruct Hxy as (? & ? & ?). by eapply reach_step. }
        { by left. }
        exists (S i), q. split_and!; [lia| |done].
        by replace (a + S i) with (S a + i) by lia.
      * exists 1, y. split_and!; [lia| |].
        -- replace (a + 1) with (S a) by lia. by eapply Hexp.
        -- by replace (S j - 1) with j by lia.
    + exists 0, x. rewrite Nat.add_0_r. split_and!; [lia|done|].
      by replace (S j - 0) with (S j) by lia.
Qed.

Lemma frontier_on_walk j p :
  reach g0 s j p → visited p = false →
  ∃ i q, i ≤ j ∧ front q i ∧ nsteps (step g0) (j - i) q p.
Proof.
  intros [Hs Hw] Hp.
  destruct (frontier_from 0 s j p) as (i & q & Hi & Hq & Hqp); try done.
  - split; [done|constructor].
  - destruct (visited s) eqn:Hv; [by left|right; by apply Hstart].
  - by exists i, q.
Qed.

End Frontier.

(** *** The walk over the back-pointers *)

Lemma is_path_snoc gr l q p :
  is_path gr l → last l = Some q → adjacent q p → passable gr p →
  is_path gr (l ++ [p]).
Proof.
  intros Hl. revert q. induction Hl as [x Hx|x y l Hx Hxy Hl IH];
    intros q Hq Hqp Hp.
  - injection Hq as ->. simpl. constructor; [done|done|by constructor].
  - simpl. constructor; [done|done|]. apply (IH q); try done.
Qed.

Section Chain.
Context (gr : Grid) (s : Ref) (lab : Ref → option nat).
Context (Hlab : ∀ p k, lab p = Some k →
           passable gr p ∧
           ((k = 0 ∧ p = s ∧ prev gr p = None) ∨
            (∃ q k', k = S k' ∧ prev gr p = Some q ∧ lab q = Some k' ∧
                     adjacent q p))).

Lemma chain_exists k p :
  lab p = Some k →
  ∃ l, length l = S k ∧ is_path gr l ∧ head l = Some s ∧ last l = Some p ∧
       (∀ i x, l !! i = Some x → lab x = Some i) ∧
       ∀ fuel acc, k < fuel → shortestPath_loop fuel gr p acc = Some (l ++ acc).
Proof.
  revert p. induction k as [|k IH]; intros p Hp.
  - destruct (Hlab p 0 Hp) as [(c & Hc & Ht) [(_ & -> & Hprev)|Hq]].
    + exists [s]. split_and!; try done.
      * constructor. by exists c.
      * intros [|i] x Hx; [|done]. by injection Hx as <-.
      * intros [|fuel] acc Hf; [lia|]. simpl. rewrite Hc. simpl.
        unfold prev in Hprev. rewrite Hc in Hprev. simpl in Hprev.
        by rewrite Hprev.
    + destruct Hq as (q & k' & Hk & _). done.
  - destruct (Hlab p (S k) Hp) as [(c & Hc & Ht) [(Hk & _)|Hq]]; [done|].
    destruct Hq as (q & k' & Hk & Hprev & Hq & Hadj). injection Hk as <-.
    destruct (IH q Hq) as (l & Hlen & Hpath & Hhd & Hlast & Hlabs & Hrun).
    exists (l ++ [p]). split_and!.
    + rewrite length_app. simpl. lia.
    + eapply is_path_snoc; try done. by exists c.
    + destruct l; [done|]. done.
    + by rewrite last_snoc.
    + intros i x Hx. apply lookup_app_Some in Hx as [Hx|[Hi Hx]].
      * by apply Hlabs.
      * apply list_lookup_singleton_Some in Hx as [Hi' <-].
        replace i with (S k) by lia. done.
    + intros [|fuel] acc Hf; [lia|]. simpl. rewrite Hc. simpl.
      unfold prev in Hprev. rewrite Hc in Hprev. simpl in Hprev.
      rewrite Hprev.
      destruct (Hlab q k Hq) as [(cq & Hcq & _) _].
      unfold cell in Hcq.
      destruct (gr !! q.1) as [r|]; [|done]. simpl in *. rewrite Hcq.
      rewrite Hrun by lia. by rewrite <- app_assoc.
Qed.

Lemma chain_walk k p :
  lab p = Some k →
  ∃ l, getNodesInShortestPathOrder gr p = Some l ∧ length l = S k ∧
       path_between gr s p l.
Proof.
  intros Hp.
  destruct (chain_exists k p Hp)
    as (l & Hlen & Hpath & Hhd & Hlast & Hlabs & Hrun).
  exists l. split_and!; try done.
  unfold getNodesInShortestPathOrder.
  rewrite Hrun; [by rewrite app_nil_r|].
  assert (length l ≤ length (getAllNodes gr)); [|lia].
  apply submseteq_length, NoDup_submseteq.
  - apply NoDup_alt. intros i j x Hi Hj.
    apply Hlabs in Hi, Hj. congruence.
  - intros x [i Hx]%list_elem_of_lookup. apply elem_of_getAllNodes.
    apply Hlabs in Hx. destruct (Hlab x i Hx) as [(c & Hc & _) _].
    by exists c.
Qed.

End Chain.

Lemma path_single gr p c :
  cell gr p = Some c → previousNode c = None →
  getNodesInShortestPathOrder gr p = Some [p].
Proof.
  intros Hc Hp. unfold getNodesInShortestPathOrder. simpl.
  by rewrite Hc; simpl; rewrite Hp.
Qed.

(** A path as a list and a walk as a number of moves. *)
Lemma path_reach gr s e l :
  path_between gr s e l → ∃ k, length l = S k ∧ reach gr s k e.
Proof.
  intros (Hl & Hhd & Hlast). revert s Hhd.
  induction Hl as [x Hx|x y l Hx Hxy Hl IH]; intros s Hhd.
  - injection Hhd as <-. injection Hlast as <-. exists 0.
    split; [done|]. split; [done|constructor].
  - injection Hhd as <-.
    destruct (IH Hlast y eq_refl) as (k & Hk & Hy & Hw).
    exists (S k). simpl in *. split; [lia|]. split; [done|].
    eapply nsteps_l; [|exact Hw]. by split_and!.
Qed.

(** *** Dijkstra *)

Section Search.
Context (g0 : Grid) (s e : Ref) (eC : Cell).
Context (Hwf : well_formed g0).
Context (He : cell g0 e = Some eC).

Definition positioned (gr : Grid) : Prop :=
  ∀ p c, cell gr p = Some c → row c = p.1 ∧ col c = p.2.

Lemma positioned_frame gr : same_frame g0 gr → positioned gr.
Proof.
  intros (_ & _ & Hn & Hc) p c' Hp'.
  destruct (cell g0 p) as [c|] eqn:Hp.
  - destruct (Hc p c Hp) as (c'' & Hp'' & Hr & Hcl & _).
    destruct Hwf as [_ Hf]. destruct (Hf p c Hp) as (? & ? & _).
    rewrite Hp' in Hp''. injection Hp'' as <-. split; congruence.
  - apply Hn in Hp. congruence.
Qed.

Lemma rectangular_g0 : rectangular g0.
Proof. destruct Hwf as [Hr _]. exact Hr. Qed.

(** What holds of the labels whenever the loop is at its head, and still
    when it returns. *)
Record dijkstra_labels (gr : Grid) : Prop := {
  dl_frame : same_frame g0 gr;
  dl_start : is_Some (cell g0 s) →
             distance_of gr s = Finite 0 ∧ prev gr s = None;
  dl_first : ∀ p, vis gr p = true → vis gr s = true;
  dl_visited : ∀ p, vis gr p = true →
      passable g0 p ∧ ∃ k, distance_of gr p = Finite k ∧ exact g0 s k p;
  dl_labelled : ∀ p k, distance_of gr p = Finite k →
      (p = s ∧ k = 0) ∨
      ∃ q k', k = S k' ∧ prev gr p = Some q ∧ vis gr q = true ∧
              adjacent q p ∧ distance_of gr q = Finite k';
  dl_unlabelled : ∀ p, distance_of gr p = Infinity →
      prev gr p = None ∧ vis gr p = false;
  dl_parity : ∀ p k, distance_of gr p = Finite k →
      ∃ t, k + p.1 + p.2 + s.1 + s.2 = 2 * t
}.

(** What holds of the list of unvisited nodes at the head of the loop. *)
Record dijkstra_frontier (gr : Grid) (U : list Ref) : Prop := {
  df_unvisited : ∀ p, passable g0 p → vis gr p = false → p ∈ U;
  df_valid : ∀ p, p ∈ U → is_Some (cell g0 p);
  df_expanded : ∀ q p kq,
      vis gr q = true → distance_of gr q = Finite kq → adjacent q p →
      passable g0 p → vis gr p = false →
      ∃ k, distance_of gr p = Finite k ∧ k ≤ S kq
}.

Lemma distance_lt_asym a b :
  distance_lt a b = true → distance_lt b a = false.
Proof.
  destruct a, b; simpl; try done.
  intros H%bool_decide_eq_true. apply bool_decide_eq_false. lia.
Qed.

Lemma distance_lt_negtrans a b c :
  distance_lt a b = false → distance_lt b c = false →
  distance_lt a c = false.
Proof.
  destruct a, b, c; simpl; try done.
  intros H1%bool_decide_eq_false H2%bool_decide_eq_false.
  apply bool_decide_eq_false. lia.
Qed.

Lemma sortNodesByDistance_head gr U m rest :
  sortNodesByDistance gr U = m :: rest →
  m ∈ U ∧
  (∀ q, q ∈ U →
        distance_lt (distance_of gr q) (distance_of gr m) = false) ∧
  m :: rest ≡ₚ U.
Proof.
  apply stable_sort_head.
  - intros a b. apply distance_lt_asym.
  - intros a b c. apply distance_lt_negtrans.
Qed.

Lemma cell_frame gr p :
  same_frame g0 gr → is_Some (cell g0 p) → is_Some (cell gr p).
Proof.
  intros (_ & _ & _ & Hc) [c Hp].
  destruct (Hc p c Hp) as (c' & Hp' & _). by exists c'.
Qed.

Lemma cell_frame_inv gr p :
  same_frame g0 gr → is_Some (cell gr p) → is_Some (cell g0 p).
Proof.
  intros (_ & _ & Hn & _) [c Hp].
  destruct (cell g0 p) as [c0|] eqn:H0; [by exists c0|].
  apply Hn in H0. congruence.
Qed.

Lemma passable_cell gr p c :
  same_frame g0 gr → cell gr p = Some c → type c ≠ Wall → passable g0 p.
Proof.
  intros Hf Hc Ht. apply (passable_frame g0 gr p Hf). by exists c.
Qed.

Lemma wall_not_passable gr p c :
  same_frame g0 gr → cell gr p = Some c → type c = Wall → ¬ passable g0 p.
Proof.
  intros Hf Hc Ht Hp. apply (passable_frame g0 gr p Hf) in Hp
    as (c' & Hc' & Ht'). congruence.
Qed.

(** The label of the node the loop takes is its distance from the start. *)
Lemma dijkstra_popped_exact gr U m cm k :
  dijkstra_labels gr → dijkstra_frontier gr U →
  m ∈ U →
  (∀ q, q ∈ U →
        distance_lt (distance_of gr q) (distance_of gr m) = false) →
  cell gr m = Some cm → type cm ≠ Wall → distance_of gr m = Finite k →
  exact g0 s k m.
Proof.
  intros HL HF Hm Hmin Hcm Hty Hk.
  destruct (vis gr m) eqn:Hv.
  { destruct (dl_visited gr HL m Hv) as (_ & k' & Hk' & Hex).
    rewrite Hk in Hk'. by injection Hk' as <-. }
  pose proof (passable_cell gr m cm (dl_frame gr HL) Hcm Hty) as Hpm.
  split.
  - destruct (dl_labelled gr HL m k Hk) as [[-> ->]|Hq].
    + split; [done|constructor].
    + destruct Hq as (q & k' & -> & _ & Hq & Hadj & Hkq).
      destruct (dl_visited gr HL q Hq) as (_ & k'' & Hk'' & Hex & _).
      rewrite Hkq in Hk''. injection Hk'' as <-.
      by eapply reach_step.
  - intros j Hj.
    destruct (frontier_on_walk g0 s (vis gr)
                (λ q i, q ∈ U ∧ ∃ d, distance_of gr q = Finite d ∧ d ≤ i)
                ) with (j := j) (p := m) as (i & q & Hi & (Hq & d & Hd & Hdi) & _);
      try done.
    + intros x a y Hx Hax (Hadj & Hpx & Hpy) Hy.
      destruct (dl_visited gr HL x Hx) as (_ & kx & Hkx & _ & Hmin').
      destruct (df_expanded gr U HF x y kx Hx Hkx Hadj Hpy Hy)
        as (ky & Hky & Hle).
      split; [by apply (df_unvisited gr U HF)|].
      exists ky. split; [done|]. specialize (Hmin' a Hax). lia.
    + intros Hs. destruct Hj as [Hps _]. split.
      * by apply (df_unvisited gr U HF).
      * exists 0. split; [|done].
        destruct Hps as (c & Hc & _). apply (dl_start gr HL). by exists c.
    + specialize (Hmin q Hq). rewrite Hd, Hk in Hmin. simpl in Hmin.
      apply bool_decide_eq_false in Hmin. lia.
Qed.

Lemma vis_mark gr m q :
  is_Some (cell gr m) →
  vis (update gr m (set_isVisited true)) q
  = if decide (q = m) then true else vis gr q.
Proof.
  intros [c Hc]. unfold vis. rewrite cell_update.
  destruct (decide (m = q)) as [->|Hne].
  - rewrite decide_True by done. by rewrite Hc.
  - by rewrite decide_False by done.
Qed.

Lemma distance_mark gr m q :
  distance_of (update gr m (set_isVisited true)) q = distance_of gr q.
Proof.
  unfold distance_of. rewrite cell_update. case_decide; [|done].
  by destruct (cell gr q).
Qed.

Lemma prev_mark gr m q :
  prev (update gr m (set_isVisited true)) q = prev gr q.
Proof.
  unfold prev. rewrite cell_update. case_decide; [|done].
  by destruct (cell gr q).
Qed.

Lemma dijkstra_mark gr U m cm k :
  dijkstra_labels gr → dijkstra_frontier gr U →
  m ∈ U →
  (∀ q, q ∈ U →
        distance_lt (distance_of gr q) (distance_of gr m) = false) →
  cell gr m = Some cm → type cm ≠ Wall → distance_of gr m = Finite k →
  dijkstra_labels (update gr m (set_isVisited true)).
Proof.
  intros HL HF Hm Hmin Hcm Hty Hk.
  pose proof (dijkstra_popped_exact gr U m cm k HL HF Hm Hmin Hcm Hty Hk)
    as Hex.
  assert (is_Some (cell gr m)) as Hsome by (by exists cm).
  assert (m ≠ s → vis gr s = true) as Hfirst.
  { intros Hne. destruct (dl_labelled gr HL m k Hk) as [[? _]|Hq]; [done|].
    destruct Hq as (q & k' & _ & _ & Hq & _). by eapply (dl_first gr HL). }
  split.
  - apply same_frame_update_r; [apply keeps_frame_set_isVisited|].
    apply (dl_frame gr HL).
  - intros Hs. rewrite distance_mark, prev_mark. by apply (dl_start gr HL).
  - intros p. rewrite !(vis_mark gr m) by done.
    destruct (decide (s = m)); [done|].
    destruct (decide (p = m)); [intros _; by apply Hfirst|].
    apply (dl_first gr HL).
  - intros p. rewrite (vis_mark gr m), distance_mark by done.
    destruct (decide (p = m)) as [->|Hne].
    + intros _. split; [by eapply passable_cell, Hty; [apply HL|]|].
      by exists k.
    + apply (dl_visited gr HL).
  - intros p k' Hk'. rewrite distance_mark in Hk'.
    destruct (dl_labelled gr HL p k' Hk') as [?|Hq]; [by left|right].
    destruct Hq as (q & k'' & -> & Hpq & Hq & Hadj & Hkq).
    exists q, k''. rewrite prev_mark, distance_mark, (vis_mark gr m) by done.
    split_and!; try done. by case_decide.
  - intros p Hp. rewrite distance_mark in Hp.
    rewrite prev_mark, (vis_mark gr m) by done.
    destruct (dl_unlabelled gr HL p Hp) as [? ?].
    split; [done|]. case_decide; [|done]. subst. congruence.
  - intros p k' Hk'. rewrite distance_mark in Hk'.
    by apply (dl_parity gr HL).
Qed.

Lemma dijkstra_expand gr U m rest cm k :
  dijkstra_labels gr → dijkstra_frontier gr U →
  m :: rest ≡ₚ U →
  (∀ q, q ∈ U →
        distance_lt (distance_of gr q) (distance_of gr m) = false) →
  cell gr m = Some cm → type cm ≠ Wall → distance_of gr m = Finite k →
  ∃ gr2,
    updateUnvisitedNeighbors cm (update gr m (set_isVisited true))
      = Some gr2 ∧
    dijkstra_labels gr2 ∧ dijkstra_frontier gr2 rest.
Proof.
  intros HL HF Hperm Hmin Hcm Hty Hk.
  assert (m ∈ U) as Hm by (rewrite <- Hperm; by left).
  pose proof (dijkstra_mark gr U m cm k HL HF Hm Hmin Hcm Hty Hk) as HL1.
  set (gr1 := update gr m (set_isVisited true)) in *.
  assert (is_Some (cell gr m)) as Hsome by (by exists cm).
  destruct (positioned_frame gr (dl_frame gr HL) m cm Hcm) as [Hrow Hcol].
  assert (distance cm = Finite k) as Hdk.
  { unfold distance_of in Hk. by rewrite Hcm in Hk. }
  destruct (getNeighbors_spec gr1 cm m) as (ns & Hns & Hnsq); try done.
  { apply (rectangular_frame g0); [apply HL1|apply rectangular_g0]. }
  { apply cell_frame; [apply HL1|]. eapply cell_frame_inv; [apply HL|done]. }
  unfold updateUnvisitedNeighbors. rewrite Hns. cbn [mbind option_bind].
  eexists. split; [reflexivity|].
  set (upd := λ c, set_previousNode (Some (row cm, col cm))
                     (set_distance (succ_distance (distance cm)) c)).
  set (gr2 := foldl _ gr1 ns).
  assert (∀ q, cell gr2 q
               = if decide (q ∈ ns) then upd <$> cell gr1 q else cell gr1 q)
    as Hcell.
  { intros q. unfold gr2. apply (cell_foldl_update gr1 ns upd q).
    by intros []. }
  assert (∀ q, q ∈ ns ↔ adjacent m q ∧ is_Some (cell g0 q) ∧ vis gr q = false)
    as Hmem.
  { intros q. rewrite Hnsq. split.
    - intros (Hadj & cq & Hcq & Hv). split; [done|].
      pose proof (adjacent_ne _ _ Hadj) as Hne.
      unfold gr1 in Hcq. rewrite cell_update_ne in Hcq by done.
      split; [eapply cell_frame_inv; [apply HL|by exists cq]|].
      unfold vis. by rewrite Hcq.
    - intros (Hadj & Hq & Hv). split; [done|].
      pose proof (adjacent_ne _ _ Hadj) as Hne.
      destruct (cell_frame gr q (dl_frame gr HL) Hq) as [cq Hcq].
      exists cq. unfold gr1. rewrite cell_update_ne by done.
      split; [done|]. unfold vis in Hv. by rewrite Hcq in Hv. }
  assert (∀ q, vis gr2 q = vis gr1 q) as Hvis.
  { intros q. unfold vis. rewrite Hcell. case_decide; [|done].
    by destruct (cell gr1 q). }
  assert (∀ q, distance_of gr2 q
               = if decide (q ∈ ns) then Finite (S k) else distance_of gr q)
    as Hdist.
  { intros q. unfold distance_of at 1. rewrite Hcell.
    destruct (decide (q ∈ ns)) as [Hin|Hin].
    - apply Hmem in Hin as (_ & Hq & _).
      destruct (cell_frame gr1 q (dl_frame gr1 HL1) Hq) as [cq ->].
      simpl. by rewrite Hdk.
    - unfold gr1. fold (distance_of (update gr m (set_isVisited true)) q).
      apply distance_mark. }
  assert (∀ q, prev gr2 q = if decide (q ∈ ns) then Some m else prev gr q)
    as Hprev.
  { intros q. unfold prev at 1. rewrite Hcell.
    destruct (decide (q ∈ ns)) as [Hin|Hin].
    - apply Hmem in Hin as (_ & Hq & _).
      destruct (cell_frame gr1 q (dl_frame gr1 HL1) Hq) as [cq ->].
      simpl. rewrite Hrow, Hcol. by destruct m.
    - unfold gr1. fold (prev (update gr m (set_isVisited true)) q).
      apply prev_mark. }
  assert (∀ q, vis gr1 q = if decide (q = m) then true else vis gr q)
    as Hvis1 by (intros q; by apply vis_mark).
  assert (m ∉ ns) as Hmns.
  { intros (Hadj & _)%Hmem. by apply adjacent_ne in Hadj. }
  assert (∀ q, vis gr1 q = true → q ∉ ns) as Hvns.
  { intros q Hq (Hadj & _ & Hv)%Hmem. rewrite Hvis1 in Hq.
    destruct (decide (q = m)) as [->|]; [by apply adjacent_ne in Hadj|].
    congruence. }
  assert (dijkstra_labels gr2) as HL2.
  { split.
    - unfold gr2. generalize (dl_frame gr1 HL1). generalize gr1.
      clear. induction ns as [|n ns IH]; intros gr' Hf; [done|].
      simpl. apply IH. apply same_frame_update_r; [|done].
      apply (keeps_frame_compose (set_previousNode _) (set_distance _));
        [apply keeps_frame_set_previousNode|apply keeps_frame_set_distance].
    - intros Hs. rewrite Hdist, Hprev.
      assert (s ∉ ns) as Hsn.
      { apply Hvns. destruct (decide (s = m)) as [->|Hne].
        - rewrite Hvis1. by rewrite decide_True.
        - apply (dl_first gr1 HL1 m). rewrite Hvis1. by rewrite decide_True. }
      rewrite !decide_False by done. by apply (dl_start gr HL).
    - intros p. rewrite !Hvis. apply (dl_first gr1 HL1).
    - intros p. rewrite Hvis. intros Hp.
      rewrite Hdist, decide_False by (by apply Hvns).
      rewrite <- (distance_mark gr m p). by apply (dl_visited gr1 HL1).
    - intros p k' Hk'. rewrite Hdist in Hk'.
      destruct (decide (p ∈ ns)) as [Hin|Hin].
      + right. injection Hk' as <-. exists m, k.
        rewrite Hprev, decide_True by done.
        rewrite Hvis, Hvis1, decide_True by done.
        rewrite Hdist, decide_False by done.
        apply Hmem in Hin as (Hadj & _). by split_and!.
      + destruct (dl_labelled gr HL p k' Hk') as [?|Hq]; [by left|right].
        destruct Hq as (q & k'' & -> & Hpq & Hq & Hadj & Hkq).
        assert (vis gr1 q = true) as Hq1.
        { rewrite Hvis1. by case_decide. }
        exists q, k''. rewrite Hprev, decide_False by done.
        rewrite Hvis, Hdist, decide_False by (by apply Hvns).
        by split_and!.
    - intros p Hp. rewrite Hdist in Hp.
      destruct (decide (p ∈ ns)) as [Hin|Hin]; [done|].
      rewrite Hprev, decide_False, Hvis by done.
      rewrite <- (distance_mark gr m p) in Hp.
      destruct (dl_unlabelled gr1 HL1 p Hp) as [Hpp Hpv].
      split; [|done]. by rewrite <- (prev_mark gr m p).
    - intros p k' Hk'. rewrite Hdist in Hk'.
      destruct (decide (p ∈ ns)) as [Hin|Hin].
      + injection Hk' as <-. apply Hmem in Hin as (Hadj & _).
        destruct (dl_parity gr HL m k Hk) as [t Ht].
        unfold adjacent in Hadj.
        destruct Hadj as [[? [?|?]]|[? [?|?]]];
          [exists t|exists (S t)|exists t|exists (S t)]; lia.
      + by apply (dl_parity gr HL). }
  split; [exact HL2|]. split.
  - intros p Hp. rewrite Hvis, Hvis1. case_decide as Hpm; [done|].
    intros Hv. pose proof (df_unvisited gr U HF p Hp Hv) as Hin.
    rewrite <- Hperm in Hin.
    apply elem_of_cons in Hin as [->|Hin]; done.
  - intros p Hp. apply (df_valid gr U HF). rewrite <- Hperm. by right.
  - intros q p kq. rewrite !Hvis, !Hvis1. intros Hq Hkq Hadj Hp Hpv.
    destruct (decide (p = m)) as [|Hpm]; [done|].
    assert (is_Some (cell g0 p)) as Hpc.
    { destruct Hp as (c & Hc & _). by exists c. }
    rewrite Hdist in Hkq. rewrite decide_False in Hkq
      by (apply Hvns; rewrite Hvis1; by destruct (decide (q = m))).
    rewrite Hdist.
    destruct (decide (q = m)) as [->|Hqm].
    + rewrite decide_True by (apply Hmem; by split_and!).
      rewrite Hk in Hkq. injection Hkq as <-. by exists (S k).
    + destruct (df_expanded gr U HF q p kq Hq Hkq Hadj Hp Hpv)
        as (kp & Hkp & Hle).
      destruct (decide (p ∈ ns)) as [Hin|Hin]; [|by exists kp].
      exists (S k). split; [done|].
      pose proof (df_unvisited gr U HF p Hp Hpv) as HpU.
      specialize (Hmin p HpU). rewrite Hkp, Hk in Hmin. simpl in Hmin.
      apply bool_decide_eq_false in Hmin.
      apply Hmem in Hin as (Hadj' & _).
      destruct (dl_parity gr HL m k Hk) as [t1 Ht1].
      destruct (dl_parity gr HL q kq Hkq) as [t2 Ht2].
      unfold adjacent in Hadj, Hadj'. lia.
Qed.

(** When no passable node of the list carries a distance, every cell a
    walk reaches has been visited. *)
Lemma dijkstra_stuck gr U k :
  dijkstra_labels gr → dijkstra_frontier gr U →
  (∀ q, q ∈ U → passable g0 q → distance_of gr q = Infinity) →
  reach g0 s k e → vis gr e = true.
Proof.
  intros HL HF Hinf Hreach.
  destruct (vis gr e) eqn:Hv; [done|exfalso].
  destruct (frontier_on_walk g0 s (vis gr)
              (λ q _, q ∈ U ∧ passable g0 q ∧
                      ∃ d, distance_of gr q = Finite d))
    with (j := k) (p := e) as (i & q & _ & (Hq & Hpq & d & Hd) & _);
    try done.
  - intros x a y Hx Hax (Hadj & Hpx & Hpy) Hy.
    destruct (dl_visited gr HL x Hx) as (_ & kx & Hkx & _).
    destruct (df_expanded gr U HF x y kx Hx Hkx Hadj Hpy Hy)
      as (ky & Hky & _).
    split_and!; [by apply (df_unvisited gr U HF)|done|by exists ky].
  - intros Hs. destruct Hreach as [Hps _]. split_and!; [|done|].
    + by apply (df_unvisited gr U HF).
    + exists 0. destruct Hps as (c & Hc & _). apply (dl_start gr HL).
      by exists c.
  - rewrite (Hinf q Hq Hpq) in Hd. done.
Qed.

Lemma dijkstra_loop_spec fuel gr U V :
  dijkstra_labels gr → dijkstra_frontier gr U → length U < fuel →
  ∃ V' gr', dijkstra_loop fuel gr eC U V = Some (V', gr') ∧
            dijkstra_labels gr' ∧
            ((∃ k, reach g0 s k e) → vis gr' e = true).
Proof.
  revert gr U V. induction fuel as [|fuel IH]; intros gr U V HL HF Hlen;
    [lia|].
  destruct U as [|u U'].
  { exists V, gr. split_and!; [done|done|]. intros [k Hk].
    apply (dijkstra_stuck gr [] k); try done. by intros q ?%elem_of_nil. }
  cbn [dijkstra_loop].
  destruct (sortNodesByDistance gr (u :: U')) as [|m rest] eqn:Hsort.
  { pose proof (stable_sort_perm
                  (λ a b, distance_lt (distance_of gr a) (distance_of gr b))
                  (u :: U')) as Hp.
    unfold sortNodesByDistance in Hsort. rewrite Hsort in Hp.
    by apply Permutation_nil_cons in Hp. }
  apply sortNodesByDistance_head in Hsort as (Hm & Hmin & Hperm).
  assert (length rest < fuel) as Hlen'.
  { apply Permutation_length in Hperm. simpl in *. lia. }
  destruct (cell_frame gr m (dl_frame gr HL) (df_valid gr _ HF m Hm))
    as [cm Hcm].
  rewrite Hcm. cbn [mbind option_bind].
  destruct (decide (type cm = Wall)) as [Hw|Hw].
  { apply IH; [done| |done]. split.
    - intros p Hp Hv. pose proof (df_unvisited gr _ HF p Hp Hv) as Hin.
      rewrite <- Hperm in Hin. apply elem_of_cons in Hin as [->|Hin]; [|done].
      by destruct (wall_not_passable gr m cm (dl_frame gr HL) Hcm Hw).
    - intros p Hp. apply (df_valid gr _ HF). rewrite <- Hperm. by right.
    - apply (df_expanded gr _ HF). }
  destruct (decide (distance cm = Infinity)) as [Hd|Hd].
  { exists V, gr. split_and!; [done|done|]. intros [k Hk].
    apply (dijkstra_stuck gr (u :: U') k); try done.
    intros q Hq _. specialize (Hmin q Hq).
    unfold distance_of at 2 in Hmin. rewrite Hcm in Hmin. simpl in Hmin.
    rewrite Hd in Hmin. by destruct (distance_of gr q). }
  destruct (distance cm) as [k|] eqn:Hk; [|done].
  assert (distance_of gr m = Finite k) as Hk'.
  { unfold distance_of. by rewrite Hcm. }
  pose proof (dijkstra_mark gr _ m cm k HL HF Hm Hmin Hcm Hw Hk') as HL1.
  destruct (positioned_frame gr (dl_frame gr HL) m cm Hcm) as [Hrow Hcol].
  destruct (positioned_frame g0 (same_frame_refl g0) e eC He) as [Hrow' Hcol'].
  destruct (decide (row cm = row eC ∧ col cm = col eC)) as [[Hr Hc]|Hne].
  { eexists _, _. split_and!; [done|done|]. intros _.
    assert (m = e) as <-.
    { destruct m, e; simpl in *; congruence. }
    rewrite vis_mark by (by exists cm). by rewrite decide_True. }
  destruct (dijkstra_expand gr _ m rest cm k HL HF Hperm Hmin Hcm Hw Hk')
    as (gr2 & Hgr2 & HL2 & HF2).
  rewrite Hgr2. cbn [mbind option_bind]. by apply IH.
Qed.

Lemma dijkstra_init :
  is_Some (cell g0 s) →
  dijkstra_labels (update g0 s (set_distance (Finite 0))) ∧
  dijkstra_frontier (update g0 s (set_distance (Finite 0)))
    (getAllNodes (update g0 s (set_distance (Finite 0)))).
Proof.
  intros [cs Hcs]. set (gr0 := update g0 s (set_distance (Finite 0))).
  assert (same_frame g0 gr0) as Hf
    by apply same_frame_update, keeps_frame_set_distance.
  destruct Hwf as [_ Hfresh].
  assert (∀ p, vis gr0 p = false) as Hvis.
  { intros p. unfold vis, gr0. rewrite cell_update.
    destruct (cell g0 p) as [c|] eqn:Hc; [|by case_decide].
    destruct (Hfresh p c Hc) as (_ & _ & _ & Hv & _).
    by case_decide. }
  assert (∀ p, prev gr0 p = None) as Hprev.
  { intros p. unfold prev, gr0. rewrite cell_update.
    destruct (cell g0 p) as [c|] eqn:Hc; [|by case_decide].
    destruct (Hfresh p c Hc) as (_ & _ & _ & _ & Hp & _).
    by case_decide. }
  assert (∀ p, distance_of gr0 p
               = if decide (p = s) then Finite 0 else Infinity) as Hdist.
  { intros p. unfold distance_of, gr0. rewrite cell_update.
    destruct (decide (s = p)) as [<-|Hne].
    - rewrite decide_True by done. by rewrite Hcs.
    - rewrite decide_False by done.
      destruct (cell g0 p) as [c|] eqn:Hc; [|done].
      destruct (Hfresh p c Hc) as (_ & _ & Hd & _). done. }
  split; split.
  - done.
  - intros _. by rewrite Hdist, decide_True.
  - intros p. by rewrite Hvis.
  - intros p. by rewrite Hvis.
  - intros p k. rewrite Hdist. case_decide; [|done].
    intros [= <-]. by left.
  - done.
  - intros p k. rewrite Hdist. case_decide as Hp; [|done].
    intros [= <-]. subst p. exists (s.1 + s.2). lia.
  - intros p (c & Hc & _) _. apply elem_of_getAllNodes.
    apply cell_frame; [done|by exists c].
  - intros p Hp%elem_of_getAllNodes. by eapply cell_frame_inv.
  - intros q p kq. by rewrite Hvis.
Qed.

(** [dijkstra] returns, and leaves labels that tell the distances. *)
Lemma dijkstra_returns :
  is_Some (cell g0 s) →
  ∃ V gr, dijkstra g0 s e = Some (V, gr) ∧ dijkstra_labels gr ∧
          ((∃ k, reach g0 s k e) → vis gr e = true).
Proof.
  intros Hs. destruct (dijkstra_init Hs) as [HL HF].
  unfold dijkstra. destruct Hs as [cs Hcs]. rewrite Hcs, He.
  cbn [mbind option_bind]. apply dijkstra_loop_spec; [done|done|lia].
Qed.

Lemma is_path_frame gr l : same_frame g0 gr → is_path gr l → is_path g0 l.
Proof.
  intros Hf. induction 1; constructor; try done;
    by apply (passable_frame g0 gr).
Qed.

(** The walk over the back-pointers of the labels, from a visited cell. *)
Lemma dijkstra_walk gr p :
  dijkstra_labels gr → vis gr p = true →
  ∃ l d, getNodesInShortestPathOrder gr p = Some l ∧ length l = S d ∧
         path_between g0 s p l ∧ exact g0 s d p.
Proof.
  intros HL Hp.
  set (lab := λ q, if vis gr q
                   then match distance_of gr q with
                        | Finite k => Some k
                        | Infinity => None
                        end
                   else None).
  assert (∀ q k, lab q = Some k ↔
                 vis gr q = true ∧ distance_of gr q = Finite k) as Hlab.
  { intros q k. unfold lab. destruct (vis gr q); [|naive_solver].
    destruct (distance_of gr q); naive_solver. }
  destruct (dl_visited gr HL p Hp) as (_ & d & Hd & Hex).
  destruct (chain_walk gr s lab) with (k := d) (p := p)
    as (l & Hl & Hlen & Hpath & Hhd & Hlast).
  - intros q k [Hq Hk]%Hlab.
    destruct (dl_visited gr HL q Hq) as (Hpq & _).
    split; [by apply (passable_frame g0 gr); [apply HL|]|].
    destruct (dl_labelled gr HL q k Hk) as [[-> ->]|Hq'].
    + left. split_and!; [done|done|]. apply (dl_start gr HL).
      destruct Hpq as (c & Hc & _). by exists c.
    + right. destruct Hq' as (q' & k' & -> & Hprev & Hv' & Hadj & Hk').
      exists q', k'. split_and!; try done. by apply Hlab.
  - by apply Hlab.
  - exists l, d. split_and!; try done. split; [|done].
    by apply (is_path_frame gr); [apply HL|].
Qed.

(** With a path to the end cell, the walk from it is a shortest path. *)
Lemma dijkstra_shortest k :
  reach g0 s k e →
  ∃ V gr l d, dijkstra g0 s e = Some (V, gr) ∧
              getNodesInShortestPathOrder gr e = Some l ∧
              length l = S d ∧ path_between g0 s e l ∧ exact g0 s d e.
Proof.
  intros Hk.
  destruct dijkstra_returns as (V & gr & Hrun & HL & Hend).
  { destruct Hk as [(c & Hc & _) _]. by exists c. }
  destruct (dijkstra_walk gr e HL) as (l & d & Hl & Hlen & Hpath & Hex).
  { apply Hend. by exists k. }
  by exists V, gr, l, d.
Qed.

(** Without one, the walk stops at the end cell itself. *)
Lemma dijkstra_unreachable :
  is_Some (cell g0 s) → passable g0 e → (∀ k, ¬ reach g0 s k e) →
  ∃ V gr, dijkstra g0 s e = Some (V, gr) ∧
          getNodesInShortestPathOrder gr e = Some [e].
Proof.
  intros Hs Hpe Hno.
  destruct (dijkstra_returns Hs) as (V & gr & Hrun & HL & _).
  exists V, gr. split; [done|].
  destruct (cell_frame gr e (dl_frame gr HL)) as [c Hc]; [by exists eC|].
  apply (path_single gr e c Hc).
  assert (prev gr e = None) as Hprev.
  { destruct (distance_of gr e) as [k|] eqn:Hk.
    - destruct (dl_labelled gr HL e k Hk) as [[-> ->]|Hq].
      + by apply (dl_start gr HL).
      + destruct Hq as (q & k' & -> & _ & Hq & Hadj & Hk').
        destruct (dl_visited gr HL q Hq) as (_ & k'' & _ & Hex & _).
        destruct (Hno (S k'')). by eapply reach_step.
    - by apply (dl_unlabelled gr HL). }
  unfold prev in Hprev. by rewrite Hc in Hprev.
Qed.

(** *** A-star *)

(** The heuristic of a place: its Manhattan distance to the end cell. *)
Definition hm (p : Ref) : nat := abs_diff p.1 e.1 + abs_diff p.2 e.2.

Lemma heuristic_at gr p c :
  same_frame g0 gr → cell gr p = Some c → heuristic c eC = hm p.
Proof.
  intros Hf Hc.
  destruct (positioned_frame gr Hf p c Hc) as [Hr Hc'].
  destruct (positioned_frame g0 (same_frame_refl g0) e eC He) as [Hr' Hc''].
  unfold heuristic, hm. by rewrite Hr, Hc', Hr', Hc''.
Qed.

Lemma hm_step p q : adjacent p q → hm p ≤ S (hm q).
Proof. unfold adjacent, hm, abs_diff. lia. Qed.

(** The heuristic falls by one a move at most. *)
Lemma hm_walk k q m : nsteps (step g0) k q m → hm q ≤ k + hm m.
Proof.
  induction 1 as [|k x y z [Hxy _] _ IH]; [lia|].
  apply hm_step in Hxy. lia.
Qed.

Lemma gsc_mark gr m q :
  gsc (update gr m (set_isVisited true)) q = gsc gr q.
Proof.
  unfold gsc. rewrite cell_update. case_decide; [|done].
  by destruct (cell gr q).
Qed.

Lemma f_mark gr m q :
  f_of (update gr m (set_isVisited true)) q = f_of gr q.
Proof.
  unfold f_of. rewrite cell_update. case_decide; [|done].
  by destruct (cell gr q).
Qed.

(** What the scores and back-pointers say while [aStar] runs. *)
Record astar_labels (gr : Grid) : Prop := {
  al_frame : same_frame g0 gr;
  al_start : gsc gr s = 0 ∧ prev gr s = None;
  al_first : ∀ p, vis gr p = true → vis gr s = true;
  al_visited : ∀ p, vis gr p = true →
      passable g0 p ∧ exact g0 s (gsc gr p) p;
  al_labelled : ∀ p, p ≠ s → gsc gr p ≠ 0 →
      passable g0 p ∧
      ∃ q, prev gr p = Some q ∧ vis gr q = true ∧ adjacent q p ∧
           gsc gr p = S (gsc gr q);
  al_unlabelled : ∀ p, p ≠ s → gsc gr p = 0 →
      prev gr p = None ∧ vis gr p = false
}.

(** What the open set holds. *)
Record astar_open (gr : Grid) (O : list Ref) : Prop := {
  ao_nodup : NoDup O;
  ao_member : ∀ p, p ∈ O →
      passable g0 p ∧ vis gr p = false ∧ (p = s ∨ gsc gr p ≠ 0) ∧
      f_of gr p = gsc gr p + hm p;
  ao_expanded : ∀ q p, vis gr q = true → adjacent q p →
      passable g0 p → vis gr p = false →
      p ∈ O ∧ gsc gr p ≠ 0 ∧ gsc gr p ≤ S (gsc gr q);
  ao_start : vis gr s = false → passable g0 s → s ∈ O
}.

Lemma sortNodesByF_head gr O m rest :
  sortNodesByF gr O = m :: rest →
  m ∈ O ∧ (∀ q, q ∈ O → f_of gr m ≤ f_of gr q) ∧ m :: rest ≡ₚ O.
Proof.
  intros Hsort.
  apply stable_sort_head in Hsort as (Hm & Hmin & Hperm).
  - split_and!; [done| |done]. intros q Hq.
    specialize (Hmin q Hq). apply bool_decide_eq_false in Hmin. lia.
  - intros a b Hab%bool_decide_eq_true. apply bool_decide_eq_false. lia.
  - intros a b c Hab%bool_decide_eq_false Hbc%bool_decide_eq_false.
    apply bool_decide_eq_false. lia.
Qed.

(** The score of the node the loop takes is its distance from the start. *)
Lemma astar_popped_exact gr O m :
  astar_labels gr → astar_open gr O → m ∈ O →
  (∀ q, q ∈ O → f_of gr m ≤ f_of gr q) →
  exact g0 s (gsc gr m) m.
Proof.
  intros HL HO Hm Hmin.
  destruct (ao_member gr O HO m Hm) as (Hpm & Hvm & Hgm & Hfm).
  split.
  - destruct (decide (m = s)) as [->|Hne].
    + destruct (al_start gr HL) as [-> _]. split; [done|constructor].
    + destruct Hgm as [?|Hgm]; [done|].
      destruct (al_labelled gr HL m Hne Hgm) as (_ & q & _ & Hq & Hadj & ->).
      destruct (al_visited gr HL q Hq) as (_ & Hex & _).
      by eapply reach_step.
  - intros j Hj.
    destruct (frontier_on_walk g0 s (vis gr)
                (λ q i, q ∈ O ∧ gsc gr q ≤ i))
      with (j := j) (p := m) as (i & q & Hi & (Hq & Hqi) & Hwalk);
      try done.
    + intros x a y Hx Hax (Hadj & Hpx & Hpy) Hy.
      destruct (al_visited gr HL x Hx) as (_ & _ & Hmin').
      destruct (ao_expanded gr O HO x y Hx Hadj Hpy Hy) as (HyO & _ & Hle).
      split; [done|]. specialize (Hmin' a Hax). lia.
    + intros Hs. destruct Hj as [Hps _]. split.
      * by apply (ao_start gr O HO).
      * destruct (al_start gr HL) as [-> _]. done.
    + specialize (Hmin q Hq).
      destruct (ao_member gr O HO q Hq) as (_ & _ & _ & Hfq).
      apply hm_walk in Hwalk. lia.
Qed.

Lemma astar_mark gr O m :
  astar_labels gr → astar_open gr O → m ∈ O →
  (∀ q, q ∈ O → f_of gr m ≤ f_of gr q) →
  astar_labels (update gr m (set_isVisited true)).
Proof.
  intros HL HO Hm Hmin.
  pose proof (astar_popped_exact gr O m HL HO Hm Hmin) as Hex.
  destruct (ao_member gr O HO m Hm) as (Hpm & Hvm & Hgm & _).
  assert (is_Some (cell gr m)) as Hsome.
  { apply cell_frame; [apply HL|]. destruct Hpm as (c & Hc & _).
    by exists c. }
  assert (m ≠ s → vis gr s = true) as Hfirst.
  { intros Hne. destruct Hgm as [?|Hgm]; [done|].
    destruct (al_labelled gr HL m Hne Hgm) as (_ & q & _ & Hq & _).
    by eapply (al_first gr HL). }
  split.
  - apply same_frame_update_r; [apply keeps_frame_set_isVisited|].
    apply (al_frame gr HL).
  - rewrite gsc_mark, prev_mark. apply (al_start gr HL).
  - intros p. rewrite !(vis_mark gr m) by done.
    destruct (decide (s = m)); [done|].
    destruct (decide (p = m)); [intros _; by apply Hfirst|].
    apply (al_first gr HL).
  - intros p. rewrite (vis_mark gr m), gsc_mark by done.
    destruct (decide (p = m)) as [->|Hne]; [done|].
    apply (al_visited gr HL).
  - intros p Hp Hg. rewrite gsc_mark in Hg.
    destruct (al_labelled gr HL p Hp Hg) as (Hpp & q & Hq & Hvq & Hadj & Hgq).
    split; [done|]. exists q.
    rewrite prev_mark, !gsc_mark, (vis_mark gr m) by done.
    split_and!; try done. by case_decide.
  - intros p Hp Hg. rewrite gsc_mark in Hg.
    rewrite prev_mark, (vis_mark gr m) by done.
    destruct (al_unlabelled gr HL p Hp Hg) as [? ?].
    split; [done|]. case_decide; [|done]. subst. by destruct Hgm.
Qed.

(** A loop over a list whose body may fail. *)
Lemma foldl_option_inv {A B} (body : A → B → option A)
    (P : list B → A → Prop) ns st0 :
  P [] st0 →
  (∀ done st n, P done st → n ∈ ns →
                ∃ st', body st n = Some st' ∧ P (done ++ [n]) st') →
  ∃ st', foldl (λ acc n, st ← acc; body st n) (Some st0) ns = Some st' ∧
         P ns st'.
Proof.
  intros H0. induction ns as [|n ns IH] using rev_ind; intros Hstep.
  - by exists st0.
  - destruct IH as (st & Hst & HP).
    { intros done st n' HP Hn'. apply Hstep; [done|].
      apply elem_of_app. by left. }
    destruct (Hstep ns st n HP) as (st' & Hst' & HP').
    { apply elem_of_app. right. by left. }
    exists st'. split; [|done]. rewrite foldl_app. simpl. by rewrite Hst.
Qed.

(** The test of [openSet.some]. *)
Lemma open_some gr O n cn :
  same_frame g0 gr → (∀ p, p ∈ O → is_Some (cell g0 p)) →
  row cn = n.1 → col cn = n.2 →
  existsb (λ p, match cell gr p with
                | Some node =>
                    bool_decide (row node = row cn ∧ col node = col cn)
                | None => false
                end) O = true ↔ n ∈ O.
Proof.
  intros Hf HO Hr Hc. rewrite existsb_exists. split.
  - intros (p & Hp%list_elem_of_In & Hpn).
    destruct (cell gr p) as [c|] eqn:Hcp; [|done].
    apply bool_decide_eq_true in Hpn as [Hr' Hc'].
    destruct (positioned_frame gr Hf p c Hcp) as [Hr'' Hc''].
    assert (p = n) as <-; [|done].
    destruct p, n; simpl in *; congruence.
  - intros Hn. exists n. split; [by apply list_elem_of_In|].
    destruct (cell_frame gr n Hf (HO n Hn)) as [c Hcn]. rewrite Hcn.
    destruct (positioned_frame gr Hf n c Hcn) as [Hr'' Hc''].
    apply bool_decide_eq_true. split; congruence.
Qed.

(** Whether the loop over the neighbors of [cm] writes to the cell at
    [p]. *)
Definition improves (gr1 : Grid) (cm : Cell) (p : Ref) : bool :=
  match cell gr1 p with
  | Some c =>
      negb (isVisited c) && bool_decide (type c ≠ Wall) &&
      (bool_decide (g c = 0) || bool_decide (g cm + 1 < g c))
  | None => false
  end.

(** The cells it has written to, once the neighbors [done] are through. *)
Definition written (gr1 : Grid) (cm : Cell) (done : list Ref) (p : Ref)
    : Prop :=
  p ∈ done ∧ improves gr1 cm p = true.

#[local] Instance written_dec gr1 cm done p :
  Decision (written gr1 cm done p).
Proof. unfold written. apply _. Defined.

(** What it writes. *)
Definition relabel (cm c : Cell) : Cell :=
  set_scores (g cm + 1 + heuristic c eC) (g cm + 1) (heuristic c eC)
    (set_previousNode (Some (row cm, col cm)) c).

(** The grid and the open set once the neighbors [done] are through. *)
Definition neighbors_done (gr1 : Grid) (cm : Cell) (O1 : list Ref)
    (done : list Ref) (st : Grid * list Ref) : Prop :=
  same_frame g0 st.1 ∧
  (∀ p, cell st.1 p
        = if decide (p ∈ done ∧ improves gr1 cm p = true)
          then relabel cm <$> cell gr1 p else cell gr1 p) ∧
  NoDup st.2 ∧
  ∀ p, p ∈ st.2 ↔ p ∈ O1 ∨ (p ∈ done ∧ improves gr1 cm p = true).

Lemma aStar_neighbor_step gr1 cm O1 done st n :
  same_frame g0 gr1 → (∀ p, p ∈ O1 → is_Some (cell g0 p)) →
  neighbors_done gr1 cm O1 done st → is_Some (cell g0 n) →
  ∃ st', aStar_neighbor cm eC st n = Some st' ∧
         neighbors_done gr1 cm O1 (done ++ [n]) st'.
Proof.
  intros Hf1 HO1 (Hf & Hcell & Hnd & Hmem) Hn. destruct st as [gr O].
  simpl in *.
  destruct (cell_frame gr1 n Hf1 Hn) as [c1 Hc1].
  assert (n ∈ done ∨ improves gr1 cm n = false →
          neighbors_done gr1 cm O1 (done ++ [n]) (gr, O)) as Hsame.
  { intros Hcase.
    assert (∀ p, p ∈ done ++ [n] ∧ improves gr1 cm p = true
                 ↔ p ∈ done ∧ improves gr1 cm p = true) as Heq.
    { intros p. rewrite elem_of_app, list_elem_of_singleton. split.
      - intros [[?| ->] Hi]; [done|]. destruct Hcase; [done|congruence].
      - intros [? ?]. split; [by left|done]. }
    split_and!; simpl; [done| |done|].
    - intros p. rewrite Hcell. by apply decide_ext.
    - intros p. by rewrite Hmem, Heq. }
  pose proof (Hcell n) as Hcn. unfold aStar_neighbor.
  destruct (decide (n ∈ done ∧ improves gr1 cm n = true)) as [[Hin Himp]|Hnot].
  - rewrite Hcn, Hc1. cbn [fmap option_fmap option_map mbind option_bind].
    unfold improves in Himp. rewrite Hc1 in Himp.
    apply andb_true_iff in Himp as [[Hv Hw]%andb_true_iff _].
    apply negb_true_iff in Hv. apply bool_decide_eq_true in Hw.
    rewrite decide_False by (simpl; intros [?|?]; congruence).
    rewrite decide_False by (simpl; lia).
    eexists. split; [done|]. apply Hsame. by left.
  - rewrite Hcn, Hc1. cbn [mbind option_bind].
    destruct (decide (isVisited c1 = true ∨ type c1 = Wall)) as [Hskip|Hgo].
    { eexists. split; [done|]. apply Hsame. right.
      unfold improves. rewrite Hc1.
      destruct Hskip as [-> | ->]; [done|].
      rewrite bool_decide_eq_false_2 by (by intros ?).
      by rewrite andb_false_r. }
    destruct (decide (g c1 = 0 ∨ g cm + 1 < g c1)) as [Hbetter|Hworse].
    2:{ eexists. split; [done|]. apply Hsame. right.
        unfold improves. rewrite Hc1.
        rewrite (bool_decide_eq_false_2 (g c1 = 0)) by lia.
        rewrite (bool_decide_eq_false_2 (g cm + 1 < g c1)) by lia.
        by rewrite andb_false_r. }
    assert (improves gr1 cm n = true) as Himp.
    { unfold improves. rewrite Hc1.
      apply andb_true_iff. split; [apply andb_true_iff; split|].
      - apply negb_true_iff. destruct (isVisited c1); [|done].
        destruct Hgo. by left.
      - apply bool_decide_eq_true. intros ?. apply Hgo. by right.
      - apply orb_true_iff.
        destruct Hbetter; [left|right]; by apply bool_decide_eq_true. }
    assert (n ∉ done) as Hfresh by (intros ?; by apply Hnot).
    set (upd := λ c, set_scores _ _ _ (set_previousNode _ c)).
    set (gr' := update gr n upd).
    assert (same_frame g0 gr') as Hf'.
    { apply same_frame_update_r; [|done].
      apply (keeps_frame_compose (set_scores _ _ _) (set_previousNode _));
        [apply keeps_frame_set_scores|apply keeps_frame_set_previousNode]. }
    assert (∀ p, cell gr' p
                 = if decide (p ∈ done ++ [n] ∧ improves gr1 cm p = true)
                   then relabel cm <$> cell gr1 p else cell gr1 p) as Hcell'.
    { intros p. unfold gr'. rewrite cell_update.
      destruct (decide (n = p)) as [<-|Hne].
      - rewrite decide_True
          by (split; [apply elem_of_app; right; by left|done]).
        by rewrite Hcn, Hc1.
      - rewrite Hcell. apply decide_ext.
        rewrite elem_of_app, list_elem_of_singleton. naive_solver. }
    assert (∀ p, p ∈ O → is_Some (cell g0 p)) as HO.
    { intros p [Hp|[_ Hp]]%Hmem; [by apply HO1|].
      apply (cell_frame_inv gr1); [done|]. unfold improves in Hp.
      by destruct (cell gr1 p). }
    destruct (positioned_frame gr1 Hf1 n c1 Hc1) as [Hr Hc].
    pose proof (open_some gr' O n c1 Hf' HO Hr Hc) as Hsome.
    destruct (existsb _ O) eqn:Hex.
    + eexists. split; [done|]. split_and!; simpl; [done|done|done|].
      intros p. rewrite Hmem, elem_of_app, list_elem_of_singleton.
      split; [naive_solver|]. intros [?|[[?| ->] ?]]; [by left|by right|].
      apply Hmem. by apply Hsome.
    + eexists. split; [done|]. split_and!; simpl; [done|done| |].
      * apply NoDup_app. split_and!; [done| |apply NoDup_singleton].
        intros p Hp ->%list_elem_of_singleton.
        apply Hsome in Hp. congruence.
      * intros p. rewrite !elem_of_app, Hmem, list_elem_of_singleton.
        naive_solver.
Qed.

Lemma improves_true gr1 cm p :
  improves gr1 cm p = true ↔
  ∃ c, cell gr1 p = Some c ∧ isVisited c = false ∧ type c ≠ Wall ∧
       (g c = 0 ∨ g cm + 1 < g c).
Proof.
  unfold improves. destruct (cell gr1 p) as [c|]; [|naive_solver].
  rewrite !andb_true_iff, orb_true_iff, negb_true_iff,
    !bool_decide_eq_true.
  naive_solver.
Qed.

Lemma astar_expand gr O m rest cm :
  astar_labels gr → astar_open gr O → m :: rest ≡ₚ O →
  (∀ q, q ∈ O → f_of gr m ≤ f_of gr q) →
  cell gr m = Some cm →
  ∃ ns gr2 O2,
    getNeighbors cm (update gr m (set_isVisited true)) = Some ns ∧
    foldl (λ acc n, st ← acc; aStar_neighbor cm eC st n)
      (Some (update gr m (set_isVisited true), rest)) ns = Some (gr2, O2) ∧
    astar_labels gr2 ∧ astar_open gr2 O2 ∧
    ∀ p, vis gr2 p = if decide (p = m) then true else vis gr p.
Proof.
  intros HL HO Hperm Hmin Hcm.
  assert (m ∈ O) as Hm by (rewrite <- Hperm; by left).
  pose proof (astar_mark gr O m HL HO Hm Hmin) as HL1.
  assert (is_Some (cell gr m)) as Hsome by (by exists cm).
  assert (∀ q, vis (update gr m (set_isVisited true)) q
               = if decide (q = m) then true else vis gr q) as Hvis1
    by (intros q; by apply vis_mark).
  set (gr1 := update gr m (set_isVisited true)) in *.
  pose proof (al_frame gr1 HL1) as Hf1.
  destruct (positioned_frame gr (al_frame gr HL) m cm Hcm) as [Hrow Hcol].
  assert (g cm = gsc gr1 m) as Hgm.
  { unfold gr1. rewrite gsc_mark. unfold gsc. by rewrite Hcm. }
  assert (NoDup (m :: rest)) as Hnd.
  { rewrite Hperm. apply (ao_nodup gr O HO). }
  apply NoDup_cons in Hnd as [Hmrest Hnd].
  destruct (getNeighbors_spec gr1 cm m) as (ns & Hns & Hnsq); try done.
  { apply (rectangular_frame g0); [done|apply rectangular_g0]. }
  { apply cell_frame; [done|].
    eapply cell_frame_inv; [apply (al_frame gr HL)|done]. }
  destruct (foldl_option_inv (aStar_neighbor cm eC)
              (neighbors_done gr1 cm rest) ns (gr1, rest))
    as ([gr2 O2] & Hfold & Hf2 & Hcell & Hnd2 & Hmem).
  { unfold neighbors_done. cbn [fst snd]. split_and!; [done| |done|].
    - intros p. by rewrite decide_False by (by intros [?%elem_of_nil _]).
    - intros p. split; [by left|].
      by intros [?|[?%elem_of_nil _]]. }
  { intros done st n Hst Hn. apply aStar_neighbor_step; try done.
    - intros p Hp. destruct (ao_member gr O HO p) as ((c & Hc & _) & _).
      + rewrite <- Hperm. by right.
      + by exists c.
    - apply Hnsq in Hn as (_ & cq & Hcq & _).
      apply (cell_frame_inv gr1); [done|by exists cq]. }
  cbn [fst snd] in Hf2, Hcell, Hnd2, Hmem.
  exists ns, gr2, O2. split; [done|]. split; [done|].
  set (Up := written gr1 cm ns).
  assert (∀ p, cell gr2 p
               = if decide (Up p) then relabel cm <$> cell gr1 p
                 else cell gr1 p) as Hcell'.
  { intros p. rewrite Hcell. by apply decide_ext. }
  clear Hcell. rename Hcell' into Hcell.
  assert (∀ p, p ∈ O2 ↔ p ∈ rest ∨ Up p) as Hmem' by apply Hmem.
  clear Hmem. rename Hmem' into Hmem.
  assert (∀ p, Up p ↔
               adjacent m p ∧ passable g0 p ∧ vis gr1 p = false ∧
               (gsc gr1 p = 0 ∨ S (gsc gr1 m) < gsc gr1 p)) as HU.
  { intros p. unfold Up, written. rewrite Hnsq, improves_true, <- Hgm.
    rewrite (passable_frame g0 gr1 p Hf1). unfold passable, vis, gsc.
    split.
    - intros [[Hadj _] (c & Hc & Hv & Hw & Hg)]. rewrite Hc. simpl.
      split_and!; [done|by exists c|done|lia].
    - intros (Hadj & (c & Hc & Hw) & Hv & Hg). rewrite Hc in Hv, Hg.
      simpl in *. split; [split; [done|by exists c]|].
      exists c. split_and!; [done|done|done|lia]. }
  assert (∀ p, Up p → is_Some (cell gr1 p)) as HUc.
  { intros p (_ & (c & Hc & _) & _)%HU. apply cell_frame; [done|].
    by exists c. }
  assert (∀ p, vis gr2 p = vis gr1 p) as Hvis2.
  { intros p. unfold vis. rewrite Hcell. case_decide; [|done].
    by destruct (cell gr1 p). }
  assert (∀ p, gsc gr2 p
               = if decide (Up p) then S (gsc gr1 m) else gsc gr1 p) as Hg2.
  { intros p. unfold gsc at 1. rewrite Hcell.
    destruct (decide (Up p)) as [[c Hc]%HUc|]; [|done].
    rewrite Hc. simpl. lia. }
  assert (∀ p, prev gr2 p
               = if decide (Up p) then Some m else prev gr1 p) as Hprev2.
  { intros p. unfold prev at 1. rewrite Hcell.
    destruct (decide (Up p)) as [[c Hc]%HUc|]; [|done].
    rewrite Hc. simpl. rewrite Hrow, Hcol. by destruct m. }
  assert (∀ p, f_of gr2 p
               = if decide (Up p) then S (gsc gr1 m) + hm p else f_of gr1 p)
    as Hfs2.
  { intros p. unfold f_of at 1. rewrite Hcell.
    destruct (decide (Up p)) as [[c Hc]%HUc|]; [|done].
    rewrite Hc. simpl. rewrite (heuristic_at gr1 p c Hf1 Hc). lia. }
  assert (vis gr1 m = true) as Hvm by (by rewrite Hvis1, decide_True).
  assert (vis gr1 s = true) as Hvs by (by apply (al_first gr1 HL1 m)).
  assert (∀ p, vis gr1 p = true → ¬ Up p) as Hvu.
  { intros p Hp (_ & _ & Hv & _)%HU. congruence. }
  split_and!; [| |intros p; by rewrite Hvis2, Hvis1].
  - split.
    + done.
    + rewrite Hg2, Hprev2, !decide_False by (by apply Hvu).
      apply (al_start gr1 HL1).
    + intros p. rewrite !Hvis2. apply (al_first gr1 HL1).
    + intros p. rewrite Hvis2. intros Hp.
      rewrite Hg2, decide_False by (by apply Hvu).
      by apply (al_visited gr1 HL1).
    + intros p Hp. rewrite Hg2.
      destruct (decide (Up p)) as [HUp|HUp].
      * intros _. destruct (proj1 (HU p) HUp) as (Hadj & Hpp & _).
        split; [done|]. exists m.
        rewrite Hprev2, decide_True by done.
        rewrite Hvis2, Hg2, decide_False by (by apply Hvu).
        by split_and!.
      * intros Hg.
        destruct (al_labelled gr1 HL1 p Hp Hg)
          as (Hpp & q & Hq & Hvq & Hadj & Hgq).
        split; [done|]. exists q.
        rewrite Hprev2, decide_False, Hvis2, Hg2 by done.
        rewrite decide_False by (by apply Hvu). by split_and!.
    + intros p Hp. rewrite Hg2.
      destruct (decide (Up p)) as [HUp|HUp]; [done|]. intros Hg.
      rewrite Hprev2, decide_False, Hvis2 by done.
      by apply (al_unlabelled gr1 HL1).
  - assert (∀ p, p ∈ rest →
                 passable g0 p ∧ vis gr1 p = false ∧
                 (p = s ∨ gsc gr1 p ≠ 0) ∧ f_of gr1 p = gsc gr1 p + hm p)
      as Hrest.
    { intros p Hp. unfold gr1. rewrite Hvis1, gsc_mark, f_mark.
      rewrite decide_False by (intros ->; done).
      apply (ao_member gr O HO). rewrite <- Hperm. by right. }
    assert (∀ q p, vis gr1 q = true → q ≠ m → adjacent q p →
                   passable g0 p → vis gr1 p = false →
                   p ∈ rest ∧ gsc gr1 p ≠ 0 ∧ gsc gr1 p ≤ S (gsc gr1 q))
      as Hexp.
    { intros q p Hq Hqm Hadj Hpp Hvp. rewrite Hvis1 in Hq, Hvp.
      rewrite decide_False in Hq by done.
      destruct (decide (p = m)) as [|Hpm]; [done|].
      unfold gr1. rewrite !gsc_mark.
      destruct (ao_expanded gr O HO q p Hq Hadj Hpp Hvp) as (Hin & ? & ?).
      split; [|done]. rewrite <- Hperm in Hin.
      by apply elem_of_cons in Hin as [?|?]. }
    split.
    + done.
    + intros p Hp. rewrite Hvis2, Hg2, Hfs2.
      destruct (decide (Up p)) as [HUp|HUp].
      * apply HU in HUp as (_ & Hpp & Hv & _).
        split_and!; [done|done|by right|done].
      * apply Hmem in Hp as [Hp|Hp]; [|done]. by apply Hrest.
    + intros q p. rewrite !Hvis2. intros Hq Hadj Hpp Hvp.
      rewrite !Hg2, Hmem. rewrite (decide_False (P := Up q))
        by (by apply Hvu).
      destruct (decide (Up p)) as [HUp|HUp].
      * split; [by right|]. split; [done|].
        destruct (decide (q = m)) as [->|Hqm]; [done|].
        destruct (Hexp q p Hq Hqm Hadj Hpp Hvp) as (_ & ? & ?).
        apply HU in HUp as (_ & _ & _ & Hg). lia.
      * destruct (decide (q = m)) as [->|Hqm].
        -- assert (gsc gr1 p ≠ 0 ∧ gsc gr1 p ≤ S (gsc gr1 m)) as [Hg0 Hle].
           { destruct (decide (gsc gr1 p = 0 ∨ S (gsc gr1 m) < gsc gr1 p))
               as [Hg|Hg]; [|lia].
             destruct HUp. by apply HU. }
           split; [|done]. left.
           assert (p ≠ s) as Hps by (intros ->; congruence).
           destruct (al_labelled gr1 HL1 p Hps Hg0)
             as (_ & q' & _ & Hq' & Hadj' & Hgq').
           destruct (decide (q' = m)) as [->|Hqm'].
           ++ destruct (al_labelled gr HL p Hps) as (_ & q'' & _ & Hq'' & Hadj'' & _).
              { unfold gr1 in Hg0. by rewrite gsc_mark in Hg0. }
              rewrite Hvis1 in Hvp.
              destruct (decide (p = m)) as [|Hpm]; [done|].
              destruct (ao_expanded gr O HO q'' p Hq'' Hadj'' Hpp Hvp)
                as (Hin & _).
              rewrite <- Hperm in Hin.
              by apply elem_of_cons in Hin as [?|?].
           ++ by destruct (Hexp q' p Hq' Hqm' Hadj' Hpp Hvp).
        -- destruct (Hexp q p Hq Hqm Hadj Hpp Hvp) as (? & ? & ?).
           split; [by left|done].
    + rewrite Hvis2. congruence.
Qed.

(** With an empty open set, every cell a walk reaches has been visited. *)
Lemma astar_stuck gr k :
  astar_labels gr → astar_open gr [] → reach g0 s k e → vis gr e = true.
Proof.
  intros HL HO Hreach.
  destruct (vis gr e) eqn:Hv; [done|exfalso].
  destruct (frontier_on_walk g0 s (vis gr) (λ q _, q ∈ @nil Ref))
    with (j := k) (p := e) as (i & q & _ & Hq%elem_of_nil & _);
    try done.
  - intros x a y Hx Hax (Hadj & Hpx & Hpy) Hy.
    by destruct (ao_expanded gr [] HO x y Hx Hadj Hpy Hy).
  - intros Hs. destruct Hreach as [Hps _]. by apply (ao_start gr [] HO).
Qed.

Lemma aStar_loop_spec all fuel gr O V :
  (∀ p, is_Some (cell g0 p) → p ∈ all) →
  astar_labels gr → astar_open gr O →
  NoDup V → (∀ p, p ∈ V → vis gr p = true) →
  length all < fuel + length V →
  ∃ V' gr', aStar_loop fuel gr eC O V = Some (V', gr') ∧
            astar_labels gr' ∧
            ((∃ k, reach g0 s k e) → vis gr' e = true).
Proof.
  intros Hall. revert gr O V.
  induction fuel as [|fuel IH]; intros gr O V HL HO HV Hvis Hlen.
  { assert (length V ≤ length all); [|lia].
    apply submseteq_length, NoDup_submseteq; [done|].
    intros p Hp. apply Hall.
    destruct (al_visited gr HL p (Hvis p Hp)) as ((c & Hc & _) & _).
    by exists c. }
  cbn [aStar_loop].
  destruct (sortNodesByF gr O) as [|m rest] eqn:Hsort.
  { pose proof (stable_sort_perm
                  (λ a b, bool_decide (f_of gr a < f_of gr b)) O) as Hp.
    unfold sortNodesByF in Hsort. rewrite Hsort in Hp.
    apply Permutation_nil in Hp as ->.
    exists V, gr. split_and!; [done|done|]. intros [k Hk].
    by apply (astar_stuck gr k). }
  apply sortNodesByF_head in Hsort as (Hm & Hmin & Hperm).
  destruct (ao_member gr O HO m Hm) as (Hpm & Hvm & _).
  destruct (proj1 (passable_frame g0 gr m (al_frame gr HL)) Hpm)
    as (cm & Hcm & Hw).
  rewrite Hcm. cbn [mbind option_bind]. rewrite decide_False by done.
  pose proof (astar_mark gr O m HL HO Hm Hmin) as HL1.
  assert (NoDup (V ++ [m])) as HV'.
  { apply NoDup_app. split_and!; [done| |apply NoDup_singleton].
    intros p Hp ->%list_elem_of_singleton. apply Hvis in Hp. congruence. }
  destruct (decide (row cm = row eC ∧ col cm = col eC)) as [[Hr Hc]|Hne].
  { eexists _, _. split_and!; [done|done|]. intros _.
    destruct (positioned_frame gr (al_frame gr HL) m cm Hcm) as [Hrow Hcol].
    destruct (positioned_frame g0 (same_frame_refl g0) e eC He)
      as [Hrow' Hcol'].
    assert (m = e) as <-.
    { destruct m, e; simpl in *; congruence. }
    rewrite vis_mark by (by exists cm). by rewrite decide_True. }
  destruct (astar_expand gr O m rest cm HL HO Hperm Hmin Hcm)
    as (ns & gr2 & O2 & Hns & Hfold & HL2 & HO2 & Hvis2).
  rewrite Hns. cbn [mbind option_bind]. rewrite Hfold.
  cbn [mbind option_bind]. apply IH; try done.
  - intros p Hp. rewrite Hvis2. case_decide; [done|].
    apply elem_of_app in Hp as [Hp|Hp%list_elem_of_singleton]; [|done].
    by apply Hvis.
  - rewrite length_app. simpl. lia.
Qed.

Lemma astar_init cs :
  cell g0 s = Some cs → type cs ≠ Wall →
  astar_labels (update g0 s (set_scores (heuristic cs eC) 0
                               (heuristic cs eC))) ∧
  astar_open (update g0 s (set_scores (heuristic cs eC) 0
                             (heuristic cs eC))) [s].
Proof.
  intros Hcs Hw.
  set (gr0 := update g0 s (set_scores _ _ _)).
  assert (same_frame g0 gr0) as Hf
    by apply same_frame_update, keeps_frame_set_scores.
  destruct Hwf as [_ Hfresh].
  assert (∀ p, vis gr0 p = false) as Hvis.
  { intros p. unfold vis, gr0. rewrite cell_update.
    destruct (cell g0 p) as [c|] eqn:Hc; [|by case_decide].
    destruct (Hfresh p c Hc) as (_ & _ & _ & Hv & _).
    by case_decide. }
  assert (∀ p, prev gr0 p = None) as Hprev.
  { intros p. unfold prev, gr0. rewrite cell_update.
    destruct (cell g0 p) as [c|] eqn:Hc; [|by case_decide].
    destruct (Hfresh p c Hc) as (_ & _ & _ & _ & Hp & _).
    by case_decide. }
  assert (∀ p, gsc gr0 p = 0) as Hg.
  { intros p. unfold gsc, gr0. rewrite cell_update.
    destruct (cell g0 p) as [c|] eqn:Hc; [|by case_decide].
    destruct (Hfresh p c Hc) as (_ & _ & _ & _ & _ & Hg).
    by case_decide. }
  split; split.
  - done.
  - done.
  - intros p. by rewrite Hvis.
  - intros p. by rewrite Hvis.
  - intros p _. by rewrite Hg.
  - done.
  - apply NoDup_singleton.
  - intros p ->%list_elem_of_singleton. split_and!.
    + by exists cs.
    + done.
    + by left.
    + rewrite Hg. unfold f_of, gr0. rewrite (cell_update_eq g0 s _ cs Hcs).
      simpl. apply (heuristic_at g0 s cs); [apply same_frame_refl|done].
  - intros q p. by rewrite Hvis.
  - intros _ _. by left.
Qed.

(** [aStar] returns, and leaves scores that tell the distances. *)
Lemma aStar_returns :
  passable g0 s →
  ∃ V gr, aStar g0 s e = Some (V, gr) ∧ astar_labels gr ∧
          ((∃ k, reach g0 s k e) → vis gr e = true).
Proof.
  intros (cs & Hcs & Hw). destruct (astar_init cs Hcs Hw) as [HL HO].
  unfold aStar. rewrite Hcs, He. cbn [mbind option_bind].
  eapply (aStar_loop_spec (getAllNodes _)); try done.
  - intros p Hp. apply elem_of_getAllNodes.
    by apply (cell_frame _ p (al_frame _ HL)).
  - apply NoDup_nil_2.
  - by intros p ?%elem_of_nil.
  - simpl. lia.
Qed.

(** The walk over the back-pointers of the scores, from a visited cell. *)
Lemma astar_walk gr p :
  astar_labels gr → vis gr p = true →
  ∃ l, getNodesInShortestPathOrder gr p = Some l ∧
       length l = S (gsc gr p) ∧
       path_between g0 s p l ∧ exact g0 s (gsc gr p) p.
Proof.
  intros HL Hp.
  set (lab := λ q, if vis gr q then Some (gsc gr q) else None).
  assert (∀ q k, lab q = Some k ↔ vis gr q = true ∧ gsc gr q = k) as Hlab.
  { intros q k. unfold lab. destruct (vis gr q); naive_solver. }
  destruct (al_visited gr HL p Hp) as (_ & Hex).
  destruct (chain_walk gr s lab) with (k := gsc gr p) (p := p)
    as (l & Hl & Hlen & Hpath & Hhd & Hlast).
  - intros q k [Hq Hk]%Hlab.
    destruct (al_visited gr HL q Hq) as (Hpq & _).
    split; [by apply (passable_frame g0 gr); [apply HL|]|].
    destruct (decide (q = s)) as [->|Hne].
    + left. destruct (al_start gr HL) as [Hg Hprev]. split_and!; [lia|done|done].
    + right. destruct (decide (gsc gr q = 0)) as [Hz|Hnz].
      { destruct (al_unlabelled gr HL q Hne Hz). congruence. }
      destruct (al_labelled gr HL q Hne Hnz)
        as (_ & q' & Hprev & Hv' & Hadj & Hg').
      exists q', (gsc gr q'). split_and!; [lia|done| |done].
      by apply Hlab.
  - by apply Hlab.
  - exists l. split_and!; try done. split; [|done].
    by apply (is_path_frame gr); [apply HL|].
Qed.

Lemma aStar_shortest k :
  reach g0 s k e →
  ∃ V gr l d, aStar g0 s e = Some (V, gr) ∧
              getNodesInShortestPathOrder gr e = Some l ∧
              length l = S d ∧ path_between g0 s e l ∧ exact g0 s d e.
Proof.
  intros Hk.
  destruct aStar_returns as (V & gr & Hrun & HL & Hend); [by destruct Hk|].
  destruct (astar_walk gr e HL) as (l & Hl & Hlen & Hpath & Hex).
  { apply Hend. by exists k. }
  by exists V, gr, l, (gsc gr e).
Qed.

(** A wall as the only node of the open set ends the run. *)
Lemma aStar_loop_wall fuel gr c V :
  cell gr s = Some c → type c = Wall →
  aStar_loop (S (S fuel)) gr eC [s] V = Some (V, gr).
Proof.
  intros Hc Hw. remember (S fuel) as fuel' eqn:Hfuel. cbn [aStar_loop].
  assert (sortNodesByF gr [s] = [s]) as -> by done.
  cbv beta iota. rewrite Hc. cbn [mbind option_bind].
  rewrite decide_True by done. by subst fuel'.
Qed.

Lemma aStar_unreachable :
  is_Some (cell g0 s) → passable g0 e → (∀ k, ¬ reach g0 s k e) →
  ∃ V gr, aStar g0 s e = Some (V, gr) ∧
          getNodesInShortestPathOrder gr e = Some [e].
Proof.
  intros [cs Hcs] Hpe Hno.
  destruct (decide (type cs = Wall)) as [Hw|Hw].
  - unfold aStar. rewrite Hcs, He. cbn [mbind option_bind].
    set (gr0 := update g0 s (set_scores _ _ _)).
    exists [], gr0. split.
    + rewrite (aStar_loop_wall _ gr0 (set_scores (heuristic cs eC) 0
                                          (heuristic cs eC) cs));
        [done|by apply cell_update_eq|done].
    + assert (same_frame g0 gr0) as Hf
        by apply same_frame_update, keeps_frame_set_scores.
      destruct (cell gr0 e) as [c|] eqn:Hc.
      2:{ destruct (cell_frame gr0 e Hf) as [c Hc'];
            [by exists eC|congruence]. }
      apply (path_single gr0 e c Hc).
      unfold gr0 in Hc. rewrite cell_update, He in Hc.
      destruct Hwf as [_ Hfresh].
      destruct (Hfresh e eC He) as (_ & _ & _ & _ & Hp & _).
      case_decide; injection Hc as <-; done.
  - destruct aStar_returns as (V & gr & Hrun & HL & _); [by exists cs|].
    exists V, gr. split; [done|].
    destruct (cell_frame gr e (al_frame gr HL)) as [c Hc]; [by exists eC|].
    apply (path_single gr e c Hc).
    assert (prev gr e = None) as Hprev.
    { destruct (decide (e = s)) as [->|Hne]; [apply (al_start gr HL)|].
      destruct (decide (gsc gr e = 0)) as [Hz|Hnz].
      - by apply (al_unlabelled gr HL).
      - destruct (al_labelled gr HL e Hne Hnz)
          as (_ & q & _ & Hq & Hadj & _).
        destruct (al_visited gr HL q Hq) as (_ & Hex & _).
        destruct (Hno (S (gsc gr q))). by eapply reach_step. }
    unfold prev in Hprev. by rewrite Hc in Hprev.
Qed.

End Search.

(** *** The grid of the component *)

Lemma cell_initializeGrid s e p c :
  cell (initializeGrid s e) p = Some c → c = createNode s e p.1 p.2.
Proof.
  unfold cell, initializeGrid. rewrite list_lookup_fmap.
  destruct (seq 0 20 !! p.1) as [r|] eqn:Hr; [|done].
  cbn [fmap option_fmap option_map mbind option_bind].
  rewrite list_lookup_fmap.
  destruct (seq 0 50 !! p.2) as [c0|] eqn:Hc; [|done].
  cbn [fmap option_fmap option_map].
  apply lookup_seq in Hr as [-> _]. apply lookup_seq in Hc as [-> _].
  by intros [= <-].
Qed.

Lemma well_formed_initializeGrid s e : well_formed (initializeGrid s e).
Proof.
  split.
  - intros i r r0 Hr Hr0. unfold initializeGrid in *.
    rewrite list_lookup_fmap in Hr, Hr0.
    destruct (seq 0 20 !! i); [|done].
    destruct (seq 0 20 !! 0); [|done].
    injection Hr as <-. injection Hr0 as <-. reflexivity.
  - intros p c ->%cell_initializeGrid. done.
Qed.

(** A wall more or less leaves the grid well formed. *)
Lemma well_formed_set_type gr p t :
  well_formed gr → well_formed (update gr p (set_type t)).
Proof.
  intros [Hrect Hfresh]. split.
  - intros i r r0 Hr Hr0.
    pose proof (update_row_length gr p (set_type t) i) as Hi.
    pose proof (update_row_length gr p (set_type t) 0) as H0.
    rewrite Hr in Hi. rewrite Hr0 in H0.
    destruct (gr !! i) as [x|] eqn:Hx; [|done].
    destruct (gr !! 0) as [x0|] eqn:Hx0; [|done].
    injection Hi as Hi. injection H0 as H0.
    rewrite Hi, H0. by apply (Hrect i).
  - intros q c. rewrite cell_update.
    destruct (decide (p = q)) as [->|_]; [|apply Hfresh].
    destruct (cell gr q) as [c'|] eqn:Hc'; [|done].
    intros [= <-]. simpl. by apply Hfresh.
Qed.

Lemma well_formed_toggleWall gr r c gr' :
  well_formed gr → toggleWall gr r c = Some gr' → well_formed gr'.
Proof.
  intros Hwf. unfold toggleWall.
  destruct (cell gr (r, c)) as [node|]; [|done]. simpl.
  case_decide; intros [= <-]; [|done]. by apply well_formed_set_type.
Qed.

(** *** The two runs *)

(** The walk from the end cell stops there when no path leads to it,
    whichever the algorithm. *)
Lemma unreachable_walk_is_end_cell g0 s e :
  well_formed g0 → is_Some (cell g0 s) → passable g0 e →
  (∀ k, ¬ reach g0 s k e) →
  (∃ V gr, dijkstra g0 s e = Some (V, gr) ∧
           getNodesInShortestPathOrder gr e = Some [e]) ∧
  (∃ V gr, aStar g0 s e = Some (V, gr) ∧
           getNodesInShortestPathOrder gr e = Some [e]).
Proof.
  intros Hwf Hs Hpe Hno. pose proof Hpe as (eC & He & _). split.
  - by apply (dijkstra_unreachable g0 s e eC).
  - by apply (aStar_unreachable g0 s e eC).
Qed.

(** X22: on a grid whose search fields are as [createNode] sets them (the
    grid after mount or reset, walls toggled or not), with a wall-avoiding
    path [l0] from the start cell to the end cell, both [dijkstra] and
    [aStar] return, the walk over [previousNode] from the end cell gives
    for each a wall-avoiding path from start to end, the two have the
    same length, and no wall-avoiding path from start to end is
    shorter. *)
Theorem dijkstra_aStar_shortest_equal g0 s e l0 :
  well_formed g0 → path_between g0 s e l0 →
  ∃ Vd gd ld Va ga la,
    dijkstra g0 s e = Some (Vd, gd) ∧
    getNodesInShortestPathOrder gd e = Some ld ∧
    aStar g0 s e = Some (Va, ga) ∧
    getNodesInShortestPathOrder ga e = Some la ∧
    length ld = length la ∧
    path_between g0 s e ld ∧ path_between g0 s e la ∧
    ∀ l, path_between g0 s e l → length ld ≤ length l.
Proof.
  intros Hwf Hpath.
  destruct (path_reach g0 s e l0 Hpath) as (k & _ & Hk).
  pose proof (reach_passable g0 s k e Hk) as (eC & He & _).
  destruct (dijkstra_shortest g0 s e eC Hwf He k Hk)
    as (Vd & gd & ld & d & Hd & Hld & Hlen & Hpd & Hex).
  destruct (aStar_shortest g0 s e eC Hwf He k Hk)
    as (Va & ga & la & d' & Ha & Hla & Hlen' & Hpa & Hex').
  pose proof (exact_unique g0 s d d' e Hex Hex') as <-.
  exists Vd, gd, ld, Va, ga, la. split_and!; try done; [congruence|].
  intros l Hl. destruct (path_reach g0 s e l Hl) as (j & Hj & Hreach).
  destruct Hex as [_ Hmin]. specialize (Hmin j Hreach). lia.
Qed.

(** The grid of the component with start (0, 0) and end (0, 2), and a wall
    between them: the path goes around. *)
Lemma dijkstra_aStar_shortest_equal_witness :
  let g0 := update (initializeGrid (0, 0) (0, 2)) (0, 1) (set_type Wall) in
  ∃ Vd gd ld Va ga la,
    dijkstra g0 (0, 0) (0, 2) = Some (Vd, gd) ∧
    getNodesInShortestPathOrder gd (0, 2) = Some ld ∧
    aStar g0 (0, 0) (0, 2) = Some (Va, ga) ∧
    getNodesInShortestPathOrder ga (0, 2) = Some la ∧
    length ld = length la ∧
    path_between g0 (0, 0) (0, 2) ld ∧ path_between g0 (0, 0) (0, 2) la ∧
    ∀ l, path_between g0 (0, 0) (0, 2) l → length ld ≤ length l.
Proof.
  intros g0.
  apply (dijkstra_aStar_shortest_equal g0 (0, 0) (0, 2)
           [(0, 0); (1, 0); (1, 1); (1, 2); (0, 2)]).
  - apply well_formed_set_type, well_formed_initializeGrid.
  - split; [|done].
    repeat (constructor;
            [eexists; split; [vm_compute; reflexivity|discriminate]
            |unfold adjacent; simpl; lia|]).
    constructor. eexists. split; [vm_compute; reflexivity|discriminate].
Defined.

(** *** A second run

    The recorders keep their search state in the cells and nothing clears
    it before a run.  The component after mount: play with Dijkstra at
    speed 50, the effect running again once [isVisualizing] has changed;
    pause, and the effect again; then a click on the empty cell (10, 20),
    which makes it a wall. *)
Definition second_run_world : option World :=
  w ← playEffect Dijkstra 50 true mounted;
  w ← playEffect Dijkstra 50 true w;
  w ← playEffect Dijkstra 50 false w;
  w ← playEffect Dijkstra 50 false w;
  s ← handleMouseDown 10 20
         (w, {| mouseIsPressed := false; isMovingStart := false;
                isMovingEnd := false |});
  Some (handleMouseUp s).1.

(** The path the next run derives, whichever the algorithm. *)
Definition derived_path (algorithm : Algorithm) (w : World)
    : option (list Ref) :=
  '(_, gr) ← match algorithm with
             | Dijkstra => dijkstra (grid w) (startNode w) (endNode w)
             | AStar => aStar (grid w) (startNode w) (endNode w)
             end;
  getNodesInShortestPathOrder gr (endNode w).

Definition types (gr : Grid) : list (list CellType) :=
  (λ r : list Cell, type <$> r) <$> gr.

Lemma cell_types gr p :
  type <$> cell gr p = types gr !! p.1 ≫= λ r, r !! p.2.
Proof.
  unfold cell, types. rewrite list_lookup_fmap.
  destruct (gr !! p.1) as [r|]; [|done]. simpl.
  by rewrite list_lookup_fmap.
Qed.

Lemma passable_types g1 g2 p :
  types g1 = types g2 → passable g1 p → passable g2 p.
Proof.
  intros Hty (c & Hc & Hw).
  pose proof (cell_types g1 p) as H1. pose proof (cell_types g2 p) as H2.
  rewrite Hty, <- H2, Hc in H1.
  destruct (cell g2 p) as [c'|] eqn:Hc'; [|done]. injection H1 as H1.
  exists c'. split; [done|]. congruence.
Qed.

Lemma path_between_types g1 g2 s e l :
  types g1 = types g2 → path_between g1 s e l → path_between g2 s e l.
Proof.
  intros Hty (Hl & Hhd & Hlast). split; [|done]. clear Hhd Hlast.
  induction Hl as [p Hp|p q l Hp Hpq _ IH].
  - apply path_one. by apply (passable_types g1).
  - apply path_cons; [by apply (passable_types g1)|done|done].
Qed.

(** C2 on the code: in that state the cell (10, 20) is a wall and no run
    is going, so that play starts one.  A wall-avoiding path from the
    start to the end cell exists, and none has fewer than 23 cells; but
    the path either algorithm derives, and play schedules for the second
    phase, is the straight row of 21 cells, through the wall: the cells
    still carry [isVisited], [distance] and [previousNode] of the first
    run. *)
Theorem second_run_crosses_wall :
  ∃ w,
    second_run_world = Some w ∧
    isVisualizing w = false ∧ isPathFound w = false ∧
    type <$> cell (grid w) (10, 20) = Some Wall ∧
    path_between (grid w) (startNode w) (endNode w)
      ([(10, 15); (11, 15)] ++ ((λ c, (11, c)) <$> seq 16 20)
       ++ [(10, 35)]) ∧
    (∀ l, path_between (grid w) (startNode w) (endNode w) l →
          23 ≤ length l) ∧
    ∀ algorithm,
      derived_path algorithm w = Some ((λ c, (10, c)) <$> seq 15 21) ∧
      (w' ← playEffect algorithm 50 true w;
       last (callback <$> timeouts w'))
      = Some (cb_shortestPath ((λ c, (10, c)) <$> seq 15 21)).
Proof.
  set (fresh := update (initializeGrid (10, 15) (10, 35)) (10, 20)
                  (set_type Wall)).
  set (detour := [(10, 15); (11, 15)] ++ ((λ c, (11, c)) <$> seq 16 20)
                 ++ [(10, 35)]).
  assert ((w ← second_run_world;
           Some (bool_decide (types (grid w) = types fresh),
                 startNode w, endNode w, isVisualizing w, isPathFound w,
                 derived_path Dijkstra w, derived_path AStar w,
                 w' ← playEffect Dijkstra 50 true w;
                 last (callback <$> timeouts w'),
                 w' ← playEffect AStar 50 true w;
                 last (callback <$> timeouts w')))
          = Some (true, (10, 15), (10, 35), false, false,
                  Some ((λ c, (10, c)) <$> seq 15 21),
                  Some ((λ c, (10, c)) <$> seq 15 21),
                  Some (cb_shortestPath ((λ c, (10, c)) <$> seq 15 21)),
                  Some (cb_shortestPath ((λ c, (10, c)) <$> seq 15 21))))
    as Hrun by (vm_compute; reflexivity).
  destruct second_run_world as [w|]; [|done].
  cbn [mbind option_bind] in Hrun.
  injection Hrun as Hty Hs He Hv Hf Hd Ha Hpd Hpa.
  apply bool_decide_eq_true in Hty.
  assert (well_formed fresh) as Hwf
    by apply well_formed_set_type, well_formed_initializeGrid.
  assert (path_between fresh (10, 15) (10, 35) detour) as Hdetour.
  { split; [|done]. unfold detour. simpl.
    repeat (constructor;
            [eexists; split; [vm_compute; reflexivity|discriminate]
            |unfold adjacent; simpl; lia|]).
    constructor. eexists. split; [vm_compute; reflexivity|discriminate]. }
  exists w. rewrite Hs, He. split_and!; try done.
  - rewrite cell_types, Hty. reflexivity.
  - by apply (path_between_types fresh).
  - intros l Hl%(path_between_types _ fresh); [|done].
    destruct (path_reach _ _ _ _ Hdetour) as (k & _ & Hk).
    pose proof (reach_passable _ _ _ _ Hk) as (eC & HeC & _).
    destruct (dijkstra_shortest fresh (10, 15) (10, 35) eC Hwf HeC k Hk)
      as (V & gr & l' & d & Hrun & Hl' & Hlen & _ & _ & Hmin).
    assert (('(_, gr) ← dijkstra fresh (10, 15) (10, 35);
             length <$> getNodesInShortestPathOrder gr (10, 35))
            = Some 23) as Hc by (vm_compute; reflexivity).
    rewrite Hrun in Hc. cbn [mbind option_bind] in Hc.
    rewrite Hl' in Hc. injection Hc as Hc.
    destruct (path_reach _ _ _ _ Hl) as (j & Hj & Hreach).
    specialize (Hmin j Hreach). lia.
  - by intros [].
Qed.

(** The grid of the mounted component after a click on each of the four
    cells around the start cell. *)
Definition start_walled_in : Grid :=
  foldl (λ gr p, update gr p (set_type Wall))
    (initializeGrid (10, 15) (10, 35))
    [(9, 15); (11, 15); (10, 14); (10, 16)].

Lemma start_walled_in_unreachable k :
  ¬ reach start_walled_in (10, 15) k (10, 35).
Proof.
  intros [_ Hw]. inversion Hw as [|k' x y z Hstep Hrest]; subst.
  destruct Hstep as (Hadj & _ & (c & Hc & Ht)). destruct y as [r c0].
  unfold adjacent in Hadj. simpl in Hadj.
  assert ((r, c0) = (10, 14) ∨ (r, c0) = (10, 16) ∨
          (r, c0) = (9, 15) ∨ (r, c0) = (11, 15)) as Hcases.
  { destruct Hadj as [[<- [?|?]]|[<- [?|?]]]; subst.
    - left. f_equal. lia.
    - right. by left.
    - do 2 right. left. f_equal. lia.
    - by do 3 right. }
  destruct Hcases as [Hy|[Hy|[Hy|Hy]]]; injection Hy as -> ->;
    vm_compute in Hc; injection Hc as <-; by destruct Ht.
Qed.

(** C5 on the code: the four clicks give [start_walled_in], where no walk
    leads from the start cell (10, 15) to the end cell (10, 35).  Under
    either algorithm the recorder visits the start cell alone, and the
    list derived for the second phase is not empty: it is the end cell.
    Play schedules the visit and a second phase for that list; the
    effect, running again once [isVisualizing] has changed, cancels the
    timeout of the second phase, the one its ref holds, so that the visit
    alone fires and [isPathFound] stays down. *)
Theorem unreachable_end_listed_as_path :
  (g1 ← toggleWall (grid mounted) 9 15;
   g2 ← toggleWall g1 11 15;
   g3 ← toggleWall g2 10 14;
   toggleWall g3 10 16) = Some start_walled_in ∧
  (∀ k, ¬ reach start_walled_in (10, 15) k (10, 35)) ∧
  ∀ algorithm,
    derived_path algorithm (with_grid start_walled_in mounted)
    = Some [(10, 35)] ∧
    (w1 ← playEffect algorithm 50 true (with_grid start_walled_in mounted);
     w2 ← playEffect algorithm 50 true w1;
     w3 ← fires 1 50 w2;
     Some (callback <$> timeouts w1, callback <$> timeouts w2,
           timeouts w3, isPathFound w3, toasts w3))
    = Some ([cb_visit 10 15; cb_shortestPath [(10, 35)]], [cb_visit 10 15],
            [], false, 0).
Proof.
  split_and!.
  - vm_compute. reflexivity.
  - apply start_walled_in_unreachable.
  - intros []; split; vm_compute; reflexivity.
Qed.

End PathProofs.

(** ** The grid: its cells, their neighbors, the clicks *)

Module GridOps.
Import Pathfinding GridStore PathProofs.
Local Open Scope nat_scope.

(** *** Writes to a cell *)

Lemma update_update gr p u1 u2 :
  update (update gr p u1) p u2 = update gr p (u2 ∘ u1).
Proof.
  unfold update. destruct (gr !! p.1) as [r|] eqn:Hr; [|by rewrite Hr].
  destruct (r !! p.2) as [c|] eqn:Hc; [|by rewrite Hr, Hc].
  rewrite list_lookup_insert_eq by (by eapply lookup_lt_Some).
  rewrite list_lookup_insert_eq by (by eapply lookup_lt_Some).
  by rewrite !list_insert_insert_eq.
Qed.

Lemma update_same gr p upd c :
  cell gr p = Some c → upd c = c → update gr p upd = gr.
Proof.
  unfold cell, update. destruct (gr !! p.1) as [r|] eqn:Hr; [|done].
  simpl. intros Hc Hu. rewrite Hc, Hu.
  by rewrite (list_insert_id r), list_insert_id.
Qed.

Lemma set_type_same c : set_type (type c) c = c.
Proof. by destruct c. Qed.

(** *** [getNeighbors] *)

Lemma mapM_tagged {A B} (f : A → option B) l cells :
  mapM (λ q, c ← f q; Some (q, c)) l = Some cells → cells.*1 = l.
Proof.
  intros Hm%mapM_Some.
  induction Hm as [|q [q' c] l cells Hq _ IH]; [done|].
  rewrite fmap_cons, IH. destruct (f q); [|done]. simpl in Hq.
  by injection Hq as -> _.
Qed.

(** X1: on a rectangular grid, [getNeighbors] of a cell of the grid
    returns at most four places, none twice: exactly the places next to
    the cell, in its row or its column, that hold a cell not yet
    visited. *)
Theorem getNeighbors_unvisited_adjacent gr c p :
  rectangular gr → cell gr p = Some c → row c = p.1 → col c = p.2 →
  ∃ ns, getNeighbors c gr = Some ns ∧ NoDup ns ∧ length ns ≤ 4 ∧
        ∀ q, q ∈ ns ↔ adjacent p q ∧
                      ∃ cq, cell gr q = Some cq ∧ isVisited cq = false.
Proof.
  intros Hrect Hc Hrow Hcol.
  destruct (getNeighbors_spec gr c p) as (ns & Hns & Hmem);
    [done|by exists c|done|done|].
  exists ns. split; [done|]. split_and!; [| |done].
  - unfold getNeighbors in Hns.
    destruct (gr !! 0) as [r0|]; [|done]. cbn [mbind option_bind] in Hns.
    destruct (mapM _ _) as [cells|] eqn:Hm; [|done].
    cbn [mbind option_bind] in Hns. injection Hns as <-.
    apply mapM_tagged in Hm.
    apply (sublist_NoDup _ (cells.*1));
      [|apply fmap_sublist, sublist_filter].
    rewrite Hm.
    destruct (decide (0 < row c)), (decide (row c + 1 < length gr)),
      (decide (0 < col c)), (decide (col c + 1 < length r0)); simpl;
      repeat (apply NoDup_cons; split;
              [rewrite ?elem_of_cons, ?elem_of_nil, ?pair_equal_spec; lia|]);
      apply NoDup_nil_2.
  - unfold getNeighbors in Hns.
    destruct (gr !! 0) as [r0|]; [|done]. cbn [mbind option_bind] in Hns.
    destruct (mapM _ _) as [cells|] eqn:Hm; [|done].
    cbn [mbind option_bind] in Hns. injection Hns as <-.
    apply mapM_tagged in Hm. rewrite length_fmap.
    etrans; [apply length_filter|].
    rewrite <- (length_fmap fst), Hm, !length_app.
    repeat case_decide; simpl; lia.
Qed.

Lemma getNeighbors_unvisited_adjacent_witness :
  ∃ ns, getNeighbors (createNode (0, 0) (0, 2) 1 1)
          (initializeGrid (0, 0) (0, 2)) = Some ns ∧
        NoDup ns ∧ length ns ≤ 4 ∧
        ∀ q, q ∈ ns ↔
             adjacent (1, 1) q ∧
             ∃ cq, cell (initializeGrid (0, 0) (0, 2)) q = Some cq ∧
                   isVisited cq = false.
Proof.
  apply (getNeighbors_unvisited_adjacent (initializeGrid (0, 0) (0, 2))
           (createNode (0, 0) (0, 2) 1 1) (1, 1)).
  - exact (proj1 (well_formed_initializeGrid (0, 0) (0, 2))).
  - vm_compute. reflexivity.
  - reflexivity.
  - reflexivity.
Defined.

(** *** [getAllNodes] *)

Lemma NoDup_mjoin_imap {A B} (F : nat → A → list B) (tag : B → nat) k l :
  (∀ i x, NoDup (F i x)) → (∀ i x y, y ∈ F i x → tag y = k + i) →
  NoDup (mjoin (imap F l)).
Proof.
  revert F k. induction l as [|x l IH]; intros F k Hnd Htag; simpl.
  { apply NoDup_nil_2. }
  apply NoDup_app. split_and!.
  - apply Hnd.
  - intros y Hy (ys & Hys & Hin)%list_elem_of_join.
    apply list_elem_of_lookup in Hin as [i Hi].
    rewrite list_lookup_imap in Hi.
    destruct (l !! i) as [x'|]; [|done]. injection Hi as <-.
    apply Htag in Hy. apply (Htag (S i)) in Hys. lia.
  - apply (IH _ (S k)).
    + intros i x'. apply Hnd.
    + intros i x' y Hy. apply (Htag (S i)) in Hy. lia.
Qed.

Lemma getAllNodes_NoDup gr : NoDup (getAllNodes gr).
Proof.
  unfold getAllNodes. apply (NoDup_mjoin_imap _ fst 0).
  - intros r cells. apply NoDup_alt. intros i j x Hi Hj.
    rewrite list_lookup_imap in Hi, Hj.
    destruct (cells !! i); [|done]. destruct (cells !! j); [|done].
    simpl in *. congruence.
  - intros r cells y [i Hi]%list_elem_of_lookup.
    rewrite list_lookup_imap in Hi. destruct (cells !! i); [|done].
    by injection Hi as <-.
Qed.

(** X2: [getAllNodes] lists the place of every cell of the grid, row by
    row, and none twice. *)
Theorem getAllNodes_each_cell_once gr :
  NoDup (getAllNodes gr) ∧
  ∀ p, p ∈ getAllNodes gr ↔ is_Some (cell gr p).
Proof. split; [apply getAllNodes_NoDup|apply elem_of_getAllNodes]. Qed.

(** *** [initializeGrid] and [resetGrid] *)

Lemma cell_initializeGrid_is_Some s e r c :
  is_Some (cell (initializeGrid s e) (r, c)) ↔ r < 20 ∧ c < 50.
Proof.
  unfold cell, initializeGrid. cbn [fst snd]. rewrite list_lookup_fmap.
  split.
  - intros [cl Hc].
    destruct (seq 0 20 !! r) as [r'|] eqn:Hr; [|done].
    cbn [fmap option_fmap option_map mbind option_bind] in Hc.
    rewrite list_lookup_fmap in Hc.
    destruct (seq 0 50 !! c) as [c'|] eqn:Hc'; [|done].
    apply lookup_seq in Hr as [_ Hr]. apply lookup_seq in Hc' as [_ Hc'].
    done.
  - intros [Hr Hc]. rewrite (lookup_seq_lt 0 20 r Hr).
    cbn [fmap option_fmap option_map mbind option_bind].
    rewrite list_lookup_fmap, (lookup_seq_lt 0 50 c Hc). by eexists.
Qed.

(** X3: whatever the component holds, [resetGrid] leaves the grid of 20
    rows of 50 cells with every search field as [createNode] sets it: the
    cell at the start coordinates of type start, the one at the end
    coordinates of type end unless these are the start coordinates too
    (then it is of type start and no cell is of type end), every other
    cell empty (walls, visited and path marks are gone), and both flags
    down. *)
Theorem resetGrid_fresh_grid w :
  well_formed (grid (resetGrid w)) ∧
  (∀ r c, is_Some (cell (grid (resetGrid w)) (r, c)) ↔ r < 20 ∧ c < 50) ∧
  (∀ p cl, cell (grid (resetGrid w)) p = Some cl →
           type cl = if decide (p = startNode w) then Start
                     else if decide (p = endNode w) then End_ else Empty) ∧
  isVisualizing (resetGrid w) = false ∧ isPathFound (resetGrid w) = false ∧
  startNode (resetGrid w) = startNode w ∧ endNode (resetGrid w) = endNode w.
Proof.
  split_and!; try done.
  - apply well_formed_initializeGrid.
  - apply cell_initializeGrid_is_Some.
  - intros p cl ->%cell_initializeGrid. simpl.
    destruct p as [r c], (startNode w) as [sr sc], (endNode w) as [er ec].
    simpl. repeat case_decide; naive_solver.
Qed.

(** *** [toggleWall] *)

(** X4: two clicks on a cell that is empty, a wall, the start or the end
    give the grid back as it was; on a cell marked visited or path they
    leave an empty cell. *)
Theorem toggleWall_twice gr r c node :
  cell gr (r, c) = Some node →
  (toggleWall gr r c ≫= λ gr', toggleWall gr' r c)
  = Some (if decide (type node = Visited ∨ type node = Path
                     ∨ type node = Current)
          then update gr (r, c) (set_type Empty) else gr).
Proof.
  intros Hc. unfold toggleWall. rewrite Hc. cbn [mbind option_bind].
  destruct (decide (type node ≠ Start ∧ type node ≠ End_)) as [[Hs He]|Hse].
  - cbn [mbind option_bind].
    rewrite (cell_update_eq gr (r, c) _ node Hc). cbn [mbind option_bind].
    destruct (decide (type node = Wall)) as [Hw|Hw]; simpl.
    + rewrite update_update. f_equal.
      rewrite decide_False by (rewrite Hw; naive_solver).
      apply (update_same gr (r, c) _ node Hc).
      destruct node. simpl in *. by subst.
    + rewrite update_update. f_equal.
      case_decide as Hv; [reflexivity|].
      apply (update_same gr (r, c) _ node Hc).
      assert (type node = Empty) as Ht
        by (destruct (type node); naive_solver).
      destruct node. simpl in *. by subst.
  - cbn [mbind option_bind]. rewrite Hc. cbn [mbind option_bind].
    rewrite decide_False by done.
    rewrite decide_False; [done|].
    destruct (type node); naive_solver.
Qed.

Lemma toggleWall_twice_witness :
  (toggleWall (initializeGrid (0, 0) (0, 2)) 1 1
     ≫= λ gr', toggleWall gr' 1 1)
  = Some (if decide (type (createNode (0, 0) (0, 2) 1 1) = Visited
                     ∨ type (createNode (0, 0) (0, 2) 1 1) = Path
                     ∨ type (createNode (0, 0) (0, 2) 1 1) = Current)
          then update (initializeGrid (0, 0) (0, 2)) (1, 1) (set_type Empty)
          else initializeGrid (0, 0) (0, 2)).
Proof.
  apply (toggleWall_twice (initializeGrid (0, 0) (0, 2)) 1 1
           (createNode (0, 0) (0, 2) 1 1)).
  vm_compute. reflexivity.
Defined.

(** *** [heuristic] *)

Lemma adjacent_walk_hm e k p q :
  nsteps adjacent k p q → hm e p ≤ k + hm e q.
Proof.
  induction 1 as [|k x y z Hxy _ IH]; [lia|].
  apply (hm_step e) in Hxy. lia.
Qed.

(** X5: [heuristic] is symmetric, is zero exactly between cells of the same
    row and column, and never exceeds the number of moves of a walk, one
    cell up, down, left or right at a time, from the one cell to the
    other. *)
Theorem heuristic_admissible a b :
  heuristic a b = heuristic b a ∧
  (heuristic a b = 0 ↔ row a = row b ∧ col a = col b) ∧
  ∀ k, nsteps adjacent k (row a, col a) (row b, col b) → heuristic a b ≤ k.
Proof.
  split_and!.
  - unfold heuristic, abs_diff. lia.
  - unfold heuristic, abs_diff. lia.
  - intros k Hk. apply (adjacent_walk_hm (row b, col b)) in Hk.
    unfold hm, abs_diff in Hk. unfold heuristic, abs_diff. simpl in Hk. lia.
Qed.

(** *** Dragging the start and the end *)

(** The cell at [p], and no other, has type [t]. *)
Definition marks (gr : Grid) (t : CellType) (p : Ref) : Prop :=
  ∀ q c, cell gr q = Some c → (type c = t ↔ q = p).

(** X6: on a grid with one start cell and one end cell, [moveStartNode] to
    a cell other than the end cell leaves one start cell, the one under the
    mouse, whatever it was before; the end cell stays, and every cell
    but the old and the new start is as it was. *)
Theorem moveStartNode_moves_start gr s e r c :
  is_Some (cell gr s) → is_Some (cell gr (r, c)) →
  marks gr Start s → marks gr End_ e → (r, c) ≠ e →
  ∃ gr', moveStartNode gr s r c = Some gr' ∧
         marks gr' Start (r, c) ∧ marks gr' End_ e ∧
         ∀ q, q ≠ s → q ≠ (r, c) → cell gr' q = cell gr q.
Proof.
  intros [cs Hcs] [ct Hct] Hstart Hend Hne.
  assert (s ≠ e) as Hse.
  { intros ->. pose proof (proj2 (Hstart e cs Hcs) eq_refl) as H1.
    pose proof (proj2 (Hend e cs Hcs) eq_refl) as H2. congruence. }
  unfold moveStartNode. rewrite Hcs. cbn [mbind option_bind].
  rewrite cell_update.
  assert (∃ t, (if decide (s = (r, c)) then set_type Empty <$> cell gr (r, c)
                else cell gr (r, c)) = Some t ∧ type t ≠ End_)
    as (t & -> & Ht).
  { case_decide.
    - rewrite Hct. by eexists.
    - exists ct. split; [done|]. intros Hty.
      by apply (Hend (r, c) ct Hct) in Hty. }
  cbn [mbind option_bind]. rewrite decide_True by done.
  eexists. split; [done|].
  assert (∀ q, cell (update (update gr s (set_type Empty)) (r, c)
                       (set_type Start)) q
               = if decide (q = (r, c)) then set_type Start <$> cell gr q
                 else if decide (q = s) then set_type Empty <$> cell gr q
                 else cell gr q) as Hcell.
  { intros q. rewrite !cell_update.
    destruct (decide (q = (r, c))) as [->|Hq].
    - rewrite decide_True by done. case_decide; [|done].
      by destruct (cell gr (r, c)).
    - rewrite decide_False by done.
      destruct (decide (q = s)) as [->|Hq'].
      + by rewrite decide_True.
      + by rewrite decide_False. }
  split_and!.
  - intros q c'. rewrite Hcell. repeat case_decide; subst.
    + destruct (cell gr (r, c)); [|done]. by intros [= <-].
    + rewrite Hcs. intros [= <-]. simpl. naive_solver.
    + intros Hq. rewrite (Hstart q c' Hq). naive_solver.
  - intros q c'. rewrite Hcell. repeat case_decide; subst.
    + destruct (cell gr (r, c)); [|done]. intros [= <-]. simpl.
      naive_solver.
    + rewrite Hcs. intros [= <-]. simpl. naive_solver.
    + apply Hend.
  - intros q Hqs Hqr. rewrite Hcell. by rewrite !decide_False.
Qed.

Lemma moveStartNode_moves_start_witness :
  ∃ gr', moveStartNode (initializeGrid (0, 0) (0, 2)) (0, 0) 1 1 = Some gr' ∧
         marks gr' Start (1, 1) ∧ marks gr' End_ (0, 2) ∧
         ∀ q, q ≠ (0, 0) → q ≠ (1, 1) →
              cell gr' q = cell (initializeGrid (0, 0) (0, 2)) q.
Proof.
  apply (moveStartNode_moves_start (initializeGrid (0, 0) (0, 2))
           (0, 0) (0, 2) 1 1).
  - vm_compute. by eexists.
  - vm_compute. by eexists.
  - intros [qr qc] cl ->%cell_initializeGrid. simpl.
    rewrite pair_equal_spec. repeat case_decide; naive_solver.
  - intros [qr qc] cl ->%cell_initializeGrid. simpl.
    rewrite pair_equal_spec. repeat case_decide; naive_solver.
  - done.
Defined.

(** X7: the same for [moveEndNode]: moved to a cell other than the start
    cell, the end cell is the one under the mouse and no other, the start
    cell stays, and every cell but the old and the new end is as it
    was. *)
Theorem moveEndNode_moves_end gr s e r c :
  is_Some (cell gr e) → is_Some (cell gr (r, c)) →
  marks gr Start s → marks gr End_ e → (r, c) ≠ s →
  ∃ gr', moveEndNode gr e r c = Some gr' ∧
         marks gr' End_ (r, c) ∧ marks gr' Start s ∧
         ∀ q, q ≠ e → q ≠ (r, c) → cell gr' q = cell gr q.
Proof.
  intros [ce Hce] [ct Hct] Hstart Hend Hne.
  assert (s ≠ e) as Hse.
  { intros ->. pose proof (proj2 (Hstart e ce Hce) eq_refl) as H1.
    pose proof (proj2 (Hend e ce Hce) eq_refl) as H2. congruence. }
  unfold moveEndNode. rewrite Hce. cbn [mbind option_bind].
  rewrite cell_update.
  assert (∃ t, (if decide (e = (r, c)) then set_type Empty <$> cell gr (r, c)
                else cell gr (r, c)) = Some t ∧ type t ≠ Start)
    as (t & -> & Ht).
  { case_decide.
    - rewrite Hct. by eexists.
    - exists ct. split; [done|]. intros Hty.
      by apply (Hstart (r, c) ct Hct) in Hty. }
  cbn [mbind option_bind]. rewrite decide_True by done.
  eexists. split; [done|].
  assert (∀ q, cell (update (update gr e (set_type Empty)) (r, c)
                       (set_type End_)) q
               = if decide (q = (r, c)) then set_type End_ <$> cell gr q
                 else if decide (q = e) then set_type Empty <$> cell gr q
                 else cell gr q) as Hcell.
  { intros q. rewrite !cell_update.
    destruct (decide (q = (r, c))) as [->|Hq].
    - rewrite decide_True by done. case_decide; [|done].
      by destruct (cell gr (r, c)).
    - rewrite decide_False by done.
      destruct (decide (q = e)) as [->|Hq'].
      + by rewrite decide_True.
      + by rewrite decide_False. }
  split_and!.
  - intros q c'. rewrite Hcell. repeat case_decide; subst.
    + destruct (cell gr (r, c)); [|done]. by intros [= <-].
    + rewrite Hce. intros [= <-]. simpl. naive_solver.
    + intros Hq. rewrite (Hend q c' Hq). naive_solver.
  - intros q c'. rewrite Hcell. repeat case_decide; subst.
    + destruct (cell gr (r, c)); [|done]. intros [= <-]. simpl.
      naive_solver.
    + rewrite Hce. intros [= <-]. simpl. naive_solver.
    + apply Hstart.
  - intros q Hqs Hqr. rewrite Hcell. by rewrite !decide_False.
Qed.

Lemma moveEndNode_moves_end_witness :
  ∃ gr', moveEndNode (initializeGrid (0, 0) (0, 2)) (0, 2) 1 1 = Some gr' ∧
         marks gr' End_ (1, 1) ∧ marks gr' Start (0, 0) ∧
         ∀ q, q ≠ (0, 2) → q ≠ (1, 1) →
              cell gr' q = cell (initializeGrid (0, 0) (0, 2)) q.
Proof.
  apply (moveEndNode_moves_end (initializeGrid (0, 0) (0, 2))
           (0, 0) (0, 2) 1 1).
  - vm_compute. by eexists.
  - vm_compute. by eexists.
  - intros [qr qc] cl ->%cell_initializeGrid. simpl.
    rewrite pair_equal_spec. repeat case_decide; naive_solver.
  - intros [qr qc] cl ->%cell_initializeGrid. simpl.
    rewrite pair_equal_spec. repeat case_decide; naive_solver.
  - done.
Defined.

(** X8: the start cell dragged onto the end cell and on to a third cell:
    entering the end cell empties the old start cell and leaves the
    end cell as it is, so that the grid has no start cell while
    [startNode] points at the end cell; entering the next cell then
    empties that one, and the grid is left without an end cell, with
    [endNode] unchanged. *)
Theorem drag_start_over_end_erases_end w m er ec r c :
  isVisualizing w = false → mouseIsPressed m = true →
  isMovingStart m = true → endNode w = (er, ec) →
  is_Some (cell (grid w) (startNode w)) → is_Some (cell (grid w) (er, ec)) →
  is_Some (cell (grid w) (r, c)) →
  marks (grid w) Start (startNode w) → marks (grid w) End_ (er, ec) →
  (r, c) ≠ (er, ec) →
  ∃ w1 w2,
    handleMouseEnter er ec (w, m) = Some (w1, m) ∧
    startNode w1 = (er, ec) ∧
    (∀ p cl, cell (grid w1) p = Some cl → type cl ≠ Start) ∧
    handleMouseEnter r c (w1, m) = Some (w2, m) ∧
    startNode w2 = (r, c) ∧ marks (grid w2) Start (r, c) ∧
    endNode w2 = (er, ec) ∧
    (∀ p cl, cell (grid w2) p = Some cl → type cl ≠ End_).
Proof.
  intros Hv Hm Hms He [cs Hcs] [ce Hce] [ct Hct] Hstart Hend Hne.
  set (s := startNode w) in *. set (e := (er, ec)) in *.
  assert (s ≠ e) as Hse.
  { intros Heq.
    pose proof (proj2 (Hstart s cs Hcs) eq_refl) as H1.
    rewrite Heq in Hcs.
    pose proof (proj2 (Hend e cs Hcs) eq_refl) as H2. congruence. }
  assert (type ce = End_) as Hte by (by apply (Hend e ce Hce)).
  assert (moveStartNode (grid w) s er ec
          = Some (update (grid w) s (set_type Empty))) as Hmove1.
  { unfold moveStartNode. rewrite Hcs. cbn [mbind option_bind].
    fold e. rewrite (cell_update_ne (grid w) s e) by done. rewrite Hce.
    cbn [mbind option_bind]. by rewrite decide_False by (by intros ?). }
  set (g1 := update (grid w) s (set_type Empty)) in *.
  assert (moveStartNode g1 e r c
          = Some (update (update g1 e (set_type Empty)) (r, c)
                    (set_type Start))) as Hmove2.
  { unfold moveStartNode, g1.
    rewrite (cell_update_ne (grid w) s e) by done. rewrite Hce.
    cbn [mbind option_bind]. rewrite !cell_update.
    rewrite (decide_False (P := e = (r, c))) by done.
    destruct (decide (s = (r, c))) as [Heq|Hsr].
    - rewrite <- Heq, Hcs. cbn [fmap option_fmap option_map mbind option_bind].
      by rewrite decide_True.
    - rewrite Hct. cbn [mbind option_bind].
      rewrite decide_True; [done|]. intros Hty.
      by apply (Hend (r, c) ct Hct) in Hty. }
  exists (with_start e (with_grid g1 w)),
    (with_start (r, c)
       (with_grid (update (update g1 e (set_type Empty)) (r, c)
                     (set_type Start)) (with_start e (with_grid g1 w)))).
  split_and!.
  - unfold handleMouseEnter. rewrite Hm, Hv, Hms. simpl.
    fold s. by rewrite Hmove1.
  - done.
  - simpl. intros p cl. unfold g1. rewrite cell_update.
    case_decide as Hp.
    + subst p. rewrite Hcs. by intros [= <-].
    + intros Hcl Hty. apply (Hstart p cl Hcl) in Hty. by subst.
  - unfold handleMouseEnter. rewrite Hm, Hms. simpl. rewrite Hv. simpl.
    by rewrite Hmove2.
  - done.
  - simpl. intros p cl. unfold g1. rewrite !cell_update.
    destruct (decide ((r, c) = p)) as [<-|Hp].
    + rewrite (decide_False (P := e = (r, c))) by done.
      case_decide; destruct (cell (grid w) (r, c)); try done;
        intros [= <-]; done.
    + destruct (decide (e = p)) as [<-|Hep].
      * rewrite decide_False, Hce by done. intros [= <-]. simpl.
        naive_solver.
      * destruct (decide (s = p)) as [<-|Hsp].
        -- rewrite Hcs. intros [= <-]. simpl. naive_solver.
        -- intros Hcl. rewrite (Hstart p cl Hcl). naive_solver.
  - simpl. done.
  - simpl. intros p cl. unfold g1. rewrite !cell_update.
    destruct (decide ((r, c) = p)) as [<-|Hp].
    + rewrite (decide_False (P := e = (r, c))) by done.
      case_decide; destruct (cell (grid w) (r, c)); try done;
        intros [= <-]; done.
    + destruct (decide (e = p)) as [<-|Hep].
      * rewrite decide_False, Hce by done. by intros [= <-].
      * destruct (decide (s = p)) as [<-|Hsp].
        -- rewrite Hcs. by intros [= <-].
        -- intros Hcl Hty. apply (Hend p cl Hcl) in Hty. by subst.
Qed.

Lemma drag_start_over_end_erases_end_witness :
  let m := {| mouseIsPressed := true; isMovingStart := true;
              isMovingEnd := false |} in
  ∃ w1 w2,
    handleMouseEnter 10 35 (mounted, m) = Some (w1, m) ∧
    startNode w1 = (10, 35) ∧
    (∀ p cl, cell (grid w1) p = Some cl → type cl ≠ Start) ∧
    handleMouseEnter 10 36 (w1, m) = Some (w2, m) ∧
    startNode w2 = (10, 36) ∧ marks (grid w2) Start (10, 36) ∧
    endNode w2 = (10, 35) ∧
    (∀ p cl, cell (grid w2) p = Some cl → type cl ≠ End_).
Proof.
  intros m.
  apply (drag_start_over_end_erases_end mounted m 10 35 10 36);
    try reflexivity.
  - vm_compute. by eexists.
  - vm_compute. by eexists.
  - vm_compute. by eexists.
  - intros [qr qc] cl ->%cell_initializeGrid. simpl.
    rewrite pair_equal_spec. repeat case_decide; naive_solver.
  - intros [qr qc] cl ->%cell_initializeGrid. simpl.
    rewrite pair_equal_spec. repeat case_decide; naive_solver.
  - done.
Defined.

End GridOps.

(** ** The order of the visits *)

Module VisitOrder.
Import Pathfinding GridStore PathProofs.
Local Open Scope nat_scope.

Section Order.
Context (g0 : Grid) (s e : Ref) (eC : Cell).
Context (Hwf : well_formed g0).
Context (He : cell g0 e = Some eC).

(** *** Dijkstra *)

(** What [updateUnvisitedNeighbors] changes: the distance of cells not yet
    visited, to one more than the distance of the node. *)
Lemma updateUnvisitedNeighbors_view gr1 p cm k gr2 :
  same_frame g0 gr1 → cell gr1 p = Some cm → distance cm = Finite k →
  updateUnvisitedNeighbors cm gr1 = Some gr2 →
  ∀ q, vis gr2 q = vis gr1 q ∧
       (distance_of gr2 q = distance_of gr1 q ∨
        vis gr1 q = false ∧ distance_of gr2 q = Finite (S k)).
Proof.
  intros Hf Hcm Hk Hrun q.
  destruct (positioned_frame g0 Hwf gr1 Hf p cm Hcm) as [Hrow Hcol].
  destruct (getNeighbors_spec gr1 cm p) as (ns & Hns & Hnsq); try done.
  { apply (rectangular_frame g0); [done|by apply rectangular_g0]. }
  unfold updateUnvisitedNeighbors in Hrun. rewrite Hns in Hrun.
  cbn [mbind option_bind] in Hrun. injection Hrun as <-.
  unfold vis, distance_of. rewrite cell_foldl_update by (by intros []).
  destruct (decide (q ∈ ns)) as [Hin|Hin]; [|by split; [|left]].
  apply Hnsq in Hin as (_ & cq & Hcq & Hv). rewrite Hcq. simpl.
  split; [done|]. right. by rewrite Hk.
Qed.

(** What the two lists of the loop hold. *)
Record dijkstra_order (gr : Grid) (U V : list Ref) : Prop := {
  do_nodup_U : NoDup U;
  do_unvisited : ∀ p, p ∈ U → vis gr p = false;
  do_nodup_V : NoDup V;
  do_visited : ∀ p, vis gr p = true ↔ p ∈ V;
  do_end : e ∉ V;
  do_below : ∀ p q kp kq, p ∈ V → q ∈ U →
      distance_of gr p = Finite kp → distance_of gr q = Finite kq → kp ≤ kq;
  do_sorted : ∀ i j p q kp kq, i ≤ j → V !! i = Some p → V !! j = Some q →
      distance_of gr p = Finite kp → distance_of gr q = Finite kq → kp ≤ kq
}.

(** What the run hands over. *)
Definition dijkstra_visits (gr : Grid) (V : list Ref) : Prop :=
  NoDup V ∧ (∀ p, vis gr p = true ↔ p ∈ V) ∧
  (∀ i j p q kp kq, i ≤ j → V !! i = Some p → V !! j = Some q →
     distance_of gr p = Finite kp → distance_of gr q = Finite kq →
     kp ≤ kq) ∧
  (last V = Some e ∨ (e ∉ V) ∧ ∀ p k, reach g0 s k p → vis gr p = true).

Lemma dijkstra_loop_order fuel gr U V :
  dijkstra_labels g0 s gr → dijkstra_frontier g0 gr U →
  dijkstra_order gr U V → length U < fuel →
  ∃ V' gr', dijkstra_loop fuel gr eC U V = Some (V', gr') ∧
            dijkstra_labels g0 s gr' ∧ dijkstra_visits gr' V'.
Proof.
  revert gr U V. induction fuel as [|fuel IH]; intros gr U V HL HF HO Hlen;
    [lia|].
  assert ((∀ q, q ∈ U → passable g0 q → distance_of gr q = Infinity) →
          dijkstra_visits gr V) as Hstuck.
  { intros Hinf. split_and!; [apply HO|apply HO|apply HO|]. right.
    split; [apply HO|]. intros p k.
    by apply (dijkstra_stuck g0 s p gr U k). }
  destruct U as [|u U'].
  { exists V, gr. split_and!; [done|done|]. apply Hstuck.
    by intros q ?%elem_of_nil. }
  cbn [dijkstra_loop].
  destruct (sortNodesByDistance gr (u :: U')) as [|m rest] eqn:Hsort.
  { pose proof (stable_sort_perm
                  (λ a b, distance_lt (distance_of gr a) (distance_of gr b))
                  (u :: U')) as Hp.
    unfold sortNodesByDistance in Hsort. rewrite Hsort in Hp.
    by apply Permutation_nil_cons in Hp. }
  apply sortNodesByDistance_head in Hsort as (Hm & Hmin & Hperm).
  assert (length rest < fuel) as Hlen'.
  { apply Permutation_length in Hperm. simpl in *. lia. }
  assert (NoDup (m :: rest)) as Hnd.
  { rewrite Hperm. apply HO. }
  apply NoDup_cons in Hnd as [Hmrest Hndrest].
  assert (∀ p, p ∈ rest → p ∈ u :: U') as Hsub.
  { intros p Hp. rewrite <- Hperm. by right. }
  destruct (cell_frame g0 gr m (dl_frame g0 s gr HL)
              (df_valid g0 gr _ HF m Hm)) as [cm Hcm].
  rewrite Hcm. cbn [mbind option_bind].
  destruct (decide (type cm = Wall)) as [Hw|Hw].
  { apply IH; [done| | |done].
    - split.
      + intros p Hp Hv. pose proof (df_unvisited g0 gr _ HF p Hp Hv) as Hin.
        rewrite <- Hperm in Hin.
        apply elem_of_cons in Hin as [->|Hin]; [|done].
        by destruct (wall_not_passable g0 gr m cm (dl_frame g0 s gr HL)
                       Hcm Hw).
      + intros p Hp. apply (df_valid g0 gr _ HF). by apply Hsub.
      + apply (df_expanded g0 gr _ HF).
    - split; try apply HO; [done|..].
      + intros p Hp. apply (do_unvisited gr _ V HO). by apply Hsub.
      + intros p q kp kq Hp Hq. apply (do_below gr _ V HO); [done|].
        by apply Hsub. }
  destruct (decide (distance cm = Infinity)) as [Hd|Hd].
  { exists V, gr. split_and!; [done|done|]. apply Hstuck.
    intros q Hq _. specialize (Hmin q Hq).
    unfold distance_of at 2 in Hmin. rewrite Hcm in Hmin. simpl in Hmin.
    rewrite Hd in Hmin. by destruct (distance_of gr q). }
  destruct (distance cm) as [k|] eqn:Hk; [|done].
  assert (distance_of gr m = Finite k) as Hk'.
  { unfold distance_of. by rewrite Hcm. }
  pose proof (dijkstra_mark g0 s gr _ m cm k HL HF Hm Hmin Hcm Hw Hk')
    as HL1.
  set (gr1 := update gr m (set_isVisited true)) in *.
  assert (∀ q, vis gr1 q = if decide (q = m) then true else vis gr q)
    as Hvis1 by (intros q; apply vis_mark; by exists cm).
  assert (∀ q, distance_of gr1 q = distance_of gr q) as Hdist1
    by (intros q; apply distance_mark).
  assert (vis gr m = false) as Hvm by (by apply (do_unvisited gr _ V HO)).
  assert (m ∉ V) as HmV.
  { intros Hin%(do_visited gr _ V HO). congruence. }
  assert (NoDup (V ++ [m])) as HndV.
  { apply NoDup_app. split_and!; [apply HO| |apply NoDup_singleton].
    by intros p Hp ->%list_elem_of_singleton. }
  assert (∀ p, vis gr1 p = true ↔ p ∈ V ++ [m]) as HvisV.
  { intros p. rewrite Hvis1, elem_of_app, list_elem_of_singleton.
    case_decide; [naive_solver|]. rewrite (do_visited gr _ V HO).
    naive_solver. }
  assert (∀ p kp, p ∈ V → distance_of gr p = Finite kp → kp ≤ k) as HVk.
  { intros p kp Hp Hkp. by apply (do_below gr _ V HO p m kp k). }
  assert (∀ i j p q kp kq, i ≤ j → (V ++ [m]) !! i = Some p →
            (V ++ [m]) !! j = Some q →
            distance_of gr p = Finite kp → distance_of gr q = Finite kq →
            kp ≤ kq) as Hsorted.
  { intros i j p q kp kq Hij Hi Hj Hkp Hkq.
    apply lookup_app_Some in Hi as [Hi|[Hi Hi']];
      apply lookup_app_Some in Hj as [Hj|[Hj Hj']].
    - by apply (do_sorted gr _ V HO i j p q).
    - apply list_lookup_singleton_Some in Hj' as [_ <-].
      rewrite Hk' in Hkq. injection Hkq as <-.
      apply (HVk p); [by eapply list_elem_of_lookup_2|done].
    - apply lookup_lt_Some in Hj. lia.
    - apply list_lookup_singleton_Some in Hi' as [_ <-].
      apply list_lookup_singleton_Some in Hj' as [_ <-].
      rewrite Hk' in Hkp, Hkq. injection Hkp as <-. by injection Hkq as <-. }
  destruct (positioned_frame g0 Hwf gr (dl_frame g0 s gr HL) m cm Hcm)
    as [Hrow Hcol].
  destruct (positioned_frame g0 Hwf g0 (same_frame_refl g0) e eC He)
    as [Hrow' Hcol'].
  destruct (decide (row cm = row eC ∧ col cm = col eC)) as [[Hr Hc]|Hne].
  { assert (m = e) as Hme.
    { destruct m, e; simpl in *; congruence. }
    eexists _, _. split_and!; [done|done|]. split_and!; [done|done| |].
    - intros i j p q kp kq Hij Hi Hj. rewrite !Hdist1.
      by apply (Hsorted i j).
    - left. by rewrite last_snoc, Hme. }
  assert (m ≠ e) as Hme.
  { intros Heq. apply Hne. rewrite Heq in Hrow, Hcol. split; congruence. }
  destruct (dijkstra_expand g0 s Hwf gr _ m rest cm k HL HF Hperm Hmin
              Hcm Hw Hk') as (gr2 & Hgr2 & HL2 & HF2).
  fold gr1 in Hgr2. rewrite Hgr2. cbn [mbind option_bind].
  assert (cell gr1 m = Some (set_isVisited true cm)) as Hcm1
    by (by apply cell_update_eq).
  pose proof (updateUnvisitedNeighbors_view gr1 m _ k gr2
                (dl_frame g0 s gr1 HL1) Hcm1 Hk Hgr2) as Hview.
  apply IH; [done|done| |done].
  split.
  - done.
  - intros p Hp. destruct (Hview p) as [-> _]. rewrite Hvis1.
    rewrite decide_False by (intros ->; done).
    apply (do_unvisited gr _ V HO). by apply Hsub.
  - done.
  - intros p. destruct (Hview p) as [-> _]. apply HvisV.
  - rewrite elem_of_app, list_elem_of_singleton.
    intros [Hin| ->]; [|done]. by apply (do_end gr _ V HO).
  - intros p q kp kq Hp Hq Hkp Hkq.
    assert (distance_of gr p = Finite kp ∧ kp ≤ k) as [Hkp' Hle].
    { destruct (Hview p) as [_ [Heq|[Hv _]]].
      - rewrite Heq, Hdist1 in Hkp. split; [done|].
        apply elem_of_app in Hp as [Hp| ->%list_elem_of_singleton].
        + by apply (HVk p).
        + rewrite Hk' in Hkp. injection Hkp as <-. done.
      - apply HvisV in Hp. congruence. }
    destruct (Hview q) as [_ [Heq|[_ Heq]]].
    + rewrite Heq, Hdist1 in Hkq.
      apply elem_of_app in Hp as [Hp| ->%list_elem_of_singleton].
      * apply (do_below gr _ V HO p q); try done. by apply Hsub.
      * rewrite Hk' in Hkp'. injection Hkp' as <-.
        specialize (Hmin q (Hsub q Hq)). rewrite Hkq, Hk' in Hmin.
        simpl in Hmin. apply bool_decide_eq_false in Hmin. lia.
    + rewrite Hkq in Heq. injection Heq as ->. lia.
  - intros i j p q kp kq Hij Hi Hj Hkp Hkq.
    assert (∀ x kx, x ∈ V ++ [m] → distance_of gr2 x = Finite kx →
                    distance_of gr x = Finite kx) as Hold.
    { intros x kx Hx Hkx. destruct (Hview x) as [_ [Heq|[Hv _]]].
      - by rewrite Heq, Hdist1 in Hkx.
      - apply HvisV in Hx. congruence. }
    apply (Hsorted i j p q); try done.
    + apply Hold; [by eapply list_elem_of_lookup_2|done].
    + apply Hold; [by eapply list_elem_of_lookup_2|done].
Qed.

Lemma dijkstra_order_init :
  let gr0 := update g0 s (set_distance (Finite 0)) in
  dijkstra_order gr0 (getAllNodes gr0) [].
Proof.
  intros gr0.
  assert (∀ p, vis gr0 p = false) as Hvis.
  { intros p. unfold vis, gr0. rewrite cell_update.
    destruct Hwf as [_ Hfresh].
    destruct (cell g0 p) as [c|] eqn:Hc; [|by case_decide].
    destruct (Hfresh p c Hc) as (_ & _ & _ & Hv & _).
    by case_decide. }
  split.
  - apply GridOps.getAllNodes_NoDup.
  - done.
  - apply NoDup_nil_2.
  - intros p. rewrite Hvis, elem_of_nil. naive_solver.
  - apply not_elem_of_nil.
  - by intros p q kp kq ?%elem_of_nil.
  - by intros i j p q kp kq _ ?.
Qed.

Lemma dijkstra_order_returns :
  is_Some (cell g0 s) →
  ∃ V gr, dijkstra g0 s e = Some (V, gr) ∧ dijkstra_labels g0 s gr ∧
          dijkstra_visits gr V.
Proof.
  intros Hs. destruct (dijkstra_init g0 s Hwf Hs) as [HL HF].
  unfold dijkstra. destruct Hs as [cs Hcs]. rewrite Hcs, He.
  cbn [mbind option_bind].
  apply dijkstra_loop_order; [done|done|apply dijkstra_order_init|lia].
Qed.

(** *** A-star *)

Lemma astar_open_nil gr e' : astar_open g0 s e gr [] → astar_open g0 s e' gr [].
Proof.
  intros HO. split.
  - apply NoDup_nil_2.
  - by intros p ?%elem_of_nil.
  - apply (ao_expanded g0 s e gr [] HO).
  - apply (ao_start g0 s e gr [] HO).
Qed.

Definition astar_visits (gr : Grid) (V : list Ref) : Prop :=
  NoDup V ∧ (∀ p, vis gr p = true ↔ p ∈ V) ∧
  (last V = Some e ∨ (e ∉ V) ∧ ∀ p k, reach g0 s k p → vis gr p = true).

Lemma aStar_loop_order all fuel gr O V :
  (∀ p, is_Some (cell g0 p) → p ∈ all) →
  astar_labels g0 s gr → astar_open g0 s e gr O →
  NoDup V → (∀ p, vis gr p = true ↔ p ∈ V) → e ∉ V →
  length all < fuel + length V →
  ∃ V' gr', aStar_loop fuel gr eC O V = Some (V', gr') ∧
            astar_labels g0 s gr' ∧ astar_visits gr' V'.
Proof.
  intros Hall. revert gr O V.
  induction fuel as [|fuel IH]; intros gr O V HL HO HV Hvis HeV Hlen.
  { assert (length V ≤ length all); [|lia].
    apply submseteq_length, NoDup_submseteq; [done|].
    intros p Hp. apply Hall.
    destruct (al_visited g0 s gr HL p (proj2 (Hvis p) Hp))
      as ((c & Hc & _) & _).
    by exists c. }
  cbn [aStar_loop].
  destruct (sortNodesByF gr O) as [|m rest] eqn:Hsort.
  { pose proof (stable_sort_perm
                  (λ a b, bool_decide (f_of gr a < f_of gr b)) O) as Hp.
    unfold sortNodesByF in Hsort. rewrite Hsort in Hp.
    apply Permutation_nil in Hp as ->.
    exists V, gr. split_and!; [done|done|]. split_and!; [done|done|].
    right. split; [done|]. intros p k.
    apply (astar_stuck g0 s p gr k HL). by apply astar_open_nil. }
  apply sortNodesByF_head in Hsort as (Hm & Hmin & Hperm).
  destruct (ao_member g0 s e gr O HO m Hm) as (Hpm & Hvm & _).
  destruct (proj1 (passable_frame g0 gr m (al_frame g0 s gr HL)) Hpm)
    as (cm & Hcm & Hw).
  rewrite Hcm. cbn [mbind option_bind]. rewrite decide_False by done.
  pose proof (astar_mark g0 s e gr O m HL HO Hm Hmin) as HL1.
  assert (m ∉ V) as HmV.
  { intros Hin%Hvis. congruence. }
  assert (NoDup (V ++ [m])) as HV'.
  { apply NoDup_app. split_and!; [done| |apply NoDup_singleton].
    by intros p Hp ->%list_elem_of_singleton. }
  assert (∀ p, (if decide (p = m) then true else vis gr p) = true
               ↔ p ∈ V ++ [m]) as HvisV.
  { intros p. rewrite elem_of_app, list_elem_of_singleton.
    case_decide; [naive_solver|]. rewrite (Hvis p). naive_solver. }
  destruct (positioned_frame g0 Hwf gr (al_frame g0 s gr HL) m cm Hcm)
    as [Hrow Hcol].
  destruct (positioned_frame g0 Hwf g0 (same_frame_refl g0) e eC He)
    as [Hrow' Hcol'].
  destruct (decide (row cm = row eC ∧ col cm = col eC)) as [[Hr Hc]|Hne].
  { assert (m = e) as Hme.
    { destruct m, e; simpl in *; congruence. }
    eexists _, _. split_and!; [done|done|]. split_and!; [done| |].
    - intros p. rewrite vis_mark by (by exists cm). apply HvisV.
    - left. by rewrite last_snoc, Hme. }
  assert (m ≠ e) as Hme.
  { intros Heq. apply Hne. rewrite Heq in Hrow, Hcol. split; congruence. }
  destruct (astar_expand g0 s e eC Hwf He gr O m rest cm HL HO Hperm Hmin
              Hcm) as (ns & gr2 & O2 & Hns & Hfold & HL2 & HO2 & Hvis2).
  rewrite Hns. cbn [mbind option_bind]. rewrite Hfold.
  cbn [mbind option_bind]. apply IH; try done.
  - intros p. rewrite Hvis2. apply HvisV.
  - rewrite elem_of_app, list_elem_of_singleton. naive_solver.
  - rewrite length_app. simpl. lia.
Qed.

Lemma aStar_order_returns :
  passable g0 s →
  ∃ V gr, aStar g0 s e = Some (V, gr) ∧ astar_labels g0 s gr ∧
          astar_visits gr V.
Proof.
  intros (cs & Hcs & Hw).
  destruct (astar_init g0 s e eC Hwf He cs Hcs Hw) as [HL HO].
  unfold aStar. rewrite Hcs, He. cbn [mbind option_bind].
  eapply (aStar_loop_order (getAllNodes _)); try done.
  - intros p Hp. apply elem_of_getAllNodes.
    by apply (cell_frame g0 _ p (al_frame g0 s _ HL)).
  - apply NoDup_nil_2.
  - intros p. rewrite elem_of_nil. split; [|done].
    unfold vis. rewrite cell_update. destruct Hwf as [_ Hfresh].
    destruct (cell g0 p) as [c|] eqn:Hc; [|by case_decide].
    destruct (Hfresh p c Hc) as (_ & _ & _ & Hv & _).
    case_decide; simpl; congruence.
  - apply not_elem_of_nil.
  - simpl. lia.
Qed.

End Order.

(** X9: on a grid as the component builds it, [dijkstra] returns a visit
    order without repetition; the cells in it are the ones it marked
    visited, none a wall, each with its distance set to the least number
    of moves from the start; the order is by that number, never
    decreasing; it ends with the end cell when a path leads there, and
    holds every cell a walk from the start reaches when none does. *)
Theorem dijkstra_visits_by_distance g0 s e :
  well_formed g0 → is_Some (cell g0 s) → is_Some (cell g0 e) →
  ∃ V gr,
    dijkstra g0 s e = Some (V, gr) ∧ NoDup V ∧
    (∀ p, p ∈ V ↔ vis gr p = true) ∧
    (∀ p, p ∈ V →
          passable g0 p ∧
          ∃ k, exact g0 s k p ∧ distance_of gr p = Finite k) ∧
    (∀ i j p q kp kq, i ≤ j → V !! i = Some p → V !! j = Some q →
       exact g0 s kp p → exact g0 s kq q → kp ≤ kq) ∧
    ((∃ k, reach g0 s k e) → last V = Some e) ∧
    ((∀ k, ¬ reach g0 s k e) → ∀ p, p ∈ V ↔ ∃ k, reach g0 s k p).
Proof.
  intros Hwf Hs [eC He].
  destruct (dijkstra_order_returns g0 s e eC Hwf He Hs)
    as (V & gr & Hrun & HL & Hnd & Hvis & Hsorted & Hlast).
  assert (∀ p, p ∈ V →
               passable g0 p ∧
               ∃ k, exact g0 s k p ∧ distance_of gr p = Finite k) as Hex.
  { intros p Hp%Hvis.
    destruct (dl_visited g0 s gr HL p Hp) as (Hpp & k & Hk & Hexact).
    split; [done|]. by exists k. }
  exists V, gr. split_and!; try done.
  - intros i j p q kp kq Hij Hi Hj Hp Hq.
    destruct (Hex p) as (_ & kp' & Hp' & Hdp);
      [by eapply list_elem_of_lookup_2|].
    destruct (Hex q) as (_ & kq' & Hq' & Hdq);
      [by eapply list_elem_of_lookup_2|].
    rewrite (exact_unique g0 s kp kp' p Hp Hp').
    rewrite (exact_unique g0 s kq kq' q Hq Hq').
    by apply (Hsorted i j p q).
  - intros [k Hk]. destruct Hlast as [?|[HeV Hall]]; [done|].
    destruct HeV. apply Hvis. by apply (Hall e k).
  - intros Hno p. destruct Hlast as [Hl|[_ Hall]].
    + assert (e ∈ V) as HeV.
      { destruct V as [|x V] using rev_ind; [done|].
        rewrite last_snoc in Hl. injection Hl as ->.
        apply elem_of_app. right. by left. }
      destruct (Hex e HeV) as (_ & k & [Hr _] & _). by destruct (Hno k).
    + split.
      * intros (_ & k & [Hr _] & _)%Hex. by exists k.
      * intros [k Hk]. apply Hvis. by apply (Hall p k).
Qed.

Lemma dijkstra_visits_by_distance_witness :
  let g0 := update (initializeGrid (0, 0) (0, 2)) (0, 1) (set_type Wall) in
  ∃ V gr,
    dijkstra g0 (0, 0) (0, 2) = Some (V, gr) ∧ NoDup V ∧
    (∀ p, p ∈ V ↔ vis gr p = true) ∧
    (∀ p, p ∈ V →
          passable g0 p ∧
          ∃ k, exact g0 (0, 0) k p ∧ distance_of gr p = Finite k) ∧
    (∀ i j p q kp kq, i ≤ j → V !! i = Some p → V !! j = Some q →
       exact g0 (0, 0) kp p → exact g0 (0, 0) kq q → kp ≤ kq) ∧
    ((∃ k, reach g0 (0, 0) k (0, 2)) → last V = Some (0, 2)) ∧
    ((∀ k, ¬ reach g0 (0, 0) k (0, 2)) →
     ∀ p, p ∈ V ↔ ∃ k, reach g0 (0, 0) k p).
Proof.
  intros g0. apply (dijkstra_visits_by_distance g0 (0, 0) (0, 2)).
  - apply well_formed_set_type, well_formed_initializeGrid.
  - vm_compute. by eexists.
  - vm_compute. by eexists.
Defined.

(** X10: on a grid as the component builds it, with a start cell that is
    no wall, [aStar] returns a visit order without repetition; the cells
    in it are the ones it marked visited, none a wall, each with its [g]
    the least number of moves from the start; the order ends with the end
    cell when a path leads there, and holds every cell a walk from the
    start reaches when none does. *)
Theorem aStar_visits_reachable g0 s e :
  well_formed g0 → passable g0 s → is_Some (cell g0 e) →
  ∃ V gr,
    aStar g0 s e = Some (V, gr) ∧ NoDup V ∧
    (∀ p, p ∈ V ↔ vis gr p = true) ∧
    (∀ p, p ∈ V → passable g0 p ∧ exact g0 s (gsc gr p) p) ∧
    ((∃ k, reach g0 s k e) → last V = Some e) ∧
    ((∀ k, ¬ reach g0 s k e) → ∀ p, p ∈ V ↔ ∃ k, reach g0 s k p).
Proof.
  intros Hwf Hs [eC He].
  destruct (aStar_order_returns g0 s e eC Hwf He Hs)
    as (V & gr & Hrun & HL & Hnd & Hvis & Hlast).
  assert (∀ p, p ∈ V → passable g0 p ∧ exact g0 s (gsc gr p) p) as Hex.
  { intros p Hp%Hvis. by apply (al_visited g0 s gr HL). }
  exists V, gr. split_and!; try done.
  - intros [k Hk]. destruct Hlast as [?|[HeV Hall]]; [done|].
    destruct HeV. apply Hvis. by apply (Hall e k).
  - intros Hno p. destruct Hlast as [Hl|[_ Hall]].
    + assert (e ∈ V) as HeV.
      { destruct V as [|x V] using rev_ind; [done|].
        rewrite last_snoc in Hl. injection Hl as ->.
        apply elem_of_app. right. by left. }
      destruct (Hex e HeV) as (_ & [Hr _]). by destruct (Hno (gsc gr e)).
    + split.
      * intros (_ & [Hr _])%Hex. by eexists.
      * intros [k Hk]. apply Hvis. by apply (Hall p k).
Qed.

Lemma aStar_visits_reachable_witness :
  let g0 := update (initializeGrid (0, 0) (0, 2)) (0, 1) (set_type Wall) in
  ∃ V gr,
    aStar g0 (0, 0) (0, 2) = Some (V, gr) ∧ NoDup V ∧
    (∀ p, p ∈ V ↔ vis gr p = true) ∧
    (∀ p, p ∈ V → passable g0 p ∧ exact g0 (0, 0) (gsc gr p) p) ∧
    ((∃ k, reach g0 (0, 0) k (0, 2)) → last V = Some (0, 2)) ∧
    ((∀ k, ¬ reach g0 (0, 0) k (0, 2)) →
     ∀ p, p ∈ V ↔ ∃ k, reach g0 (0, 0) k p).
Proof.
  intros g0. apply (aStar_visits_reachable g0 (0, 0) (0, 2)).
  - apply well_formed_set_type, well_formed_initializeGrid.
  - eexists. split; [vm_compute; reflexivity|discriminate].
  - vm_compute. by eexists.
Defined.

End VisitOrder.

(** ** Playback of a pathfinding run *)

Module PathPlayback.
Import Pathfinding GridStore PathProofs.
Local Open Scope nat_scope.

(** The timeouts of the first phase, from handle [h] and index [i] on. *)
Definition visit_timeouts (animationSpeed : Z) (h : nat) (i : Z)
    (V : list Ref) : list Timeout :=
  imap (λ k v, {| handle := h + k;
                  delay := (animationSpeed * (i + Z.of_nat k))%Z;
                  callback := cb_visit v.1 v.2 |}) V.

(** The timeouts of the second phase. *)
Definition path_timeouts (animationSpeed : Z) (h : nat) (i : Z)
    (P : list Ref) : list Timeout :=
  imap (λ k v, {| handle := h + k;
                  delay := (animationSpeed * (i + Z.of_nat k))%Z;
                  callback := cb_path v.1 v.2
                                (bool_decide (S k = length P)) |}) P.

Lemma animateAlgorithm_from_schedule a i V P w :
  timeouts (animateAlgorithm_from a i V P w)
  = timeouts w ++ visit_timeouts a (next_handle w) i V ++
    [{| handle := next_handle w + length V;
        delay := (a * (i + Z.of_nat (length V)))%Z;
        callback := cb_shortestPath P |}] ∧
  animationTimeoutRef (animateAlgorithm_from a i V P w)
  = Some (next_handle w + length V) ∧
  next_handle (animateAlgorithm_from a i V P w)
  = S (next_handle w + length V) ∧
  grid (animateAlgorithm_from a i V P w) = grid w ∧
  isVisualizing (animateAlgorithm_from a i V P w) = isVisualizing w ∧
  isPathFound (animateAlgorithm_from a i V P w) = isPathFound w ∧
  toasts (animateAlgorithm_from a i V P w) = toasts w.
Proof.
  revert i w. induction V as [|v V IH]; intros i w.
  - simpl. rewrite Nat.add_0_r, Z.add_0_r. by split_and!.
  - cbn [animateAlgorithm_from].
    destruct (IH (i + 1)%Z (setTimeout_ref (cb_visit v.1 v.2) (a * i) w))
      as (Ht & Hr & Hn & Hg & Hv & Hp & Hto).
    rewrite Ht, Hr, Hn, Hg, Hv, Hp, Hto. simpl.
    split_and!; try done; try (f_equal; lia).
    rewrite <- app_assoc. simpl. f_equal.
    rewrite Nat.add_0_r, Z.add_0_r. f_equal. f_equal.
    + unfold visit_timeouts. apply imap_ext. intros k x _. simpl.
      f_equal; lia.
    + do 2 f_equal; lia.
Qed.

(** X11: [animateAlgorithm] schedules one timeout for each visited cell,
    the one of index [i] due after [(101 - speed) * i], and after them
    one for the second phase; the handles are consecutive and the ref
    keeps the last one alone; the grid and the flags are untouched. *)
Theorem animateAlgorithm_schedule speed V P w :
  timeouts (animateAlgorithm speed V P w)
  = timeouts w ++ visit_timeouts (101 - speed) (next_handle w) 0 V ++
    [{| handle := next_handle w + length V;
        delay := ((101 - speed) * Z.of_nat (length V))%Z;
        callback := cb_shortestPath P |}] ∧
  animationTimeoutRef (animateAlgorithm speed V P w)
  = Some (next_handle w + length V) ∧
  grid (animateAlgorithm speed V P w) = grid w ∧
  isVisualizing (animateAlgorithm speed V P w) = isVisualizing w ∧
  isPathFound (animateAlgorithm speed V P w) = isPathFound w.
Proof.
  unfold animateAlgorithm.
  destruct (animateAlgorithm_from_schedule (101 - speed) 0 V P w)
    as (Ht & Hr & Hn & Hg & Hv & Hp & Hto).
  rewrite Ht, Hr, Hg, Hv, Hp. by split_and!.
Qed.

(** *** The timeouts fire *)

(** The world with the timeout that fires taken off the list. *)
Definition pop (w : World) (rest : list Timeout) : World :=
  {| grid := grid w; startNode := startNode w; endNode := endNode w;
     isVisualizing := isVisualizing w; isPathFound := isPathFound w;
     animationTimeoutRef := animationTimeoutRef w; timeouts := rest;
     next_handle := next_handle w; toasts := toasts w |}.

(** The last callback of the second phase. *)
Definition finish (w : World) : World :=
  {| grid := grid w; startNode := startNode w; endNode := endNode w;
     isVisualizing := false; isPathFound := true;
     animationTimeoutRef := animationTimeoutRef w;
     timeouts := timeouts w; next_handle := next_handle w;
     toasts := S (toasts w) |}.

Definition keeps (c : Cell) : Prop := type c = Start ∨ type c = End_.

(** What a phase that marks the cells of [L] with [t] leaves of a cell. *)
Definition painted (t : CellType) (L : list Ref) (p : Ref) (c : Cell) : Cell :=
  if decide (p ∈ L ∧ ¬ keeps c) then set_type t c else c.

Fixpoint path_callbacks (P : list Ref) : list Callback :=
  match P with
  | [] => []
  | v :: rest =>
      cb_path v.1 v.2 (bool_decide (rest = [])) :: path_callbacks rest
  end.

Lemma fires_add a b speed w :
  fires (a + b) speed w = fires a speed w ≫= fires b speed.
Proof.
  revert w. induction a as [|a IH]; intros w; simpl; [done|].
  destruct (fire speed w) as [w'|]; simpl; [apply IH|done].
Qed.

Lemma fires_S n speed w :
  fires (S n) speed w = fire speed w ≫= fires n speed.
Proof. done. Qed.

Lemma fire_head speed w t rest :
  timeouts w = t :: rest →
  fire speed w = run_callback speed (callback t) (pop w rest).
Proof. unfold fire. by intros ->. Qed.

Lemma mark_cell t gr r c cl :
  cell gr (r, c) = Some cl →
  ∃ gr', mark t gr r c = Some gr' ∧
         ∀ p, cell gr' p = painted t [(r, c)] p <$> cell gr p.
Proof.
  intros Hc. unfold mark. rewrite Hc. cbn [mbind option_bind].
  eexists. split; [done|]. intros p. rewrite cell_update. unfold painted.
  destruct (decide ((r, c) = p)) as [<-|Hne].
  - rewrite Hc. simpl. f_equal. unfold keeps.
    destruct (decide (type cl = Start ∨ type cl = End_)) as [Hk|Hk].
    + rewrite decide_False by naive_solver. by destruct cl.
    + rewrite decide_True; [done|]. split; [by left|done].
  - destruct (cell gr p) as [c'|]; [|done]. simpl.
    rewrite decide_False; [done|].
    intros [Hin%list_elem_of_singleton _]. done.
Qed.

Lemma painted_cons t v L p c :
  painted t L p (painted t [v] p c) = painted t (v :: L) p c.
Proof.
  unfold painted, keeps.
  destruct (decide (p ∈ [v] ∧ ¬ (type c = Start ∨ type c = End_)))
    as [[Hin%list_elem_of_singleton Hk]|Hn].
  - subst. rewrite (decide_True (P := v ∈ v :: L ∧ _))
      by (split; [by left|done]).
    case_decide; [by destruct c|done].
  - destruct (decide (p ∈ L ∧ ¬ (type c = Start ∨ type c = End_)))
      as [[Hin Hk]|Hn'].
    + by rewrite decide_True by (split; [by right|done]).
    + rewrite decide_False; [done|].
      intros [[->|Hin]%elem_of_cons Hk].
      * apply Hn. split; [by left|done].
      * by apply Hn'.
Qed.

Lemma fires_visits speed V w ts rest :
  timeouts w = ts ++ rest →
  callback <$> ts = (λ v, cb_visit v.1 v.2) <$> V →
  (∀ v, v ∈ V → is_Some (cell (grid w) v)) →
  ∃ gr', fires (length V) speed w = Some (with_grid gr' (pop w rest)) ∧
         ∀ p, cell gr' p = painted Visited V p <$> cell (grid w) p.
Proof.
  revert w ts. induction V as [|v V IH]; intros w ts Hts Hcb Hcells.
  - destruct ts; [|done]. simpl in Hts. exists (grid w). split.
    + simpl. f_equal. destruct w. simpl in *. by subst.
    + intros p. unfold painted. destruct (cell (grid w) p); [|done].
      cbn [fmap option_fmap option_map].
      by rewrite decide_False by (by intros [?%elem_of_nil _]).
  - destruct ts as [|t ts]; [done|]. injection Hcb as Ht Hcb.
    destruct (Hcells v) as [cl Hcl]; [by left|].
    destruct v as [r c].
    destruct (mark_cell Visited (grid w) r c cl Hcl) as (gr1 & Hm & Hgr1).
    destruct (IH (with_grid gr1 (pop w (ts ++ rest))) ts)
      as (gr' & Hf & Hgr'); [done|done| |].
    { intros v Hv. simpl. rewrite Hgr1.
      destruct (Hcells v) as [c' ->]; [by right|]. by eexists. }
    exists gr'. split.
    + cbn [length]. rewrite fires_S, (fire_head speed w t (ts ++ rest) Hts).
      rewrite Ht. simpl. rewrite Hm. simpl. exact Hf.
    + intros p. rewrite Hgr'. simpl. rewrite Hgr1.
      destruct (cell (grid w) p) as [c'|]; [|done].
      cbn [fmap option_fmap option_map]. by rewrite painted_cons.
Qed.

Lemma fires_path speed P w ts rest :
  P ≠ [] →
  timeouts w = ts ++ rest →
  callback <$> ts = path_callbacks P →
  (∀ v, v ∈ P → is_Some (cell (grid w) v)) →
  ∃ gr', fires (length P) speed w
         = Some (finish (with_grid gr' (pop w rest))) ∧
         ∀ p, cell gr' p = painted Path P p <$> cell (grid w) p.
Proof.
  revert w ts. induction P as [|v P IH]; intros w ts HP Hts Hcb Hcells;
    [done|].
  destruct ts as [|t ts]; [done|]. injection Hcb as Ht Hcb.
  destruct (Hcells v) as [cl Hcl]; [by left|].
  destruct v as [r c].
  destruct (mark_cell Path (grid w) r c cl Hcl) as (gr1 & Hm & Hgr1).
  destruct P as [|v' P].
  - destruct ts; [|done]. exists gr1. split; [|done].
    cbn [length]. rewrite fires_S, (fire_head speed w t rest Hts).
    rewrite Ht. simpl. rewrite Hm. simpl. done.
  - destruct (IH (with_grid gr1 (pop w (ts ++ rest))) ts)
      as (gr' & Hf & Hgr'); [done|done|done| |].
    { intros v Hv. simpl. rewrite Hgr1.
      destruct (Hcells v) as [c' ->]; [by right|]. by eexists. }
    exists gr'. split.
    + cbn [length]. rewrite fires_S, (fire_head speed w t (ts ++ rest) Hts).
      rewrite Ht. rewrite bool_decide_eq_false_2 by done. simpl.
      rewrite Hm. simpl. exact Hf.
    + intros p. rewrite Hgr'. simpl. rewrite Hgr1.
      destruct (cell (grid w) p) as [c'|]; [|done].
      cbn [fmap option_fmap option_map]. by rewrite painted_cons.
Qed.

Lemma animateShortestPath_from_schedule a i P w :
  ∃ ts, timeouts (animateShortestPath_from a i P w) = timeouts w ++ ts ∧
        callback <$> ts = path_callbacks P ∧
        grid (animateShortestPath_from a i P w) = grid w ∧
        toasts (animateShortestPath_from a i P w) = toasts w.
Proof.
  revert i w. induction P as [|v P IH]; intros i w.
  - exists []. by rewrite app_nil_r.
  - cbn [animateShortestPath_from].
    destruct (IH (i + 1)%Z
                (setTimeout_ref (cb_path v.1 v.2 (bool_decide (P = [])))
                   (a * i) w)) as (ts & Ht & Hcb & Hg & Hto).
    eexists (_ :: ts). rewrite Ht, Hg, Hto. simpl.
    rewrite <- app_assoc. split_and!; try done.
    simpl. f_equal. exact Hcb.
Qed.

Lemma visit_timeouts_callbacks a h i V :
  callback <$> visit_timeouts a h i V = (λ v, cb_visit v.1 v.2) <$> V.
Proof.
  unfold visit_timeouts. rewrite fmap_imap, <- imap_const.
  by apply imap_ext.
Qed.

(** What a complete playback leaves of a cell: start and end as they are,
    a cell of the path marked path, another visited cell marked
    visited. *)
Definition paint (V P : list Ref) (p : Ref) (c : Cell) : Cell :=
  if decide (keeps c) then c
  else if decide (p ∈ P) then set_type Path c
  else if decide (p ∈ V) then set_type Visited c
  else c.

Lemma painted_paint V P p c :
  painted Path P p (painted Visited V p c) = paint V P p c.
Proof.
  unfold painted, paint, keeps.
  destruct (decide (type c = Start ∨ type c = End_)) as [Hk|Hk].
  - rewrite (decide_False (P := p ∈ V ∧ _)) by naive_solver.
    by rewrite decide_False by naive_solver.
  - destruct (decide (p ∈ V)) as [HV|HV].
    + rewrite (decide_True (P := p ∈ V ∧ _)) by done. simpl.
      destruct (decide (p ∈ P)) as [HP|HP].
      * rewrite decide_True; [by destruct c|]. split; [done|].
        intros [?|?]; done.
      * by rewrite decide_False by naive_solver.
    + rewrite (decide_False (P := p ∈ V ∧ _)) by naive_solver.
      destruct (decide (p ∈ P)) as [HP|HP].
      * by rewrite decide_True.
      * by rewrite decide_False by naive_solver.
Qed.

Lemma playback_fires speed V P w :
  timeouts w = [] → P ≠ [] →
  (∀ v, v ∈ V ++ P → is_Some (cell (grid w) v)) →
  ∃ w', fires (length V + 1 + length P) speed (animateAlgorithm speed V P w)
        = Some w' ∧
        timeouts w' = [] ∧ isVisualizing w' = false ∧
        isPathFound w' = true ∧ toasts w' = S (toasts w) ∧
        ∀ p, cell (grid w') p = paint V P p <$> cell (grid w) p.
Proof.
  intros Hidle HP Hcells.
  set (w0 := animateAlgorithm speed V P w).
  destruct (animateAlgorithm_from_schedule (101 - speed) 0 V P w)
    as (Ht & _ & _ & Hg & _ & _ & Hto).
  fold (animateAlgorithm speed V P w) in Ht, Hg, Hto. fold w0 in Ht, Hg, Hto.
  rewrite Hidle, app_nil_l in Ht.
  destruct (fires_visits speed V w0 _ _ Ht
              (visit_timeouts_callbacks _ _ _ _)) as (gr1 & Hf1 & Hgr1).
  { intros v Hv. rewrite Hg. apply Hcells, elem_of_app. by left. }
  set (sp := {| handle := _; delay := _; callback := cb_shortestPath P |})
    in *.
  set (w1 := with_grid gr1 (pop w0 [sp])) in *.
  destruct (animateShortestPath_from_schedule (101 - speed) 0 P
              (pop w1 [])) as (ts & Hts & Hcb & Hg2 & Hto2).
  fold (animateShortestPath speed P (pop w1 [])) in Hts, Hg2, Hto2.
  set (w2 := animateShortestPath speed P (pop w1 [])) in *.
  simpl in Hts. rewrite <- (app_nil_r ts) in Hts.
  destruct (fires_path speed P w2 ts [] HP Hts Hcb) as (gr3 & Hf3 & Hgr3).
  { intros v Hv. rewrite Hg2. simpl. rewrite Hgr1, Hg.
    destruct (Hcells v) as [c ->]; [apply elem_of_app; by right|].
    by eexists. }
  eexists. split_and!.
  - rewrite <- Nat.add_assoc, fires_add, Hf1. cbn [mbind option_bind].
    rewrite (fires_add 1), fires_S,
      (fire_head speed w1 sp [] eq_refl).
    simpl. exact Hf3.
  - done.
  - done.
  - done.
  - simpl. rewrite Hto2. simpl. by rewrite Hto.
  - intros p. simpl. rewrite Hgr3, Hg2. simpl. rewrite Hgr1, Hg.
    destruct (cell (grid w) p) as [c|]; [|done].
    cbn [fmap option_fmap option_map]. by rewrite painted_paint.
Qed.

(** X12: a playback left to run, with nothing else pending: the timeouts
    [animateAlgorithm] schedules for the cells of [V] and the path [P], and
    the ones the second phase adds, all fire.  Then nothing is pending,
    [isVisualizing] is down, [isPathFound] is up and one toast more has
    been shown; in the grid the start and the end cell are as before,
    every other cell of the path is marked path, every other visited cell
    is marked visited, and nothing else has changed. *)
Theorem complete_playback speed V P w :
  timeouts w = [] → P ≠ [] →
  (∀ v, v ∈ V ++ P → is_Some (cell (grid w) v)) →
  ∃ w', fires (length V + 1 + length P) speed (animateAlgorithm speed V P w)
        = Some w' ∧
        timeouts w' = [] ∧ isVisualizing w' = false ∧
        isPathFound w' = true ∧ toasts w' = S (toasts w) ∧
        ∀ p, cell (grid w') p = paint V P p <$> cell (grid w) p.
Proof. apply playback_fires. Qed.

Lemma complete_playback_witness :
  ∃ w', fires (2 + 1 + 3) 50
          (animateAlgorithm 50 [(10, 15); (10, 16)]
             [(10, 15); (10, 16); (10, 17)] mounted)
        = Some w' ∧
        timeouts w' = [] ∧ isVisualizing w' = false ∧
        isPathFound w' = true ∧ toasts w' = S (toasts mounted) ∧
        ∀ p, cell (grid w') p
             = paint [(10, 15); (10, 16)] [(10, 15); (10, 16); (10, 17)] p
                 <$> cell (grid mounted) p.
Proof.
  apply (complete_playback 50 [(10, 15); (10, 16)]
           [(10, 15); (10, 16); (10, 17)] mounted).
  - reflexivity.
  - discriminate.
  - intros v Hv. repeat (apply elem_of_cons in Hv as [->|Hv];
      [vm_compute; by eexists|]). by apply elem_of_nil in Hv.
Defined.

(** *** A run and its playback *)

Definition recorder (algorithm : Algorithm) (grid : Grid) (s e : Ref)
    : option (list Ref * Grid) :=
  match algorithm with
  | Dijkstra => dijkstra grid s e
  | AStar => aStar grid s e
  end.

Lemma coordinates_id g0 gr L :
  well_formed g0 → same_frame g0 gr →
  (∀ v, v ∈ L → is_Some (cell gr v)) → coordinates gr L = L.
Proof.
  intros Hwf Hf. unfold coordinates.
  induction L as [|v L IH]; intros Hcells; [done|].
  destruct (Hcells v) as [c Hc]; [by left|].
  cbn [omap list_omap]. rewrite Hc. cbn [mbind option_bind].
  destruct (positioned_frame g0 Hwf gr Hf v c Hc) as [-> ->].
  fold (omap (λ p, c ← cell gr p; Some (row c, col c)) L).
  rewrite IH by (intros v' Hv'; apply Hcells; by right).
  by destruct v.
Qed.

Lemma is_path_cells gr l p : is_path gr l → p ∈ l → is_Some (cell gr p).
Proof.
  induction 1 as [x (c & Hc & _)|x y l (c & Hc & _) _ _ IH].
  - intros ->%list_elem_of_singleton. by exists c.
  - intros [->|Hin]%elem_of_cons; [by exists c|by apply IH].
Qed.

(** On a grid with fresh search fields either recorder returns a visit
    order of cells of the grid, and the walk from the end cell returns
    too: a wall-avoiding path from the start cell, or the end cell alone
    when no path leads there. *)
Lemma recorder_run algorithm g0 s e :
  well_formed g0 → passable g0 s → passable g0 e →
  ∃ V gr P,
    recorder algorithm g0 s e = Some (V, gr) ∧ same_frame g0 gr ∧
    (∀ v, v ∈ V → is_Some (cell g0 v)) ∧
    getNodesInShortestPathOrder gr e = Some P ∧
    (∀ v, v ∈ P → is_Some (cell g0 v)) ∧
    (path_between g0 s e P ∨ P = [e] ∧ ∀ k, ¬ reach g0 s k e).
Proof.
  intros Hwf Hps Hpe. pose proof Hpe as (eC & He & _).
  assert (is_Some (cell g0 s)) as Hs.
  { destruct Hps as (c & Hc & _). by exists c. }
  assert (∀ V gr,
            recorder algorithm g0 s e = Some (V, gr) →
            (∀ p, vis gr p = true ↔ p ∈ V) →
            (vis gr e = true →
             ∃ P, getNodesInShortestPathOrder gr e = Some P ∧
                  path_between g0 s e P) →
            ((∀ k, ¬ reach g0 s k e) →
             getNodesInShortestPathOrder gr e = Some [e]) →
            last V = Some e ∨
              (e ∉ V) ∧ (∀ p k, reach g0 s k p → vis gr p = true) →
            ∃ P, getNodesInShortestPathOrder gr e = Some P ∧
                 (∀ v, v ∈ P → is_Some (cell g0 v)) ∧
                 (path_between g0 s e P ∨ P = [e] ∧ ∀ k, ¬ reach g0 s k e))
    as Hcases.
  { intros V gr _ Hvis Hwalk Hnone [Hl|[HeV Hall]].
    - destruct Hwalk as (P & HP & Hpath).
      { apply Hvis. destruct V as [|x V] using rev_ind; [done|].
        rewrite last_snoc in Hl. injection Hl as ->.
        apply elem_of_app. right. by left. }
      exists P. split_and!; [done| |by left].
      intros v Hv. destruct Hpath as [Hp _].
      by apply (is_path_cells g0 P).
    - assert (∀ k, ¬ reach g0 s k e) as Hno.
      { intros k Hk. apply HeV, Hvis. by apply (Hall e k). }
      exists [e]. split_and!; [by apply Hnone| |by right].
      intros v ->%list_elem_of_singleton. by exists eC. }
  destruct algorithm; simpl in *.
  - destruct (VisitOrder.dijkstra_order_returns g0 s e eC Hwf He Hs)
      as (V & gr & Hrun & HL & _ & Hvis & _ & Hlast).
    destruct (Hcases V gr Hrun Hvis) as (P & HP & Hcells & HPs);
      [| |done|].
    { intros Hve.
      destruct (dijkstra_walk g0 s gr e HL Hve) as (P & d & HP & _ & Hp & _).
      by exists P. }
    { intros Hno.
      destruct (dijkstra_unreachable g0 s e eC Hwf He Hs Hpe Hno)
        as (V' & gr' & Hrun' & Hwalk).
      rewrite Hrun in Hrun'. by injection Hrun' as <- <-. }
    exists V, gr, P. split_and!; try done; [apply HL|].
    intros v Hv%Hvis.
    destruct (dl_visited g0 s gr HL v Hv) as ((c & Hc & _) & _).
    by exists c.
  - destruct (VisitOrder.aStar_order_returns g0 s e eC Hwf He Hps)
      as (V & gr & Hrun & HL & _ & Hvis & Hlast).
    destruct (Hcases V gr Hrun Hvis) as (P & HP & Hcells & HPs);
      [| |done|].
    { intros Hve.
      destruct (astar_walk g0 s gr e HL Hve) as (P & HP & _ & Hp & _).
      by exists P. }
    { intros Hno.
      destruct (aStar_unreachable g0 s e eC Hwf He Hs Hpe Hno)
        as (V' & gr' & Hrun' & Hwalk).
      rewrite Hrun in Hrun'. by injection Hrun' as <- <-. }
    exists V, gr, P. split_and!; try done; [apply HL|].
    intros v Hv%Hvis.
    destruct (al_visited g0 s gr HL v Hv) as ((c & Hc & _) & _).
    by exists c.
Qed.

(** What [visualizeAlgorithm] schedules on such a grid. *)
Lemma visualizeAlgorithm_schedule algorithm speed w :
  well_formed (grid w) → timeouts w = [] →
  passable (grid w) (startNode w) → passable (grid w) (endNode w) →
  ∃ V gr P,
    visualizeAlgorithm algorithm speed w
    = Some (animateAlgorithm speed V P
              (with_grid gr (with_flags true (isPathFound w) w))) ∧
    same_frame (grid w) gr ∧
    (∀ v, v ∈ V → is_Some (cell gr v)) ∧
    (path_between (grid w) (startNode w) (endNode w) P ∨
     P = [endNode w] ∧ ∀ k, ¬ reach (grid w) (startNode w) k (endNode w)).
Proof.
  intros Hwf Hidle Hps Hpe.
  destruct (recorder_run algorithm _ _ _ Hwf Hps Hpe)
    as (V & gr & P & Hrun & Hf & HV & HP & HPc & HPs).
  exists V, gr, P.
  assert (∀ v, v ∈ V → is_Some (cell gr v)) as HVc.
  { intros v Hv. apply (cell_frame (grid w)); [done|by apply HV]. }
  split_and!; try done.
  unfold visualizeAlgorithm. cbn [grid startNode endNode with_flags].
  assert (match algorithm with
          | Dijkstra => dijkstra (grid w) (startNode w) (endNode w)
          | AStar => aStar (grid w) (startNode w) (endNode w)
          end = Some (V, gr)) as -> by (by destruct algorithm).
  cbn [mbind option_bind]. rewrite HP. cbn [mbind option_bind].
  rewrite (coordinates_id (grid w) gr V Hwf Hf) by done.
  rewrite (coordinates_id (grid w) gr P Hwf Hf); [done|].
  intros v Hv. apply (cell_frame (grid w)); [done|by apply HPc].
Qed.

Lemma effectCleanup_idle w : timeouts w = [] → effectCleanup w = w.
Proof.
  intros Hw. destruct w as [gr s e v f r ts n to]. simpl in Hw. subst ts.
  unfold effectCleanup. simpl. by destruct r.
Qed.

(** The cleanup of the effect takes the timeout of the second phase, the
    one in the ref, off the timeouts of a run just scheduled. *)
Lemma effectCleanup_animateAlgorithm speed V P w :
  timeouts w = [] →
  timeouts (effectCleanup (animateAlgorithm speed V P w))
  = visit_timeouts (101 - speed) (next_handle w) 0 V.
Proof.
  intros Hw. unfold animateAlgorithm.
  destruct (animateAlgorithm_from_schedule (101 - speed) 0 V P w)
    as (Ht & Hr & _).
  cbn [effectCleanup timeouts clear_ref]. rewrite Hr, Ht, Hw. simpl.
  rewrite filter_app, filter_cons, filter_nil.
  rewrite decide_False by (intros H; by apply H). rewrite app_nil_r.
  apply filter_all, Forall_forall. intros t Ht'.
  apply elem_of_lookup_imap in Ht' as (k & x & -> & Hk).
  apply lookup_lt_Some in Hk. simpl. lia.
Qed.

(** X13: a run as the component makes it.  On a grid with fresh search
    fields, start and end cell no walls, nothing pending and no run going,
    play schedules the visits of an order [V] and a second phase for a
    list [P], a wall-avoiding path from the start to the end cell or the
    end cell alone.  The effect runs again once [isVisualizing] has
    changed, and its cleanup cancels the timeout in the ref, the one of
    the second phase.  So the visits fire and nothing else does: the cells
    of [V] but the start and the end cell are marked visited, every other
    cell keeps its type, none is marked path; [isVisualizing] stays up,
    [isPathFound] down, and no toast is shown. *)
Theorem played_run_shows_visits_only algorithm speed w :
  well_formed (grid w) → timeouts w = [] →
  isVisualizing w = false → isPathFound w = false →
  passable (grid w) (startNode w) → passable (grid w) (endNode w) →
  ∃ V P w1 w2 w',
    playEffect algorithm speed true w = Some w1 ∧
    callback <$> timeouts w1
    = ((λ v, cb_visit v.1 v.2) <$> V) ++ [cb_shortestPath P] ∧
    (path_between (grid w) (startNode w) (endNode w) P ∨
     P = [endNode w] ∧ ∀ k, ¬ reach (grid w) (startNode w) k (endNode w)) ∧
    playEffect algorithm speed true w1 = Some w2 ∧
    callback <$> timeouts w2 = (λ v, cb_visit v.1 v.2) <$> V ∧
    fires (length V) speed w2 = Some w' ∧
    timeouts w' = [] ∧ isVisualizing w' = true ∧ isPathFound w' = false ∧
    toasts w' = toasts w ∧
    ∀ p c, cell (grid w) p = Some c →
           ∃ c', cell (grid w') p = Some c' ∧
                 type c' = if decide (p ∈ V ∧ ¬ keeps c) then Visited
                           else type c.
Proof.
  intros Hwf Hidle Hv Hfound Hps Hpe.
  destruct (visualizeAlgorithm_schedule algorithm speed w Hwf Hidle Hps Hpe)
    as (V & gr & P & Hvz & Hf & HVc & HPs).
  set (w0 := with_grid gr (with_flags true (isPathFound w) w)) in *.
  set (w1 := animateAlgorithm speed V P w0) in *.
  destruct (animateAlgorithm_from_schedule (101 - speed) 0 V P w0)
    as (Ht1 & _ & _ & Hg1 & Hv1 & Hf1 & Hto1).
  fold (animateAlgorithm speed V P w0) in Ht1, Hg1, Hv1, Hf1, Hto1.
  fold w1 in Ht1, Hg1, Hv1, Hf1, Hto1.
  change (timeouts w0) with (timeouts w) in Ht1.
  rewrite Hidle, app_nil_l in Ht1.
  pose proof (effectCleanup_animateAlgorithm speed V P w0 Hidle) as Ht2.
  fold w1 in Ht2. set (w2 := effectCleanup w1) in *.
  destruct (fires_visits speed V w2 (timeouts w2) [])
    as (gr' & Hfires & Hgr').
  { by rewrite app_nil_r. }
  { rewrite Ht2. apply visit_timeouts_callbacks. }
  { intros v Hv'. change (grid w2) with (grid w1). rewrite Hg1.
    by apply HVc. }
  exists V, P, w1, w2. eexists. split_and!.
  - unfold playEffect. rewrite (effectCleanup_idle w Hidle).
    by rewrite Hv, Hfound.
  - by rewrite Ht1, fmap_app, visit_timeouts_callbacks.
  - done.
  - unfold playEffect. fold w2.
    change (isVisualizing w2) with (isVisualizing w1). rewrite Hv1.
    simpl. done.
  - rewrite Ht2. apply visit_timeouts_callbacks.
  - exact Hfires.
  - done.
  - simpl. by rewrite Hv1.
  - simpl. by rewrite Hf1.
  - simpl. by rewrite Hto1.
  - intros p c Hc. destruct Hf as (_ & _ & _ & Hsame).
    destruct (Hsame p c Hc) as (c1 & Hc1 & _ & _ & Hty).
    simpl. rewrite Hgr'. change (grid w2) with (grid w1).
    rewrite Hg1. simpl. rewrite Hc1. eexists. split; [done|].
    unfold painted, keeps. rewrite Hty.
    repeat case_decide; simpl; done.
Qed.

Lemma played_run_shows_visits_only_witness :
  ∃ V P w1 w2 w',
    playEffect Dijkstra 50 true mounted = Some w1 ∧
    callback <$> timeouts w1
    = ((λ v, cb_visit v.1 v.2) <$> V) ++ [cb_shortestPath P] ∧
    (path_between (grid mounted) (startNode mounted) (endNode mounted) P ∨
     P = [endNode mounted] ∧
     ∀ k, ¬ reach (grid mounted) (startNode mounted) k (endNode mounted)) ∧
    playEffect Dijkstra 50 true w1 = Some w2 ∧
    callback <$> timeouts w2 = (λ v, cb_visit v.1 v.2) <$> V ∧
    fires (length V) 50 w2 = Some w' ∧
    timeouts w' = [] ∧ isVisualizing w' = true ∧ isPathFound w' = false ∧
    toasts w' = toasts mounted ∧
    ∀ p c, cell (grid mounted) p = Some c →
           ∃ c', cell (grid w') p = Some c' ∧
                 type c' = if decide (p ∈ V ∧ ¬ keeps c) then Visited
                           else type c.
Proof.
  apply (played_run_shows_visits_only Dijkstra 50 mounted).
  - apply well_formed_initializeGrid.
  - reflexivity.
  - reflexivity.
  - reflexivity.
  - eexists. split; [vm_compute; reflexivity|discriminate].
  - eexists. split; [vm_compute; reflexivity|discriminate].
Defined.

(** X14: a run with no way through.  On a grid with fresh search fields,
    nothing pending, the start and the end cell no walls and no walk from
    the one to the other, [visualizeAlgorithm] still returns, and the
    list it hands to the second phase is not empty: it is the end cell. *)
Theorem unreachable_run_lists_end_cell algorithm speed w :
  well_formed (grid w) → timeouts w = [] →
  passable (grid w) (startNode w) → passable (grid w) (endNode w) →
  (∀ k, ¬ reach (grid w) (startNode w) k (endNode w)) →
  ∃ V w1,
    visualizeAlgorithm algorithm speed w = Some w1 ∧
    callback <$> timeouts w1
    = ((λ v, cb_visit v.1 v.2) <$> V) ++ [cb_shortestPath [endNode w]].
Proof.
  intros Hwf Hidle Hps Hpe Hno.
  destruct (visualizeAlgorithm_schedule algorithm speed w Hwf Hidle Hps Hpe)
    as (V & gr & P & Hvz & _ & _ & [Hpath|[-> _]]).
  { destruct (path_reach _ _ _ _ Hpath) as (k & _ & Hk).
    by destruct (Hno k). }
  exists V. eexists. split; [exact Hvz|].
  destruct (animateAlgorithm_from_schedule (101 - speed) 0 V [endNode w]
              (with_grid gr (with_flags true (isPathFound w) w)))
    as (Hts & _).
  unfold animateAlgorithm. rewrite Hts. simpl. rewrite Hidle, app_nil_l.
  by rewrite fmap_app, visit_timeouts_callbacks.
Qed.

Lemma unreachable_run_lists_end_cell_witness :
  let w := with_grid start_walled_in mounted in
  ∃ V w1,
    visualizeAlgorithm AStar 50 w = Some w1 ∧
    callback <$> timeouts w1
    = ((λ v, cb_visit v.1 v.2) <$> V) ++ [cb_shortestPath [endNode w]].
Proof.
  intros w. apply (unreachable_run_lists_end_cell AStar 50 w).
  - unfold w, start_walled_in. simpl grid. cbn [foldl].
    repeat apply well_formed_set_type. apply well_formed_initializeGrid.
  - reflexivity.
  - eexists. split; [vm_compute; reflexivity|discriminate].
  - eexists. split; [vm_compute; reflexivity|discriminate].
  - apply start_walled_in_unreachable.
Defined.

(** *** The walk over [previousNode] *)

(** What the walk from a cell builds in front of the list it has. *)
Definition linked (gr : Grid) (finish : Ref) (l : list Ref) : Prop :=
  last l = Some finish ∧
  (∀ p, p ∈ l → is_Some (cell gr p)) ∧
  (∀ i q p, l !! i = Some q → l !! S i = Some p → prev gr p = Some q) ∧
  ∃ h, head l = Some h ∧
       (prev gr h = None ∨ ∃ q, prev gr h = Some q ∧ cell gr q = None).

Lemma shortestPath_loop_linked fuel gr cur acc l :
  shortestPath_loop fuel gr cur acc = Some l →
  ∃ l', l = l' ++ acc ∧ linked gr cur l'.
Proof.
  revert cur acc. induction fuel as [|fuel IH]; intros cur acc; [done|].
  cbn [shortestPath_loop].
  destruct (cell gr cur) as [c|] eqn:Hc; [|done]. cbn [mbind option_bind].
  assert (prev gr cur = previousNode c) as Hprev.
  { unfold prev. by rewrite Hc. }
  assert ((prev gr cur = None ∨
           ∃ q, prev gr cur = Some q ∧ cell gr q = None) →
          linked gr cur [cur]) as Hone.
  { intros Hh. split_and!; [done| |by intros [|i] q p' ? ?|by exists cur].
    intros p' ->%list_elem_of_singleton. by exists c. }
  destruct (previousNode c) as [p|] eqn:Hp.
  - destruct (gr !! p.1) as [r|] eqn:Hr; [|done]. cbn [mbind option_bind].
    destruct (r !! p.2) as [cp|] eqn:Hcp.
    + intros (l1 & -> & Hlast & Hcells & Hlinks & h & Hh & Hhp)%IH.
      exists (l1 ++ [cur]). split; [by rewrite <- app_assoc|].
      split_and!.
      * by rewrite last_snoc.
      * intros q [Hq|Hq%list_elem_of_singleton]%elem_of_app;
          [by apply Hcells|]. subst. by exists c.
      * intros i q p' Hi Hi'.
        apply lookup_app_Some in Hi' as [Hi'|[Hlen Hi']].
        -- rewrite lookup_app_l in Hi by (apply lookup_lt_Some in Hi'; lia).
           by apply (Hlinks i).
        -- apply list_lookup_singleton_Some in Hi' as [Hz <-].
           assert (S i = length l1) as Hlen' by lia.
           rewrite lookup_app_l in Hi by lia.
           rewrite last_lookup in Hlast.
           replace (pred (length l1)) with i in Hlast by lia.
           rewrite Hlast in Hi. injection Hi as <-. done.
      * exists h. split; [|done]. by destruct l1.
    + intros [= <-]. exists [cur]. split; [done|]. apply Hone.
      right. exists p. split; [done|]. unfold cell. rewrite Hr. done.
  - intros [= <-]. exists [cur]. split; [done|]. apply Hone.
    by left.
Qed.

(** X15: when the walk from the finish cell returns, its list ends with
    that cell and holds cells of the grid only; each cell of it is the
    one the [previousNode] of the next points at; and the first has no
    [previousNode], or one that points at no cell of its row. *)
Theorem shortest_path_walk_linked gr finish l :
  getNodesInShortestPathOrder gr finish = Some l → linked gr finish l.
Proof.
  intros (l' & -> & Hl)%shortestPath_loop_linked. by rewrite app_nil_r.
Qed.

(** The grid a run of [dijkstra] from (10, 15) to (10, 18) leaves, and
    the walk back from (10, 18). *)
Lemma shortest_path_walk_linked_witness :
  let gr := from_option snd []
              (dijkstra (initializeGrid (10, 15) (10, 18)) (10, 15)
                 (10, 18)) in
  linked gr (10, 18) [(10, 15); (10, 16); (10, 17); (10, 18)].
Proof.
  intros gr.
  apply (shortest_path_walk_linked gr (10, 18)
           [(10, 15); (10, 16); (10, 17); (10, 18)]).
  vm_compute. reflexivity.
Defined.

End PathPlayback.

(** ** Playback of a traversal *)

Module TraversalPlayback.
Import GraphTraversal Traversal.
Local Open Scope nat_scope.

(** *** The states of the nodes, by id *)

(** The nodes with the state of each set from its id. *)
Definition recolor (φ : nat → NodeState) (ns : list Node) : list Node :=
  (λ n, set_state (φ (id n)) n) <$> ns.

Definition upd (φ : nat → NodeState) (x : nat) (s : NodeState)
    : nat → NodeState :=
  λ y, if decide (y = x) then s else φ y.

Lemma recolor_ids φ ns : id <$> recolor φ ns = id <$> ns.
Proof. unfold recolor. rewrite <- list_fmap_compose. by apply list_fmap_ext. Qed.

Lemma recolor_ext φ ψ ns :
  (∀ x, x ∈ id <$> ns → φ x = ψ x) → recolor φ ns = recolor ψ ns.
Proof.
  intros Heq. unfold recolor. apply list_fmap_ext. intros i n Hn.
  rewrite Heq; [done|]. apply list_elem_of_fmap. exists n.
  split; [done|]. by eapply list_elem_of_lookup_2.
Qed.

Lemma findIndex_recolor φ ns x : findIndex (recolor φ ns) x = findIndex ns x.
Proof.
  unfold findIndex, recolor. rewrite list_find_fmap.
  rewrite (list_find_ext _ (λ n, id n = x)) by done.
  by destruct (list_find _ ns) as [[i n]|].
Qed.

Lemma findIndex_Some ns x k :
  findIndex ns x = Some k → ∃ n, ns !! k = Some n ∧ id n = x.
Proof.
  unfold findIndex. destruct (list_find _ ns) as [[i n]|] eqn:Hf; [|done].
  intros [= <-]. apply list_find_Some in Hf as (Hi & Hid & _).
  by exists n.
Qed.

Lemma findIndex_is_Some ns x : x ∈ id <$> ns → is_Some (findIndex ns x).
Proof.
  intros (n & -> & Hn)%list_elem_of_fmap. unfold findIndex.
  destruct (list_find (λ n', id n' = id n) ns) as [[i n']|] eqn:Hf;
    [by eexists|].
  apply list_find_None in Hf. rewrite Forall_forall in Hf.
  by destruct (Hf n Hn).
Qed.

Lemma findIndex_None ns x : findIndex ns x = None → x ∉ id <$> ns.
Proof.
  intros Hf Hin. apply findIndex_is_Some in Hin as [k Hk]. congruence.
Qed.

Lemma find_node_findIndex ns x k :
  findIndex ns x = Some k → find_node ns x = ns !! k.
Proof.
  unfold findIndex, find_node.
  destruct (list_find _ ns) as [[i n]|] eqn:Hf; [|done].
  intros [= <-]. apply list_find_Some in Hf as (Hi & _). by rewrite Hi.
Qed.

Lemma alter_recolor φ ns x k s :
  NoDup (id <$> ns) → findIndex ns x = Some k →
  alter (set_state s) k (recolor φ ns) = recolor (upd φ x s) ns.
Proof.
  intros Hnd (n & Hk & Hid)%findIndex_Some. apply list_eq. intros j.
  unfold recolor. rewrite list_lookup_alter, !list_lookup_fmap.
  destruct (decide (k = j)) as [<-|Hne].
  - rewrite Hk. simpl. unfold upd. by rewrite decide_True.
  - destruct (ns !! j) as [n'|] eqn:Hj; [|done]. simpl. f_equal.
    unfold upd. rewrite decide_False; [done|]. intros Heq.
    apply Hne. apply (NoDup_lookup (id <$> ns) k j x); [done|..].
    + by rewrite list_lookup_fmap, Hk; simpl; rewrite Hid.
    + by rewrite list_lookup_fmap, Hj; simpl; rewrite Heq.
Qed.

(** [findIndex] of an id, then the write, whether the id is there or
    not. *)
Lemma mark_recolor φ ns x s :
  NoDup (id <$> ns) →
  match findIndex (recolor φ ns) x with
  | Some k => alter (set_state s) k (recolor φ ns)
  | None => recolor φ ns
  end = recolor (upd φ x s) ns.
Proof.
  intros Hnd. rewrite findIndex_recolor.
  destruct (findIndex ns x) as [k|] eqn:Hf; [by apply alter_recolor|].
  apply recolor_ext. intros y Hy. unfold upd.
  rewrite decide_False; [done|]. intros ->. by apply findIndex_None in Hf.
Qed.

(** The loop that marks the neighbors queued. *)
Definition queue_neighbors (ns : list Node) (conns : list nat) : list Node :=
  foldl (λ ns neighborId,
           match findIndex ns neighborId with
           | Some k' =>
               match ns !! k' with
               | Some n =>
                   if decide (state n = ns_default)
                   then alter (set_state ns_queued) k' ns
                   else ns
               | None => ns
               end
           | None => ns
           end)
        ns conns.

Definition queued (φ : nat → NodeState) (conns : list nat)
    : nat → NodeState :=
  λ y, if decide (y ∈ conns ∧ φ y = ns_default) then ns_queued else φ y.

Lemma queue_neighbors_recolor φ ns conns :
  NoDup (id <$> ns) →
  queue_neighbors (recolor φ ns) conns = recolor (queued φ conns) ns.
Proof.
  intros Hnd. unfold queue_neighbors. revert φ.
  induction conns as [|c conns IH]; intros φ; simpl.
  { apply recolor_ext. intros y _. unfold queued.
    by rewrite decide_False by (by intros [?%elem_of_nil _]). }
  assert (match findIndex (recolor φ ns) c with
          | Some k' =>
              match recolor φ ns !! k' with
              | Some n =>
                  if decide (state n = ns_default)
                  then alter (set_state ns_queued) k' (recolor φ ns)
                  else recolor φ ns
              | None => recolor φ ns
              end
          | None => recolor φ ns
          end
          = recolor (λ y, if decide (y = c ∧ φ y = ns_default)
                          then ns_queued else φ y) ns) as ->.
  { rewrite findIndex_recolor.
    destruct (findIndex ns c) as [k|] eqn:Hf.
    - destruct (findIndex_Some ns c k Hf) as (n & Hk & Hid).
      unfold recolor at 1. rewrite list_lookup_fmap, Hk. simpl.
      rewrite Hid. case_decide as Hd.
      + rewrite (alter_recolor φ ns c k ns_queued Hnd Hf).
        apply recolor_ext. intros y _. unfold upd.
        destruct (decide (y = c)) as [->|Hne].
        * by rewrite decide_True.
        * by rewrite decide_False by naive_solver.
      + apply recolor_ext. intros y _.
        rewrite decide_False; [done|]. intros [-> ?]. done.
    - apply recolor_ext. intros y Hy.
      rewrite decide_False; [done|]. intros [-> _].
      by apply findIndex_None in Hf. }
  rewrite IH. apply recolor_ext. intros y _. unfold queued.
  destruct (decide (y = c ∧ φ y = ns_default)) as [[-> Hd]|Hn].
  - rewrite (decide_False (P := c ∈ conns ∧ _)) by (intros [_ ?]; done).
    by rewrite decide_True by (split; [by left|done]).
  - destruct (decide (y ∈ conns ∧ φ y = ns_default)) as [[Hin Hd]|Hn'].
    + by rewrite decide_True by (split; [by right|done]).
    + rewrite decide_False; [done|].
      intros [[->|Hin]%elem_of_cons Hd]; naive_solver.
Qed.

(** *** One step *)

(** What step [i] of the playback makes of the states: the node of the
    step before turns visited, the node [x] of this one current, and
    under BFS its default neighbors queued. *)
Definition step_color (algorithm : Algorithm) (order : list nat) (i x : nat)
    (conns : list nat) (φ : nat → NodeState) : nat → NodeState :=
  let φ1 := match i with
            | O => φ
            | S i' => match order !! i' with
                      | Some pv => upd φ pv ns_visited
                      | None => φ
                      end
            end in
  let φ2 := upd φ1 x ns_current in
  match algorithm with
  | DFS => φ2
  | BFS => queued φ2 conns
  end.

Lemma step_nodes_recolor algorithm order i φ ns x node :
  NoDup (id <$> ns) → order !! i = Some x → find_node ns x = Some node →
  step_nodes algorithm order i (recolor φ ns)
  = Some (recolor (step_color algorithm order i x (connections node) φ) ns).
Proof.
  intros Hnd Hx Hnode. unfold step_nodes, step_color. rewrite Hx.
  cbn [mbind option_bind].
  set (φ1 := match i with
             | O => φ
             | S i' => match order !! i' with
                       | Some pv => upd φ pv ns_visited
                       | None => φ
                       end
             end).
  assert (match i with
          | O => recolor φ ns
          | S i' =>
              match order !! i' ≫= findIndex (recolor φ ns) with
              | Some k => alter (set_state ns_visited) k (recolor φ ns)
              | None => recolor φ ns
              end
          end = recolor φ1 ns) as ->.
  { unfold φ1. destruct i as [|i']; [done|].
    destruct (order !! i') as [pv|]; [|done]. cbn [mbind option_bind].
    by apply mark_recolor. }
  rewrite (mark_recolor φ1 ns x ns_current Hnd).
  destruct algorithm; [|done].
  rewrite findIndex_recolor.
  assert (is_Some (findIndex ns x)) as [k Hk].
  { unfold find_node in Hnode. unfold findIndex.
    destruct (list_find _ ns) as [[? ?]|]; [by eexists|done]. }
  rewrite Hk. cbn [mbind option_bind].
  rewrite (find_node_findIndex ns x k Hk) in Hnode.
  assert (recolor (upd φ1 x ns_current) ns !! k
          = Some (set_state (upd φ1 x ns_current (id node)) node)) as ->.
  { unfold recolor. by rewrite list_lookup_fmap, Hnode. }
  cbn [mbind option_bind set_state connections].
  fold (queue_neighbors (recolor (upd φ1 x ns_current) ns)
          (connections node)).
  by rewrite queue_neighbors_recolor.
Qed.

(** The states before step [i]: the nodes of the earlier steps visited,
    but for the last of them, which is current; any other node default,
    or queued or current and due for a later step. *)
Definition pre (order : list nat) (i : nat) (φ : nat → NodeState) : Prop :=
  (∀ j x, order !! j = Some x → S j < i → φ x = ns_visited) ∧
  (∀ x, 1 ≤ i → order !! (i - 1) = Some x → φ x = ns_current) ∧
  (∀ x, (∀ j, j < i → order !! j ≠ Some x) →
        φ x = ns_default ∨
        ((φ x = ns_queued ∨ φ x = ns_current) ∧ x ∈ order)).

Lemma pre_step algorithm order i x conns φ :
  NoDup order → order !! i = Some x → (∀ c, c ∈ conns → c ∈ order) →
  pre order i φ → pre order (S i) (step_color algorithm order i x conns φ).
Proof.
  intros Hnd Hx Hconns (Hvis & Hcur & Hrest).
  set (φ1 := match i with
             | O => φ
             | S i' => match order !! i' with
                       | Some pv => upd φ pv ns_visited
                       | None => φ
                       end
             end).
  assert (∀ j y, order !! j = Some y → j < i → φ1 y = ns_visited) as H1.
  { intros j y Hy Hj. unfold φ1. destruct i as [|i']; [lia|].
    destruct (order !! i') as [pv|] eqn:Hpv.
    - unfold upd. case_decide; [done|]. apply (Hvis j y Hy).
      destruct (decide (j = i')) as [->|]; [congruence|lia].
    - apply lookup_lt_Some in Hx. apply lookup_ge_None in Hpv. lia. }
  assert (∀ y, (∀ j, j < i → order !! j ≠ Some y) → φ1 y = φ y) as H1'.
  { intros y Hy. unfold φ1. destruct i as [|i']; [done|].
    destruct (order !! i') as [pv|] eqn:Hpv; [|done].
    unfold upd. rewrite decide_False; [done|]. intros ->.
    by apply (Hy i'); [lia|]. }
  assert (∀ y, step_color algorithm order i x conns φ y
               = match algorithm with
                 | DFS => upd φ1 x ns_current y
                 | BFS => queued (upd φ1 x ns_current) conns y
                 end) as Hsc by (by destruct algorithm).
  split_and!.
  - intros j y Hy Hj. rewrite Hsc.
    assert (upd φ1 x ns_current y = ns_visited) as Hu.
    { unfold upd. rewrite decide_False; [apply (H1 j); [done|lia]|].
      intros ->. pose proof (NoDup_lookup order i j x Hnd Hx Hy). lia. }
    destruct algorithm; [|done]. unfold queued.
    rewrite decide_False; [done|]. rewrite Hu. by intros [_ ?].
  - intros y _. replace (S i - 1) with i by lia. rewrite Hx.
    intros [= <-]. rewrite Hsc.
    assert (upd φ1 x ns_current x = ns_current) as Hu
      by (unfold upd; by rewrite decide_True).
    destruct algorithm; [|done]. unfold queued.
    rewrite decide_False; [done|]. rewrite Hu. by intros [_ ?].
  - intros y Hy. rewrite Hsc.
    assert (upd φ1 x ns_current y = φ y) as Hu.
    { unfold upd. rewrite decide_False.
      - apply H1'. intros j Hj. apply Hy. lia.
      - intros ->. by apply (Hy i); [lia|]. }
    assert (φ y = ns_default ∨
            ((φ y = ns_queued ∨ φ y = ns_current) ∧ y ∈ order)) as Hold.
    { apply Hrest. intros j Hj. apply Hy. lia. }
    destruct algorithm; [|by rewrite Hu].
    unfold queued. rewrite Hu. case_decide as Hq; [|done].
    right. split; [by left|]. apply Hconns. by destruct Hq.
Qed.

(** *** The timeouts fire *)

Definition pop (w : World) (rest : list Timeout) : World :=
  {| nodes := nodes w; startNode := startNode w;
     isVisualizing := isVisualizing w; isComplete := isComplete w;
     animationTimeoutRef := animationTimeoutRef w; timeouts := rest;
     next_handle := next_handle w; toasts := toasts w |}.

Lemma graph_fires_S n algorithm speed w :
  fires (S n) algorithm speed w
  = fire algorithm speed w ≫= fires n algorithm speed.
Proof. done. Qed.

Lemma graph_fires_add a b algorithm speed w :
  fires (a + b) algorithm speed w
  = fires a algorithm speed w ≫= fires b algorithm speed.
Proof.
  revert w. induction a as [|a IH]; intros w; simpl; [done|].
  destruct (fire algorithm speed w) as [w'|]; simpl; [apply IH|done].
Qed.

Lemma graph_fire_head algorithm speed w t rest :
  timeouts w = t :: rest →
  fire algorithm speed w
  = run_callback algorithm speed (callback t) (pop w rest).
Proof. unfold fire. by intros ->. Qed.

(** The timeouts of the steps of [l], from handle [h] on. *)
Definition step_timeouts (d : nat → Z) (order : list nat) (h : nat)
    (l : list nat) : list Timeout :=
  imap (λ k i, {| handle := h + k; delay := d i;
                  callback := cb_step order i |}) l.

Lemma schedule_steps (d : nat → Z) order l w :
  let w' := foldl (λ w i, setTimeout true (cb_step order i) (d i) w) w l in
  timeouts w' = timeouts w ++ step_timeouts d order (next_handle w) l ∧
  next_handle w' = next_handle w + length l ∧
  animationTimeoutRef w'
  = (if decide (l = []) then animationTimeoutRef w
     else Some (next_handle w + length l - 1)) ∧
  nodes w' = nodes w ∧ isVisualizing w' = isVisualizing w ∧
  isComplete w' = isComplete w ∧ toasts w' = toasts w ∧
  startNode w' = startNode w.
Proof.
  induction l as [|i l IH] using rev_ind; simpl.
  { rewrite app_nil_r, Nat.add_0_r. by split_and!. }
  rewrite foldl_snoc. simpl in IH.
  destruct IH as (Ht & Hn & _ & Hns & Hv & Hc & Hto & Hs).
  cbn [setTimeout timeouts next_handle animationTimeoutRef nodes
       isVisualizing isComplete toasts startNode].
  rewrite Ht, Hn, Hns, Hv, Hc, Hto, Hs, length_app. simpl.
  split_and!; try done; try lia.
  - unfold step_timeouts. rewrite imap_app, <- app_assoc. simpl.
    by rewrite Nat.add_0_r.
  - rewrite decide_False by (by destruct l). f_equal. lia.
Qed.

Lemma step_timeouts_callbacks d order h l :
  callback <$> step_timeouts d order h l = cb_step order <$> l.
Proof.
  unfold step_timeouts. rewrite fmap_imap. rewrite <- imap_const.
  by apply imap_ext.
Qed.

(** The cleanup of the effect takes the timeout of the last step, the one
    in the ref, off the timeouts of a traversal just scheduled. *)
Lemma effectCleanup_steps (d : nat → Z) order l i w :
  timeouts w = [] →
  timeouts (effectCleanup
              (foldl (λ w i, setTimeout true (cb_step order i) (d i) w) w
                 (l ++ [i])))
  = step_timeouts d order (next_handle w) l.
Proof.
  intros Hw.
  destruct (schedule_steps d order (l ++ [i]) w) as (Ht & _ & Hr & _).
  cbn [effectCleanup timeouts clear_ref]. simpl in Ht, Hr.
  rewrite Hr, Ht, Hw, decide_False by (by destruct l).
  rewrite length_app. simpl. unfold step_timeouts.
  rewrite imap_app, filter_app. simpl. rewrite filter_cons, filter_nil.
  rewrite decide_False by (simpl; lia). rewrite app_nil_r.
  apply filter_all, Forall_forall. intros t Ht'.
  apply elem_of_lookup_imap in Ht' as (k & x & -> & Hk).
  apply lookup_lt_Some in Hk. simpl. lia.
Qed.

Section Steps.
Context (algorithm : Algorithm) (speed : Z).
Context (ns0 : list Node) (order : list nat).
Context (Hids : NoDup (id <$> ns0)) (Hord : NoDup order).
Context (Hin : ∀ x, x ∈ order → is_Some (find_node ns0 x)).
Context (Hcl : ∀ x node c, x ∈ order → find_node ns0 x = Some node →
                           c ∈ connections node → c ∈ order).

(** Steps that fire, none of them the last of the order: each recolors,
    and none schedules anything. *)
Lemma fires_steps n i w φ :
  i + n < length order →
  callback <$> timeouts w = cb_step order <$> seq i n →
  nodes w = recolor φ ns0 → pre order i φ →
  ∃ φ' w',
    fires n algorithm speed w = Some w' ∧
    nodes w' = recolor φ' ns0 ∧ pre order (i + n) φ' ∧
    timeouts w' = [] ∧
    isVisualizing w' = isVisualizing w ∧ isComplete w' = isComplete w ∧
    toasts w' = toasts w.
Proof.
  revert i w φ. induction n as [|n IH]; intros i w φ Hlen Hts Hns Hpre.
  { exists φ, w. rewrite Nat.add_0_r. split_and!; try done.
    by apply fmap_nil_inv in Hts. }
  destruct (timeouts w) as [|t rest] eqn:Htw; [done|].
  cbn [seq fmap list_fmap] in Hts. injection Hts as Ht Hrest.
  destruct (lookup_lt_is_Some_2 order i) as [x Hx]; [lia|].
  assert (x ∈ order) as Hxo by (by eapply list_elem_of_lookup_2).
  destruct (Hin x Hxo) as [node Hnode].
  pose proof (step_nodes_recolor algorithm order i φ ns0 x node Hids Hx
                Hnode) as Hstep.
  pose proof (pre_step algorithm order i x (connections node) φ Hord Hx
                (λ c, Hcl x node c Hxo Hnode) Hpre) as Hpre'.
  set (φ' := step_color algorithm order i x (connections node) φ) in *.
  rewrite graph_fires_S, (graph_fire_head algorithm speed w t rest Htw), Ht.
  cbn [run_callback]. change (nodes (pop w rest)) with (nodes w).
  rewrite Hns, Hstep. cbn [mbind option_bind].
  rewrite decide_False by lia.
  destruct (IH (S i) (with_nodes (recolor φ' ns0) (pop w rest)) φ')
    as (φ'' & w' & Hf & Hn' & Hp' & Ht' & Hv' & Hc' & Hto');
    [lia|done|done|done|].
  exists φ'', w'. replace (i + S n) with (S i + n) by lia.
  split_and!; done.
Qed.

End Steps.

(** Every id a walk from a node of the graph reaches is the id of a node
    of the graph, when the connections are. *)
Lemma reachable_ids ns s v :
  s ∈ id <$> ns →
  (∀ n c, n ∈ ns → c ∈ connections n → c ∈ id <$> ns) →
  rtc (edge ns) s v → v ∈ id <$> ns.
Proof.
  intros Hs Hcl Hr. apply rtc_inv_r in Hr as [->|(y & _ & n & Hn & Hv)];
    [done|].
  apply (Hcl n v); [|done]. destruct Hn as (i & Hi & _).
  by eapply list_elem_of_lookup_2.
Qed.

Lemma find_node_is_Some ns x : x ∈ id <$> ns → is_Some (find_node ns x).
Proof.
  intros [k Hk]%findIndex_is_Some.
  rewrite (find_node_findIndex ns x k Hk).
  destruct (findIndex_Some ns x k Hk) as (n & -> & _). by eexists.
Qed.

Lemma run_order algorithm ns s :
  ∃ order, run algorithm ns (Some s) = Order order ∧ NoDup order ∧
           ∀ v, v ∈ order ↔ rtc (edge ns) s v.
Proof.
  destruct algorithm; simpl.
  - destruct (bfs_order_spec ns s) as (o & -> & Hnd & Hr & _).
    by exists o.
  - destruct (dfs_order_spec ns s) as (o & -> & Hnd & Hr).
    by exists o.
Qed.

Lemma graph_effectCleanup_idle w : timeouts w = [] → effectCleanup w = w.
Proof.
  intros Hw. destruct w as [ns s v c r ts n to]. simpl in Hw. subst ts.
  unfold effectCleanup. simpl. by destruct r.
Qed.

(** X16: a traversal as the component makes it.  With a start node
    selected, nothing pending, no run going, node ids that differ and
    connections that lead to nodes of the graph, play schedules one step
    for each node of a visit order: the nodes a walk along connections
    reaches from the start node, each once.  The effect runs again once
    [isVisualizing] has changed, and its cleanup cancels the timeout in
    the ref, the one of the last step, which alone would schedule the
    completion.  So the other steps fire and nothing else does:
    [isVisualizing] stays up, [isComplete] down, no toast is shown; the
    nodes of the order but the last two are visited, the last but one is
    left current, the last is never shown visited, and a node out of
    reach is default. *)
Theorem played_traversal_stops_short algorithm speed w s :
  startNode w = Some s → timeouts w = [] →
  isVisualizing w = false → isComplete w = false →
  NoDup (id <$> nodes w) → s ∈ id <$> nodes w →
  (∀ n c, n ∈ nodes w → c ∈ connections n → c ∈ id <$> nodes w) →
  ∃ order w1 w2 w' φ,
    playEffect algorithm speed true w = Some w1 ∧
    callback <$> timeouts w1 = cb_step order <$> seq 0 (length order) ∧
    NoDup order ∧ (∀ v, v ∈ order ↔ rtc (edge (nodes w)) s v) ∧
    playEffect algorithm speed true w1 = Some w2 ∧
    callback <$> timeouts w2
    = cb_step order <$> seq 0 (length order - 1) ∧
    fires (length order - 1) algorithm speed w2 = Some w' ∧
    timeouts w' = [] ∧ isVisualizing w' = true ∧ isComplete w' = false ∧
    toasts w' = toasts w ∧
    nodes w' = recolor φ (nodes w) ∧
    (∀ j x, order !! j = Some x → S (S j) < length order →
            φ x = ns_visited) ∧
    (∀ x, 2 ≤ length order → order !! (length order - 2) = Some x →
          φ x = ns_current) ∧
    (∀ x, last order = Some x → φ x ≠ ns_visited) ∧
    (∀ x, x ∉ order → φ x = ns_default).
Proof.
  intros Hs Hidle Hv Hc Hids Hsin Hclosed.
  destruct (run_order algorithm (nodes w) s) as (order & Hrun & Hnd & Hreach).
  set (φ0 := λ x, if decide (x = s) then ns_current else ns_default).
  set (w0 := with_nodes (recolor φ0 (nodes w)) (with_flags true false w)).
  set (d := λ i : nat, ((101 - speed) * Z.of_nat i * 2)%Z).
  set (w1 := animateTraversal speed order w0).
  assert (visualizeAlgorithm algorithm speed w = Some w1) as Hvz.
  { unfold visualizeAlgorithm. rewrite Hs.
    change (nodes (with_flags true false w)) with (nodes w).
    by rewrite Hrun. }
  assert (s ∈ order) as Hso by (by apply Hreach).
  assert (0 < length order) as Hpos.
  { destruct order; [by apply elem_of_nil in Hso|simpl; lia]. }
  assert (seq 0 (length order)
          = seq 0 (length order - 1) ++ [length order - 1]) as Hseq.
  { replace (length order) with (S (length order - 1)) at 1 by lia.
    by rewrite seq_S. }
  assert (timeouts w1
          = step_timeouts d order (next_handle w0) (seq 0 (length order)) ∧
          nodes w1 = recolor φ0 (nodes w) ∧ isVisualizing w1 = true ∧
          isComplete w1 = false ∧ toasts w1 = toasts w)
    as (Ht1 & Hn1 & Hv1 & Hc1 & Hto1).
  { destruct (schedule_steps d order (seq 0 (length order)) w0)
      as (Ht1 & _ & _ & Hn1 & Hv1 & Hc1 & Hto1 & _).
    change (timeouts w0) with (timeouts w) in Ht1.
    rewrite Hidle, app_nil_l in Ht1. by split_and!. }
  set (w2 := effectCleanup w1).
  assert (timeouts w2
          = step_timeouts d order (next_handle w0)
              (seq 0 (length order - 1))) as Ht2.
  { unfold w2, w1, animateTraversal. rewrite Hseq.
    by apply (effectCleanup_steps d). }
  destruct (fires_steps algorithm speed (nodes w) order Hids Hnd)
    with (n := length order - 1) (i := 0) (w := w2) (φ := φ0)
    as (φ' & w' & Hf & Hn' & (Hpv & Hpc & Hpr) & Ht' & Hv' & Hc' & Hto').
  { intros x Hx. apply find_node_is_Some.
    by apply (reachable_ids (nodes w) s); [| |apply Hreach]. }
  { intros x node c Hx Hnode Hcn. apply Hreach.
    eapply rtc_r; [by apply Hreach|]. apply edge_find_node. by exists node. }
  { lia. }
  { rewrite Ht2. apply step_timeouts_callbacks. }
  { change (nodes w2) with (nodes w1). exact Hn1. }
  { split_and!; [intros; lia|intros; lia|].
    intros x _. unfold φ0. case_decide; [|by left].
    right. subst. by split; [right|]. }
  exists order, w1, w2, w', φ'. split_and!; try done.
  - unfold playEffect. rewrite (graph_effectCleanup_idle w Hidle).
    by rewrite Hv, Hc, Hs.
  - rewrite Ht1. apply step_timeouts_callbacks.
  - unfold playEffect. fold w2.
    change (isVisualizing w2) with (isVisualizing w1). by rewrite Hv1.
  - rewrite Ht2. apply step_timeouts_callbacks.
  - rewrite Hv'. change (isVisualizing w2) with (isVisualizing w1).
    by rewrite Hv1.
  - rewrite Hc'. change (isComplete w2) with (isComplete w1).
    by rewrite Hc1.
  - rewrite Hto'. change (toasts w2) with (toasts w1). by rewrite Hto1.
  - intros j x Hj Hlt. apply (Hpv j x Hj). lia.
  - intros x Hlen Hx. apply Hpc; [lia|].
    by replace (0 + (length order - 1) - 1) with (length order - 2) by lia.
  - intros x Hx. rewrite last_lookup in Hx.
    destruct (Hpr x) as [->|[[->| ->] _]]; try done.
    intros j Hj Hjx.
    pose proof (NoDup_lookup order j (pred (length order)) x Hnd Hjx Hx).
    lia.
  - intros x Hx. destruct (Hpr x) as [Hd|[_ ?]]; [|done|done].
    intros j _ Hj. apply Hx. by eapply list_elem_of_lookup_2.
Qed.

Lemma played_traversal_stops_short_witness :
  let nd i c := {| id := i; connections := c; state := ns_default |} in
  let w := {| nodes := [nd 0 [1]; nd 1 [0; 2]; nd 2 [1]; nd 3 []];
              startNode := Some 0; isVisualizing := false;
              isComplete := false; animationTimeoutRef := None;
              timeouts := []; next_handle := 1; toasts := 0 |} in
  ∃ order w1 w2 w' φ,
    playEffect BFS 50 true w = Some w1 ∧
    callback <$> timeouts w1 = cb_step order <$> seq 0 (length order) ∧
    NoDup order ∧ (∀ v, v ∈ order ↔ rtc (edge (nodes w)) 0 v) ∧
    playEffect BFS 50 true w1 = Some w2 ∧
    callback <$> timeouts w2
    = cb_step order <$> seq 0 (length order - 1) ∧
    fires (length order - 1) BFS 50 w2 = Some w' ∧
    timeouts w' = [] ∧ isVisualizing w' = true ∧ isComplete w' = false ∧
    toasts w' = toasts w ∧
    nodes w' = recolor φ (nodes w) ∧
    (∀ j x, order !! j = Some x → S (S j) < length order →
            φ x = ns_visited) ∧
    (∀ x, 2 ≤ length order → order !! (length order - 2) = Some x →
          φ x = ns_current) ∧
    (∀ x, last order = Some x → φ x ≠ ns_visited) ∧
    (∀ x, x ∉ order → φ x = ns_default).
Proof.
  intros nd w. apply (played_traversal_stops_short BFS 50 w 0).
  - reflexivity.
  - reflexivity.
  - reflexivity.
  - reflexivity.
  - simpl. repeat (apply NoDup_cons; split;
      [rewrite ?elem_of_cons, ?elem_of_nil; lia|]). apply NoDup_nil_2.
  - simpl. by left.
  - intros n c Hn Hc. simpl in Hn.
    repeat (apply elem_of_cons in Hn as [->|Hn];
            [simpl in Hc; rewrite ?elem_of_cons, ?elem_of_nil in Hc;
             simpl; rewrite ?elem_of_cons; naive_solver|]).
    by apply elem_of_nil in Hn.
Defined.

End TraversalPlayback.

(** * Sorting: the recorders rearrange the input

    The sortedness proofs above follow each loop with an invariant that
    also shows the loop returns.  That a run keeps the values of the input
    needs less: whatever a loop body returns has the values it was given, so
    the same holds of whatever the loop returns. *)

Module SortingValues.
Import Sorting SortingProofs.
Local Open Scope Z_scope.

(** ** What a loop keeps when it returns *)

Section Kept.
Context {St : Type}.

Lemma for_count_keeps (J : Z → St → Prop) n lo body s s' :
  (∀ j t t', lo ≤ j < lo + Z.of_nat n → body j t = Some t' →
             J j t → J (j + 1) t') →
  J lo s → for_count n lo body s = Some s' → J (lo + Z.of_nat n) s'.
Proof.
  revert lo s. induction n as [|n IH]; intros lo s Hstep H0 Hrun.
  - simpl in Hrun. injection Hrun as <-.
    by replace (lo + Z.of_nat 0) with lo by lia.
  - simpl in Hrun. destruct (body lo s) as [t|] eqn:Hb; [|done].
    simpl in Hrun.
    replace (lo + Z.of_nat (S n)) with ((lo + 1) + Z.of_nat n) by lia.
    apply (IH (lo + 1) t); [|apply (Hstep lo s t); [lia|done|done]|done].
    intros j u u' Hj. apply Hstep. lia.
Qed.

Lemma for_range_keeps (J : St → Prop) lo hi body s s' :
  (∀ j t t', body j t = Some t' → J t → J t') →
  J s → for_range lo hi body s = Some s' → J s'.
Proof.
  intros Hstep H0 Hrun.
  apply (for_count_keeps (λ _, J) _ _ _ _ _ (λ j t t' _, Hstep j t t') H0 Hrun).
Qed.

Lemma while_keeps (J : St → Prop) fuel cond body s s' :
  (∀ t t', cond t = Some true → body t = Some t' → J t → J t') →
  J s → while fuel cond body s = Some s' → J s' ∧ cond s' = Some false.
Proof.
  intros Hstep. revert s.
  induction fuel as [|fuel IH]; intros s H0 Hrun; [done|].
  simpl in Hrun. destruct (cond s) as [[]|] eqn:Hc; simpl in Hrun; [| |done].
  - destruct (body s) as [t|] eqn:Hb; [|done]. simpl in Hrun.
    apply (IH t); [|done]. by apply (Hstep s t).
  - injection Hrun as <-. by split.
Qed.
End Kept.

(** ** Exchanges and shifts *)

Lemma transpose_perm {A} (l l' : list A) (i j : nat) :
  length l' = length l →
  (∀ k, l' !! k
        = l !! (if decide (k = i) then j else if decide (k = j) then i else k)) →
  l' ≡ₚ l.
Proof.
  intros Hlen Hl. apply Permutation_inj. split; [done|].
  exists (λ k, if decide (k = i) then j else if decide (k = j) then i else k).
  split; [|done]. intros a b. repeat case_decide; lia.
Qed.

Lemma swap_perm {A} (a a' : list A) i j : Js.swap a i j = Some a' → a' ≡ₚ a.
Proof.
  intros (x & y & [Hi Hx]%get_Some & [Hj Hy]%get_Some & ->)%swap_inv.
  pose proof (lookup_lt_Some _ _ _ Hx). pose proof (lookup_lt_Some _ _ _ Hy).
  apply (transpose_perm _ _ (Z.to_nat i) (Z.to_nat j)).
  { by rewrite !length_insert. }
  intros k. destruct (decide (k = Z.to_nat j)) as [->|Hkj].
  - rewrite list_lookup_insert_eq by (rewrite length_insert; lia).
    repeat case_decide; congruence.
  - rewrite list_lookup_insert_ne by done.
    destruct (decide (k = Z.to_nat i)) as [->|Hki].
    + rewrite list_lookup_insert_eq by lia. repeat case_decide; congruence.
    + rewrite list_lookup_insert_ne by done. repeat case_decide; congruence.
Qed.

(** Writing [x], found one slot to the left, over slot [j + 1] and the
    key over slot [j] exchanges two slots of the array that has the key in
    slot [j + 1]. *)
Lemma shift_perm {A} (l : list A) (j : nat) (key x : A) :
  l !! j = Some x → (S j < length l)%nat →
  <[j := key]> (<[S j := x]> l) ≡ₚ <[S j := key]> l.
Proof.
  intros Hx Hlen. apply (transpose_perm _ _ j (S j)).
  { by rewrite !length_insert. }
  intros k. destruct (decide (k = j)) as [->|Hkj].
  - rewrite !list_lookup_insert_eq; [done|lia|rewrite length_insert; lia].
  - rewrite list_lookup_insert_ne by done.
    destruct (decide (k = S j)) as [->|Hk].
    + rewrite list_lookup_insert_eq by lia.
      by rewrite list_lookup_insert_ne by lia.
    + by rewrite !list_lookup_insert_ne by done.
Qed.

(** ** The four recorders *)

(** The copy holds the values of the input, each as often. *)
Definition same_values (a0 : list ArrayBar) (r : Rec) : Prop :=
  value <$> arr r ≡ₚ value <$> a0.

Lemma same_values_arr a0 r r' :
  arr r' ≡ₚ arr r → same_values a0 r → same_values a0 r'.
Proof. unfold same_values. by intros ->. Qed.

Lemma bubble_inner_values a0 j r r' :
  bubble_inner j r = Some r' → same_values a0 r → same_values a0 r'.
Proof.
  unfold bubble_inner. intros Hrun HJ. simpl in Hrun.
  destruct (Js.get (arr r) j) as [x|]; [|done].
  destruct (Js.get (arr r) (j + 1)) as [y|]; [|done]. simpl in Hrun.
  case_decide; simpl in Hrun; [|by simplify_eq].
  destruct (Js.swap (arr r) j (j + 1)) as [a|] eqn:Hsw; [|done].
  simplify_eq/=. revert HJ. apply same_values_arr. simpl.
  by apply swap_perm in Hsw.
Qed.

Lemma bubbleSort_values a0 r : bubbleSort a0 = Some r → same_values a0 r.
Proof.
  unfold bubbleSort. apply (for_range_keeps (same_values a0)).
  2: { by unfold same_values. }
  intros i t t' Hrun HJ. unfold bubble_outer in Hrun.
  destruct (for_range 0 _ bubble_inner t) as [u|] eqn:Hin; [|done].
  simplify_eq/=.
  apply (for_range_keeps (same_values a0) _ _ _ _ _
           (bubble_inner_values a0) HJ Hin).
Qed.

Lemma partition_values r low high r' p :
  partition r low high = Some (r', p) → arr r' ≡ₚ arr r.
Proof.
  unfold partition. intros Hrun.
  destruct (Js.get (arr r) high) as [x|]; [|done]. simpl in Hrun.
  destruct (for_range low high _ _) as [[r1 i]|] eqn:Hloop; [|done].
  simpl in Hrun.
  destruct (Js.swap (arr r1) (i + 1) high) as [a|] eqn:Hsw; [|done].
  simplify_eq/=. apply swap_perm in Hsw. rewrite Hsw.
  apply (for_range_keeps (λ s : Rec * Z, arr s.1 ≡ₚ arr r) _ _ _ _ _)
    in Hloop; [done| |done].
  intros j [t k] [t' k'] Hb HJ. unfold partition_body in Hb. simpl in *.
  destruct (Js.get (arr t) j) as [y|]; [|done]. simpl in Hb.
  case_decide; simpl in Hb; [|by simplify_eq].
  destruct (Js.swap (arr t) (k + 1) j) as [b|] eqn:Hsw'; [|done].
  simplify_eq/=. apply swap_perm in Hsw'. by rewrite Hsw'.
Qed.

Lemma quickSortHelper_values fuel r low high r' :
  quickSortHelper fuel r low high = Some r' → arr r' ≡ₚ arr r.
Proof.
  revert r low high r'.
  induction fuel as [|fuel IH]; intros r low high r' Hrun; [done|].
  simpl in Hrun. case_decide.
  - destruct (partition r low high) as [[r1 p]|] eqn:Hp; [|done].
    simpl in Hrun.
    destruct (quickSortHelper fuel r1 low (p - 1)) as [r2|] eqn:H2; [|done].
    simpl in Hrun. apply IH in H2. apply IH in Hrun.
    apply partition_values in Hp. by rewrite Hrun, H2.
  - case_decide; by simplify_eq.
Qed.

Lemma mark_sorted_values a0 n r r' :
  for_range 0 n mark_sorted r = Some r' →
  same_values a0 r → same_values a0 r'.
Proof.
  intros Hrun HJ. apply (for_range_keeps (same_values a0) _ _ _ _ _) in Hrun;
    [done| |done].
  intros j t t' Hb. unfold mark_sorted in Hb. by simplify_eq.
Qed.

Lemma quickSort_values a0 r : quickSort a0 = Some r → same_values a0 r.
Proof.
  unfold quickSort. intros Hrun.
  destruct (quickSortHelper _ _ _ _) as [r1|] eqn:Hq; [|done].
  simpl in Hrun. apply quickSortHelper_values in Hq.
  apply (mark_sorted_values a0) in Hrun; [done|].
  unfold same_values. by rewrite Hq.
Qed.

(** Insertion sort writes the bar on the left over the one on its right
    and puts the key back last: until then the copy with the key in the
    slot it left open has the values of the input. *)
Definition hole_values (a0 : list ArrayBar) (key : Z) (s : Rec * Z) : Prop :=
  -1 ≤ s.2 ∧
  <[Z.to_nat (s.2 + 1) := key]> (value <$> arr s.1) ≡ₚ value <$> a0.

Lemma insertion_shift_values a0 i key s s' :
  insertion_shift i s = Some s' →
  hole_values a0 key s → hole_values a0 key s'.
Proof.
  destruct s as [r j]. unfold insertion_shift, hole_values.
  intros Hrun [Hj HJ]. simpl in *.
  destruct (Js.get (arr r) j) as [x|] eqn:Hx; [|done]. simpl in Hrun.
  destruct (Js.set (arr r) (j + 1) x) as [a|] eqn:Ha; [|done].
  apply get_Some in Hx as [Hj0 Hx]. apply set_inv in Ha as [Hj1 ->].
  assert (arr (if decide (j - 1 >= 0)
               then push (a_compare i (j - 1))
                      (with_arr (<[Z.to_nat (j + 1) := x]> (arr r))
                         (push (a_swap j (j + 1)) r))
               else with_arr (<[Z.to_nat (j + 1) := x]> (arr r))
                      (push (a_swap j (j + 1)) r))
          = <[Z.to_nat (j + 1) := x]> (arr r)) as Harr by (by case_decide).
  simplify_eq/=. split; [lia|]. rewrite Harr, <- HJ.
  rewrite list_fmap_insert.
  replace (Z.to_nat (j - 1 + 1)) with (Z.to_nat j) by lia.
  replace (Z.to_nat (j + 1)) with (S (Z.to_nat j)) by lia.
  apply shift_perm.
  - by rewrite list_lookup_fmap, Hx.
  - rewrite length_fmap. lia.
Qed.

Lemma insertion_outer_values a0 i r r' :
  insertion_outer i r = Some r' → same_values a0 r → same_values a0 r'.
Proof.
  unfold insertion_outer. intros Hrun HJ.
  destruct (Js.get (arr r) i) as [x|] eqn:Hx; [|done].
  cbn [mbind option_bind] in Hrun.
  destruct (while _ _ _ _) as [[r1 j]|] eqn:Hloop; [|done].
  cbn [mbind option_bind] in Hrun.
  destruct (Js.set (arr r1) (j + 1) _) as [a|] eqn:Ha; [|done].
  cbn [mbind option_bind] in Hrun. injection Hrun as <-. apply get_Some in Hx as [Hi Hx].
  apply (while_keeps (hole_values a0 (value x))) in Hloop as [[_ HJ1] _].
  - unfold same_values. simpl. apply set_inv in Ha as [_ ->].
    by rewrite list_fmap_insert.
  - intros t t' _. apply insertion_shift_values.
  - split; simpl; [lia|].
    replace (i - 1 + 1) with i by lia. rewrite list_insert_id; [done|].
    by rewrite list_lookup_fmap, Hx.
Qed.

Lemma insertionSort_values a0 r :
  insertionSort a0 = Some r → same_values a0 r.
Proof.
  unfold insertionSort. apply (for_range_keeps (same_values a0)).
  - intros i t t'. apply insertion_outer_values.
  - by unfold same_values.
Qed.

(** Merge sort overwrites: while a merge runs, the bars written so far,
    the bars of the two halves still to be written and the bars outside
    the range make up the array the merge was given. *)
Section MergeValues.
Context (a_in left right : list ArrayBar) (start : Z).

Definition merged (a : list ArrayBar) (i j k : Z) : Prop :=
  0 ≤ start ∧ 0 ≤ i ≤ Z.of_nat (length left) ∧
  0 ≤ j ≤ Z.of_nat (length right) ∧ k = start + i + j ∧
  take (Z.to_nat k) a ++ drop (Z.to_nat i) left ++ drop (Z.to_nat j) right
    ++ drop (Z.to_nat start + length left + length right) a ≡ₚ a_in.

Definition merge_values (s : MergeSt) : Prop :=
  merged (arr (m_rec s)) (m_i s) (m_j s) (m_k s).

Lemma merged_write (a a' : list ArrayBar) k x (hi : nat) :
  Js.set a k x = Some a' → (Z.to_nat k < hi)%nat →
  take (Z.to_nat (k + 1)) a' = take (Z.to_nat k) a ++ [x] ∧
  drop hi a' = drop hi a.
Proof.
  intros [Hk ->]%set_inv Hhi. split.
  - replace (Z.to_nat (k + 1)) with (S (Z.to_nat k)) by lia.
    rewrite (take_S_r _ _ x) by (apply list_lookup_insert_eq; lia).
    by rewrite take_insert_ge.
  - by rewrite drop_insert_lt.
Qed.

Lemma merged_left a i j k l a' :
  merged a i j k → Js.get left i = Some l → Js.set a k l = Some a' →
  merged a' (i + 1) j (k + 1).
Proof.
  intros (Hs & Hi & Hj & -> & HJ) [_ Hl]%get_Some Ha.
  pose proof (lookup_lt_Some _ _ _ Hl).
  destruct (merged_write _ _ _ _
              (Z.to_nat start + length left + length right) Ha)
    as [Ht Hd]; [lia|].
  split_and!; try lia. rewrite Ht, Hd, <- HJ.
  rewrite (drop_S _ _ _ Hl).
  replace (Z.to_nat (i + 1)) with (S (Z.to_nat i)) by lia.
  by rewrite <- app_assoc.
Qed.

Lemma merged_right a i j k x a' :
  merged a i j k → Js.get right j = Some x → Js.set a k x = Some a' →
  merged a' i (j + 1) (k + 1).
Proof.
  intros (Hs & Hi & Hj & -> & HJ) [_ Hx]%get_Some Ha.
  pose proof (lookup_lt_Some _ _ _ Hx).
  destruct (merged_write _ _ _ _
              (Z.to_nat start + length left + length right) Ha)
    as [Ht Hd]; [lia|].
  split_and!; try lia. rewrite Ht, Hd, <- HJ.
  rewrite (drop_S _ _ _ Hx).
  replace (Z.to_nat (j + 1)) with (S (Z.to_nat j)) by lia.
  rewrite <- app_assoc. f_equiv. simpl.
  by rewrite (Permutation_middle (drop (Z.to_nat i) left)).
Qed.

Lemma merge_body1_values mid s s' :
  merge_body1 left right start mid s = Some s' →
  merge_values s → merge_values s'.
Proof.
  destruct s as [r i j k]. unfold merge_body1, merge_values.
  intros Hrun HJ. simpl in *.
  destruct (Js.get left i) as [l|] eqn:Hl; [|done].
  destruct (Js.get right j) as [x|] eqn:Hx; [|done]. simpl in Hrun.
  case_decide; simpl in Hrun.
  - destruct (Js.set (arr r) k l) as [a|] eqn:Ha; [|done].
    simplify_eq/=. by apply (merged_left (arr r) i j k l).
  - destruct (Js.set (arr r) k x) as [a|] eqn:Ha; [|done].
    simplify_eq/=. by apply (merged_right (arr r) i j k x).
Qed.

Lemma merge_body2_values s s' :
  merge_body2 left s = Some s' → merge_values s → merge_values s'.
Proof.
  destruct s as [r i j k]. unfold merge_body2, merge_values.
  intros Hrun HJ. simpl in *.
  destruct (Js.get left i) as [l|] eqn:Hl; [|done]. simpl in Hrun.
  destruct (Js.set (arr r) k l) as [a|] eqn:Ha; [|done].
  simplify_eq/=. by apply (merged_left (arr r) i j k l).
Qed.

Lemma merge_body3_values s s' :
  merge_body3 right s = Some s' →
  merge_values s ∧ m_i s = Z.of_nat (length left) →
  merge_values s' ∧ m_i s' = Z.of_nat (length left).
Proof.
  destruct s as [r i j k]. unfold merge_body3, merge_values.
  intros Hrun [HJ Hi]. simpl in *.
  destruct (Js.get right j) as [x|] eqn:Hx; [|done]. simpl in Hrun.
  destruct (Js.set (arr r) k x) as [a|] eqn:Ha; [|done].
  simplify_eq/=. split; [|done]. by apply (merged_right (arr r) _ j k x).
Qed.
End MergeValues.

Lemma slice_take_drop {A} (a : list A) from to :
  0 ≤ from ≤ to → to ≤ Z.of_nat (length a) →
  Js.slice a from to = take (Z.to_nat (to - from)) (drop (Z.to_nat from) a).
Proof.
  intros Hft Hto. unfold Js.slice, Js.rel_index.
  rewrite !decide_False by lia. by rewrite !Z.min_l by lia.
Qed.

Lemma merge_values_spec r start mid end_ r' :
  0 ≤ start ≤ mid → mid < end_ → end_ < Z.of_nat (length (arr r)) →
  merge r start mid end_ = Some r' → arr r' ≡ₚ arr r.
Proof.
  intros Hs Hm He. unfold merge.
  set (left := Js.slice (arr r) start (mid + 1)).
  set (right := Js.slice (arr r) (mid + 1) (end_ + 1)).
  set (fuel := S (length left + length right)).
  intros Hrun.
  assert (Z.of_nat (length left) = mid + 1 - start) as Hll
    by (apply slice_length; lia).
  assert (Z.of_nat (length right) = end_ - mid) as Hlr.
  { unfold right. rewrite slice_length by lia. lia. }
  destruct (while fuel (merge_cond1 left right) _ _) as [s1|] eqn:H1;
    [|done].
  cbn [mbind option_bind] in Hrun.
  destruct (while fuel (merge_cond2 left) _ s1) as [s2|] eqn:H2; [|done].
  cbn [mbind option_bind] in Hrun.
  destruct (while fuel (merge_cond3 right) _ s2) as [s3|] eqn:H3; [|done].
  cbn [mbind option_bind] in Hrun. injection Hrun as <-.
  apply (while_keeps (merge_values (arr r) left right start)) in H1
    as [HJ1 _].
  2: { intros t t' _. apply merge_body1_values. }
  2: { unfold merge_values, merged. simpl. split_and!; try lia.
       unfold left, right. rewrite !slice_take_drop by lia.
       rewrite !drop_0.
       rewrite !length_take, !length_drop.
       replace (Z.to_nat (mid + 1)) with
         (Z.to_nat start + Z.to_nat (mid + 1 - start))%nat by lia.
       rewrite !app_assoc, take_take_drop, take_take_drop.
       replace (Z.to_nat start +
                  Z.to_nat (mid + 1 - start)
                  `min` (length (arr r) - Z.to_nat start) +
                  Z.to_nat (end_ + 1 - (mid + 1))
                  `min` (length (arr r) -
                           (Z.to_nat start + Z.to_nat (mid + 1 - start))))%nat
         with (Z.to_nat start + Z.to_nat (mid + 1 - start)
               + Z.to_nat (end_ + 1 - (mid + 1)))%nat by lia.
       by rewrite take_drop. }
  apply (while_keeps (merge_values (arr r) left right start)) in H2
    as [HJ2 Hc2]; [|intros t t' _; apply merge_body2_values|done].
  apply (while_keeps (λ s, merge_values (arr r) left right start s
                           ∧ m_i s = Z.of_nat (length left))) in H3
    as [[HJ3 Hi3] Hc3]; [|intros t t' _; apply merge_body3_values|].
  2: { split; [done|]. unfold merge_cond2 in Hc2.
       injection Hc2 as Hc2. apply bool_decide_eq_false in Hc2.
       destruct HJ2 as (_ & ? & _). lia. }
  unfold merge_cond3 in Hc3. injection Hc3 as Hc3.
  apply bool_decide_eq_false in Hc3.
  destruct HJ3 as (_ & _ & Hj & Hk & HJ). rewrite <- HJ, Hk.
  replace (Z.to_nat (m_i s3)) with (length left) by lia.
  replace (Z.to_nat (m_j s3)) with (length right) by lia.
  rewrite !drop_all. simpl.
  replace (Z.to_nat (start + m_i s3 + m_j s3))
    with (Z.to_nat start + length left + length right)%nat by lia.
  by rewrite take_drop.
Qed.

Lemma mergeSortHelper_values fuel r start end_ r' :
  0 ≤ start → end_ < Z.of_nat (length (arr r)) →
  mergeSortHelper fuel r start end_ = Some r' → arr r' ≡ₚ arr r.
Proof.
  revert r start end_ r'.
  induction fuel as [|fuel IH]; intros r start end_ r' Hs He Hrun; [done|].
  simpl in Hrun. case_decide; [by simplify_eq|].
  set (mid := (start + end_) `div` 2) in *.
  assert (start ≤ mid < end_) as Hmid.
  { unfold mid. split.
    - apply Z.div_le_lower_bound; lia.
    - apply Z.div_lt_upper_bound; lia. }
  destruct (mergeSortHelper fuel r start mid) as [r1|] eqn:H1; [|done].
  cbn [mbind option_bind] in Hrun.
  destruct (mergeSortHelper fuel r1 (mid + 1) end_) as [r2|] eqn:H2;
    [|done].
  cbn [mbind option_bind] in Hrun.
  apply IH in H1; [|lia..].
  pose proof (Permutation_length H1) as Hl1.
  apply IH in H2; [|lia..].
  pose proof (Permutation_length H2) as Hl2.
  apply merge_values_spec in Hrun; [|lia..].
  by rewrite Hrun, H2.
Qed.

Lemma mergeSort_values a0 r : mergeSort a0 = Some r → same_values a0 r.
Proof.
  unfold mergeSort. intros Hrun.
  destruct (mergeSortHelper _ _ _ _) as [r1|] eqn:Hm; [|done].
  cbn [mbind option_bind] in Hrun.
  apply mergeSortHelper_values in Hm; [|simpl; lia..].
  apply (mark_sorted_values a0) in Hrun; [done|].
  unfold same_values. by rewrite Hm.
Qed.

Lemma recorder_values algorithm a0 r :
  recorder algorithm a0 = Some r → same_values a0 r.
Proof.
  destruct algorithm; simpl.
  - apply bubbleSort_values.
  - apply mergeSort_values.
  - apply quickSort_values.
  - apply insertionSort_values.
Qed.

(** ** How many comparisons bubble sort records *)

Definition is_compare (ev : Animation) : bool :=
  match ev with a_compare _ _ => true | _ => false end.

Definition compares (l : list Animation) : Z :=
  Z.of_nat (length (filter is_compare l)).

Lemma compares_snoc l ev :
  compares (l ++ [ev]) = compares l + (if is_compare ev then 1 else 0).
Proof.
  unfold compares. rewrite filter_app, length_app, filter_cons, filter_nil.
  destruct (is_compare ev); simpl; lia.
Qed.

Lemma bubble_inner_compares j r r' :
  bubble_inner j r = Some r' →
  compares (anims r') = compares (anims r) + 1.
Proof.
  unfold bubble_inner. intros Hrun. simpl in Hrun.
  destruct (Js.get (arr r) j) as [x|]; [|done].
  destruct (Js.get (arr r) (j + 1)) as [y|]; [|done]. simpl in Hrun.
  case_decide; simpl in Hrun.
  - destruct (Js.swap (arr r) j (j + 1)) as [a|]; [|done].
    simplify_eq/=. rewrite !compares_snoc. simpl. lia.
  - simplify_eq/=. rewrite !compares_snoc. simpl. lia.
Qed.

Lemma bubble_outer_compares n i r r' :
  0 ≤ i < n → bubble_outer n i r = Some r' →
  compares (anims r') = compares (anims r) + (n - i - 1).
Proof.
  intros Hi Hrun. unfold bubble_outer in Hrun.
  destruct (for_range 0 _ bubble_inner r) as [u|] eqn:Hin; [|done].
  simplify_eq/=. rewrite compares_snoc. simpl.
  apply (for_count_keeps
           (λ j t, compares (anims t) = compares (anims r) + j)) in Hin.
  - rewrite Hin. lia.
  - intros j t t' _ Hb Ht. rewrite (bubble_inner_compares _ _ _ Hb). lia.
  - lia.
Qed.

Lemma bubbleSort_compares a0 r :
  bubbleSort a0 = Some r →
  2 * compares (anims r)
  = Z.of_nat (length a0) * (Z.of_nat (length a0) - 1).
Proof.
  unfold bubbleSort. set (n := Z.of_nat (length a0)). intros Hrun.
  apply (for_count_keeps
           (λ i t, 2 * compares (anims t) = i * (2 * n - i - 1))) in Hrun.
  - rewrite Hrun. replace (Z.of_nat (Z.to_nat (n - 0))) with n by lia. lia.
  - intros i t t' Hi Hb Ht.
    rewrite (bubble_outer_compares n i t t') by (done || lia). lia.
  - done.
Qed.

(** X17: for each of the four algorithms and every input array the
    recorder returns, and its swap and overwrite events, replayed in order
    onto the input as [animateSort] applies them, leave bars whose values
    are the values of the input, each as often as there, in non-decreasing
    order. *)
Theorem recorders_replay_sorted_input (algorithm : SortAlgorithm)
    (array : list ArrayBar) :
  ∃ r vis out,
    recorder algorithm array = Some r ∧
    replay_moves (anims r) (visual array) = Some vis ∧
    slot_value <$> vis = Some <$> out ∧
    out ≡ₚ value <$> array ∧
    Sorted Z.le out.
Proof.
  assert (∃ r, recorder algorithm array = Some r ∧ sorts array r)
    as (r & Hr & Hlen & (vis & Hvis & Hv) & Hs).
  { destruct algorithm; simpl.
    - apply bubbleSort_sorts.
    - apply mergeSort_sorts.
    - apply quickSort_sorts.
    - apply insertionSort_sorts. }
  exists r, vis, (value <$> arr r). split_and!; try done.
  - rewrite <- list_fmap_compose. exact Hv.
  - by apply recorder_values in Hr.
  - apply sorted_range_Sorted. by rewrite Hlen.
Qed.

(** X18: bubble sort has no early exit: on every input of [n] bars it
    returns with exactly [n (n - 1) / 2] compare events recorded, whatever
    the order of the bars. *)
Theorem bubbleSort_comparisons (array : list ArrayBar) :
  ∃ r, bubbleSort array = Some r ∧
       2 * compares (anims r)
       = Z.of_nat (length array) * (Z.of_nat (length array) - 1).
Proof.
  destruct (bubbleSort_sorts array) as (r & Hr & _).
  exists r. split; [done|]. by apply bubbleSort_compares.
Qed.
End SortingValues.

(** * Sorting: the whole recording, replayed

    The updater of [animateSort] indexes the array with whatever an event
    carries.  While every index of every event lies inside the array, each
    slot stays a bar and the updater is the step below on bars. *)

Module SortingReplay.
Import Sorting SortingProofs SortingValues.
Local Open Scope Z_scope.

Definition indices (ev : Animation) : list Z :=
  match ev with
  | a_compare i j | a_swap i j | a_reset i j => [i; j]
  | a_sorted i | a_pivot i | a_reset_pivot i | a_overwrite i _ => [i]
  end.

Definition in_range (n : Z) (ev : Animation) : Prop :=
  Forall (λ i, 0 ≤ i < n) (indices ev).

Definition with_state (s : BarState) (b : ArrayBar) : ArrayBar :=
  {| value := value b; state := s |}.

Definition clear_state (s : BarState) (b : ArrayBar) : ArrayBar :=
  if decide (state b = s) then with_state st_default b else b.

Definition at_index (f : ArrayBar → ArrayBar) (i : Z) (bs : list ArrayBar)
    : list ArrayBar :=
  match bs !! Z.to_nat i with
  | Some b => <[Z.to_nat i := f b]> bs
  | None => bs
  end.

Definition step_bars (bs : list ArrayBar) (ev : Animation) : list ArrayBar :=
  match ev with
  | a_compare i j =>
      at_index (with_state st_comparing) j
        (at_index (with_state st_comparing) i bs)
  | a_swap i j =>
      match bs !! Z.to_nat i, bs !! Z.to_nat j with
      | Some x, Some y => <[Z.to_nat j := x]> (<[Z.to_nat i := y]> bs)
      | _, _ => bs
      end
  | a_reset i j =>
      at_index (clear_state st_comparing) j
        (at_index (clear_state st_comparing) i bs)
  | a_sorted i => at_index (with_state st_sorted) i bs
  | a_pivot i => at_index (with_state st_pivot) i bs
  | a_reset_pivot i => at_index (clear_state st_pivot) i bs
  | a_overwrite i v =>
      <[Z.to_nat i := {| value := v; state := st_comparing |}]> bs
  end.

(** The same on the values alone. *)
Definition step_values (vs : list Z) (ev : Animation) : list Z :=
  match ev with
  | a_swap i j =>
      match vs !! Z.to_nat i, vs !! Z.to_nat j with
      | Some x, Some y => <[Z.to_nat j := x]> (<[Z.to_nat i := y]> vs)
      | _, _ => vs
      end
  | a_overwrite i v => <[Z.to_nat i := v]> vs
  | _ => vs
  end.

Lemma length_at_index f i bs : length (at_index f i bs) = length bs.
Proof. unfold at_index. destruct (bs !! _); by rewrite ?length_insert. Qed.

Lemma length_step_bars bs ev : length (step_bars bs ev) = length bs.
Proof.
  destruct ev as [i j|i j|i j|i|i|i|i v]; simpl;
    rewrite ?length_at_index, ?length_insert; try done.
  destruct (bs !! Z.to_nat i), (bs !! Z.to_nat j);
    by rewrite ?length_insert.
Qed.

Lemma length_foldl_step_bars evs bs :
  length (foldl step_bars bs evs) = length bs.
Proof.
  revert bs. induction evs as [|ev evs IH]; intros bs; [done|].
  simpl. by rewrite IH, length_step_bars.
Qed.

Lemma vget_bars bs i b :
  0 ≤ i → bs !! Z.to_nat i = Some b → vget (bar <$> bs) i = bar b.
Proof.
  intros Hi Hb. unfold vget. rewrite decide_True by done.
  by rewrite list_lookup_fmap, Hb.
Qed.

Lemma vset_bars bs i b :
  0 ≤ i < Z.of_nat (length bs) →
  vset (bar <$> bs) i (bar b) = bar <$> <[Z.to_nat i := b]> bs.
Proof.
  intros Hi. unfold vset. rewrite decide_False by lia.
  rewrite length_fmap, decide_True by lia. by rewrite list_fmap_insert.
Qed.

Lemma set_state_at bs i s :
  0 ≤ i < Z.of_nat (length bs) →
  vset (bar <$> bs) i (set_state (vget (bar <$> bs) i) s)
  = bar <$> at_index (with_state s) i bs.
Proof.
  intros Hi. unfold at_index.
  destruct (lookup_lt_is_Some_2 bs (Z.to_nat i)) as [b Hb]; [lia|].
  rewrite Hb, (vget_bars _ _ b) by (done || lia). simpl.
  by apply vset_bars.
Qed.

Lemma clear_state_at bs i s :
  0 ≤ i < Z.of_nat (length bs) →
  (st ← slot_state (vget (bar <$> bs) i);
   if decide (st = s)
   then Some (vset (bar <$> bs) i
                (set_state (vget (bar <$> bs) i) st_default))
   else Some (bar <$> bs))
  = Some (bar <$> at_index (clear_state s) i bs).
Proof.
  intros Hi. rewrite set_state_at by done. unfold at_index.
  destruct (lookup_lt_is_Some_2 bs (Z.to_nat i)) as [b Hb]; [lia|].
  rewrite Hb, (vget_bars _ _ b) by (done || lia). simpl.
  unfold clear_state. case_decide; [done|].
  by rewrite list_insert_id.
Qed.

Lemma applyAnimation_bars bs ev :
  in_range (Z.of_nat (length bs)) ev →
  applyAnimation (bar <$> bs) ev = Some (bar <$> step_bars bs ev).
Proof.
  unfold in_range.
  destruct ev as [i j|i j|i j|i|i|i|i v]; simpl; intros Hin;
    repeat (apply Forall_cons in Hin as [? Hin]).
  - rewrite set_state_at by done.
    by rewrite set_state_at by (by rewrite length_at_index).
  - destruct (lookup_lt_is_Some_2 bs (Z.to_nat i)) as [x Hx]; [lia|].
    destruct (lookup_lt_is_Some_2 bs (Z.to_nat j)) as [y Hy]; [lia|].
    rewrite Hx, Hy, (vget_bars bs i x), (vget_bars bs j y) by (done || lia).
    rewrite vset_bars by done.
    by rewrite vset_bars by (by rewrite length_insert).
  - unfold reset_one. rewrite clear_state_at by done. simpl.
    by rewrite clear_state_at by (by rewrite length_at_index).
  - by rewrite set_state_at by done.
  - by rewrite set_state_at by done.
  - by rewrite clear_state_at by done.
  - by rewrite vset_bars by done.
Qed.

Lemma replay_bars evs bs :
  Forall (in_range (Z.of_nat (length bs))) evs →
  replay evs (bar <$> bs) = Some (bar <$> foldl step_bars bs evs).
Proof.
  induction evs as [|ev evs IH] using rev_ind; intros Hin; [done|].
  apply Forall_app in Hin as [Hevs Hev].
  apply (proj1 (Forall_singleton _ _)) in Hev.
  rewrite replay_snoc, IH by done. simpl. rewrite foldl_snoc.
  apply applyAnimation_bars. by rewrite length_foldl_step_bars.
Qed.

(** *** Values *)

Lemma fmap_at_index f i bs :
  (∀ b, value (f b) = value b) →
  value <$> at_index f i bs = value <$> bs.
Proof.
  intros Hf. unfold at_index. destruct (bs !! _) as [b|] eqn:Hb; [|done].
  rewrite list_fmap_insert, Hf. apply list_insert_id.
  by rewrite list_lookup_fmap, Hb.
Qed.

Lemma value_clear_state s b : value (clear_state s b) = value b.
Proof. unfold clear_state. by case_decide. Qed.

Lemma step_bars_values bs ev :
  value <$> step_bars bs ev = step_values (value <$> bs) ev.
Proof.
  destruct ev as [i j|i j|i j|i|i|i|i v]; simpl;
    rewrite ?fmap_at_index, ?list_fmap_insert;
    try done; try apply value_clear_state.
  rewrite !list_lookup_fmap.
  destruct (bs !! Z.to_nat i), (bs !! Z.to_nat j); simpl;
    by rewrite ?list_fmap_insert.
Qed.

Lemma foldl_step_bars_values evs bs :
  value <$> foldl step_bars bs evs = foldl step_values (value <$> bs) evs.
Proof.
  revert bs. induction evs as [|ev evs IH]; intros bs; [done|].
  simpl. by rewrite IH, step_bars_values.
Qed.

Lemma foldl_step_values_moves evs vs :
  foldl step_values vs (filter (λ ev, moves_value ev = true) evs)
  = foldl step_values vs evs.
Proof.
  revert vs. induction evs as [|ev evs IH]; intros vs; [done|].
  rewrite filter_cons. case_decide as Hm.
  - simpl. apply IH.
  - simpl. rewrite IH. by destruct ev.
Qed.

(** A recording whose events are all in range replays in full to bars
    with the values the recorder's copy ends with. *)
Lemma replay_values a0 r :
  Forall (in_range (Z.of_nat (length a0))) (anims r) → tracks a0 r →
  replay (anims r) (visual a0)
    = Some (bar <$> foldl step_bars a0 (anims r)) ∧
  value <$> foldl step_bars a0 (anims r) = value <$> arr r.
Proof.
  intros Hin (vis & Hvis & Hv). split; [by apply replay_bars|].
  unfold replay_moves, visual in Hvis. rewrite replay_bars in Hvis.
  2: { apply Forall_forall. intros ev [_ Hev]%list_elem_of_filter.
       by eapply Forall_forall in Hin. }
  injection Hvis as <-. unfold vals, values in Hv.
  rewrite <- !list_fmap_compose in Hv.
  rewrite foldl_step_bars_values, <- foldl_step_values_moves,
    <- foldl_step_bars_values.
  apply (inj (fmap Some)). by rewrite <- !list_fmap_compose.
Qed.

(** *** States *)

Lemma lookup_at_index f i bs (p : nat) :
  at_index f i bs !! p
  = if decide (p = Z.to_nat i) then f <$> bs !! p else bs !! p.
Proof.
  unfold at_index. destruct (bs !! Z.to_nat i) as [b|] eqn:Hb.
  - case_decide as Hp.
    + subst. rewrite list_lookup_insert_eq by (by eapply lookup_lt_Some).
      by rewrite Hb.
    + by rewrite list_lookup_insert_ne.
  - case_decide; [|done]. subst. by rewrite Hb.
Qed.

(** An event changes no slot past its indices. *)
Lemma step_bars_above m bs ev (p : nat) :
  in_range m ev → m ≤ Z.of_nat p → step_bars bs ev !! p = bs !! p.
Proof.
  unfold in_range.
  destruct ev as [i j|i j|i j|i|i|i|i v]; simpl; intros Hin Hp;
    repeat (apply Forall_cons in Hin as [? Hin]);
    rewrite ?lookup_at_index; repeat case_decide; try lia; try done.
  - destruct (bs !! Z.to_nat i), (bs !! Z.to_nat j); try done.
    by rewrite !list_lookup_insert_ne by lia.
  - by rewrite list_lookup_insert_ne by lia.
Qed.

(** The bars from [m] on show as sorted. *)
Definition done_from (m : Z) (bs : list ArrayBar) : Prop :=
  ∀ (p : nat) b, m ≤ Z.of_nat p → bs !! p = Some b → state b = st_sorted.

(** The bars below [m] show as sorted. *)
Definition done_below (m : Z) (bs : list ArrayBar) : Prop :=
  ∀ (p : nat) b, Z.of_nat p < m → bs !! p = Some b → state b = st_sorted.

Lemma done_from_step m bs ev :
  in_range m ev → done_from m bs → done_from m (step_bars bs ev).
Proof.
  intros Hin Hd p b Hp. rewrite (step_bars_above m) by done. by apply Hd.
Qed.

Lemma done_from_sorted m bs :
  done_from m bs → done_from (m - 1) (step_bars bs (a_sorted (m - 1))).
Proof.
  intros Hd p b Hp. simpl. rewrite lookup_at_index. case_decide.
  - destruct (bs !! p); [|done]. simpl. by intros [= <-].
  - apply Hd. lia.
Qed.

Lemma done_below_sorted m bs :
  0 ≤ m → done_below m bs → done_below (m + 1) (step_bars bs (a_sorted m)).
Proof.
  intros Hm Hd p b Hp. simpl. rewrite lookup_at_index. case_decide.
  - destruct (bs !! p); [|done]. simpl. by intros [= <-].
  - apply Hd. lia.
Qed.

Lemma in_range_mono m n ev : m ≤ n → in_range m ev → in_range n ev.
Proof.
  intros Hmn Hev. unfold in_range in *.
  eapply Forall_impl; [done|]. intros i Hi. simpl in Hi. lia.
Qed.

Lemma in_range_1 n i f :
  indices (f i) = [i] → 0 ≤ i < n → in_range n (f i).
Proof.
  intros Hf Hi. unfold in_range. rewrite Hf.
  apply Forall_cons. split; [done|]. apply Forall_nil_2.
Qed.

Lemma in_range_2 n i j f :
  indices (f i j) = [i; j] → 0 ≤ i < n → 0 ≤ j < n → in_range n (f i j).
Proof.
  intros Hf Hi Hj. unfold in_range. rewrite Hf.
  repeat (apply Forall_cons; split; [done|]). apply Forall_nil_2.
Qed.

(** *** Bubble sort: pass [i] leaves the last [i] bars alone *)

Definition bubble_pass (a0 : list ArrayBar) (n i : Z) (r : Rec) : Prop :=
  Forall (in_range n) (anims r) ∧
  done_from (n - i) (foldl step_bars a0 (anims r)).

Lemma bubble_pass_push a0 n i r ev :
  0 ≤ i → in_range (n - i) ev →
  bubble_pass a0 n i r → bubble_pass a0 n i (push ev r).
Proof.
  intros Hi Hev [Hin Hd]. split; simpl.
  - apply Forall_app. split; [done|]. apply Forall_singleton.
    apply (in_range_mono (n - i)); [lia|done].
  - rewrite foldl_snoc. by apply done_from_step.
Qed.

Lemma bubble_inner_pass a0 n i j r r' :
  0 ≤ i → 0 ≤ j < n - i - 1 → bubble_inner j r = Some r' →
  bubble_pass a0 n i r → bubble_pass a0 n i r'.
Proof.
  intros Hi Hj Hrun HJ. unfold bubble_inner in Hrun. simpl in Hrun.
  destruct (Js.get (arr r) j) as [x|]; [|done].
  destruct (Js.get (arr r) (j + 1)) as [y|]; [|done]. simpl in Hrun.
  assert (∀ f, indices (f j (j + 1)) = [j; j + 1] →
               in_range (n - i) (f j (j + 1))) as Hev.
  { intros f Hf. apply in_range_2; [done|lia..]. }
  case_decide; simpl in Hrun.
  - destruct (Js.swap (arr r) j (j + 1)) as [a|]; [|done].
    simplify_eq/=.
    apply (bubble_pass_push a0 n i
             (with_arr a (push (a_swap j (j + 1))
                            (push (a_compare j (j + 1)) r))));
      [done|by apply (Hev a_reset)|].
    apply (bubble_pass_push a0 n i (push (a_compare j (j + 1)) r));
      [done|by apply (Hev a_swap)|].
    apply bubble_pass_push; [done|by apply (Hev a_compare)|done].
  - simplify_eq/=.
    apply (bubble_pass_push a0 n i (push (a_compare j (j + 1)) r));
      [done|by apply (Hev a_reset)|].
    apply bubble_pass_push; [done|by apply (Hev a_compare)|done].
Qed.

Lemma bubble_outer_pass a0 n i r r' :
  0 ≤ i < n → bubble_outer n i r = Some r' →
  bubble_pass a0 n i r → bubble_pass a0 n (i + 1) r'.
Proof.
  intros Hi Hrun HJ. unfold bubble_outer in Hrun.
  destruct (for_range 0 _ bubble_inner r) as [u|] eqn:Hin; [|done].
  simplify_eq/=.
  apply (for_count_keeps (λ _, bubble_pass a0 n i)) in Hin; [|..|done].
  2: { intros j t t' Hj. apply bubble_inner_pass; lia. }
  destruct Hin as [Hin Hd]. split; simpl.
  - apply Forall_app. split; [done|]. apply Forall_singleton.
    apply (in_range_1 n _ a_sorted); [done|lia].
  - rewrite foldl_snoc.
    replace (n - (i + 1)) with (n - i - 1) by lia.
    by apply done_from_sorted.
Qed.

Lemma bubbleSort_pass a0 r :
  bubbleSort a0 = Some r →
  Forall (in_range (Z.of_nat (length a0))) (anims r) ∧
  Forall (λ b, state b = st_sorted) (foldl step_bars a0 (anims r)).
Proof.
  unfold bubbleSort. set (n := Z.of_nat (length a0)). intros Hrun.
  apply (for_count_keeps (bubble_pass a0 n)) in Hrun.
  - destruct Hrun as [Hin Hd]. split; [done|].
    apply Forall_lookup. intros p b. apply Hd. lia.
  - intros i t t' Hi. apply bubble_outer_pass. lia.
  - split; [by apply Forall_nil|]. intros p b Hp Hb.
    apply lookup_lt_Some in Hb. simpl in Hb. lia.
Qed.

(** *** Quick sort and insertion sort record indices of the array only *)

Definition recorded (n : Z) (r : Rec) : Prop :=
  Forall (in_range n) (anims r).

Lemma recorded_push n r ev :
  in_range n ev → recorded n r → recorded n (push ev r).
Proof.
  intros Hev Hr. unfold recorded. simpl. apply Forall_app.
  split; [done|]. by apply Forall_singleton.
Qed.

Lemma recorded_with_arr n a r : recorded n r → recorded n (with_arr a r).
Proof. done. Qed.

Lemma partition_body_recorded n low high pivot j s s' :
  0 ≤ low → high < n → low ≤ j < high →
  partition_body high pivot j s = Some s' →
  low - 1 ≤ s.2 < j ∧ recorded n s.1 →
  low - 1 ≤ s'.2 < j + 1 ∧ recorded n s'.1.
Proof.
  destruct s as [r i]. intros Hlow Hhigh Hj Hrun [Hi Hr].
  unfold partition_body in Hrun. simpl in *.
  destruct (Js.get (arr r) j) as [x|]; [|done]. simpl in Hrun.
  assert (recorded n (push (a_compare j high) r)) as Hr1.
  { apply recorded_push; [|done]. apply in_range_2; [done|lia..]. }
  case_decide; simpl in Hrun.
  - destruct (Js.swap (arr r) (i + 1) j) as [a|]; [|done].
    simplify_eq/=. split; [lia|].
    apply recorded_push; [apply in_range_2; [done|lia..]|].
    apply recorded_with_arr.
    apply recorded_push; [apply in_range_2; [done|lia..]|done].
  - simplify_eq/=. split; [lia|].
    apply recorded_push; [apply in_range_2; [done|lia..]|done].
Qed.

Lemma partition_recorded n r low high r' p :
  0 ≤ low → low < high → high < n →
  partition r low high = Some (r', p) →
  recorded n r → low ≤ p ≤ high ∧ recorded n r'.
Proof.
  intros Hlow Hlt Hhigh Hrun Hr. unfold partition in Hrun.
  destruct (Js.get (arr r) high) as [x|]; [|done]. simpl in Hrun.
  destruct (for_range low high _ _) as [[r1 i]|] eqn:Hloop; [|done].
  simpl in Hrun.
  destruct (Js.swap (arr r1) (i + 1) high) as [a|]; [|done].
  simplify_eq/=.
  apply (for_count_keeps
           (λ j (s : Rec * Z), low - 1 ≤ s.2 < j ∧ recorded n s.1))
    in Hloop.
  - destruct Hloop as [Hi Hr1]. simpl in *. split; [lia|].
    apply recorded_push; [apply (in_range_1 n _ a_reset_pivot); [done|lia]|].
    apply recorded_push; [apply (in_range_1 n _ a_sorted); [done|lia]|].
    apply recorded_with_arr.
    apply recorded_push; [apply in_range_2; [done|lia..]|done].
  - intros j t t' Hj. apply (partition_body_recorded n low); lia.
  - simpl. split; [lia|].
    apply recorded_push; [apply (in_range_1 n _ a_pivot); [done|lia]|done].
Qed.

Lemma quickSortHelper_recorded n fuel r low high r' :
  0 ≤ low → high < n → quickSortHelper fuel r low high = Some r' →
  recorded n r → recorded n r'.
Proof.
  revert r low high r'.
  induction fuel as [|fuel IH]; intros r low high r' Hlow Hhigh Hrun Hr;
    [done|].
  simpl in Hrun. case_decide.
  - destruct (partition r low high) as [[r1 p]|] eqn:Hp; [|done].
    simpl in Hrun.
    destruct (quickSortHelper fuel r1 low (p - 1)) as [r2|] eqn:H2; [|done].
    simpl in Hrun.
    apply (partition_recorded n) in Hp as [Hp Hr1]; [|done..].
    apply IH in H2; [|lia|lia|done]. apply IH in Hrun; [done|lia|lia|done].
  - case_decide; simplify_eq; [|done].
    apply recorded_push; [|done].
    apply (in_range_1 n _ a_sorted); [done|lia].
Qed.

(** The closing loop of quick sort marks every bar. *)
Lemma mark_sorted_recorded a0 n r r' :
  for_range 0 n mark_sorted r = Some r' → recorded n r →
  recorded n r' ∧ done_below n (foldl step_bars a0 (anims r')).
Proof.
  intros Hrun Hr. unfold for_range in Hrun.
  apply (for_count_keeps
           (λ i t, recorded n t
                   ∧ done_below i (foldl step_bars a0 (anims t))))
    in Hrun.
  - destruct Hrun as [Hr' Hd]. split; [done|].
    intros p b Hp. apply Hd. lia.
  - intros i t t' Hi Hb [Ht Hd]. unfold mark_sorted in Hb.
    simplify_eq/=. split.
    + apply recorded_push; [|done].
      apply (in_range_1 n _ a_sorted); [done|lia].
    + rewrite foldl_snoc. apply done_below_sorted; [lia|done].
  - split; [done|]. intros p b Hp. lia.
Qed.

Lemma quickSort_recorded a0 r :
  quickSort a0 = Some r →
  recorded (Z.of_nat (length a0)) r ∧
  Forall (λ b, state b = st_sorted) (foldl step_bars a0 (anims r)).
Proof.
  unfold quickSort. intros Hrun.
  destruct (quickSortHelper _ _ _ _) as [r1|] eqn:Hq; [|done].
  simpl in Hrun.
  apply (quickSortHelper_recorded (Z.of_nat (length a0))) in Hq;
    [|lia|lia|by apply Forall_nil].
  apply (mark_sorted_recorded a0) in Hrun as [Hr Hd]; [|done].
  split; [done|]. apply Forall_lookup. intros p b Hb. apply (Hd p); [|done].
  apply lookup_lt_Some in Hb. rewrite length_foldl_step_bars in Hb. lia.
Qed.

Lemma insertion_cond_true key s :
  insertion_cond key s = Some true → 0 ≤ s.2.
Proof.
  destruct s as [r j]. unfold insertion_cond. simpl.
  case_decide; [lia|done].
Qed.

Lemma insertion_shift_recorded n i s s' :
  i < n → 0 ≤ s.2 → insertion_shift i s = Some s' →
  s.2 < i ∧ recorded n s.1 → s'.2 < i ∧ recorded n s'.1.
Proof.
  destruct s as [r j]. intros Hi Hj0 Hrun [Hj Hr].
  unfold insertion_shift in Hrun. simpl in *.
  destruct (Js.get (arr r) j) as [x|]; [|done]. simpl in Hrun.
  destruct (Js.set (arr r) (j + 1) x) as [a|]; [|done].
  simplify_eq/=. split; [lia|].
  assert (recorded n (with_arr a (push (a_swap j (j + 1)) r))) as Hr1.
  { apply recorded_with_arr.
    apply recorded_push; [apply in_range_2; [done|lia..]|done]. }
  case_decide; [|done].
  apply recorded_push; [apply in_range_2; [done|lia..]|done].
Qed.

Lemma insertion_outer_recorded n i r r' :
  1 ≤ i < n → insertion_outer i r = Some r' →
  recorded n r → recorded n r'.
Proof.
  intros Hi Hrun Hr. unfold insertion_outer in Hrun.
  destruct (Js.get (arr r) i) as [x|]; [|done].
  cbn [mbind option_bind] in Hrun.
  destruct (while _ _ _ _) as [[r1 j]|] eqn:Hloop; [|done].
  cbn [mbind option_bind] in Hrun.
  destruct (Js.set (arr r1) (j + 1) _) as [a|] eqn:Ha; [|done].
  cbn [mbind option_bind] in Hrun. injection Hrun as <-.
  apply set_inv in Ha as [Hj1 _].
  apply (while_keeps (λ s : Rec * Z, s.2 < i ∧ recorded n s.1)) in Hloop
    as [[Hj Hr1] _].
  - simpl in *.
    apply recorded_push; [apply (in_range_1 n _ a_sorted); [done|lia]|].
    apply recorded_push; [apply in_range_2; [done|lia..]|].
    by apply recorded_with_arr.
  - intros t t' Hc%insertion_cond_true.
    apply insertion_shift_recorded; [lia|done].
  - simpl. split; [lia|].
    apply recorded_push; [apply in_range_2; [done|lia..]|done].
Qed.

Lemma insertionSort_recorded a0 r :
  a0 ≠ [] → insertionSort a0 = Some r →
  recorded (Z.of_nat (length a0)) r.
Proof.
  intros Hne. unfold insertionSort. set (n := Z.of_nat (length a0)).
  assert (0 < n) by (destruct a0; [done|simpl in n; lia]).
  intros Hrun.
  apply (for_count_keeps (λ _, recorded n)) in Hrun; [done| |].
  - intros i t t' Hi. apply insertion_outer_recorded. lia.
  - apply Forall_singleton. apply (in_range_1 n _ a_sorted); [done|lia].
Qed.

(** X19: on every input the full recording of bubble sort and of quick
    sort, and on every non-empty input that of insertion sort, replays
    without a [TypeError] and leaves every slot a bar; the values of the
    bars are the values of the input in non-decreasing order, and after
    bubble sort and quick sort every bar shows as sorted. *)
Theorem full_replay_sorts (algorithm : SortAlgorithm)
    (array : list ArrayBar) :
  algorithm = BubbleSort ∨ algorithm = QuickSort
  ∨ (algorithm = InsertionSort ∧ array ≠ []) →
  ∃ r bs,
    recorder algorithm array = Some r ∧
    replay (anims r) (visual array) = Some (bar <$> bs) ∧
    value <$> bs ≡ₚ value <$> array ∧
    Sorted Z.le (value <$> bs) ∧
    (algorithm ≠ InsertionSort → Forall (λ b, state b = st_sorted) bs).
Proof.
  intros Halg.
  assert (∃ r, recorder algorithm array = Some r ∧ sorts array r)
    as (r & Hr & Hlen & Htr & Hs).
  { destruct algorithm; simpl.
    - apply bubbleSort_sorts.
    - apply mergeSort_sorts.
    - apply quickSort_sorts.
    - apply insertionSort_sorts. }
  assert (recorded (Z.of_nat (length array)) r ∧
          (algorithm ≠ InsertionSort →
           Forall (λ b, state b = st_sorted)
             (foldl step_bars array (anims r)))) as [Hin Hst].
  { destruct Halg as [->|[->|[-> Hne]]]; simpl in Hr.
    - destruct (bubbleSort_pass array r Hr). by split.
    - destruct (quickSort_recorded array r Hr). by split.
    - split; [by apply insertionSort_recorded|done]. }
  destruct (replay_values array r Hin Htr) as [Hplay Hval].
  exists r, (foldl step_bars array (anims r)).
  split_and!; try done.
  - rewrite Hval. by apply recorder_values in Hr.
  - rewrite Hval. apply sorted_range_Sorted. by rewrite Hlen.
Qed.

Lemma full_replay_sorts_witness :
  ∃ r bs,
    recorder QuickSort (bars [3; 1; 2]) = Some r ∧
    replay (anims r) (visual (bars [3; 1; 2])) = Some (bar <$> bs) ∧
    value <$> bs ≡ₚ value <$> bars [3; 1; 2] ∧
    Sorted Z.le (value <$> bs) ∧
    (QuickSort ≠ InsertionSort → Forall (λ b, state b = st_sorted) bs).
Proof.
  apply (full_replay_sorts QuickSort (bars [3; 1; 2])).
  right. left. reflexivity.
Defined.
End SortingReplay.

(** * Sorting: what a session does with its recording *)

Module SortingRun.
Import Sorting SortingPlayback SortingProofs.
Local Open Scope Z_scope.

Lemma typed_visual a : typed (visual a) = Some a.
Proof.
  unfold typed, visual. induction a as [|b a IH]; [done|].
  cbn [fmap list_fmap mapM]. cbn [fmap list_fmap] in IH.
  by rewrite IH.
Qed.

Lemma recorder_returns algorithm a : ∃ r, recorder algorithm a = Some r.
Proof.
  destruct algorithm; simpl.
  - destruct (bubbleSort_sorts a) as (r & ? & _). by exists r.
  - destruct (mergeSort_sorts a) as (r & ? & _). by exists r.
  - destruct (quickSort_sorts a) as (r & ? & _). by exists r.
  - destruct (insertionSort_sorts a) as (r & ? & _). by exists r.
Qed.

Lemma replay_cons ev evs a :
  replay (ev :: evs) a = applyAnimation a ev ≫= replay evs.
Proof.
  unfold replay. simpl. destruct (applyAnimation a ev) as [a1|]; [done|].
  simpl. induction evs as [|e evs IH]; [done|]. simpl. exact IH.
Qed.

Lemma ticks_S n w : ticks (S n) w = tick w ≫= ticks n.
Proof. reflexivity. Qed.

(** The world after the callback of session [s] ran its completion
    branch. *)
Definition completed (w : World) : Prop :=
  isSorting w = false ∧ isSorted w = true ∧ idle w.

(** A session whose guard is open, pending with its cursor at [i]: one
    interval per remaining event, and one more for the completion. *)
Lemma ticks_session evs speed m :
  ∀ i w h a',
    (i + m)%nat = length evs →
    timeouts w = [(h, {| s_animations := evs; s_i := i;
                         s_isSorting := true;
                         s_animationSpeed := speed |})] →
    frames w = [] →
    replay (drop i evs) (array w) = Some a' →
    ∃ w', ticks (S m) w = Some w' ∧ array w' = a' ∧
          applied w' = applied w ++ drop i evs ∧
          toasts w' = S (toasts w) ∧ completed w'.
Proof.
  induction m as [|m IH]; intros i w h a' Him Ht Hf Hplay.
  - rewrite Nat.add_0_r in Him. subst i.
    rewrite drop_all in *. injection Hplay as <-.
    rewrite ticks_S. unfold tick, fire_timeout. rewrite Ht.
    cbn [mbind option_bind]. unfold fire_frame. rewrite Hf.
    cbn [frames app]. unfold animate. cbn [s_isSorting negb s_i
      s_animations]. rewrite decide_True by done.
    eexists. split; [reflexivity|]. cbn. rewrite app_nil_r.
    by split_and!.
  - destruct (lookup_lt_is_Some_2 evs i) as [ev Hev]; [lia|].
    rewrite (drop_S _ _ _ Hev), replay_cons in Hplay.
    destruct (applyAnimation (array w) ev) as [a1|] eqn:Ha1; [|done].
    change (replay (drop (S i) evs) a1 = Some a') in Hplay.
    rewrite ticks_S. unfold tick, fire_timeout. rewrite Ht.
    cbn [mbind option_bind]. unfold fire_frame. rewrite Hf.
    cbn [frames app]. unfold animate. cbn [s_isSorting negb s_i
      s_animations array]. rewrite decide_False by lia.
    rewrite Hev. cbn [mbind option_bind]. rewrite Ha1.
    cbn [mbind option_bind].
    match goal with
    | |- context [ticks (S m) ?w2] =>
        destruct (IH (S i) w2 (next_handle w2 - 1)%nat a')
          as (w' & Hw' & Harr & Happ & Hto & Hc)
    end; [lia|cbn; f_equal; f_equal; lia|done|done|].
    exists w'. split; [exact Hw'|]. split; [done|].
    split; [|by split].
    rewrite Happ. cbn. by rewrite (drop_S _ _ _ Hev), <- app_assoc.
Qed.

(** X20: the session that the play effect starts has the [isSorting] of
    the render before [setIsSorting(true)] in scope, so its [animate]
    returns at the guard: whatever the algorithm, the speed and the bars
    shown, pressing play sets [isSorting] and nothing else; no event is
    applied, nothing is pending, and no number of intervals completes the
    run. *)
Theorem play_applies_no_event (algorithm : SortAlgorithm) (speed : Z)
    (a : list ArrayBar) (n : nat) :
  ∃ w,
    playEffect algorithm speed true (mounted a) = Some w ∧
    w = set_isSorting true (mounted a) ∧
    playEffect algorithm speed true w = Some w ∧
    ticks n w = Some w ∧
    array w = visual a ∧ applied w = [] ∧ isSorted w = false ∧
    toasts w = 0%nat.
Proof.
  destruct (recorder_returns algorithm a) as [r Hr].
  exists (set_isSorting true (mounted a)). split_and!; try done.
  - apply (playEffect_start algorithm speed a r); try done.
    apply typed_visual.
  - by apply ticks_idle.
Qed.

(** *** Pause and play

    The effect on [isPlaying, isSorting, isSorted] runs when play or pause
    is pressed, and once more when [isSorting] has changed. *)







(** X21: a session whose guard is open applies its event list in order,
    one event at the call and one per interval, and completes in the
    interval after the last: started on a world with nothing pending and
    an event list that replays on the array shown, after as many
    intervals as there are events the array is the replayed one, the
    events applied are those of the list, the run is marked sorted, one
    toast is up and nothing is pending. *)
Theorem open_session_applies_all (speed : Z) (evs : list Animation)
    (w : World) (a' : list Slot) :
  evs ≠ [] → idle w → replay evs (array w) = Some a' →
  ∃ w1 w',
    animateSort true speed evs w = Some w1 ∧
    ticks (length evs) w1 = Some w' ∧
    array w' = a' ∧ applied w' = applied w ++ evs ∧
    toasts w' = S (toasts w) ∧ completed w'.
Proof.
  intros Hne [Ht Hf] Hplay. destruct evs as [|ev evs]; [done|].
  rewrite replay_cons in Hplay.
  destruct (applyAnimation (array w) ev) as [a1|] eqn:Ha1; [|done].
  cbn [mbind option_bind] in Hplay.
  unfold animateSort. rewrite decide_False by done.
  unfold animate. cbn [s_isSorting negb s_i s_animations].
  rewrite decide_False by done. cbn [lookup list_lookup mbind option_bind].
  rewrite Ha1. cbn [mbind option_bind].
  match goal with
  | |- ∃ w1 w', Some ?w2 = Some w1 ∧ _ =>
      exists w2;
      destruct (ticks_session (ev :: evs) (101 - speed) (length evs) 1
                  w2 (next_handle w) a')
        as (w' & Hw' & Harr & Happ & Hto & Hc)
  end; [reflexivity|cbn; by rewrite Ht|done|done|].
  exists w'. split; [reflexivity|]. split; [exact Hw'|].
  split; [done|]. split; [|by split].
  rewrite Happ. cbn. by rewrite <- app_assoc.
Qed.

Lemma open_session_applies_all_witness :
  let evs := [a_compare 0 1; a_swap 0 1; a_reset 0 1; a_sorted 1;
              a_sorted 0] in
  let w := mounted (bars [2; 1]) in
  ∃ w1 w',
    animateSort true 50 evs w = Some w1 ∧
    ticks (length evs) w1 = Some w' ∧
    array w' = [bar {| value := 1; state := st_sorted |};
                bar {| value := 2; state := st_sorted |}] ∧
    applied w' = applied w ++ evs ∧
    toasts w' = S (toasts w) ∧ completed w'.
Proof.
  apply (open_session_applies_all 50
           [a_compare 0 1; a_swap 0 1; a_reset 0 1; a_sorted 1; a_sorted 0]
           (mounted (bars [2; 1]))).
  - discriminate.
  - split; reflexivity.
  - reflexivity.
Defined.
End SortingRun.
